(** * aslam_cv2: gyro-aided feature tracker, linear triangulation and
      non-exclusive matching engine

    A shallow embedding of [GyroTracker::addFrame], [GyroTracker::matchFeatures]
    (src/aslam_cv/src/feature-tracker-gyro.cc), of the two linear
    triangulation routines (include/aslam/triangulation/triangulation.h) and of
    [MatchingEngineNonExclusive::match]
    (include/aslam/matcher/matching-engine-non-exclusive.h), followed by the
    properties established about them.

    Conventions of the embedding.
    - A finite [double] or [float] value is the rational [Q] it denotes; pixel
      coordinates, keypoint scores and bearing vectors are finite.  The scalar
      arithmetic of [feature-tracker-gyro.cc] rounds as IEEE 754 prescribes
      (to nearest, ties to even): [round_to binary64] after an operation on
      [double], [round_to binary32] where a value is stored in a [float].
      Where an operation can overflow or divide by zero its result is a
      [Floating] value, which may be infinite or not a number.  Arithmetic
      carried out inside Eigen and the camera model (matrix-vector products,
      vector norms, the linear systems of the triangulation) is exact.
    - [int] values are [Z].  The conversion of a floating-point value to
      [int] truncates toward zero; outside the range of [int], where C++
      leaves the result undefined, it yields [INT_MIN] as the conversion
      instructions of x86-64 do.  Integer conversions into [int] reduce
      modulo 2^32 ([to_int]).  Container sizes and indices are [nat].
    - [std::sort] is known by its contract: the result is a sorted
      permutation of the input, the order of equivalent elements being left
      open ([StdSort]).  [insertion_sort] is the order libstdc++ produces on
      ranges of at most 16 elements.
    - A failed glog [CHECK] aborts the process: the operation returns
      [Fatal c], where [c] names the check that fired.
    - The camera, the frame container and the tracker constants are declared
      in headers that are not part of the translated sources; they appear as
      records whose fields the translated code reads. *)

From Stdlib Require Import ZArith QArith Qround Lia List Permutation Sorted.
From Stdlib Require Import Lqa Qabs Qpower.
From Stdlib Require Import Strings.Byte.
From stdpp Require Import base list.
Import ListNotations.

Open Scope Z_scope.

(* ===================================================================== *)
(** ** Fatal checks and the error monad                                    *)
(* ===================================================================== *)

(** The glog checks of the translated functions, by the place they guard. *)
Inductive Check : Type :=
  | CHECK_hasKeypointMeasurements      (* addFrame, line 23 *)
  | CHECK_GT_timestamp                 (* addFrame, line 46 *)
  | CHECK_hasDescriptors               (* addFrame, line 49 *)
  | CHECK_EQ_descriptor_rows           (* addFrame, line 50 *)
  | CHECK_EQ_descriptor_cols           (* addFrame, line 51 *)
  | CHECK_GE_bin_index                 (* compute_bin_index, line 77 *)
  | CHECK_LT_bin_index                 (* compute_bin_index, line 78 *)
  | CHECK_LT_match_previous            (* addFrame, line 89 *)
  | CHECK_LT_match_current             (* addFrame, lines 90 and 99 *)
  | CHECK_LT_index_previous_frame      (* addFrame, line 191 *)
  | CHECK_EQ_previous_track_id         (* addFrame, line 193 *)
  | CHECK_LT_descriptor_bits           (* matchFeatures, line 286 *)
  | CHECK_LT_hamming_distance          (* hammingDistance512, line 297 *)
  | CHECK_search_rows                  (* matchFeatures, lines 330-340 *)
  | CHECK_LT_match_distance            (* matchFeatures, lines 379 and 405 *)
  | CHECK_corner_index                 (* matchFeatures, lines 371-372, 397-398 *)
  | CHECK_frame_access                 (* range checks inside the frame accessors *)
  | CHECK_EQ_triangulation_sizes       (* triangulation.h, lines 87, 141, 142 *)
  | CHECK_LT_cam_index.                (* triangulation.h, line 155 *)

Inductive outcome (A : Type) : Type :=
  | Ok (a : A)
  | Fatal (c : Check).
Arguments Ok {A} a.
Arguments Fatal {A} c.

Definition bind {A B : Type} (m : outcome A) (k : A -> outcome B) : outcome B :=
  match m with
  | Ok a => k a
  | Fatal c => Fatal c
  end.

Notation "'do' x <- m ; k" := (bind m (fun x => k))
  (at level 10, x pattern, m at level 100, k at level 200).

(** [CHECK(cond)]: continue when [cond] holds, abort otherwise. *)
Definition check (cond : bool) (c : Check) : outcome unit :=
  if cond then Ok tt else Fatal c.

(** A [for] loop over a vector whose body may abort. *)
Fixpoint for_each {A S : Type} (body : S -> A -> outcome S) (l : list A) (s : S)
  : outcome S :=
  match l with
  | [] => Ok s
  | a :: l' => do s' <- body s a; for_each body l' s'
  end.

(** Reading a frame column through an accessor that range-checks its index. *)
Definition at_index {A : Type} (l : list A) (i : nat) : outcome A :=
  match l !! i with
  | Some a => Ok a
  | None => Fatal CHECK_frame_access
  end.

(* ===================================================================== *)
(** ** Rational helpers                                                    *)
(* ===================================================================== *)

Definition Qltb (a b : Q) : bool :=
  match (a ?= b)%Q with Lt => true | _ => false end.

(* ===================================================================== *)
(** ** Machine numbers                                                     *)
(* ===================================================================== *)

Definition INT_MIN : Z := - 2 ^ 31.
Definition INT_MAX : Z := 2 ^ 31 - 1.

(** Conversion of an integer value to [int]: reduction modulo 2^32 into
    [INT_MIN, INT_MAX]. *)
Definition to_int (z : Z) : Z := (z + 2 ^ 31) mod 2 ^ 32 - 2 ^ 31.

(** Truncation toward zero. *)
Definition truncate (q : Q) : Z := Z.quot (Qnum q) (Zpos (Qden q)).

(** Conversion of a finite [double] or [float] to [int]: truncation toward
    zero, and [INT_MIN] when the truncated value does not fit. *)
Definition double_to_int (q : Q) : Z :=
  let t := truncate q in
  if (INT_MIN <=? t) && (t <=? INT_MAX) then t else INT_MIN.

(** A binary floating-point format: the number of significand bits, the
    exponent of the least positive value and that of the largest binade. *)
Record Format : Type := {
  precision : Z;
  emin : Z;
  emax : Z
}.

Definition binary32 : Format := {| precision := 24; emin := -149; emax := 127 |}.
Definition binary64 : Format := {| precision := 53; emin := -1074; emax := 1023 |}.

(** The exponent [e] with [2^e <= |q| < 2^(e+1)], for [q] other than 0. *)
Definition binade (q : Q) : Z :=
  let e := Z.log2 (Z.abs (Qnum q)) - Z.log2 (Zpos (Qden q)) in
  if Qle_bool (2 ^ e) (Qabs q) then e else e - 1.

(** The nearest integer, the even one of two that are equally near. *)
Definition round_half_even (q : Q) : Z :=
  let n := Qfloor q in
  match (q - inject_Z n ?= 1 # 2)%Q with
  | Lt => n
  | Gt => n + 1
  | Eq => if Z.even n then n else n + 1
  end.

(** The value of the format nearest to [q], ties to even, the exponent not
    bounded above: a multiple of [2^e], where [e] places [precision]
    significand bits at the binade of [q] and is at least [emin]. *)
Definition round_to (f : Format) (q : Q) : Q :=
  if Qeq_bool q 0 then 0%Q
  else
    let e := Z.max (binade q - (precision f - 1)) (emin f) in
    Qred (inject_Z (round_half_even (q / 2 ^ e)) * 2 ^ e).

(** [x + y] and [x - y] on [double].  The sums of the translated code add a
    small constant to a finite value and do not overflow. *)
Definition double_add (x y : Q) : Q := round_to binary64 (x + y).
Definition double_sub (x y : Q) : Q := round_to binary64 (x - y).

(** A floating-point value that may not be finite.  Zero carries no sign:
    the only divisor of the translated code that can be zero is a bucket
    width, which is never negative. *)
Inductive Floating : Type :=
  | Finite (q : Q)
  | Infinite (negative : bool)
  | NaN.

(** The value of the format that stands for the exact result [q]: infinite
    when the rounded value exceeds the largest binade. *)
Definition Floating_of (f : Format) (q : Q) : Floating :=
  let r := round_to f q in
  if Qle_bool (2 ^ (emax f + 1)) (Qabs r) then Infinite (Qltb q 0) else Finite r.

(** [a / b] in the format [f]. *)
Definition Floating_div (f : Format) (a b : Floating) : Floating :=
  match a, b with
  | NaN, _ | _, NaN => NaN
  | Infinite _, Infinite _ => NaN
  | Infinite s, Finite y => Infinite (xorb s (Qltb y 0))
  | Finite _, Infinite _ => Finite 0
  | Finite x, Finite y =>
      if Qeq_bool y 0
      then (if Qeq_bool x 0 then NaN else Infinite (Qltb x 0))
      else Floating_of f (x / y)
  end.

(** Storing a value in a variable of the format [f]. *)
Definition Floating_narrow (f : Format) (a : Floating) : Floating :=
  match a with
  | Finite q => Floating_of f q
  | _ => a
  end.

(** [std::floor]. *)
Definition Floating_floor (a : Floating) : Floating :=
  match a with
  | Finite q => Finite (inject_Z (Qfloor q))
  | _ => a
  end.

(** [static_cast<int>]: an infinite value or a NaN converts like a value out
    of range. *)
Definition Floating_to_int (a : Floating) : Z :=
  match a with
  | Finite q => double_to_int q
  | _ => INT_MIN
  end.

(** [a < b]: false when either side is a NaN. *)
Definition Floating_ltb (a b : Floating) : bool :=
  match a, b with
  | NaN, _ | _, NaN => false
  | Finite x, Finite y => Qltb x y
  | Finite _, Infinite s => negb s
  | Infinite s, Finite _ => s
  | Infinite s, Infinite s' => s && negb s'
  end.

(** [static_cast<float>] of an integer, [float / float], [double / double],
    and the conversion of a [double] to [float]. *)
Definition int_to_float (z : Z) : Floating := Floating_of binary32 (inject_Z z).
Definition float_div (a b : Floating) : Floating := Floating_div binary32 a b.
Definition double_div (a b : Floating) : Floating := Floating_div binary64 a b.
Definition double_to_float (a : Floating) : Floating := Floating_narrow binary32 a.

Definition Pixel : Type := (Q * Q)%type.
Definition px (p : Pixel) : Q := fst p.
Definition py (p : Pixel) : Q := snd p.

(* ===================================================================== *)
(** ** Bit distance kernel ([hammingDistance512], lines 285-299)           *)
(* ===================================================================== *)

Definition byte_val (b : byte) : Z := Z.of_N (Byte.to_N b).

(** [while (val) { ++distance; val &= val - 1; }] on an [unsigned char].
    Every iteration clears the lowest set bit, so eight iterations exhaust
    any byte ([clear_lowest_bits_done]). *)
Fixpoint clear_lowest_bits (fuel : nat) (val distance : Z) : Z * Z :=
  match fuel with
  | O => (val, distance)
  | S fuel' =>
      if val =? 0 then (val, distance)
      else clear_lowest_bits fuel' (Z.land val (val - 1) mod 256) (distance + 1)
  end.

(** One iteration of the byte loop: [val = x[i] ^ y[i]], then the while loop.
    The source reads through raw pointers; a byte past the end of a column
    (undefined there) reads as zero here. *)
Definition hamming_byte (x y : list byte) (distance : Z) (i : nat) : Z :=
  let val := Z.lxor (byte_val (nth i x x00)) (byte_val (nth i y x00)) in
  snd (clear_lowest_bits 8 val distance).

Definition hamming_sum (descriptorSizeBytes : nat) (x y : list byte) : Z :=
  fold_left (hamming_byte x y) (seq 0 descriptorSizeBytes) 0.

(** [descriptorSizeBytes * 8] in [unsigned int] arithmetic. *)
Definition descriptor_bits (descriptorSizeBytes : nat) : Z :=
  (Z.of_nat descriptorSizeBytes * 8) mod 2 ^ 32.

Definition hammingDistance512 (descriptorSizeBytes : nat) (x y : list byte)
  : outcome Z :=
  let distance := hamming_sum descriptorSizeBytes x y in
  do _ <- check (distance <? descriptor_bits descriptorSizeBytes)
                CHECK_LT_hamming_distance;
  Ok distance.

(** The number of set bits of a byte value, bit by bit. *)
Definition popcount8 (v : Z) : Z :=
  fold_right (fun k acc => Z.b2z (Z.testbit v (Z.of_nat k)) + acc) 0 (seq 0 8).

(** The sum over [i] of [popcount (a[i] XOR b[i])]. *)
Fixpoint popcount_xor (a b : list byte) : Z :=
  match a, b with
  | x :: a', y :: b' => popcount8 (Z.lxor (byte_val x) (byte_val y)) + popcount_xor a' b'
  | _, _ => 0
  end.

(** Bytewise complement [~a]. *)
Definition byte_not (b : byte) : byte :=
  match Byte.of_N (N.lxor (Byte.to_N b) 255) with
  | Some c => c
  | None => x00
  end.

(* ===================================================================== *)
(** ** Camera model interface (aslam/cameras/camera.h)                     *)
(* ===================================================================== *)

Definition Bearing : Type := (Q * Q * Q)%type.

(** A 3x3 matrix, row by row. *)
Definition Matrix3 : Type := (Bearing * Bearing * Bearing)%type.

Definition dot3 (r v : Bearing) : Q :=
  let '(r0, r1, r2) := r in
  let '(v0, v1, v2) := v in
  (r0 * v0 + r1 * v1 + r2 * v2)%Q.

Definition mat_vec (m : Matrix3) (v : Bearing) : Bearing :=
  let '(r0, r1, r2) := m in (dot3 r0 v, dot3 r1 v, dot3 r2 v).

Definition identity3 : Matrix3 := ((1, 0, 0), (0, 1, 0), (0, 0, 1))%Q.

(** The status a projection reports next to the pixel it writes. *)
Inductive ProjectionStatus : Type :=
  | KEYPOINT_VISIBLE
  | KEYPOINT_OUTSIDE_IMAGE_BOX
  | POINT_BEHIND_CAMERA
  | PROJECTION_INVALID.

(** What the tracker consumes of a camera: the image size, and the two
    projection functions.  Each writes its result through an out pointer and
    returns a status; the record gives both the status and the value found in
    the out argument after the call. *)
Record Camera : Type := {
  imageWidth : nat;
  imageHeight : nat;
  backProject3 : Pixel -> bool * Bearing;
  project3 : Bearing -> ProjectionStatus * Pixel
}.

(* ===================================================================== *)
(** ** Frame container (aslam/frames/visual-frame.h)                       *)
(* ===================================================================== *)

(** The channels of a frame the tracker touches.  The measurement and the
    descriptor channel may be absent; the descriptor matrix has one column of
    [descriptor_rows] bytes per keypoint. *)
Record VisualFrame : Type := {
  hardware_timestamp : Z;
  keypoint_measurements : option (list Pixel);
  descriptor_size_bytes : nat;
  descriptor_rows : nat;
  descriptors : option (list (list byte));
  keypoint_scores : list Q;
  track_ids : list Z
}.

Definition hasKeypointMeasurements (f : VisualFrame) : bool :=
  match keypoint_measurements f with Some _ => true | None => false end.

Definition hasDescriptors (f : VisualFrame) : bool :=
  match descriptors f with Some _ => true | None => false end.

Definition getKeypointMeasurements (f : VisualFrame) : outcome (list Pixel) :=
  match keypoint_measurements f with
  | Some kps => Ok kps
  | None => Fatal CHECK_frame_access
  end.

Definition getDescriptors (f : VisualFrame) : outcome (list (list byte)) :=
  match descriptors f with
  | Some d => Ok d
  | None => Fatal CHECK_frame_access
  end.

Definition getKeypointMeasurement (f : VisualFrame) (i : nat) : outcome Pixel :=
  do kps <- getKeypointMeasurements f; at_index kps i.

Definition getDescriptor (f : VisualFrame) (i : nat) : outcome (list byte) :=
  do d <- getDescriptors f; at_index d i.

Definition getKeypointScore (f : VisualFrame) (i : nat) : outcome Q :=
  at_index (keypoint_scores f) i.

Definition getTrackId (f : VisualFrame) (i : nat) : outcome Z :=
  at_index (track_ids f) i.

(** [swapTrackIds], seen from the frame: the channel now holds [ids]. *)
Definition swapTrackIds (f : VisualFrame) (ids : list Z) : VisualFrame :=
  {| hardware_timestamp := hardware_timestamp f;
     keypoint_measurements := keypoint_measurements f;
     descriptor_size_bytes := descriptor_size_bytes f;
     descriptor_rows := descriptor_rows f;
     descriptors := descriptors f;
     keypoint_scores := keypoint_scores f;
     track_ids := ids |}.

(* ===================================================================== *)
(** ** Sorting                                                             *)
(* ===================================================================== *)

(** The comparator is a strict weak ordering of the elements of [l]: it is
    asymmetric, and an element that is not below [b] and that [b] is not
    below ranks with [b]. *)
Definition strict_weak_on {A : Type} (lt : A -> A -> bool) (l : list A) : Prop :=
  (forall a b, In a l -> In b l -> lt a b = true -> lt b a = false)
  /\ (forall a b c, In a l -> In b l -> In c l ->
        lt a c = true -> lt a b = true \/ lt b c = true).

(** [std::sort] with a comparator [lt]: the library routine, by its contract.
    On a range that [lt] orders as a strict weak ordering the result is a
    permutation of the range in which no element is below an earlier one;
    the order of equivalent elements is not determined. *)
Class StdSort : Type := {
  std_sort : forall A : Type, (A -> A -> bool) -> list A -> list A;
  std_sort_contract :
    forall (A : Type) (lt : A -> A -> bool) (l : list A),
      strict_weak_on lt l ->
      Permutation (std_sort A lt l) l
      /\ StronglySorted (fun a b => lt b a = false) (std_sort A lt l)
}.
Arguments std_sort {_} {A} lt l.

(** Sorting by insertion: every element is placed before the first element
    that is not below it, so equivalent elements keep their input order.
    libstdc++ sorts a range of at most 16 elements this way. *)
Fixpoint insert_sorted {A : Type} (lt : A -> A -> bool) (a : A) (l : list A)
  : list A :=
  match l with
  | [] => [a]
  | b :: l' => if lt b a then b :: insert_sorted lt a l' else a :: b :: l'
  end.

Definition insertion_sort {A : Type} (lt : A -> A -> bool) (l : list A) : list A :=
  fold_right (insert_sorted lt) [] l.

#[global, refine] Instance insertion_StdSort : StdSort :=
  {| std_sort := @insertion_sort |}.
Proof.
  intros A lt.
  assert (Hperm : forall a l, Permutation (insert_sorted lt a l) (a :: l)).
  { intros a l. induction l as [| b l IH]; simpl; [ reflexivity | ].
    destruct (lt b a); [ | reflexivity ].
    rewrite IH. apply perm_swap. }
  assert (Hsort : forall l, Permutation (insertion_sort lt l) l).
  { induction l as [| a l IH]; simpl; [ reflexivity | ].
    rewrite Hperm. apply perm_skip, IH. }
  intros l Hswo. split; [ apply Hsort | ].
  induction l as [| a l IH]; simpl; [ constructor | ].
  destruct Hswo as [Hasym Htrans].
  assert (IH' : StronglySorted (fun x y => lt y x = false) (insertion_sort lt l)).
  { apply IH. split.
    - intros x y Hx Hy. apply Hasym; right; assumption.
    - intros x y z Hx Hy Hz. apply Htrans; right; assumption. }
  clear IH.
  assert (Hin : forall x, In x (insertion_sort lt l) -> In x l)
    by (intros x; apply Permutation_in, Hsort).
  revert IH' Hin. generalize (insertion_sort lt l) as s.
  induction s as [| b s IHs]; intros Hs Hin; simpl.
  - constructor; constructor.
  - inversion Hs as [| b' s' Hs' Hb ]; subst.
    assert (Hbl : In b l) by (apply Hin; left; reflexivity).
    destruct (lt b a) eqn:E.
    + constructor.
      * apply IHs; [ exact Hs' | intros x Hx; apply Hin; right; exact Hx ].
      * apply Forall_forall. intros x Hx.
        apply list_elem_of_In, (Permutation_in _ (Hperm a s)) in Hx.
        destruct Hx as [<- | Hx].
        -- apply (Hasym b a); [ right; exact Hbl | left; reflexivity | exact E ].
        -- rewrite Forall_forall in Hb. apply Hb, list_elem_of_In, Hx.
    + constructor; [ exact Hs | ].
      constructor; [ exact E | ].
      apply Forall_forall. intros x Hx. apply list_elem_of_In in Hx.
      rewrite Forall_forall in Hb.
      destruct (lt x a) eqn:Ex; [ exfalso | reflexivity ].
      destruct (Htrans x b a) as [H | H].
      * right. apply Hin. right. exact Hx.
      * right. exact Hbl.
      * left. reflexivity.
      * exact Ex.
      * rewrite (Hb x) in H by (apply list_elem_of_In; exact Hx). discriminate.
      * congruence.
Defined.

(* ===================================================================== *)
(** ** Row-indexed keypoint grid (matchFeatures, lines 227-259)            *)
(* ===================================================================== *)

Record KeypointAndIndex : Type := {
  measurement : Pixel;
  index : nat
}.

(** Lines 238-241: the current keypoints paired with their column index. *)
Definition index_keypoints (kps : list Pixel) : list KeypointAndIndex :=
  imap (fun i p => {| measurement := p; index := i |}) kps.

(** The comparator of line 245. *)
Definition less_by_y (lhs rhs : KeypointAndIndex) : bool :=
  Qltb (py (measurement lhs)) (py (measurement rhs)).

Definition sort_by_y {sorting : StdSort} (l : list KeypointAndIndex)
  : list KeypointAndIndex :=
  std_sort less_by_y l.

(** Lines 254-256: [while (v < n && y > kps[v].y) ++v], with [rest] the
    part of the sorted vector from position [v] on. *)
Fixpoint advance_cursor (y : nat) (rest : list KeypointAndIndex) (v : nat) : nat :=
  match rest with
  | k :: rest' =>
      if Qltb (py (measurement k)) (inject_Z (Z.of_nat y))
      then advance_cursor y rest' (S v)
      else v
  | [] => v
  end.

(** Lines 253-258: the loop over the rows [y, y + rows). *)
Fixpoint build_corner_row_LUT (kps : list KeypointAndIndex) (rows y v : nat)
  : list nat :=
  match rows with
  | O => []
  | S rows' =>
      let v' := advance_cursor y (drop v kps) v in
      v' :: build_corner_row_LUT kps rows' (S y) v'
  end.

Definition corner_row_LUT (kps : list KeypointAndIndex) (image_height : nat)
  : list nat :=
  build_corner_row_LUT kps image_height 0 0.

(** Lines 342-352 for one pair of clamped rows [row_lo, row_hi]: the iterator
    range [begin() + LUT[top], begin() + LUT[bottom]) of the sorted vector. *)
Definition lut_at (lut : list nat) (i : Z) : nat := nth (Z.to_nat i) lut 0%nat.

Definition row_range (kps : list KeypointAndIndex) (lut : list nat)
    (row_lo row_hi : Z) : list KeypointAndIndex :=
  let top := Z.min row_lo (Z.of_nat (length lut) - 1) in
  let bottom := Z.min (row_hi + 1) (Z.of_nat (length lut) - 1) in
  let b := lut_at lut top in
  let e := lut_at lut bottom in
  take (e - b) (drop b kps).

(* ===================================================================== *)
(** ** Gyro predictor (matchFeatures, lines 261-282)                       *)
(* ===================================================================== *)

(** Back-project, rotate, re-project.  The statuses returned by
    [backProject3] and [project3] are dropped at lines 272 and 279; only the
    values written to the out arguments are used. *)
Definition predict_keypoint (camera : Camera) (C_current_prev : Matrix3)
    (previous_keypoint : Pixel) : Pixel :=
  let previous_bearing := snd (backProject3 camera previous_keypoint) in
  let bearing_predicted := mat_vec C_current_prev previous_bearing in
  snd (project3 camera bearing_predicted).

(* ===================================================================== *)
(** ** Match search (matchFeatures, lines 301-423)                         *)
(* ===================================================================== *)

Definition min_search_radius : Z := 5.
Definition search_radius : Z := 10.
Definition kMatchingThresholdBits : Z := 120.

(** The lambda of line 318. *)
Definition clamp (lower upper v : Z) : Z := Z.min (Z.max v lower) upper.

(** The locals of the search for one previous keypoint (lines 356-363). *)
Record SearchState : Type := {
  found : bool;
  n_processed_corners : Z;
  it_best : option KeypointAndIndex;
  best_score : Z;
  processed_current_corners : list bool
}.

Definition initial_search_state (current_num_pts : nat) : SearchState :=
  {| found := false;
     n_processed_corners := 0;
     it_best := None;
     best_score := 512 - kMatchingThresholdBits;
     processed_current_corners := replicate current_num_pts false |}.

(** Squared Euclidean distance; [norm() < r] is compared as
    [squared_distance < r * r]. *)
Definition squared_distance (p q : Pixel) : Q :=
  ((px p - px q) * (px p - px q) + (py p - py q) * (py p - py q))%Q.

(** The body of the two search loops (lines 366-386 and 390-412).  They
    differ in the column bounds, in the radius of the distance check, and in
    the large loop first skipping corners marked as processed. *)
Definition search_corner (current_frame : VisualFrame) (current_num_pts : nat)
    (descriptorSizeBytes : nat) (previous_descriptor : list byte)
    (previous_predicted : Pixel) (skip_processed : bool)
    (bound_left bound_right radius : Z)
    (st : SearchState) (it : KeypointAndIndex) : outcome SearchState :=
  if skip_processed && nth (index it) (processed_current_corners st) false
  then Ok st
  else if Qltb (px (measurement it)) (inject_Z bound_left)
          || Qltb (inject_Z bound_right) (px (measurement it))
  then Ok st
  else
    do _ <- check (index it <? current_num_pts)%nat CHECK_corner_index;
    do current_descriptor <- getDescriptor current_frame (index it);
    do distance <- hammingDistance512 descriptorSizeBytes previous_descriptor
                                      current_descriptor;
    let current_score := 512 - distance in
    do st1 <-
      (if best_score st <? current_score then
         do _ <- check (Qltb (squared_distance previous_predicted (measurement it))
                             (inject_Z ((radius * 2) * (radius * 2))))
                       CHECK_LT_match_distance;
         Ok {| found := true;
               n_processed_corners := n_processed_corners st;
               it_best := Some it;
               best_score := current_score;
               processed_current_corners := processed_current_corners st |}
       else Ok st);
    Ok {| found := found st1;
          n_processed_corners := n_processed_corners st1 + 1;
          it_best := it_best st1;
          best_score := best_score st1;
          processed_current_corners :=
            <[index it := true]> (processed_current_corners st1) |}.

(** The column bounds of lines 313-316 for one radius: the difference and the
    sum are formed on [double] and converted to [int]. *)
Definition bound_left (previous_predicted : Pixel) (radius : Z) : Z :=
  double_to_int (double_sub (px previous_predicted) (inject_Z radius)).

Definition bound_right (previous_predicted : Pixel) (radius : Z) : Z :=
  double_to_int (double_add (px previous_predicted) (inject_Z radius)).

(** The row bounds of lines 324-340 for one radius.  [clamp] takes three
    [int]: the upper limit [image_height - 1] is formed on [uint32_t] and
    converted, the row is formed on [double] and converted.  Both ends are
    then checked. *)
Definition search_rows (image_height : nat) (previous_predicted : Pixel)
    (radius : Z) : outcome (Z * Z) :=
  let H := Z.of_nat image_height in
  let upper := to_int (H - 1) in
  let row := double_add (py previous_predicted) (1 # 2) in
  let lo := clamp 0 upper (double_to_int (double_sub row (inject_Z radius))) in
  let hi := clamp 0 upper (double_to_int (double_add row (inject_Z radius))) in
  do _ <- check ((lo <=? hi) && (0 <=? lo) && (0 <=? hi) && (lo <? H) && (hi <? H))
                CHECK_search_rows;
  Ok (lo, hi).

(** Lines 307-423 for the previous keypoint [i]: the index of the matched
    current keypoint, if any. *)
Definition search_previous_keypoint (image_height : nat)
    (current_frame previous_frame : VisualFrame)
    (current_keypoints_by_y : list KeypointAndIndex) (lut : list nat)
    (descriptorSizeBytes : nat) (current_num_pts : nat)
    (previous_predicted : Pixel) (i : nat) : outcome (option nat) :=
  do previous_descriptor <- getDescriptor previous_frame i;
  let bound_left_nearest := bound_left previous_predicted min_search_radius in
  let bound_right_nearest := bound_right previous_predicted min_search_radius in
  let bound_left_near := bound_left previous_predicted search_radius in
  let bound_right_near := bound_right previous_predicted search_radius in
  do idxnearest <- search_rows image_height previous_predicted min_search_radius;
  do idxnear <- search_rows image_height previous_predicted search_radius;
  let nearest_corners :=
    row_range current_keypoints_by_y lut (fst idxnearest) (snd idxnearest) in
  let near_corners :=
    row_range current_keypoints_by_y lut (fst idxnear) (snd idxnear) in
  (* First search small window. *)
  do st <- for_each
             (search_corner current_frame current_num_pts descriptorSizeBytes
                previous_descriptor previous_predicted false
                bound_left_nearest bound_right_nearest min_search_radius)
             nearest_corners (initial_search_state current_num_pts);
  (* If no match in small window, increase window and search again. *)
  do st <- (if found st then Ok st
            else for_each
                   (search_corner current_frame current_num_pts descriptorSizeBytes
                      previous_descriptor previous_predicted true
                      bound_left_near bound_right_near search_radius)
                   near_corners st);
  if found st
  then Ok (option_map index (it_best st))
  else Ok None.

(** The loop of lines 307-423: one search per previous keypoint, the matches
    appended in the order of the previous index. *)
Definition match_loop_body (image_height : nat)
    (current_frame previous_frame : VisualFrame)
    (current_keypoints_by_y : list KeypointAndIndex) (lut : list nat)
    (descriptorSizeBytes : nat) (current_num_pts : nat)
    (C2_previous_image_points : list Pixel)
    (matches_prev_current : list (nat * nat)) (i : nat)
  : outcome (list (nat * nat)) :=
  do previous_predicted <- at_index C2_previous_image_points i;
  do best <- search_previous_keypoint image_height current_frame previous_frame
               current_keypoints_by_y lut descriptorSizeBytes current_num_pts
               previous_predicted i;
  match best with
  | Some j => Ok (matches_prev_current ++ [(i, j)])
  | None => Ok matches_prev_current
  end.

Definition matchFeatures {sorting : StdSort} (camera : Camera) (C_current_prev : Matrix3)
    (current_frame previous_frame : VisualFrame) : outcome (list (nat * nat)) :=
  do current_kps <- getKeypointMeasurements current_frame;
  let current_num_pts := length current_kps in
  let current_keypoints_by_y := sort_by_y (index_keypoints current_kps) in
  let image_height := imageHeight camera in
  let lut := corner_row_LUT current_keypoints_by_y image_height in
  do previous_kps <- getKeypointMeasurements previous_frame;
  let prev_num_pts := length previous_kps in
  let C2_previous_image_points :=
    map (predict_keypoint camera C_current_prev) previous_kps in
  let descriptorSizeBytes := descriptor_size_bytes current_frame in
  do _ <- check (descriptor_bits descriptorSizeBytes <? 512) CHECK_LT_descriptor_bits;
  for_each
    (match_loop_body image_height current_frame previous_frame
       current_keypoints_by_y lut descriptorSizeBytes current_num_pts
       C2_previous_image_points)
    (seq 0 prev_num_pts) [].

(* ===================================================================== *)
(** ** Tracker configuration and state (aslam/tracker/feature-tracker-gyro.h) *)
(* ===================================================================== *)

(** The compile-time constants read by [addFrame]. *)
Record Config : Type := {
  kNumberOfTrackingBuckets : nat;
  kNumberOfKeyPointsUseUnconditional : nat;
  kNumberOfKeyPointsUseStrong : nat;
  kKeypointScoreThresholdUnconditional : Q;
  kKeypointScoreThresholdStrong : Q
}.

(** The members of [GyroTracker].  [previous_frame_ptr_] shares the frame
    with the caller; the embedding keeps the frame as a value and hands the
    frame modified in place back as part of the result of [addFrame]. *)
Record GyroTracker : Type := {
  camera_ : Camera;
  previous_frame_ptr_ : option VisualFrame;
  previous_track_lengths_ : list nat;
  current_track_lengths_ : list nat;
  current_track_id_ : Z
}.

(* ===================================================================== *)
(** ** Bucketed admission (addFrame, lines 60-180)                          *)
(* ===================================================================== *)

(** Lines 66-67: [static_cast<float>(size) / kNumberOfTrackingBuckets], a
    division on [float]. *)
Definition bucket_width (size buckets_per_side : nat) : Floating :=
  float_div (int_to_float (Z.of_nat size)) (int_to_float (Z.of_nat buckets_per_side)).

(** Lines 71-72 and 74-75 for one coordinate: the quotient is formed on
    [double], stored in a [float], rounded down and converted to [int]. *)
Definition bin_coordinate (coordinate : Q) (width : Floating) : Z :=
  let bin := double_to_float (double_div (Finite coordinate) width) in
  Floating_to_int (Floating_floor bin).

(** The lambda of lines 69-80.  [bin_index] is an [int]; [buckets.size()] is
    the square of the number of buckets per side. *)
Definition compute_bin_index (cfg : Config) (camera : Camera) (kp : Pixel)
  : outcome Z :=
  let B := Z.of_nat (kNumberOfTrackingBuckets cfg) in
  let bucket_width_x := bucket_width (imageWidth camera) (kNumberOfTrackingBuckets cfg) in
  let bucket_width_y := bucket_width (imageHeight camera) (kNumberOfTrackingBuckets cfg) in
  let bin_index := to_int (bin_coordinate (py kp) bucket_width_y * B
                           + bin_coordinate (px kp) bucket_width_x) in
  do _ <- check (0 <=? bin_index) CHECK_GE_bin_index;
  do _ <- check (bin_index <? to_int (B * B)) CHECK_LT_bin_index;
  Ok bin_index.

(** The locals that admission updates: the output track ids and lengths, the
    bucket vectors, and the accepted matches ([candidates_new_tracks]). *)
Record AdmissionState : Type := {
  current_track_ids : list Z;
  current_track_lengths : list nat;
  buckets : list (list Z);
  candidates_new_tracks : list (nat * nat)
}.

(** [buckets[bin_index].push_back(0)]. *)
Definition push_back_bucket (bs : list (list Z)) (bin_index : Z) : list (list Z) :=
  alter (fun b => b ++ [0]) (Z.to_nat bin_index) bs.

(** [buckets[bin_index].push_back(0); candidates_new_tracks.push_back(m)]. *)
Definition accept_match (st : AdmissionState) (bin_index : Z) (m : nat * nat)
  : AdmissionState :=
  {| current_track_ids := current_track_ids st;
     current_track_lengths := current_track_lengths st;
     buckets := push_back_bucket (buckets st) bin_index;
     candidates_new_tracks := candidates_new_tracks st ++ [m] |}.

Definition bucket_occupancy (bs : list (list Z)) (bin_index : Z) : nat :=
  length (nth (Z.to_nat bin_index) bs []).

(** Lines 88-106, one match [(i, j)]: copy id and length, and accept the
    match when the copied id is that of an established track.
    [previous_track_lengths_] is co-indexed with the previous keypoints; an
    index past its end (undefined in the source) reads as zero here. *)
Definition continue_track (cfg : Config) (camera : Camera)
    (current_frame previous_frame : VisualFrame)
    (previous_track_lengths : list nat) (current_num_pts : nat)
    (st : AdmissionState) (m : nat * nat) : outcome AdmissionState :=
  let i := fst m in
  let j := snd m in
  do _ <- check (i <? length (track_ids previous_frame))%nat CHECK_LT_match_previous;
  do _ <- check (j <? length (current_track_ids st))%nat CHECK_LT_match_current;
  do previous_id <- getTrackId previous_frame i;
  let st1 :=
    {| current_track_ids := <[j := previous_id]> (current_track_ids st);
       current_track_lengths :=
         <[j := (nth i previous_track_lengths 0 + 1)%nat]> (current_track_lengths st);
       buckets := buckets st;
       candidates_new_tracks := candidates_new_tracks st |} in
  (* Check if this is a continued track. *)
  if 0 <=? nth j (current_track_ids st1) (-1) then
    do _ <- check (j <? current_num_pts)%nat CHECK_LT_match_current;
    do keypoint <- getKeypointMeasurement current_frame j;
    do bin_index <- compute_bin_index cfg camera keypoint;
    Ok (accept_match st1 bin_index m)
  else Ok st1.

(** Lines 110-121: the matches whose current keypoint is still untracked,
    as pairs of the match position and the keypoint score.  The pair is a
    [std::pair<int, float>]: the score is stored as a [float]. *)
Definition collect_candidate (current_frame : VisualFrame) (ids : list Z)
    (candidates : list (nat * Floating)) (im : nat * (nat * nat))
  : outcome (list (nat * Floating)) :=
  let index_in_curr := snd (snd im) in
  do keypoint_score <- getKeypointScore current_frame index_in_curr;
  if nth index_in_curr ids (-1) <? 0
  then Ok (candidates ++ [(fst im, double_to_float (Finite keypoint_score))])
  else Ok candidates.

Definition with_positions {A : Type} (l : list A) : list (nat * A) :=
  combine (seq 0 (length l)) l.

(** The comparator of line 125. *)
Definition less_by_score (lhs rhs : nat * Floating) : bool :=
  Floating_ltb (snd lhs) (snd rhs).

Definition new_track_candidates {sorting : StdSort} (current_frame : VisualFrame)
    (ids : list Z) (matches_prev_current : list (nat * nat))
  : outcome (list (nat * Floating)) :=
  do candidates <- for_each (collect_candidate current_frame ids)
                     (with_positions matches_prev_current) [];
  Ok (std_sort less_by_score candidates).

(** Lines 132-149: the body of the unconditional loop. *)
Definition admit_unconditional (cfg : Config) (camera : Camera)
    (current_frame : VisualFrame) (matches_prev_current : list (nat * nat))
    (st : AdmissionState) (candidate : nat * Floating) : outcome AdmissionState :=
  let match_idx := fst candidate in
  let m := nth match_idx matches_prev_current (0, 0)%nat in
  let index_in_curr := snd m in
  do keypoint <- getKeypointMeasurement current_frame index_in_curr;
  do keypoint_score <- getKeypointScore current_frame index_in_curr;
  if Qltb keypoint_score (kKeypointScoreThresholdUnconditional cfg) then Ok st
  else
    do bin_index <- compute_bin_index cfg camera keypoint;
    Ok (accept_match st bin_index m).

(** Line 154. *)
Definition num_pts_per_bucket (cfg : Config) (bs : list (list Z)) : nat :=
  (kNumberOfKeyPointsUseStrong cfg / length bs)%nat.

(** Lines 157-179: the body of the strong loop. *)
Definition admit_strong (cfg : Config) (camera : Camera)
    (current_frame : VisualFrame) (matches_prev_current : list (nat * nat))
    (st : AdmissionState) (candidate : nat * Floating) : outcome AdmissionState :=
  let match_idx := fst candidate in
  let m := nth match_idx matches_prev_current (0, 0)%nat in
  let index_in_curr := snd m in
  do keypoint <- getKeypointMeasurement current_frame index_in_curr;
  do keypoint_score <- getKeypointScore current_frame index_in_curr;
  if Qltb keypoint_score (kKeypointScoreThresholdStrong cfg) then Ok st
  else
    do bin_index <- compute_bin_index cfg camera keypoint;
    if (bucket_occupancy (buckets st) bin_index
          <? num_pts_per_bucket cfg (buckets st))%nat
    then Ok (accept_match st bin_index m)
    else Ok st.

(** The candidates visited by the loop of line 130 and by that of line 155. *)
Definition unconditional_slice (cfg : Config) (candidates : list (nat * Floating))
  : list (nat * Floating) :=
  take (Nat.min (kNumberOfKeyPointsUseUnconditional cfg) (length candidates))
       candidates.

Definition strong_slice (cfg : Config) (candidates : list (nat * Floating))
  : list (nat * Floating) :=
  drop (Nat.min (kNumberOfKeyPointsUseUnconditional cfg) (length candidates))
       (take (Nat.min (kNumberOfKeyPointsUseStrong cfg) (length candidates))
             candidates).

(* ===================================================================== *)
(** ** Track-id ledger (addFrame, lines 182-204)                            *)
(* ===================================================================== *)

Record LedgerState : Type := {
  ledger_current_ids : list Z;
  ledger_previous_ids : list Z;
  ledger_lengths : list nat;
  ledger_track_id : Z
}.

(** The body of the loop of line 187.  [++current_track_id_] is taken without
    overflow. *)
Definition assign_new_id (num_keypoints_in_previous_frame : nat)
    (st : LedgerState) (m : nat * nat) : outcome LedgerState :=
  let index_current_frame := snd m in
  if nth index_current_frame (ledger_current_ids st) 0 =? -1 then
    let index_previous_frame := fst m in
    do _ <- check (index_previous_frame <? num_keypoints_in_previous_frame)%nat
                  CHECK_LT_index_previous_frame;
    let previous_track_id := nth index_previous_frame (ledger_previous_ids st) 0 in
    do _ <- check (previous_track_id =? -1) CHECK_EQ_previous_track_id;
    let new_track_id := ledger_track_id st + 1 in
    Ok {| ledger_current_ids :=
            <[index_current_frame := new_track_id]> (ledger_current_ids st);
          ledger_previous_ids :=
            <[index_previous_frame := new_track_id]> (ledger_previous_ids st);
          ledger_lengths := <[index_current_frame := 2%nat]> (ledger_lengths st);
          ledger_track_id := new_track_id |}
  else Ok st.

(* ===================================================================== *)
(** ** [GyroTracker::addFrame] (lines 20-218)                               *)
(* ===================================================================== *)

(** Lines 28-38: keep the frame as the previous one, all keypoints untracked. *)
Definition initialize_tracker (self : GyroTracker) (current_frame : VisualFrame)
    (num_keypoints : nat) : GyroTracker :=
  {| camera_ := camera_ self;
     previous_frame_ptr_ :=
       Some (swapTrackIds current_frame (replicate num_keypoints (-1)));
     previous_track_lengths_ := resize num_keypoints 0%nat (previous_track_lengths_ self);
     current_track_lengths_ := current_track_lengths_ self;
     current_track_id_ := current_track_id_ self |}.

(** Lines 40-211, with a previous frame present and a non-empty current one. *)
Definition track_frame {sorting : StdSort} (cfg : Config) (self : GyroTracker)
    (current_frame previous_frame : VisualFrame) (C_current_prev : Matrix3)
  : outcome (GyroTracker * option VisualFrame) :=
  let camera := camera_ self in
  do _ <- check (hardware_timestamp previous_frame <? hardware_timestamp current_frame)
                CHECK_GT_timestamp;
  do _ <- check (hasDescriptors current_frame) CHECK_hasDescriptors;
  do _ <- check (descriptor_rows current_frame =? descriptor_size_bytes current_frame)%nat
                CHECK_EQ_descriptor_rows;
  do current_kps <- getKeypointMeasurements current_frame;
  do current_descriptors <- getDescriptors current_frame;
  do _ <- check (length current_kps =? length current_descriptors)%nat
                CHECK_EQ_descriptor_cols;
  (* Match the keypoints in the current frame to the previous one. *)
  do matches_prev_current <-
    matchFeatures camera C_current_prev current_frame previous_frame;
  (* Prepare buckets. *)
  let B := kNumberOfTrackingBuckets cfg in
  let current_num_pts := length current_kps in
  let st0 :=
    {| current_track_ids := replicate current_num_pts (-1);
       current_track_lengths := replicate current_num_pts 0%nat;
       buckets := replicate (B * B) [];
       candidates_new_tracks := [] |} in
  do st1 <- for_each
              (continue_track cfg camera current_frame previous_frame
                 (previous_track_lengths_ self) current_num_pts)
              matches_prev_current st0;
  do candidates <- new_track_candidates current_frame (current_track_ids st1)
                     matches_prev_current;
  (* Unconditionally push the first very strong points. *)
  do st2 <- for_each
              (admit_unconditional cfg camera current_frame matches_prev_current)
              (unconditional_slice cfg candidates) st1;
  (* Now push as many strong points as there is space in the buckets. *)
  do st3 <- for_each
              (admit_strong cfg camera current_frame matches_prev_current)
              (strong_slice cfg candidates) st2;
  (* Assign new Id's to all candidates that are not continued tracks. *)
  do led <- for_each
              (assign_new_id (length (track_ids previous_frame)))
              (candidates_new_tracks st3)
              {| ledger_current_ids := current_track_ids st3;
                 ledger_previous_ids := track_ids previous_frame;
                 ledger_lengths := current_track_lengths st3;
                 ledger_track_id := current_track_id_ self |};
  (* Save the output track-ids; keep the track lengths and the frame. *)
  Ok ({| camera_ := camera;
         previous_frame_ptr_ :=
           Some (swapTrackIds current_frame (ledger_current_ids led));
         previous_track_lengths_ := ledger_lengths led;
         current_track_lengths_ := previous_track_lengths_ self;
         current_track_id_ := ledger_track_id led |},
      Some (swapTrackIds previous_frame (ledger_previous_ids led))).

(** [addFrame]: the tracker after the call, whose [previous_frame_ptr_] is the
    current frame as the call left it, and the frame that was the previous one
    on entry, with its track-id channel as modified in place. *)
Definition addFrame {sorting : StdSort} (cfg : Config) (self : GyroTracker)
    (current_frame : VisualFrame) (C_current_prev : Matrix3)
  : outcome (GyroTracker * option VisualFrame) :=
  do _ <- check (hasKeypointMeasurements current_frame) CHECK_hasKeypointMeasurements;
  do current_kps <- getKeypointMeasurements current_frame;
  match previous_frame_ptr_ self with
  | None => Ok (initialize_tracker self current_frame (length current_kps), None)
  | Some previous_frame =>
      if (length current_kps =? 0)%nat
      then Ok (initialize_tracker self current_frame (length current_kps),
               Some previous_frame)
      else track_frame cfg self current_frame previous_frame C_current_prev
  end.

(* ===================================================================== *)
(** ** Linear triangulation (aslam/triangulation/triangulation.h)          *)
(* ===================================================================== *)

Module Triangulation.

Inductive Status : Type :=
  | SUCCESSFUL
  | TOO_FEW_MEASUREMENTS
  | UNOBSERVABLE
  | UNINITIALIZED.

Record TriangulationResult : Type := { status_ : Status }.

Definition wasTriangulationSuccessful (r : TriangulationResult) : bool :=
  match status_ r with SUCCESSFUL => true | _ => false end.

Definition Vector3 : Type := Bearing.

(** [aslam::Transformation]: a rotation matrix and a position. *)
Record Transformation : Type := {
  getRotationMatrix : Matrix3;
  getPosition : Vector3
}.

Definition add3 (a b : Vector3) : Vector3 :=
  let '(a0, a1, a2) := a in
  let '(b0, b1, b2) := b in (a0 + b0, a1 + b1, a2 + b2)%Q.

Definition neg3 (a : Vector3) : Vector3 :=
  let '(a0, a1, a2) := a in (- a0, - a1, - a2)%Q.

(** [T * p]. *)
Definition transform (T : Transformation) (p : Vector3) : Vector3 :=
  add3 (mat_vec (getRotationMatrix T) p) (getPosition T).

Definition to_list3 (a : Vector3) : list Q := let '(a0, a1, a2) := a in [a0; a1; a2].

Definition head3 (l : list Q) : Vector3 := (nth 0 l 0%Q, nth 1 l 0%Q, nth 2 l 0%Q).

(** Row [3 * i + r] of [A]: the identity in the first three columns and the
    entry [w_r] in column [3 + i]. *)
Definition system_row (cols i r : nat) (w_r : Q) : list Q :=
  <[(3 + i)%nat := w_r]> (<[r := 1%Q]> (replicate cols 0%Q)).

(** The three rows that iteration [i] of the fill loop writes into [A]. *)
Definition system_block (cols i : nat) (w : Vector3) : list (list Q) :=
  let '(w0, w1, w2) := w in
  [system_row cols i 0 w0; system_row cols i 1 w1; system_row cols i 2 w2].

Definition size_t_sub (a b : nat) : Z := (Z.of_nat a - Z.of_nat b) mod 2 ^ 64.

Section Solver.

(** Eigen's [ColPivHouseholderQR]: the rank it reports for a matrix under a
    threshold, and the solution it returns for a right-hand side. *)
Variable qr_rank : Q -> list (list Q) -> nat.
Variable qr_solve : Q -> list (list Q) -> list Q -> list Q.

Definition kRankLossTolerance : Q := 1 # 1000.

(** Lines 110-119 and 166-175, shared by the two routines: [true] and the
    solved point when the system has full rank, [false] and the point as it
    was otherwise. *)
Definition solve_system (n : nat) (A : list (list Q)) (b : list Q)
    (G_point : Vector3) : bool * Vector3 :=
  let rank := qr_rank kRankLossTolerance A in
  if size_t_sub rank n <? 3 then (false, G_point)
  else (true, head3 (qr_solve kRankLossTolerance A b)).

(** Lines 82-120.  The second component is the content of [*G_point] after
    the call. *)
Definition linearTriangulateFromNViews
    (measurements_normalized : list Pixel) (T_G_B : list Transformation)
    (T_B_C : Transformation) (G_point : Vector3)
  : outcome (TriangulationResult * Vector3) :=
  do _ <- check (length measurements_normalized =? length T_G_B)%nat
                CHECK_EQ_triangulation_sizes;
  let n := length measurements_normalized in
  if (n <? 2)%nat then Ok ({| status_ := TOO_FEW_MEASUREMENTS |}, G_point)
  else
    let cols := (3 + n)%nat in
    let R_B_C := getRotationMatrix T_B_C in
    let fill := imap (fun i mt =>
        let v : Vector3 := (px (fst mt), py (fst mt), 1%Q) in
        let R_G_B := getRotationMatrix (snd mt) in
        let p_G_B := getPosition (snd mt) in
        (system_block cols i (neg3 (mat_vec R_G_B (mat_vec R_B_C v))),
         to_list3 (add3 p_G_B (mat_vec R_G_B (getPosition T_B_C)))))
      (combine measurements_normalized T_G_B) in
    let A := concat (map fst fill) in
    let b := concat (map snd fill) in
    match solve_system n A b G_point with
    | (false, G) => Ok ({| status_ := UNOBSERVABLE |}, G)
    | (true, G) => Ok ({| status_ := SUCCESSFUL |}, G)
    end.

(** One iteration of the fill loop of lines 153-164. *)
Definition fill_multi_cam (cols : nat) (T_B_C : list Transformation)
    (Ab : list (list Q) * list Q)
    (row : nat * (Pixel * Z * Transformation))
  : outcome (list (list Q) * list Q) :=
  let i := fst row in
  let '(meas, cam_index, T_G_B_i) := snd row in
  (* [int] against [size_t]: the index is compared as an unsigned value. *)
  do _ <- check (cam_index mod 2 ^ 64 <? Z.of_nat (length T_B_C)) CHECK_LT_cam_index;
  match T_B_C !! Z.to_nat cam_index with
  | None => Fatal CHECK_LT_cam_index
  | Some T_B_C_cam =>
      let v : Vector3 := (px meas, py meas, 1%Q) in
      let t_B_C := getPosition T_B_C_cam in
      let w := neg3 (mat_vec (getRotationMatrix T_G_B_i)
                             (mat_vec (getRotationMatrix T_B_C_cam) v)) in
      Ok (fst Ab ++ system_block cols i w,
          snd Ab ++ to_list3 (transform T_G_B_i t_B_C))
  end.

(** Lines 134-176.  The routine returns a [bool]. *)
Definition linearTriangulateFromNViewsMultiCam
    (measurements_normalized : list Pixel) (measurement_camera_indices : list Z)
    (T_G_B : list Transformation) (T_B_C : list Transformation)
    (G_point : Vector3) : outcome (bool * Vector3) :=
  do _ <- check (length measurements_normalized =? length T_G_B)%nat
                CHECK_EQ_triangulation_sizes;
  do _ <- check (length measurements_normalized =? length measurement_camera_indices)%nat
                CHECK_EQ_triangulation_sizes;
  let n := length measurements_normalized in
  if (n <? 2)%nat then Ok (false, G_point)
  else
    let cols := (3 + n)%nat in
    do Ab <- for_each (fill_multi_cam cols T_B_C)
               (with_positions
                  (combine (combine measurements_normalized measurement_camera_indices)
                           T_G_B))
               ([], []);
    Ok (solve_system n (fst Ab) (snd Ab) G_point).

End Solver.

(** What a caller holds after a call: a status tag, or a bare flag. *)
Inductive Returned : Type :=
  | ReturnedStatus (s : Status)
  | ReturnedFlag (b : bool).

Definition returned_single (r : outcome (TriangulationResult * Vector3))
  : outcome Returned :=
  do r' <- r; Ok (ReturnedStatus (status_ (fst r'))).

Definition returned_multi (r : outcome (bool * Vector3)) : outcome Returned :=
  do r' <- r; Ok (ReturnedFlag (fst r')).

End Triangulation.

(** The constructor (lines 16-18): no previous frame yet, the two length
    vectors empty.  The id counter [current_track_id_] is a member of the base
    class [FeatureTracker], which is not among the translated sources; it
    starts at [first_track_id]. *)
Definition GyroTracker_new (input_camera : Camera) (first_track_id : Z) : GyroTracker :=
  {| camera_ := input_camera;
     previous_frame_ptr_ := None;
     previous_track_lengths_ := [];
     current_track_lengths_ := [];
     current_track_id_ := first_track_id |}.

(* ===================================================================== *)
(** ** Non-exclusive matching engine
       (aslam/matcher/matching-engine-non-exclusive.h)                     *)
(* ===================================================================== *)

Module MatchingEngineNonExclusive.

(** What [match] reads of a candidate apple, and the match it emits
    ([index_apple], [index_banana], [score]). *)
Record Candidate : Type := {
  index_apple : Z;
  score : Q
}.

Definition Candidates : Type := list Candidate.

Record Match : Type := {
  match_index_apple : Z;
  match_index_banana : nat;
  match_score : Q
}.

(** The template parameter [MatchingProblem]: the three member functions the
    engine calls.  They are not [const]; each returns the problem as the call
    left it. *)
Class MatchingProblem (P : Type) : Type := {
  doSetup : P -> bool * P;
  numBananas : P -> nat;
  getAppleCandidatesForBanana : P -> nat -> Candidates * P
}.

(** [it->score] for the iterator at position [it]. *)
Definition score_at (candidates : Candidates) (it : nat) : Q :=
  match candidates !! it with
  | Some c => score c
  | None => 0%Q
  end.

(** Line 50: [if (it->score > best_candidate->score) best_candidate = it]. *)
Definition scan_candidate (candidates : Candidates) (best_candidate it : nat) : nat :=
  if Qltb (score_at candidates best_candidate) (score_at candidates it)
  then it
  else best_candidate.

(** Lines 48-51: the iterator [best_candidate] after the scan, as a position;
    [candidates.begin()] is position 0 and [candidates.end()] is
    [length candidates]. *)
Definition best_candidate_of (candidates : Candidates) : nat :=
  fold_left (scan_candidate candidates) (seq 0 (length candidates)) 0%nat.

Section Engine.

Context {P : Type} `{MatchingProblem P}.

(** Lines 43-56: the body of the loop over the bananas. *)
Definition match_banana (s : P * list Match) (index_banana : nat) : P * list Match :=
  let '(candidates, problem) := getAppleCandidatesForBanana (fst s) index_banana in
  let best_candidate := best_candidate_of candidates in
  match candidates !! best_candidate with
  | Some best =>
      (problem,
       snd s ++ [ {| match_index_apple := index_apple best;
                     match_index_banana := index_banana;
                     match_score := score best |} ])
  | None => (problem, snd s)
  end.

(** Lines 33-63.  The result is the returned flag, the problem and the content
    of [*matches] after the call. *)
Definition match_ (problem : P) (matches : list Match) : bool * P * list Match :=
  let cleared : list Match := [] in
  let '(ok, problem) := doSetup problem in
  if ok then
    let num_bananas := numBananas problem in
    let '(problem, matches) :=
      fold_left match_banana (seq 0 num_bananas) (problem, cleared) in
    (true, problem, matches)
  else (false, problem, cleared).

End Engine.

End MatchingEngineNonExclusive.

(* ===================================================================== *)
(** * Vocabulary of the statements                                         *)
(* ===================================================================== *)

(** The while loop of the kernel on the byte value [n]: after eight iterations
    [val] is 0 and the set bits of [n] have been counted. *)
Definition byte_loop_ok (n : nat) : bool :=
  let v := Z.of_nat n in
  let r := clear_lowest_bits 8 v 0 in
  (fst r =? 0) && (snd r =? popcount8 v).

(** The sort key of the keypoint grid: the y coordinate. *)
Definition row_coordinate (k : KeypointAndIndex) : Q := py (measurement k).

(** The keypoint lies in the image row [y]: [y <= y-coordinate < y + 1]. *)
Definition in_row (y : nat) (k : KeypointAndIndex) : bool :=
  negb (Qltb (row_coordinate k) (inject_Z (Z.of_nat y)))
  && Qltb (row_coordinate k) (inject_Z (Z.of_nat (S y))).

(** The keypoint lies above the image row [y], or in that row or below it. *)
Definition above_row (y : nat) (k : KeypointAndIndex) : Prop :=
  (row_coordinate k < inject_Z (Z.of_nat y))%Q.

Definition from_row (y : nat) (k : KeypointAndIndex) : Prop :=
  (inject_Z (Z.of_nat y) <= row_coordinate k)%Q.

(** [v] splits the sorted vector [kps] at row [y]: the keypoints before
    position [v] lie above the row, those from [v] on lie in it or below. *)
Definition cursor_at (kps : list KeypointAndIndex) (y v : nat) : Prop :=
  (v <= length kps)%nat
  /\ Forall (above_row y) (take v kps)
  /\ Forall (from_row y) (drop v kps).

(** A camera that writes the same values as [camera] but reports the given
    statuses. *)
Definition with_statuses (camera : Camera) (back_ok : Pixel -> bool)
    (status : Bearing -> ProjectionStatus) : Camera :=
  {| imageWidth := imageWidth camera;
     imageHeight := imageHeight camera;
     backProject3 := fun p => (back_ok p, snd (backProject3 camera p));
     project3 := fun b => (status b, snd (project3 camera b)) |}.

(** The match a candidate stands for. *)
Definition candidate_match (matches_prev_current : list (nat * nat))
    (candidate : nat * Floating) : nat * nat :=
  nth (fst candidate) matches_prev_current (0, 0)%nat.

(** The bucket of the current keypoint of a candidate. *)
Definition candidate_bin (cfg : Config) (camera : Camera)
    (current_frame : VisualFrame) (matches_prev_current : list (nat * nat))
    (candidate : nat * Floating) : outcome Z :=
  do keypoint <- getKeypointMeasurement current_frame
                   (snd (candidate_match matches_prev_current candidate));
  compute_bin_index cfg camera keypoint.

(** The score, a [double], of the current keypoint of a candidate. *)
Definition candidate_score (current_frame : VisualFrame)
    (matches_prev_current : list (nat * nat)) (candidate : nat * Floating) : Q :=
  nth (snd (candidate_match matches_prev_current candidate))
      (keypoint_scores current_frame) 0%Q.

(** The candidates whose keypoint score is not below [threshold], in order. *)
Definition clearing (threshold : Q) (current_frame : VisualFrame)
    (matches_prev_current : list (nat * nat)) (candidates : list (nat * Floating))
  : list (nat * Floating) :=
  List.filter
    (fun c => negb (Qltb (candidate_score current_frame matches_prev_current c)
                         threshold))
    candidates.

(** The sort key recorded for a keypoint score: the score as a [float]. *)
Definition score_key (keypoint_score : Q) : Floating :=
  double_to_float (Finite keypoint_score).

(** [c] stands for a match of [matches_prev_current] whose current keypoint
    carries a negative track id, and its key is the score of that keypoint
    stored as a [float]. *)
Definition is_candidate (current_frame : VisualFrame) (ids : list Z)
    (matches_prev_current : list (nat * nat)) (c : nat * Floating) : Prop :=
  exists (m : nat * nat) (keypoint_score : Q),
    matches_prev_current !! fst c = Some m
    /\ nth (snd m) ids (-1) < 0
    /\ getKeypointScore current_frame (snd m) = Ok keypoint_score
    /\ snd c = score_key keypoint_score.

(** A candidate [c] recorded for the positioned match [im]. *)
Definition records (current_frame : VisualFrame) (c : nat * Floating)
    (im : nat * (nat * nat)) : Prop :=
  fst c = fst im
  /\ exists keypoint_score : Q,
       getKeypointScore current_frame (snd (snd im)) = Ok keypoint_score
       /\ snd c = score_key keypoint_score.

(** The key [a] is not above the key [b]. *)
Definition key_le (a b : Floating) : Prop := Floating_ltb b a = false.

(** The number of entries of [bins] that name the bucket [b]. *)
Definition admissions_into (b : Z) (bins : list Z) : nat :=
  length (List.filter (fun b' => (b' =? b)) bins).

(** A match that the loop of lines 88-106 puts into the bucket [b]: its
    previous keypoint carries an established track id and its current
    keypoint lies in [b]. *)
Definition continues_into (cfg : Config) (camera : Camera)
    (current_frame previous_frame : VisualFrame) (b : Z) (m : nat * nat) : bool :=
  match getTrackId previous_frame (fst m),
        (do keypoint <- getKeypointMeasurement current_frame (snd m);
         compute_bin_index cfg camera keypoint) with
  | Ok previous_id, Ok bin_index => (0 <=? previous_id) && (bin_index =? b)
  | _, _ => false
  end.

(** The number of continued tracks in the bucket [b]. *)
Definition continued_count_in (cfg : Config) (camera : Camera)
    (current_frame previous_frame : VisualFrame) (matches : list (nat * nat))
    (b : Z) : nat :=
  length (List.filter (continues_into cfg camera current_frame previous_frame b)
                      matches).

(** The matches that the admission stages (lines 82-180) have accepted when
    the ledger loop starts: [candidates_new_tracks] after the loop over the
    matches, the unconditional loop and the strong loop. *)
Definition accepted_matches {sorting : StdSort} (cfg : Config) (self : GyroTracker)
    (current_frame previous_frame : VisualFrame)
    (matches_prev_current : list (nat * nat)) : outcome (list (nat * nat)) :=
  do current_kps <- getKeypointMeasurements current_frame;
  let camera := camera_ self in
  let B := kNumberOfTrackingBuckets cfg in
  let current_num_pts := length current_kps in
  let st0 :=
    {| current_track_ids := replicate current_num_pts (-1);
       current_track_lengths := replicate current_num_pts 0%nat;
       buckets := replicate (B * B) [];
       candidates_new_tracks := [] |} in
  do st1 <- for_each
              (continue_track cfg camera current_frame previous_frame
                 (previous_track_lengths_ self) current_num_pts)
              matches_prev_current st0;
  do candidates <- new_track_candidates current_frame (current_track_ids st1)
                     matches_prev_current;
  do st2 <- for_each
              (admit_unconditional cfg camera current_frame matches_prev_current)
              (unconditional_slice cfg candidates) st1;
  do st3 <- for_each
              (admit_strong cfg camera current_frame matches_prev_current)
              (strong_slice cfg candidates) st2;
  Ok (candidates_new_tracks st3).

(** Every accepted match is one of [matches_prev_current]. *)
Definition accepted_among (matches_prev_current : list (nat * nat))
    (st : AdmissionState) : Prop :=
  Forall (fun m => In m matches_prev_current) (candidates_new_tracks st).

(** The positions, in the match vector, of the matches whose current keypoint
    carries a negative track id. *)
Definition untracked_positions (ids : list Z)
    (matches_prev_current : list (nat * nat)) : list nat :=
  map fst (List.filter (fun im => nth (snd (snd im)) ids (-1) <? 0)
                       (with_positions matches_prev_current)).

(** The previous index of the last match that targets the current keypoint [j]. *)
Fixpoint last_match_to (matches_prev_current : list (nat * nat)) (j : nat)
  : option nat :=
  match matches_prev_current with
  | [] => None
  | m :: rest =>
      match last_match_to rest j with
      | Some i => Some i
      | None => if (snd m =? j)%nat then Some (fst m) else None
      end
  end.

(** The column test of the two search loops: [bound_left <= x <= bound_right]. *)
Definition in_columns (bound_left bound_right : Z) (k : KeypointAndIndex) : bool :=
  negb (Qltb (px (measurement k)) (inject_Z bound_left)
        || Qltb (inject_Z bound_right) (px (measurement k))).

(** A loop compares the corner [k]: it is not skipped as processed and it
    passes the column test. *)
Definition visits (skip_processed : bool) (bound_left bound_right : Z)
    (processed : list bool) (k : KeypointAndIndex) : bool :=
  negb (skip_processed && nth (index k) processed false)
  && in_columns bound_left bound_right k.

(** The similarity score of a current keypoint against a previous descriptor:
    512 minus the distance computed by the byte loop of the kernel. *)
Definition kernel_score (current_frame : VisualFrame) (descriptorSizeBytes : nat)
    (previous_descriptor : list byte) (k : KeypointAndIndex) : Z :=
  match getDescriptor current_frame (index k) with
  | Ok d => 512 - hamming_sum descriptorSizeBytes previous_descriptor d
  | Fatal _ => 0
  end.

(** [j] is the index of the first corner of [l] that attains the best score of
    [l], and that score clears the floor [512 - 120]. *)
Definition first_best (score : KeypointAndIndex -> Z) (l : list KeypointAndIndex)
    (j : nat) : Prop :=
  exists l1 k l2,
    l = l1 ++ k :: l2
    /\ index k = j
    /\ 512 - kMatchingThresholdBits < score k
    /\ Forall (fun k' => score k' <= score k) l
    /\ Forall (fun k' => score k' < score k) l1.

(** No corner of [l] clears the floor. *)
Definition none_clears (score : KeypointAndIndex -> Z) (l : list KeypointAndIndex)
  : Prop :=
  Forall (fun k => score k <= 512 - kMatchingThresholdBits) l.

(** [processed_current_corners[it->index] = true]. *)
Definition mark (processed : list bool) (k : KeypointAndIndex) : list bool :=
  <[index k := true]> processed.

(** The corner [k] was compared in the loop over [small]: a corner with its
    index is among them. *)
Definition compared_before (small : list KeypointAndIndex) (k : KeypointAndIndex)
  : bool :=
  existsb (fun k' => (index k' =? index k)%nat) small.

(** The corners compared by the small loop, and those compared by the large
    loop when it runs: in the row range of the radius, inside its column
    bounds and, for the large loop, not compared before. *)
Definition small_window (sorted : list KeypointAndIndex) (lut : list nat)
    (previous_predicted : Pixel) (idxnearest : Z * Z) : list KeypointAndIndex :=
  List.filter
    (in_columns (bound_left previous_predicted min_search_radius)
                (bound_right previous_predicted min_search_radius))
    (row_range sorted lut (fst idxnearest) (snd idxnearest)).

Definition large_window (sorted : list KeypointAndIndex) (lut : list nat)
    (previous_predicted : Pixel) (idxnearest idxnear : Z * Z)
  : list KeypointAndIndex :=
  List.filter
    (fun k =>
       negb (compared_before (small_window sorted lut previous_predicted idxnearest) k)
       && in_columns (bound_left previous_predicted search_radius)
                     (bound_right previous_predicted search_radius) k)
    (row_range sorted lut (fst idxnear) (snd idxnear)).

(** What the result of the search for one previous keypoint says of the two
    windows. *)
Definition search_outcome (score : KeypointAndIndex -> Z)
    (small large : list KeypointAndIndex) (r : option nat) : Prop :=
  match r with
  | Some j =>
      first_best score small j
      \/ (none_clears score small /\ first_best score large j)
  | None => none_clears score small /\ none_clears score large
  end.


(* ===================================================================== *)
(** * Concrete scenarios                                                   *)
(* ===================================================================== *)

Module Scenario.

(** A pinhole camera with unit focal length and principal point (50, 50) on a
    100 x 100 image.  Like the pinhole model of the library, it writes the
    projected pixel before it classifies the point, so a pixel is written
    also when the point lies behind the camera. *)
Definition pinhole : Camera :=
  {| imageWidth := 100;
     imageHeight := 100;
     backProject3 := fun p => (true, (px p - 50, py p - 50, 1)%Q);
     project3 := fun b =>
       let '(x, y, z) := b in
       (if Qltb 0 z then KEYPOINT_VISIBLE else POINT_BEHIND_CAMERA,
        (x / z + 50, y / z + 50)%Q) |}.

(** Half a turn about the x axis. *)
Definition half_turn_x : Matrix3 := ((1, 0, 0), (0, -1, 0), (0, 0, -1))%Q.

Definition config : Config :=
  {| kNumberOfTrackingBuckets := 4;
     kNumberOfKeyPointsUseUnconditional := 2;
     kNumberOfKeyPointsUseStrong := 16;
     kKeypointScoreThresholdUnconditional := 10;
     kKeypointScoreThresholdStrong := 5 |}.

(** The tracker before its first frame. *)
Definition cold_tracker : GyroTracker :=
  {| camera_ := pinhole;
     previous_frame_ptr_ := None;
     previous_track_lengths_ := [];
     current_track_lengths_ := [];
     current_track_id_ := 0 |}.

(** A frame as a detector hands it over: no track ids yet. *)
Definition make_frame (timestamp : Z) (width : nat) (kps : list Pixel)
    (descs : list (list byte)) (scores : list Q) : VisualFrame :=
  {| hardware_timestamp := timestamp;
     keypoint_measurements := Some kps;
     descriptor_size_bytes := width;
     descriptor_rows := width;
     descriptors := Some descs;
     keypoint_scores := scores;
     track_ids := [] |}.

(** The tracker after [addFrame], or the tracker unchanged when it aborted. *)
Definition tracker_after (self : GyroTracker)
    (r : outcome (GyroTracker * option VisualFrame)) : GyroTracker :=
  match r with
  | Ok (t, _) => t
  | Fatal _ => self
  end.

(** What a caller can read back after a call: the track ids of the current
    frame, the track lengths kept by the tracker, the id counter, and the track
    ids of the frame that was the previous one. *)
Definition observe (r : outcome (GyroTracker * option VisualFrame))
  : outcome (option (list Z) * list nat * Z * option (list Z)) :=
  do tp <- r;
  Ok (option_map track_ids (previous_frame_ptr_ (fst tp)),
      previous_track_lengths_ (fst tp),
      current_track_id_ (fst tp),
      option_map track_ids (snd tp)).

Definition feed (self : GyroTracker) (f : VisualFrame) : GyroTracker :=
  tracker_after self (addFrame config self f identity3).

(** *** One keypoint seen twice, the second time with a weak response. *)
Definition weak_first : VisualFrame :=
  make_frame 1 2 [(50, 50)%Q] [[x00; x00]] [20%Q].
Definition weak_second : VisualFrame :=
  make_frame 2 2 [(50, 50)%Q] [[x00; x00]] [1%Q].

(** *** Two previous keypoints, one tracked and one not, matching the same
    current keypoint. *)
Definition shared_first : VisualFrame :=
  make_frame 1 2 [(50, 50)%Q] [[x00; x00]] [20%Q].
Definition shared_second : VisualFrame :=
  make_frame 2 2 [(50, 50); (52, 51)]%Q [[x00; x00]; [x01; x00]] [20; 20]%Q.
Definition shared_third : VisualFrame :=
  make_frame 3 2 [(51, 50)%Q] [[x00; x00]] [20%Q].

(** The tracker after the first of these frames, the frame it then holds,
    and the outcome of feeding it the second frame. *)
Definition shared_tracker : GyroTracker := feed cold_tracker shared_first.
Definition shared_held : VisualFrame := swapTrackIds shared_first [-1].
Definition shared_outcome : outcome (GyroTracker * option VisualFrame) :=
  addFrame config shared_tracker shared_second identity3.
Definition shared_tracker' : GyroTracker := tracker_after shared_tracker shared_outcome.

(** *** 48-byte descriptors: a previous keypoint, and two current keypoints in
    its small window, the first with every bit flipped, the second identical. *)
Definition zeros48 : list byte := replicate 48 x00.
Definition ones48 : list byte := replicate 48 xff.
Definition opposite_previous : VisualFrame :=
  make_frame 1 48 [(50, 50)%Q] [zeros48] [20%Q].
Definition opposite_current : VisualFrame :=
  make_frame 2 48 [(50, 49); (50, 50)]%Q [ones48; zeros48] [20; 20]%Q.

(** The small search window of the previous keypoint, whose prediction under
    the identity rotation is (50, 50): the sorted current keypoints of the
    rows 45 to 55 (clamped bounds of lines 324-325). *)
Definition opposite_sorted : list KeypointAndIndex :=
  sort_by_y (index_keypoints [(50, 49); (50, 50)]%Q).
Definition opposite_small_window : list KeypointAndIndex :=
  row_range opposite_sorted (corner_row_LUT opposite_sorted 100) 45 55.

(** *** A prediction above the image.  A pinhole camera with focal length
    100 and principal point (50, 50); the rotation about the x axis with
    cosine 4/5 and sine 3/5 moves the keypoint at the principal point to the
    predicted pixel (50, -25).  The current frame has a keypoint with the
    same descriptor in row 0 of the same column. *)
Definition pinhole_100 : Camera :=
  {| imageWidth := 100;
     imageHeight := 100;
     backProject3 := fun p => (true, ((px p - 50) / 100, (py p - 50) / 100, 1)%Q);
     project3 := fun b =>
       let '(x, y, z) := b in
       (if Qltb 0 z then KEYPOINT_VISIBLE else POINT_BEHIND_CAMERA,
        (100 * (x / z) + 50, 100 * (y / z) + 50)%Q) |}.
Definition tilt_x : Matrix3 :=
  ((1, 0, 0), (0, 4 # 5, - (3 # 5)), (0, 3 # 5, 4 # 5))%Q.
Definition tilt_previous : VisualFrame :=
  make_frame 1 2 [(50, 50)%Q] [[x0f; x00]] [20%Q].
Definition tilt_current : VisualFrame :=
  make_frame 2 2 [(50, 0)%Q] [[x0f; x00]] [20%Q].
Definition tilt_sorted : list KeypointAndIndex :=
  sort_by_y (index_keypoints [(50, 0)%Q]).
Definition tilt_lut : list nat := corner_row_LUT tilt_sorted 100.

(** *** A keypoint in column [image_width]. *)
Definition border_first : VisualFrame :=
  make_frame 1 2 [(100, 10)%Q] [[x00; x00]] [20%Q].
Definition border_second : VisualFrame :=
  make_frame 2 2 [(100, 10)%Q] [[x00; x00]] [20%Q].

(** *** A keypoint at the principal point, seen again after half a turn. *)
Definition centre_first : VisualFrame :=
  make_frame 1 2 [(50, 50)%Q] [[x0f; x00]] [20%Q].
Definition centre_second : VisualFrame :=
  make_frame 2 2 [(50, 50)%Q] [[x0f; x00]] [20%Q].

(** *** Keypoints for the row lookup table of a 4-row image: one between two
    rows, one in the last row. *)
Definition grid_keypoints : list Pixel := [(7, 3); (5, 3 # 2)]%Q.
Definition grid_sorted : list KeypointAndIndex :=
  sort_by_y (index_keypoints grid_keypoints).
Definition grid_lut : list nat := corner_row_LUT grid_sorted 4.

(** *** Admission: four new-track candidates.  With buckets of 25 x 25
    pixels the keypoints 0 and 2 lie in bucket 10, keypoint 1 in bucket 0 and
    keypoint 3 in bucket 6. *)
Definition admission_frame : VisualFrame :=
  {| hardware_timestamp := 2;
     keypoint_measurements := Some [(62, 62); (12, 10); (60, 60); (60, 35)]%Q;
     descriptor_size_bytes := 2;
     descriptor_rows := 2;
     descriptors := Some [[x00; x00]; [x00; x00]; [x00; x00]; [x00; x00]];
     keypoint_scores := [30; 7; 20; 12]%Q;
     track_ids := [] |}.
(** The frame before it: the same four keypoints, none of them tracked. *)
Definition admission_previous : VisualFrame :=
  swapTrackIds admission_frame [-1; -1; -1; -1].
Definition admission_matches : list (nat * nat) :=
  [(0, 0); (1, 1); (2, 2); (3, 3)]%nat.
Definition admission_ids : list Z := [-1; -1; -1; -1].
Definition admission_state : AdmissionState :=
  {| current_track_ids := admission_ids;
     current_track_lengths := [1; 1; 1; 1]%nat;
     buckets := replicate 16 [];
     candidates_new_tracks := [] |}.

(** The candidates in ascending order of their keys. *)
Definition admission_candidates : list (nat * Floating) :=
  [(1%nat, Finite 7); (3%nat, Finite 12); (2%nat, Finite 20); (0%nat, Finite 30)].
(** The state after the unconditional loop (candidate 3 accepted into bucket
    6), and after the first iteration of the strong loop (candidate 2 accepted
    into bucket 10). *)
Definition after_unconditional : AdmissionState :=
  accept_match admission_state 6 (3, 3)%nat.
Definition after_first_strong : AdmissionState :=
  accept_match after_unconditional 10 (2, 2)%nat.

(** *** Two scores that differ by less than the precision of a [float]. *)
Definition close_scores_frame : VisualFrame :=
  {| hardware_timestamp := 2;
     keypoint_measurements := Some [(10, 10); (60, 60)]%Q;
     descriptor_size_bytes := 2;
     descriptor_rows := 2;
     descriptors := Some [[x00; x00]; [x00; x00]];
     keypoint_scores := [20 + (1 # 2 ^ 30); 20]%Q;
     track_ids := [] |}.

(** *** Triangulation: the identity pose, one view and two views along the
    same bearing, and a solver that reports the exact rank (4) of the
    two-view system. *)
Definition identity_pose : Triangulation.Transformation :=
  {| Triangulation.getRotationMatrix := identity3;
     Triangulation.getPosition := (0, 0, 0)%Q |}.
Definition rank_four (threshold : Q) (A : list (list Q)) : nat := 4.
Definition no_solution (threshold : Q) (A : list (list Q)) (b : list Q) : list Q := [].
Definition one_view : list Pixel := [(0, 0)%Q].
Definition two_views : list Pixel := [(0, 0); (0, 0)]%Q.
Definition initial_point : Triangulation.Vector3 := (7, 8, 9)%Q.

End Scenario.

(* ===================================================================== *)
(** * Vocabulary for the matching engine                                   *)
(* ===================================================================== *)

Module EngineTerms.

Import MatchingEngineNonExclusive.

(** [best] is the first candidate of [candidates] with the highest score: no
    candidate scores higher, and every candidate before it scores lower. *)
Definition first_best_candidate (candidates : Candidates) (best : Candidate) : Prop :=
  exists k : nat,
    candidates !! k = Some best
    /\ (forall k' c, candidates !! k' = Some c -> (score c <= score best)%Q)
    /\ (forall k' c, (k' < k)%nat -> candidates !! k' = Some c ->
                     (score c < score best)%Q).

(** The match [m] pairs the banana of [bc] with the first best of its
    candidates. *)
Definition emitted_for (m : Match) (bc : nat * Candidates) : Prop :=
  match_index_banana m = fst bc
  /\ exists best : Candidate,
       first_best_candidate (snd bc) best
       /\ match_index_apple m = index_apple best
       /\ match_score m = score best.

Definition has_candidates (bc : nat * Candidates) : bool :=
  match snd bc with
  | [] => false
  | _ :: _ => true
  end.

Section Problem.

Context {P : Type} `{MatchingProblem P}.

(** The candidate lists the problem hands out when asked for the bananas of
    [bananas] one after the other, each paired with its banana. *)
Fixpoint candidates_handed_out (problem : P) (bananas : list nat)
  : list (nat * Candidates) :=
  match bananas with
  | [] => []
  | b :: rest =>
      (b, fst (getAppleCandidatesForBanana problem b))
      :: candidates_handed_out (snd (getAppleCandidatesForBanana problem b)) rest
  end.

End Problem.

(** A problem over a fixed table of candidate lists, one per banana; its
    setup succeeds or fails as [ready] says. *)
Record TableProblem : Type := {
  ready : bool;
  table : list Candidates
}.

#[global] Instance TableProblem_problem : MatchingProblem TableProblem := {
  doSetup := fun p => (ready p, p);
  numBananas := fun p => length (table p);
  getAppleCandidatesForBanana := fun p b => (nth b (table p) [], p)
}.

(** Three bananas: two candidates that tie at the top after a weaker one, no
    candidate, one candidate for an apple already taken. *)
Definition sample_problem : TableProblem :=
  {| ready := true;
     table := [ [ {| index_apple := 7; score := 1 # 2 |};
                  {| index_apple := 3; score := 9 # 10 |};
                  {| index_apple := 5; score := 9 # 10 |} ];
                [];
                [ {| index_apple := 3; score := 1 # 4 |} ] ] |}.

End EngineTerms.

(* ===================================================================== *)
(** * Vocabulary for the triangulation                                     *)
(* ===================================================================== *)

Module TriangulationTerms.

Import Triangulation.

(** The product of a matrix, given row by row, with a vector. *)
Definition row_dot (row x : list Q) : Q :=
  fold_right Qplus 0%Q (zip_with Qmult row x).

Definition mat_mul (A : list (list Q)) (x : list Q) : list Q :=
  map (fun row => row_dot row x) A.

(** Equality of rational vectors, entry by entry. *)
Definition vec_eq (u v : list Q) : Prop := Forall2 Qeq u v.

Definition scale3 (d : Q) (v : Vector3) : Vector3 :=
  let '(v0, v1, v2) := v in (d * v0, d * v1, d * v2)%Q.

(** The point, in the global frame, that lies at depth [d] along the bearing
    of the normalized measurement [m] of a camera mounted at [T_B_C] on a body
    at pose [T_G_B]. *)
Definition point_at_depth (T_G_B T_B_C : Transformation) (m : Pixel) (d : Q)
  : Vector3 :=
  transform T_G_B (transform T_B_C (scale3 d (px m, py m, 1%Q))).

(** The matrix [A] and the right-hand side [b] after the fill loop of lines
    100-108. *)
Definition single_camera_system (measurements_normalized : list Pixel)
    (T_G_B : list Transformation) (T_B_C : Transformation)
  : list (list Q) * list Q :=
  let cols := (3 + length measurements_normalized)%nat in
  let R_B_C := getRotationMatrix T_B_C in
  let fill := imap (fun i mt =>
      let v : Vector3 := (px (fst mt), py (fst mt), 1%Q) in
      let R_G_B := getRotationMatrix (snd mt) in
      let p_G_B := getPosition (snd mt) in
      (system_block cols i (neg3 (mat_vec R_G_B (mat_vec R_B_C v))),
       to_list3 (add3 p_G_B (mat_vec R_G_B (getPosition T_B_C)))))
    (combine measurements_normalized T_G_B) in
  (concat (map fst fill), concat (map snd fill)).

(** The matrix and the right-hand side after the fill loop of lines 153-164,
    unless a camera index fails the check of line 155. *)
Definition multi_camera_system (measurements_normalized : list Pixel)
    (measurement_camera_indices : list Z)
    (T_G_B T_B_C : list Transformation) : outcome (list (list Q) * list Q) :=
  for_each (fill_multi_cam (3 + length measurements_normalized) T_B_C)
    (with_positions
       (combine (combine measurements_normalized measurement_camera_indices) T_G_B))
    ([], []).

(** The status the single-camera routine derives from the flag of the rank
    test. *)
Definition status_of_flag (ok : bool) : TriangulationResult :=
  {| status_ := if ok then SUCCESSFUL else UNOBSERVABLE |}.

(** A camera index that selects one of [m] cameras. *)
Definition valid_camera_index (m : nat) (cam_index : Z) : Prop :=
  0 <= cam_index < Z.of_nat m.

(** Two bodies one unit apart along the x axis, both looking along z, and the
    point (0, 0, 2): seen at (0, 0) from the first and at (-1/2, 0) from the
    second, at depth 2 from both. *)
Definition pose_at_origin : Transformation :=
  {| getRotationMatrix := identity3; getPosition := (0, 0, 0)%Q |}.
Definition pose_one_right : Transformation :=
  {| getRotationMatrix := identity3; getPosition := (1, 0, 0)%Q |}.
Definition stereo_measurements : list Pixel := [(0, 0); (- (1 # 2), 0)]%Q.
Definition stereo_poses : list Transformation := [pose_at_origin; pose_one_right].
Definition stereo_point : Vector3 := (0, 0, 2)%Q.

(** A solver that reports a fixed rank and returns a fixed vector. *)
Definition rank_reported (rank : nat) (threshold : Q) (A : list (list Q)) : nat := rank.
Definition solution_returned (x : list Q) (threshold : Q) (A : list (list Q))
    (b : list Q) : list Q := x.

End TriangulationTerms.

(* ===================================================================== *)
(** * Vocabulary for the search window and the matches                     *)
(* ===================================================================== *)

(** The keypoint lies in one of the image rows [lo, hi): [lo <= y < hi]. *)
Definition in_rows (lo hi : Z) (k : KeypointAndIndex) : bool :=
  negb (Qltb (row_coordinate k) (inject_Z lo))
  && Qltb (row_coordinate k) (inject_Z hi).

(* ===================================================================== *)
(** * Vocabulary for the tracker state                                     *)
(* ===================================================================== *)

(** No track id other than -1 occurs twice in the channel. *)
Definition ids_distinct (ids : list Z) : Prop :=
  forall (k1 k2 : nat) (id : Z),
    ids !! k1 = Some id -> ids !! k2 = Some id -> id <> -1 -> k1 = k2.

(** Every entry of the channel is -1 or an id handed out so far. *)
Definition ids_within (counter : Z) (ids : list Z) : Prop :=
  Forall (fun id => id = -1 \/ 0 <= id <= counter) ids.

(** The frame the tracker holds has one track id and one track length per
    keypoint, and its track ids are distinct ids handed out so far; a tracker
    that holds no frame has no track lengths. *)
Definition tracker_consistent (tracker : GyroTracker) : Prop :=
  -1 <= current_track_id_ tracker
  /\ match previous_frame_ptr_ tracker with
     | None => previous_track_lengths_ tracker = []
     | Some frame =>
         exists kps : list Pixel,
           keypoint_measurements frame = Some kps
           /\ length (track_ids frame) = length kps
           /\ length (previous_track_lengths_ tracker) = length kps
           /\ ids_within (current_track_id_ tracker) (track_ids frame)
           /\ ids_distinct (track_ids frame)
     end.

(** The trackers that arise from the constructor by calls of [addFrame] that
    return. *)
Inductive reachable {sorting : StdSort} (cfg : Config) (input_camera : Camera)
    (first_track_id : Z) : GyroTracker -> Prop :=
  | reachable_new :
      reachable cfg input_camera first_track_id
        (GyroTracker_new input_camera first_track_id)
  | reachable_addFrame (self self' : GyroTracker) (frame : VisualFrame)
      (C_current_prev : Matrix3) (previous : option VisualFrame) :
      reachable cfg input_camera first_track_id self ->
      addFrame cfg self frame C_current_prev = Ok (self', previous) ->
      reachable cfg input_camera first_track_id self'.

(** What the ledger loop keeps, relative to the ids [C0] of the current frame
    and [P0] of the previous frame and the counter [c0] on entry: entries are
    old or fresh (above [c0]) and never above the counter; a fresh id sits in
    one entry of either channel, at the two ends of an accepted match; every
    id handed out is in use. *)
Record ledger_kept (accepted : list (nat * nat)) (C0 P0 : list Z) (c0 : Z)
    (st : LedgerState) : Prop := {
  kept_current_length : length (ledger_current_ids st) = length C0;
  kept_previous_length : length (ledger_previous_ids st) = length P0;
  kept_counter : c0 <= ledger_track_id st;
  kept_current :
    forall j id, ledger_current_ids st !! j = Some id ->
      id <= ledger_track_id st
      /\ (C0 !! j = Some id \/ (C0 !! j = Some (-1) /\ c0 < id));
  kept_previous :
    forall i id, ledger_previous_ids st !! i = Some id ->
      id <= ledger_track_id st
      /\ (P0 !! i = Some id \/ (P0 !! i = Some (-1) /\ c0 < id));
  kept_current_fresh :
    forall j1 j2 id, c0 < id ->
      ledger_current_ids st !! j1 = Some id ->
      ledger_current_ids st !! j2 = Some id -> j1 = j2;
  kept_previous_fresh :
    forall i1 i2 id, c0 < id ->
      ledger_previous_ids st !! i1 = Some id ->
      ledger_previous_ids st !! i2 = Some id -> i1 = i2;
  kept_link :
    forall j id, c0 < id -> ledger_current_ids st !! j = Some id ->
      exists i, In (i, j) accepted /\ ledger_previous_ids st !! i = Some id;
  kept_in_use :
    forall id, c0 < id <= ledger_track_id st ->
      exists i j, In (i, j) accepted
        /\ ledger_current_ids st !! j = Some id
        /\ ledger_previous_ids st !! i = Some id
}.

(** The frame a call of [addFrame] hands back next to the tracker. *)
Definition returned_previous (r : outcome (GyroTracker * option VisualFrame))
  : option VisualFrame :=
  match r with
  | Ok (_, previous) => previous
  | Fatal _ => None
  end.

(** The first frame of [Scenario.shared_first], as the second call left it. *)
Definition shared_previous' : option VisualFrame :=
  returned_previous Scenario.shared_outcome.

(** One keypoint seen in three frames in a row, with a strong response: the
    tracker after the second frame, which has started track 1, and the
    outcome of the third call. *)
Definition steady_second : VisualFrame :=
  Scenario.make_frame 2 2 [(50, 50)%Q] [[x00; x00]] [20%Q].
Definition steady_third : VisualFrame :=
  Scenario.make_frame 3 2 [(50, 50)%Q] [[x00; x00]] [20%Q].
Definition steady_tracker : GyroTracker :=
  Scenario.feed (Scenario.feed Scenario.cold_tracker Scenario.shared_first)
                steady_second.
Definition steady_outcome : outcome (GyroTracker * option VisualFrame) :=
  addFrame Scenario.config steady_tracker steady_third identity3.

(** A frame without keypoints, dated before every frame of [Scenario]. *)
Definition empty_frame_sample : VisualFrame := Scenario.make_frame 0 2 [] [] [].

(** The checks that guard an index against its range (lines 89, 90, 99, 191,
    371-372 and 397-398). *)
Definition index_check (c : Check) : bool :=
  match c with
  | CHECK_LT_match_previous
  | CHECK_LT_match_current
  | CHECK_LT_index_previous_frame
  | CHECK_corner_index => true
  | _ => false
  end.

(** The checks that guard an index or a row against its range: those of
    [index_check] and the row checks of lines 330-340. *)
Definition range_check (c : Check) : bool :=
  match c with
  | CHECK_LT_match_previous
  | CHECK_LT_match_current
  | CHECK_LT_index_previous_frame
  | CHECK_corner_index
  | CHECK_search_rows => true
  | _ => false
  end.

(** The rows predicted for the keypoints [kps] lie within 2^30 of zero. *)
Definition predicted_rows_bounded (camera : Camera) (C_current_prev : Matrix3)
    (kps : list Pixel) : Prop :=
  Forall (fun p =>
            (inject_Z (- 2 ^ 30) <= py (predict_keypoint camera C_current_prev p)
             <= inject_Z (2 ^ 30))%Q)
         kps.

(** The row checks abort the search for one of the keypoints [kps]. *)
Definition row_check_fires (camera : Camera) (C_current_prev : Matrix3)
    (kps : list Pixel) (c : Check) : Prop :=
  exists (p : Pixel) (radius : Z),
    In p kps /\ 0 <= radius <= 2 ^ 20
    /\ search_rows (imageHeight camera) (predict_keypoint camera C_current_prev p) radius
       = Fatal c.

(* ===================================================================== *)
(** * Vocabulary for the kernel                                            *)
(* ===================================================================== *)

(** For the byte value [n]: the number of set bits lies between 0 and 8, is 0
    only for the value 0 and 8 only for the value 255. *)
Definition bit_count_ok (n : nat) : bool :=
  let v := Z.of_nat n in
  (0 <=? popcount8 v) && (popcount8 v <=? 8)
  && implb (popcount8 v =? 0) (v =? 0)
  && implb (popcount8 v =? 8) (v =? 255).

(* ===================================================================== *)
(** * Properties                                                           *)
(* ===================================================================== *)

(** ** The error monad *)

Lemma bind_Ok_inv {A B : Type} (m : outcome A) (k : A -> outcome B) (b : B) :
  bind m k = Ok b -> exists a, m = Ok a /\ k a = Ok b.
Proof.
  destruct m as [a | c]; simpl; intros H; [ exists a; split; [reflexivity | exact H] | discriminate ].
Qed.

Lemma check_Ok_inv (cond : bool) (c : Check) (u : unit) :
  check cond c = Ok u -> cond = true.
Proof. destruct cond; simpl; [ reflexivity | discriminate ]. Qed.

Lemma for_each_app {A S : Type} (body : S -> A -> outcome S) (l1 l2 : list A) (s : S) :
  for_each body (l1 ++ l2) s = bind (for_each body l1 s) (for_each body l2).
Proof.
  revert s; induction l1 as [| a l1 IH]; intros s; simpl; [ reflexivity | ].
  destruct (body s a) as [s' | c]; simpl; [ apply IH | reflexivity ].
Qed.

(** A property kept by every iteration that completes holds after the loop. *)
Lemma for_each_invariant {A S : Type} (P : S -> Prop) (body : S -> A -> outcome S) :
  (forall s a s', P s -> body s a = Ok s' -> P s') ->
  forall l s s', P s -> for_each body l s = Ok s' -> P s'.
Proof.
  intros Hstep l; induction l as [| a l IH]; simpl; intros s s' HP H.
  - injection H as <-. exact HP.
  - apply bind_Ok_inv in H as (s1 & H1 & H2). eauto.
Qed.

(** ** Rational comparisons *)

Lemma Qltb_lt (a b : Q) : Qltb a b = true <-> (a < b)%Q.
Proof.
  unfold Qltb. rewrite Qlt_alt. destruct (a ?= b)%Q; split; congruence.
Qed.

Lemma Qltb_ge (a b : Q) : Qltb a b = false <-> (b <= a)%Q.
Proof.
  rewrite Qle_alt, <- Qcompare_antisym. unfold Qltb.
  destruct (a ?= b)%Q; simpl; split; congruence.
Qed.

(** ** Machine numbers *)

(** *** Rounding to a binary format *)


(** Powers of two written as [2 ^ k] in a denominator, as numerals. *)
Ltac Qconstants :=
  repeat match goal with
  | |- context [Pos.pow ?a ?b] =>
      let v := eval vm_compute in (Pos.pow a b) in change (Pos.pow a b) with v
  | H : context [Pos.pow ?a ?b] |- _ =>
      let v := eval vm_compute in (Pos.pow a b) in change (Pos.pow a b) with v in H
  end.

Ltac Qreplace x y :=
  let E := fresh "E" in
  assert (E : (x == y)%Q) by (ring || field); rewrite E; clear E.


Lemma round_half_even_bounds (q : Q) :
  (q - (1 # 2) <= inject_Z (round_half_even q) <= q + (1 # 2))%Q.
Proof.
  unfold round_half_even.
  pose proof (Qfloor_le q) as Hlo. pose proof (Qlt_floor q) as Hhi.
  rewrite inject_Z_plus in Hhi. change (inject_Z 1) with 1%Q in Hhi.
  destruct (q - inject_Z (Qfloor q) ?= 1 # 2)%Q eqn:E.
  - apply Qeq_alt in E. destruct (Z.even (Qfloor q)).
    + split; lra.
    + rewrite inject_Z_plus. change (inject_Z 1) with 1%Q. split; lra.
  - apply Qlt_alt in E. split; lra.
  - apply Qgt_alt in E. rewrite inject_Z_plus. change (inject_Z 1) with 1%Q. split; lra.
Qed.

Lemma round_half_even_nonneg (q : Q) : (0 <= q)%Q -> 0 <= round_half_even q.
Proof.
  intros Hq. unfold round_half_even.
  assert (H0 : 0 <= Qfloor q) by (change 0 with (Qfloor 0); apply Qfloor_resp_le, Hq).
  destruct (_ ?= _)%Q; [ destruct (Z.even _) | | ]; lia.
Qed.

Lemma round_half_even_nonpos (q : Q) : (q <= 0)%Q -> round_half_even q <= 0.
Proof.
  intros Hq. pose proof (round_half_even_bounds q) as [_ H].
  assert (Hlt : (inject_Z (round_half_even q) < inject_Z 1)%Q)
    by (change (inject_Z 1) with 1%Q; lra).
  rewrite <- Zlt_Qlt in Hlt. lia.
Qed.

Lemma Qpow2_pos (e : Z) : (0 < 2 ^ e)%Q.
Proof. apply Qpower_0_lt. reflexivity. Qed.

Lemma Qpow2_inject (e : Z) : 0 <= e -> (inject_Z (2 ^ e) == 2 ^ e)%Q.
Proof. intros He. rewrite Zpower_Qpower by exact He. reflexivity. Qed.

Lemma Qpow2_succ (e : Z) : (2 ^ (e + 1) == 2 * 2 ^ e)%Q.
Proof.
  rewrite Qpower_plus by (intros H; discriminate H).
  change (2 ^ 1)%Q with 2%Q. ring.
Qed.

Lemma Qpow2_le (a b : Z) : a <= b -> (2 ^ a <= 2 ^ b)%Q.
Proof. intros H. apply Qpower_le_compat_l; [ exact H | discriminate ]. Qed.

Lemma Qdiv_mult_cancel (x y : Q) : (0 < y)%Q -> (x / y * y == x)%Q.
Proof. intros Hy. field. intros H. rewrite H in Hy. exact (Qlt_irrefl 0 Hy). Qed.

Lemma Qabs_make (q : Q) :
  (Qabs q == inject_Z (Z.abs (Qnum q)) / inject_Z (Zpos (Qden q)))%Q.
Proof.
  destruct q as [n d]. unfold Qabs. cbn [Qnum Qden].
  rewrite (Qmake_Qdiv (Z.abs n) d). reflexivity.
Qed.

Lemma binade_spec (q : Q) :
  ~ (q == 0)%Q -> (2 ^ binade q <= Qabs q < 2 ^ (binade q + 1))%Q.
Proof.
  intros Hq. unfold binade.
  set (n := Z.abs (Qnum q)). set (d := Zpos (Qden q)).
  assert (Hn : 0 < n).
  { unfold n. destruct q as [m p]. cbn. unfold Qeq in Hq. cbn in Hq. lia. }
  assert (Hd : 0 < d) by (unfold d; lia).
  pose proof (Z.log2_spec n Hn) as [Hn1 Hn2].
  pose proof (Z.log2_spec d Hd) as [Hd1 Hd2].
  pose proof (Z.log2_nonneg n) as Ha. pose proof (Z.log2_nonneg d) as Hb.
  set (a := Z.log2 n) in *. set (b := Z.log2 d) in *.
  assert (Habs : (Qabs q == inject_Z n / inject_Z d)%Q) by apply Qabs_make.
  assert (Hdq : (0 < inject_Z d)%Q) by (change 0%Q with (inject_Z 0); rewrite <- Zlt_Qlt; exact Hd).
  assert (Hn1q : (2 ^ a <= inject_Z n)%Q)
    by (rewrite <- Qpow2_inject by lia; rewrite <- Zle_Qle; exact Hn1).
  assert (Hn2q : (inject_Z n < 2 ^ (a + 1))%Q).
  { rewrite <- (Qpow2_inject (a + 1)) by lia. rewrite <- Zlt_Qlt.
    replace (a + 1) with (Z.succ a) by lia. exact Hn2. }
  assert (Hd1q : (2 ^ b <= inject_Z d)%Q)
    by (rewrite <- Qpow2_inject by lia; rewrite <- Zle_Qle; exact Hd1).
  assert (Hd2q : (inject_Z d < 2 ^ (b + 1))%Q).
  { rewrite <- (Qpow2_inject (b + 1)) by lia. rewrite <- Zlt_Qlt.
    replace (b + 1) with (Z.succ b) by lia. exact Hd2. }
  destruct (Qle_bool (2 ^ (a - b)) (Qabs q)) eqn:E.
  - apply Qle_bool_iff in E. split; [ exact E | ].
    rewrite Habs. apply Qlt_shift_div_r; [ exact Hdq | ].
    replace (a - b + 1) with ((a + 1) - b) by lia.
    rewrite Qpower_minus by (intros H; discriminate H).
    pose proof (Qpow2_pos b) as Hpb. pose proof (Qpow2_pos (a + 1)) as Hpa.
    apply Qlt_le_trans with (2 ^ (a + 1))%Q; [ exact Hn2q | ].
    rewrite <- (Qdiv_mult_cancel (2 ^ (a + 1)) (2 ^ b) Hpb) at 1.
    apply Qmult_le_l; [ | exact Hd1q ].
    apply Qlt_shift_div_l; [ exact Hpb | ]. rewrite Qmult_0_l. exact Hpa.
  - assert (E' : ~ (2 ^ (a - b) <= Qabs q)%Q).
    { intros H. apply Qle_bool_iff in H. congruence. }
    apply Qnot_le_lt in E'.
    replace (a - b - 1 + 1) with (a - b) by lia. split; [ | exact E' ].
    rewrite Habs. apply Qle_shift_div_l; [ exact Hdq | ].
    replace (a - b - 1) with (a - (b + 1)) by lia.
    rewrite Qpower_minus by (intros H; discriminate H).
    pose proof (Qpow2_pos (b + 1)) as Hpb. pose proof (Qpow2_pos a) as Hpa.
    apply Qle_trans with (2 ^ a)%Q; [ | exact Hn1q ].
    rewrite <- (Qdiv_mult_cancel (2 ^ a) (2 ^ (b + 1)) Hpb) at 2.
    apply Qmult_le_l; [ | apply Qlt_le_weak, Hd2q ].
    apply Qlt_shift_div_l; [ exact Hpb | ]. rewrite Qmult_0_l. exact Hpa.
Qed.

Lemma Qabs_bounds (x b : Q) : (Qabs x <= b <-> - b <= x <= b)%Q.
Proof. apply Qabs_Qle_condition. Qed.

(** The rounding error: half a unit in the last place. *)
Lemma round_to_error (f : Format) (q : Q) :
  (Qabs (round_to f q - q)
   <= Qabs q * 2 ^ (- precision f) + 2 ^ (emin f - 1))%Q.
Proof.
  unfold round_to.
  pose proof (Qpow2_pos (- precision f)) as Hp.
  pose proof (Qpow2_pos (emin f - 1)) as Hm.
  pose proof (Qabs_nonneg q) as Hq0.
  destruct (Qeq_bool q 0) eqn:E.
  - apply Qeq_bool_iff in E. rewrite E.
    Qreplace (0 - 0)%Q 0%Q. change (Qabs 0) with 0%Q.
    rewrite Qmult_0_l, Qplus_0_l. apply Qlt_le_weak, Hm.
  - assert (Hq : ~ (q == 0)%Q) by (intros H; apply Qeq_bool_iff in H; congruence).
    pose proof (binade_spec q Hq) as [Hb _].
    set (b := binade q) in *.
    set (e := Z.max (b - (precision f - 1)) (emin f)).
    rewrite Qred_correct.
    pose proof (Qpow2_pos e) as He.
    pose proof (round_half_even_bounds (q / 2 ^ e)) as [H1 H2].
    set (m := inject_Z (round_half_even (q / 2 ^ e))) in *.
    assert (Hq' : (q == q / 2 ^ e * 2 ^ e)%Q)
      by (symmetry; apply Qdiv_mult_cancel, He).
    (* |m u - q| <= u / 2 *)
    assert (Herr : (Qabs (m * 2 ^ e - q) <= (1 # 2) * 2 ^ e)%Q).
    { apply Qabs_bounds. split.
      - rewrite Hq' at 1.
        Qreplace (m * 2 ^ e - q / 2 ^ e * 2 ^ e)%Q ((m - q / 2 ^ e) * 2 ^ e)%Q.
        Qreplace (- ((1 # 2) * 2 ^ e))%Q ((- (1 # 2)) * 2 ^ e)%Q.
        apply Qmult_le_compat_r; [ lra | apply Qlt_le_weak, He ].
      - rewrite Hq' at 1.
        Qreplace (m * 2 ^ e - q / 2 ^ e * 2 ^ e)%Q ((m - q / 2 ^ e) * 2 ^ e)%Q.
        apply Qmult_le_compat_r; [ lra | apply Qlt_le_weak, He ]. }
    eapply Qle_trans; [ exact Herr | ].
    (* u / 2 = 2^(e-1) <= 2^(b-p) + 2^(emin-1) *)
    assert (Hhalf : ((1 # 2) * 2 ^ e == 2 ^ (e - 1))%Q).
    { rewrite Qpower_minus by (intros H; discriminate H).
      change (2 ^ 1)%Q with 2%Q. field. }
    rewrite Hhalf.
    destruct (Z.max_spec (b - (precision f - 1)) (emin f)) as [[_ Emax] | [_ Emax]];
      fold e in Emax; rewrite Emax.
    + assert (H0 : (0 <= Qabs q * 2 ^ (- precision f))%Q)
        by (apply Qmult_le_0_compat; [ exact Hq0 | apply Qlt_le_weak, Hp ]).
      lra.
    + replace (b - (precision f - 1) - 1) with (b + - precision f) by lia.
      rewrite Qpower_plus by (intros H; discriminate H).
      assert (H0 : (2 ^ b * 2 ^ (- precision f) <= Qabs q * 2 ^ (- precision f))%Q)
        by (apply Qmult_le_compat_r; [ exact Hb | apply Qlt_le_weak, Hp ]).
      lra.
Qed.

Lemma round_to_nonneg (f : Format) (q : Q) : (0 <= q)%Q -> (0 <= round_to f q)%Q.
Proof.
  intros Hq. unfold round_to. destruct (Qeq_bool q 0); [ apply Qle_refl | ].
  rewrite Qred_correct.
  set (e := Z.max _ _). pose proof (Qpow2_pos e) as He.
  apply Qmult_le_0_compat; [ | apply Qlt_le_weak, He ].
  change 0%Q with (inject_Z 0). rewrite <- Zle_Qle.
  apply round_half_even_nonneg.
  apply Qle_shift_div_l; [ exact He | ]. rewrite Qmult_0_l. exact Hq.
Qed.

Lemma round_to_nonpos (f : Format) (q : Q) : (q <= 0)%Q -> (round_to f q <= 0)%Q.
Proof.
  intros Hq. unfold round_to. destruct (Qeq_bool q 0); [ apply Qle_refl | ].
  rewrite Qred_correct.
  set (e := Z.max _ _). pose proof (Qpow2_pos e) as He.
  assert (Hm : (inject_Z (round_half_even (q / 2 ^ e)) <= 0)%Q).
  { change 0%Q with (inject_Z 0). rewrite <- Zle_Qle.
    apply round_half_even_nonpos.
    apply Qle_shift_div_r; [ exact He | ]. rewrite Qmult_0_l. exact Hq. }
  rewrite <- (Qmult_0_l (2 ^ e)).
  apply Qmult_le_compat_r; [ exact Hm | apply Qlt_le_weak, He ].
Qed.

Lemma round_half_even_comp (q q' : Q) :
  (q == q')%Q -> round_half_even q = round_half_even q'.
Proof.
  intros E. unfold round_half_even.
  rewrite (Qfloor_comp _ _ E).
  assert (E' : (q - inject_Z (Qfloor q') == q' - inject_Z (Qfloor q'))%Q)
    by (rewrite E; reflexivity).
  rewrite (Qcompare_comp _ _ E' (1 # 2) (1 # 2) (Qeq_refl _)). reflexivity.
Qed.

Lemma round_half_even_Z (m : Z) : round_half_even (inject_Z m) = m.
Proof.
  unfold round_half_even. rewrite Qfloor_Z.
  assert (E : (inject_Z m - inject_Z m == 0)%Q) by ring.
  rewrite (Qcompare_comp _ _ E (1 # 2) (1 # 2) (Qeq_refl _)). reflexivity.
Qed.

Lemma binade_unique (q : Q) (e : Z) :
  (2 ^ e <= Qabs q < 2 ^ (e + 1))%Q -> ~ (q == 0)%Q -> binade q = e.
Proof.
  intros [H1 H2] Hq. pose proof (binade_spec q Hq) as [H3 H4].
  assert (Ha : (2 ^ e < 2 ^ (binade q + 1))%Q) by (eapply Qle_lt_trans; eassumption).
  assert (Hb : (2 ^ binade q < 2 ^ (e + 1))%Q) by (eapply Qle_lt_trans; eassumption).
  apply Qpower_lt_compat_l_inv in Ha; [ | reflexivity ].
  apply Qpower_lt_compat_l_inv in Hb; [ | reflexivity ].
  lia.
Qed.

Lemma binade_comp (q q' : Q) : (q == q')%Q -> ~ (q == 0)%Q -> binade q = binade q'.
Proof.
  intros E Hq. apply binade_unique; [ | exact Hq ].
  rewrite E. apply binade_spec. rewrite <- E. exact Hq.
Qed.

Lemma round_to_comp (f : Format) (q q' : Q) :
  (q == q')%Q -> round_to f q = round_to f q'.
Proof.
  intros E. unfold round_to.
  destruct (Qeq_bool q 0) eqn:E0.
  - apply Qeq_bool_iff in E0. rewrite E in E0. apply Qeq_bool_iff in E0.
    rewrite E0. reflexivity.
  - assert (Hq : ~ (q == 0)%Q) by (intros H; apply Qeq_bool_iff in H; congruence).
    assert (E0' : Qeq_bool q' 0 = false).
    { destruct (Qeq_bool q' 0) eqn:E1; [ | reflexivity ].
      apply Qeq_bool_iff in E1. rewrite <- E in E1. contradiction. }
    rewrite E0', <- (binade_comp q q' E Hq).
    set (e := Z.max _ _).
    apply Qred_complete.
    assert (Ediv : (q / 2 ^ e == q' / 2 ^ e)%Q) by (rewrite E; reflexivity).
    rewrite (round_half_even_comp _ _ Ediv). reflexivity.
Qed.

(** Integers of at most [precision] bits are values of the format. *)
Lemma round_to_Z (f : Format) (n : Z) :
  Z.abs n < 2 ^ precision f -> emin f <= 0 -> 0 < precision f ->
  (round_to f (inject_Z n) == inject_Z n)%Q.
Proof.
  intros Hn Hemin Hp. unfold round_to.
  destruct (Qeq_bool (inject_Z n) 0) eqn:E0.
  - apply Qeq_bool_iff in E0. symmetry. exact E0.
  - assert (Hq : ~ (inject_Z n == 0)%Q) by (intros H; apply Qeq_bool_iff in H; congruence).
    assert (Hn0 : 0 < Z.abs n).
    { destruct (Z.eq_dec n 0) as [-> | Hne]; [ exfalso; apply Hq; reflexivity | lia ]. }
    pose proof (Z.log2_spec _ Hn0) as [Hk1 Hk2].
    pose proof (Z.log2_nonneg (Z.abs n)) as Hk0.
    set (k := Z.log2 (Z.abs n)) in *.
    assert (Hb : binade (inject_Z n) = k).
    { apply binade_unique; [ | exact Hq ].
      change (Qabs (inject_Z n)) with (inject_Z (Z.abs n)).
      rewrite <- (Qpow2_inject k), <- (Qpow2_inject (k + 1)) by lia.
      rewrite <- Zle_Qle, <- Zlt_Qlt. replace (k + 1) with (Z.succ k) by lia.
      split; assumption. }
    rewrite Hb.
    assert (Hkp : k < precision f).
    { apply Z.log2_lt_pow2; [ exact Hn0 | exact Hn ]. }
    set (e := Z.max (k - (precision f - 1)) (emin f)).
    assert (He : e <= 0) by (unfold e; lia).
    assert (Epow : (2 ^ e == / inject_Z (2 ^ (- e)))%Q).
    { replace e with (- - e) at 1 by lia. rewrite Qpower_opp.
      rewrite Qpow2_inject by lia. reflexivity. }
    assert (Hpos : (0 < inject_Z (2 ^ (- e)))%Q).
    { rewrite Qpow2_inject by lia. apply Qpow2_pos. }
    assert (Ediv : (inject_Z n / 2 ^ e == inject_Z (n * 2 ^ (- e)))%Q).
    { rewrite Epow, inject_Z_mult. field.
      intros H. rewrite H in Hpos. exact (Qlt_irrefl 0 Hpos). }
    rewrite (round_half_even_comp _ _ Ediv), round_half_even_Z.
    rewrite Qred_correct, Epow, inject_Z_mult. field.
    intros H. rewrite H in Hpos. exact (Qlt_irrefl 0 Hpos).
Qed.

(** The error bounds of the two formats, with their constants written out. *)
Lemma round_to_binary32_error (q : Q) :
  (Qabs (round_to binary32 q - q) <= Qabs q * (1 # 2 ^ 24) + (1 # 2 ^ 150))%Q.
Proof. exact (round_to_error binary32 q). Qed.

Lemma round_to_binary64_error (q : Q) :
  (Qabs (round_to binary64 q - q) <= Qabs q * (1 # 2 ^ 53) + (1 # 2 ^ 1075))%Q.
Proof. exact (round_to_error binary64 q). Qed.

(** A rounded value below the overflow threshold is finite. *)
Lemma Floating_of_finite (f : Format) (q : Q) :
  (Qabs (round_to f q) < 2 ^ (emax f + 1))%Q ->
  Floating_of f q = Finite (round_to f q).
Proof.
  intros H. unfold Floating_of.
  destruct (Qle_bool _ _) eqn:E; [ | reflexivity ].
  apply Qle_bool_iff in E. exfalso. exact (Qlt_not_le _ _ H E).
Qed.

(** *** Conversions to [int] *)

Lemma to_int_in_range (z : Z) : INT_MIN <= z <= INT_MAX -> to_int z = z.
Proof.
  unfold to_int, INT_MIN, INT_MAX. intros H.
  rewrite Z.mod_small by lia. lia.
Qed.

Lemma to_int_range (z : Z) : INT_MIN <= to_int z <= INT_MAX.
Proof.
  unfold to_int, INT_MIN, INT_MAX.
  pose proof (Z.mod_pos_bound (z + 2 ^ 31) (2 ^ 32) ltac:(lia)). lia.
Qed.

Lemma to_int_le_nonneg (z : Z) : 0 <= z -> to_int z <= z.
Proof.
  intros Hz. unfold to_int.
  pose proof (Z.mod_le (z + 2 ^ 31) (2 ^ 32) ltac:(lia) ltac:(lia)). lia.
Qed.

Lemma double_to_int_in_range (q : Q) :
  INT_MIN <= truncate q <= INT_MAX -> double_to_int q = truncate q.
Proof.
  unfold double_to_int. intros [H1 H2]. cbn zeta.
  apply Z.leb_le in H1, H2. rewrite H1, H2. reflexivity.
Qed.

Lemma double_to_int_range (q : Q) : INT_MIN <= double_to_int q <= INT_MAX.
Proof.
  unfold double_to_int. cbn zeta.
  destruct (Z.leb_spec INT_MIN (truncate q));
    destruct (Z.leb_spec (truncate q) INT_MAX); cbn [andb];
    unfold INT_MIN, INT_MAX in *; lia.
Qed.

Lemma truncate_nonneg (q : Q) : (0 <= q)%Q -> truncate q = Qfloor q.
Proof.
  intros Hq. unfold truncate. destruct q as [n d]. cbn.
  apply Z.quot_div_nonneg; [ | lia ].
  unfold Qle in Hq. cbn in Hq. lia.
Qed.

Lemma truncate_nonpos (q : Q) : (q <= 0)%Q -> truncate q <= 0.
Proof.
  intros Hq. unfold truncate. destruct q as [n d]. cbn.
  unfold Qle in Hq. cbn in Hq.
  pose proof (Z.mul_quot_ge n (Z.pos d) ltac:(lia) ltac:(lia)). nia.
Qed.

Lemma truncate_opp (q : Q) : truncate (- q) = - truncate q.
Proof.
  unfold truncate. destruct q as [n d]. cbn.
  apply Z.quot_opp_l. lia.
Qed.

Lemma truncate_mono (x y : Q) : (x <= y)%Q -> truncate x <= truncate y.
Proof.
  intros Hxy.
  destruct (Qlt_le_dec x 0) as [Hx | Hx]; [ destruct (Qlt_le_dec y 0) as [Hy | Hy] | ].
  - assert (Hox : (0 <= - x)%Q) by (apply (Qopp_le_compat x 0), Qlt_le_weak, Hx).
    assert (Hoy : (0 <= - y)%Q) by (apply (Qopp_le_compat y 0), Qlt_le_weak, Hy).
    pose proof (truncate_opp x) as Ex. pose proof (truncate_opp y) as Ey.
    rewrite truncate_nonneg in Ex, Ey by assumption.
    assert (Qfloor (- y) <= Qfloor (- x)); [ | lia ].
    apply Qfloor_resp_le, Qopp_le_compat, Hxy.
  - pose proof (truncate_nonpos x (Qlt_le_weak _ _ Hx)).
    rewrite (truncate_nonneg y Hy).
    assert (Qfloor 0 <= Qfloor y) by (apply Qfloor_resp_le, Hy).
    change (Qfloor 0) with 0 in *. lia.
  - rewrite !truncate_nonneg by (try assumption; eapply Qle_trans; eassumption).
    apply Qfloor_resp_le, Hxy.
Qed.

Lemma truncate_Z (n : Z) : truncate (inject_Z n) = n.
Proof. unfold truncate. cbn. apply Z.quot_1_r. Qed.

(** A value strictly between two integers truncates between them. *)
Lemma truncate_bounds (q : Q) (lo hi : Z) :
  (inject_Z lo <= q)%Q -> (q <= inject_Z hi)%Q -> lo <= truncate q <= hi.
Proof.
  intros Hlo Hhi. split.
  - rewrite <- (truncate_Z lo). apply truncate_mono, Hlo.
  - rewrite <- (truncate_Z hi). apply truncate_mono, Hhi.
Qed.

(** *** The error bounds, by the sign of the rounded value *)

Lemma round_to_bounds (f : Format) (q : Q) :
  let e := (2 ^ (- precision f))%Q in
  let a := (2 ^ (emin f - 1))%Q in
  ((0 <= q)%Q ->
   (q - (q * e + a) <= round_to f q <= q + (q * e + a))%Q /\ (0 <= round_to f q)%Q)
  /\ ((q <= 0)%Q ->
      (q - (- q * e + a) <= round_to f q <= q + (- q * e + a))%Q
      /\ (round_to f q <= 0)%Q).
Proof.
  intros e a. pose proof (round_to_error f q) as H. fold e a in H.
  apply Qabs_Qle_condition in H. split; intros Hq.
  - rewrite (Qabs_pos q Hq) in H. split; [ | apply round_to_nonneg, Hq ].
    split; lra.
  - rewrite (Qabs_neg q Hq) in H. split; [ | apply round_to_nonpos, Hq ].
    split; lra.
Qed.

Lemma round_to_binary32_bounds (q : Q) :
  ((0 <= q)%Q ->
   (q - (q * (1 # 2 ^ 24) + (1 # 2 ^ 150)) <= round_to binary32 q
    <= q + (q * (1 # 2 ^ 24) + (1 # 2 ^ 150)))%Q
   /\ (0 <= round_to binary32 q)%Q)
  /\ ((q <= 0)%Q ->
      (q - (- q * (1 # 2 ^ 24) + (1 # 2 ^ 150)) <= round_to binary32 q
       <= q + (- q * (1 # 2 ^ 24) + (1 # 2 ^ 150)))%Q
      /\ (round_to binary32 q <= 0)%Q).
Proof. exact (round_to_bounds binary32 q). Qed.

Lemma round_to_binary64_bounds (q : Q) :
  ((0 <= q)%Q ->
   (q - (q * (1 # 2 ^ 53) + (1 # 2 ^ 1075)) <= round_to binary64 q
    <= q + (q * (1 # 2 ^ 53) + (1 # 2 ^ 1075)))%Q
   /\ (0 <= round_to binary64 q)%Q)
  /\ ((q <= 0)%Q ->
      (q - (- q * (1 # 2 ^ 53) + (1 # 2 ^ 1075)) <= round_to binary64 q
       <= q + (- q * (1 # 2 ^ 53) + (1 # 2 ^ 1075)))%Q
      /\ (round_to binary64 q <= 0)%Q).
Proof. exact (round_to_bounds binary64 q). Qed.
(** ** Bucket index (lines 66-80) *)

Lemma inject_Z_pos (z : Z) : 0 < z -> (0 < inject_Z z)%Q.
Proof. intros H. change 0%Q with (inject_Z 0). rewrite <- Zlt_Qlt. exact H. Qed.

Lemma inject_Z_le (a b : Z) : a <= b -> (inject_Z a <= inject_Z b)%Q.
Proof. intros H. rewrite <- Zle_Qle. exact H. Qed.

(** A size below 2^24 converts to [float] without rounding. *)
Lemma int_to_float_exact (n : Z) :
  0 <= n < 2 ^ 24 ->
  exists r : Q, int_to_float n = Finite r /\ (r == inject_Z n)%Q.
Proof.
  intros Hn. exists (round_to binary32 (inject_Z n)).
  assert (E : (round_to binary32 (inject_Z n) == inject_Z n)%Q)
    by (apply round_to_Z; cbn; lia).
  split; [ | exact E ].
  apply Floating_of_finite. rewrite E.
  rewrite Qabs_pos by (apply (inject_Z_le 0 n); lia).
  apply Qlt_le_trans with (inject_Z (2 ^ 24)).
  - rewrite <- Zlt_Qlt. lia.
  - cbn. discriminate.
Qed.

Lemma size_bounds (size : nat) :
  1 <= Z.of_nat size <= 2 ^ 20 -> (1 <= inject_Z (Z.of_nat size) <= 1048576)%Q.
Proof.
  intros H. split.
  - apply (inject_Z_le 1). lia.
  - apply (inject_Z_le _ 1048576). lia.
Qed.

Lemma buckets_bounds (buckets_per_side : nat) :
  1 <= Z.of_nat buckets_per_side <= 2 ^ 10 ->
  (1 <= inject_Z (Z.of_nat buckets_per_side) <= 1024)%Q.
Proof.
  intros H. split.
  - apply (inject_Z_le 1). lia.
  - apply (inject_Z_le _ 1024). lia.
Qed.

Lemma exact_width_bounds (size buckets_per_side : nat) :
  1 <= Z.of_nat size <= 2 ^ 20 ->
  1 <= Z.of_nat buckets_per_side <= 2 ^ 10 ->
  ((1 # 1024) <= inject_Z (Z.of_nat size) / inject_Z (Z.of_nat buckets_per_side)
   <= 1048576)%Q.
Proof.
  intros Hs Hb.
  pose proof (size_bounds size Hs) as [Hs1 Hs2].
  pose proof (buckets_bounds buckets_per_side Hb) as [Hb1 Hb2].
  split.
  - apply Qle_shift_div_l; lra.
  - apply Qle_shift_div_r; lra.
Qed.

(** The bucket width as the code computes it: the exact width [size / B]
    up to one part in 2^23. *)
Lemma bucket_width_value (size buckets_per_side : nat) :
  1 <= Z.of_nat size <= 2 ^ 20 ->
  1 <= Z.of_nat buckets_per_side <= 2 ^ 10 ->
  let s := inject_Z (Z.of_nat size) in
  let b := inject_Z (Z.of_nat buckets_per_side) in
  exists w : Q,
    bucket_width size buckets_per_side = Finite w
    /\ (s / b * (1 - (1 # 2 ^ 23)) <= w <= s / b * (1 + (1 # 2 ^ 23)))%Q.
Proof.
  intros size_range buckets_range s b.
  pose proof (size_bounds size size_range) as [Hs1 Hs2].
  pose proof (buckets_bounds buckets_per_side buckets_range) as [Hb1 Hb2].
  pose proof (exact_width_bounds size buckets_per_side size_range buckets_range)
    as [Hw1 Hw2].
  destruct (int_to_float_exact (Z.of_nat size)) as (rs & Ers & Hrs); [ lia | ].
  destruct (int_to_float_exact (Z.of_nat buckets_per_side)) as (rb & Erb & Hrb);
    [ lia | ].
  fold s in Hrs, Hs1, Hs2, Hw1, Hw2. fold b in Hrb, Hb1, Hb2, Hw1, Hw2.
  unfold bucket_width, float_div, Floating_div. rewrite Ers, Erb.
  assert (Hrb0 : Qeq_bool rb 0 = false).
  { destruct (Qeq_bool rb 0) eqn:E; [ | reflexivity ].
    apply Qeq_bool_iff in E. rewrite Hrb in E. lra. }
  rewrite Hrb0.
  assert (Eq : (rs / rb == s / b)%Q) by (rewrite Hrs, Hrb; reflexivity).
  set (x := (rs / rb)%Q) in *. set (r := (s / b)%Q) in *.
  destruct (round_to_binary32_bounds x) as [Hpos _].
  destruct Hpos as [[Hlo Hhi] H0]; [ lra | ].
  exists (round_to binary32 x). split.
  - apply Floating_of_finite. rewrite Qabs_pos by exact H0.
    apply Qle_lt_trans with 2097152%Q; [ Qconstants; lra | ]. cbn. reflexivity.
  - split; Qconstants; lra.
Qed.

Section BinCoordinate.

Variables (size buckets_per_side : nat) (w c : Q).
Hypothesis size_range : 1 <= Z.of_nat size <= 2 ^ 20.
Hypothesis buckets_range : 1 <= Z.of_nat buckets_per_side <= 2 ^ 10.

Let s : Q := inject_Z (Z.of_nat size).
Let b : Q := inject_Z (Z.of_nat buckets_per_side).

Hypothesis width_bounds :
  (s / b * (1 - (1 # 2 ^ 23)) <= w <= s / b * (1 + (1 # 2 ^ 23)))%Q.
Hypothesis coordinate_range : (- (2 * s) <= c <= 2 * s)%Q.

(** The exact bin coordinate [c / (size / B)]. *)
Let t : Q := (c * b / s)%Q.

Lemma exact_bin_range : (- 2048 <= t <= 2048)%Q.
Proof.
  pose proof (size_bounds size size_range) as [Hs1 Hs2].
  pose proof (buckets_bounds buckets_per_side buckets_range) as [Hb1 Hb2].
  fold s in Hs1, Hs2. fold b in Hb1, Hb2. destruct coordinate_range as [Hc1 Hc2].
  unfold t. split.
  - apply Qle_shift_div_l; [ (Qconstants; lra) | ]. (Qconstants; nra).
  - apply Qle_shift_div_r; [ (Qconstants; lra) | ]. (Qconstants; nra).
Qed.

Lemma quotient_bounds :
  (0 < w)%Q
  /\ ((0 <= c)%Q -> (t * (1 - (1 # 2 ^ 22)) <= c / w <= t * (1 + (1 # 2 ^ 22)))%Q
                    /\ (0 <= t)%Q)
  /\ ((c <= 0)%Q -> (t * (1 + (1 # 2 ^ 22)) <= c / w <= t * (1 - (1 # 2 ^ 22)))%Q
                    /\ (t <= 0)%Q).
Proof.
  pose proof (size_bounds size size_range) as [Hs1 Hs2].
  pose proof (buckets_bounds buckets_per_side buckets_range) as [Hb1 Hb2].
  pose proof (exact_width_bounds size buckets_per_side size_range buckets_range)
    as [Hr1 Hr2].
  fold s in Hs1, Hs2, Hr1, Hr2. fold b in Hb1, Hb2, Hr1, Hr2.
  destruct width_bounds as [Hw1 Hw2].
  set (r := (s / b)%Q) in *.
  assert (Hw : (0 < w)%Q) by (Qconstants; lra).
  assert (Et : (t * r == c)%Q).
  { unfold t, r. field. split; (Qconstants; lra). }
  split; [ exact Hw | ]. split; intros Hc.
  - assert (Ht : (0 <= t)%Q).
    { unfold t. apply Qle_shift_div_l; [ (Qconstants; lra) | ]. (Qconstants; nra). }
    split; [ | exact Ht ]. split.
    + apply Qle_shift_div_l; [ exact Hw | ]. (Qconstants; nra).
    + apply Qle_shift_div_r; [ exact Hw | ]. (Qconstants; nra).
  - assert (Ht : (t <= 0)%Q).
    { unfold t. apply Qle_shift_div_r; [ (Qconstants; lra) | ]. (Qconstants; nra). }
    split; [ | exact Ht ]. split.
    + apply Qle_shift_div_l; [ exact Hw | ]. (Qconstants; nra).
    + apply Qle_shift_div_r; [ exact Hw | ]. (Qconstants; nra).
Qed.

(** The bin coordinate as the code computes it (lines 71-75): the floor of a
    value that agrees with the exact bin coordinate up to one part in 2^21 and
    has its sign. *)
Lemma bin_coordinate_value :
  exists q : Q,
    bin_coordinate c (Finite w) = Qfloor q
    /\ ((0 <= c)%Q ->
        (t * (1 - (1 # 2 ^ 21)) - (1 # 2 ^ 149) <= q
         <= t * (1 + (1 # 2 ^ 21)) + (1 # 2 ^ 149))%Q
        /\ (0 <= q)%Q)
    /\ ((c <= 0)%Q ->
        (t * (1 + (1 # 2 ^ 21)) - (1 # 2 ^ 149) <= q
         <= t * (1 - (1 # 2 ^ 21)) + (1 # 2 ^ 149))%Q
        /\ (q <= 0)%Q).
Proof.
  destruct quotient_bounds as (Hw & Hpos & Hneg).
  pose proof exact_bin_range as [Ht1 Ht2].
  set (x := (c / w)%Q) in *.
  set (v := round_to binary64 x).
  set (q := round_to binary32 v).
  assert (Hqpos : (0 <= c)%Q ->
            ((t * (1 - (1 # 2 ^ 21)) - (1 # 2 ^ 149) <= q
              <= t * (1 + (1 # 2 ^ 21)) + (1 # 2 ^ 149))%Q
             /\ (0 <= q)%Q)
            /\ (0 <= v <= 4096)%Q /\ (q <= 4096)%Q).
  { intros Hc. destruct (Hpos Hc) as [[Hx1 Hx2] Ht].
    destruct (round_to_binary64_bounds x) as [H64 _].
    destruct H64 as [[Hv1 Hv2] Hv0]; [ Qconstants; lra | ]. fold v in Hv1, Hv2, Hv0.
    destruct (round_to_binary32_bounds v) as [H32 _].
    destruct H32 as [[Hq1 Hq2] Hq0]; [ Qconstants; lra | ]. fold q in Hq1, Hq2, Hq0.
    repeat split; Qconstants; lra. }
  assert (Hqneg : (c <= 0)%Q ->
            ((t * (1 + (1 # 2 ^ 21)) - (1 # 2 ^ 149) <= q
              <= t * (1 - (1 # 2 ^ 21)) + (1 # 2 ^ 149))%Q
             /\ (q <= 0)%Q)
            /\ (- 4096 <= v <= 0)%Q /\ (- 4096 <= q)%Q).
  { intros Hc. destruct (Hneg Hc) as [[Hx1 Hx2] Ht].
    destruct (round_to_binary64_bounds x) as [_ H64].
    destruct H64 as [[Hv1 Hv2] Hv0]; [ Qconstants; lra | ]. fold v in Hv1, Hv2, Hv0.
    destruct (round_to_binary32_bounds v) as [_ H32].
    destruct H32 as [[Hq1 Hq2] Hq0]; [ Qconstants; lra | ]. fold q in Hq1, Hq2, Hq0.
    repeat split; Qconstants; lra. }
  assert (Hsmall : (- 4096 <= v <= 4096)%Q /\ (- 4096 <= q <= 4096)%Q).
  { destruct (Qlt_le_dec c 0) as [Hc | Hc].
    - destruct (Hqneg (Qlt_le_weak _ _ Hc)) as ([_ Hq0] & Hv & Hq). lra.
    - destruct (Hqpos Hc) as ([_ Hq0] & Hv & Hq). lra. }
  destruct Hsmall as (Hv & Hq).
  exists q. split; [ | split; intros Hc; [ apply (Hqpos Hc) | apply (Hqneg Hc) ] ].
  unfold bin_coordinate, double_div, double_to_float, Floating_div.
  assert (Hw0 : Qeq_bool w 0 = false).
  { destruct (Qeq_bool w 0) eqn:E; [ | reflexivity ].
    apply Qeq_bool_iff in E. (Qconstants; lra). }
  rewrite Hw0. fold x.
  rewrite (Floating_of_finite binary64 x).
  2:{ fold v. apply Qle_lt_trans with 4096%Q;
        [ apply Qabs_Qle_condition; (Qconstants; lra) | cbn; reflexivity ]. }
  fold v. cbn [Floating_narrow].
  rewrite (Floating_of_finite binary32 v).
  2:{ fold q. apply Qle_lt_trans with 4096%Q;
        [ apply Qabs_Qle_condition; (Qconstants; lra) | cbn; reflexivity ]. }
  fold q. cbn [Floating_floor Floating_to_int].
  rewrite double_to_int_in_range; rewrite truncate_Z; [ reflexivity | ].
  assert (H1 : -4096 <= Qfloor q).
  { rewrite <- (Qfloor_Z (-4096)). apply Qfloor_resp_le.
    change (inject_Z (-4096)) with (- 4096)%Q. lra. }
  assert (H2 : Qfloor q <= 4096).
  { rewrite <- (Qfloor_Z 4096). apply Qfloor_resp_le.
    change (inject_Z 4096) with 4096%Q. lra. }
  unfold INT_MIN, INT_MAX. lia.
Qed.

End BinCoordinate.

Section BinCell.

Variables (size buckets_per_side : nat) (c : Q).
Hypothesis size_range : 1 <= Z.of_nat size <= 2 ^ 20.
Hypothesis buckets_range : 1 <= Z.of_nat buckets_per_side <= 2 ^ 10.

Let s : Q := inject_Z (Z.of_nat size).
Let b : Q := inject_Z (Z.of_nat buckets_per_side).
Let B : Z := Z.of_nat buckets_per_side.
Let t : Q := (c * b / s)%Q.
Let bin : Z := bin_coordinate c (bucket_width size buckets_per_side).

Lemma floor_bounds (q : Q) : (inject_Z (Qfloor q) <= q < inject_Z (Qfloor q) + 1)%Q.
Proof.
  pose proof (Qfloor_le q) as H1. pose proof (Qlt_floor q) as H2.
  rewrite inject_Z_plus in H2. change (inject_Z 1) with 1%Q in H2. split; assumption.
Qed.

Lemma floor_lt (q : Q) (n : Z) : (q < inject_Z n)%Q -> Qfloor q < n.
Proof.
  intros H. rewrite Zlt_Qlt. eapply Qle_lt_trans; [ apply Qfloor_le | exact H ].
Qed.

Lemma floor_ge (q : Q) (n : Z) : (inject_Z n <= q)%Q -> n <= Qfloor q.
Proof. intros H. rewrite <- (Qfloor_Z n). apply Qfloor_resp_le, H. Qed.

(** A coordinate at least one pixel inside the image: its bin is one of the
    [B] bins of the side, the exact one up to one part in 2^21. *)
Lemma bin_coordinate_inside :
  (0 <= c <= s - 1)%Q ->
  0 <= bin < B
  /\ (inject_Z bin <= t * (1 + (1 # 2 ^ 21)) + (1 # 2 ^ 149))%Q
  /\ (t * (1 - (1 # 2 ^ 21)) - (1 # 2 ^ 149) < inject_Z bin + 1)%Q.
Proof.
  intros [Hc1 Hc2].
  pose proof (size_bounds size size_range) as [Hs1 Hs2].
  pose proof (buckets_bounds buckets_per_side buckets_range) as [Hb1 Hb2].
  fold s in Hs1, Hs2. fold b in Hb1, Hb2.
  destruct (bucket_width_value size buckets_per_side size_range buckets_range)
    as (w & Ew & Hw).
  destruct (bin_coordinate_value size buckets_per_side w c size_range buckets_range
              Hw ltac:(fold s; Qconstants; lra)) as (q & Eq & Hpos & _).
  destruct (Hpos Hc1) as [[Hq1 Hq2] Hq0]. fold s b t in Hq1, Hq2.
  unfold bin. rewrite Ew, Eq.
  assert (Ht : (t <= b * (1 - (1 # 2 ^ 20)))%Q).
  { unfold t. apply Qle_shift_div_r; [ (Qconstants; lra) | ]. (Qconstants; nra). }
  pose proof (floor_bounds q) as [Hf1 Hf2].
  split; [ split | split ].
  - apply floor_ge. exact Hq0.
  - apply floor_lt. unfold B. fold b. Qconstants. lra.
  - Qconstants. lra.
  - Qconstants. lra.
Qed.

(** A coordinate between one pixel and one image size before the image. *)
Lemma bin_coordinate_before :
  (- s <= c <= - 1)%Q -> - B - 1 <= bin <= - 1.
Proof.
  intros [Hc1 Hc2].
  pose proof (size_bounds size size_range) as [Hs1 Hs2].
  pose proof (buckets_bounds buckets_per_side buckets_range) as [Hb1 Hb2].
  fold s in Hs1, Hs2. fold b in Hb1, Hb2.
  destruct (bucket_width_value size buckets_per_side size_range buckets_range)
    as (w & Ew & Hw).
  destruct (bin_coordinate_value size buckets_per_side w c size_range buckets_range
              Hw ltac:(fold s; Qconstants; lra)) as (q & Eq & _ & Hneg).
  destruct (Hneg ltac:(Qconstants; lra)) as [[Hq1 Hq2] Hq0]. fold s b t in Hq1, Hq2.
  unfold bin. rewrite Ew, Eq.
  assert (Ht1 : (- b <= t)%Q).
  { unfold t. apply Qle_shift_div_l; [ (Qconstants; lra) | ]. (Qconstants; nra). }
  assert (Ht2 : (t <= - (1 # 2 ^ 20))%Q).
  { unfold t. apply Qle_shift_div_r; [ (Qconstants; lra) | ]. (Qconstants; nra). }
  split.
  - apply floor_ge. unfold B.
    replace (- Z.of_nat buckets_per_side - 1) with (- Z.of_nat buckets_per_side + - 1)
      by lia.
    rewrite inject_Z_plus, inject_Z_opp. fold b.
    change (inject_Z (- 1)) with (- 1)%Q. Qconstants. lra.
  - assert (H : Qfloor q < 0) by (apply floor_lt; change (inject_Z 0) with 0%Q; (Qconstants; lra)).
    lia.
Qed.

(** A coordinate between one pixel and one image size beyond the image. *)
Lemma bin_coordinate_beyond :
  (s + 1 <= c <= 2 * s)%Q -> B <= bin <= 2 * B + 1.
Proof.
  intros [Hc1 Hc2].
  pose proof (size_bounds size size_range) as [Hs1 Hs2].
  pose proof (buckets_bounds buckets_per_side buckets_range) as [Hb1 Hb2].
  fold s in Hs1, Hs2. fold b in Hb1, Hb2.
  destruct (bucket_width_value size buckets_per_side size_range buckets_range)
    as (w & Ew & Hw).
  destruct (bin_coordinate_value size buckets_per_side w c size_range buckets_range
              Hw ltac:(fold s; Qconstants; lra)) as (q & Eq & Hpos & _).
  destruct (Hpos ltac:(Qconstants; lra)) as [[Hq1 Hq2] Hq0]. fold s b t in Hq1, Hq2.
  unfold bin. rewrite Ew, Eq.
  assert (Ht1 : (b * (1 + (1 # 2 ^ 20)) <= t)%Q).
  { unfold t. apply Qle_shift_div_l; [ (Qconstants; lra) | ]. (Qconstants; nra). }
  assert (Ht2 : (t <= 2 * b)%Q).
  { unfold t. apply Qle_shift_div_r; [ (Qconstants; lra) | ]. (Qconstants; nra). }
  split.
  - apply floor_ge. unfold B. fold b. Qconstants. lra.
  - assert (H : Qfloor q < 2 * B + 2); [ | lia ].
    apply floor_lt. unfold B. rewrite inject_Z_plus, inject_Z_mult. fold b.
    change (inject_Z 2) with 2%Q. (Qconstants; lra).
Qed.

End BinCell.

(** An index that is returned has passed both assertions. *)
Lemma compute_bin_index_Ok_range (cfg : Config) (camera : Camera) (kp : Pixel) (b : Z) :
  compute_bin_index cfg camera kp = Ok b ->
  0 <= b < Z.of_nat (kNumberOfTrackingBuckets cfg) * Z.of_nat (kNumberOfTrackingBuckets cfg).
Proof.
  unfold compute_bin_index. intros H.
  set (bin := to_int _) in H.
  apply bind_Ok_inv in H as ([] & H1 & H).
  apply bind_Ok_inv in H as ([] & H2 & H).
  apply check_Ok_inv in H1, H2.
  assert (Hb : b = bin) by congruence.
  apply Z.leb_le in H1. apply Z.ltb_lt in H2.
  pose proof (to_int_le_nonneg
                (Z.of_nat (kNumberOfTrackingBuckets cfg)
                 * Z.of_nat (kNumberOfTrackingBuckets cfg)) ltac:(nia)).
  lia.
Qed.




(** ** Triangulation (triangulation.h) *)

Section TriangulationFacts.

Import Triangulation TriangulationTerms.

Variable qr_rank : Q -> list (list Q) -> nat.
Variable qr_solve : Q -> list (list Q) -> list Q -> list Q.

Lemma solve_system_failure (n : nat) (A : list (list Q)) (b : list Q)
    (G_point G' : Vector3) :
  solve_system qr_rank qr_solve n A b G_point = (false, G') -> G' = G_point.
Proof.
  unfold solve_system.
  destruct (size_t_sub (qr_rank kRankLossTolerance A) n <? 3); intros H;
    [ injection H as <-; reflexivity | discriminate ].
Qed.

Lemma single_camera_outcome (measurements : list Pixel)
    (T_G_B : list Transformation) (T_B_C : Transformation)
    (G_point G' : Vector3) (r : TriangulationResult) :
  linearTriangulateFromNViews qr_rank qr_solve measurements T_G_B T_B_C G_point
    = Ok (r, G') ->
  (status_ r = SUCCESSFUL \/ status_ r = TOO_FEW_MEASUREMENTS
   \/ status_ r = UNOBSERVABLE)
  /\ (status_ r = TOO_FEW_MEASUREMENTS <-> (length measurements < 2)%nat)
  /\ (status_ r <> SUCCESSFUL -> G' = G_point).
Proof.
  unfold linearTriangulateFromNViews. intros H.
  apply bind_Ok_inv in H as ([] & _ & H).
  destruct (Nat.ltb_spec (length measurements) 2) as [Hn | Hn].
  - injection H as <- <-. simpl. intuition lia.
  - match type of H with
    | context [solve_system ?q ?s ?n ?A ?b ?G] =>
        destruct (solve_system q s n A b G) as [[] G''] eqn:E
    end; injection H as <- <-; simpl.
    + split; [ tauto | split; [ split; [ discriminate | lia ] | congruence ] ].
    + apply solve_system_failure in E. subst G''.
      split; [ tauto | split; [ split; [ discriminate | lia ] | reflexivity ] ].
Qed.

Lemma multi_camera_outcome (measurements : list Pixel) (camera_indices : list Z)
    (T_G_B T_B_C : list Transformation) (G_point G' : Vector3) (ok : bool) :
  linearTriangulateFromNViewsMultiCam qr_rank qr_solve measurements
    camera_indices T_G_B T_B_C G_point = Ok (ok, G') ->
  ((length measurements < 2)%nat -> ok = false)
  /\ (ok = false -> G' = G_point).
Proof.
  unfold linearTriangulateFromNViewsMultiCam. intros H.
  apply bind_Ok_inv in H as ([] & _ & H).
  apply bind_Ok_inv in H as ([] & _ & H).
  destruct (Nat.ltb_spec (length measurements) 2) as [Hn | Hn].
  - injection H as <- <-. split; reflexivity.
  - apply bind_Ok_inv in H as (Ab & _ & H).
    injection H as H. split; [ lia | ].
    intros ->. exact (solve_system_failure _ _ _ _ _ H).
Qed.

Lemma linearTriangulateFromNViews_solves (measurements : list Pixel)
    (T_G_B : list Transformation) (T_B_C : Transformation) (G_point : Vector3) :
  length measurements = length T_G_B ->
  (2 <= length measurements)%nat ->
  linearTriangulateFromNViews qr_rank qr_solve measurements T_G_B T_B_C G_point
  = Ok (status_of_flag
          (fst (solve_system qr_rank qr_solve (length measurements)
                  (fst (single_camera_system measurements T_G_B T_B_C))
                  (snd (single_camera_system measurements T_G_B T_B_C)) G_point)),
        snd (solve_system qr_rank qr_solve (length measurements)
               (fst (single_camera_system measurements T_G_B T_B_C))
               (snd (single_camera_system measurements T_G_B T_B_C)) G_point)).
Proof.
  intros Hlen Hn. unfold linearTriangulateFromNViews.
  rewrite <- Hlen, Nat.eqb_refl. cbn [check bind].
  destruct (Nat.ltb_spec (length measurements) 2) as [Hlt | _]; [ lia | ].
  unfold single_camera_system. cbn [fst snd].
  destruct (solve_system _ _ _ _ _ _) as [[] G']; reflexivity.
Qed.

Lemma linearTriangulateFromNViewsMultiCam_solves (measurements : list Pixel)
    (camera_indices : list Z) (T_G_B T_B_C : list Transformation)
    (G_point : Vector3) :
  length measurements = length T_G_B ->
  length measurements = length camera_indices ->
  (2 <= length measurements)%nat ->
  linearTriangulateFromNViewsMultiCam qr_rank qr_solve measurements camera_indices
    T_G_B T_B_C G_point
  = do Ab <- multi_camera_system measurements camera_indices T_G_B T_B_C;
    Ok (solve_system qr_rank qr_solve (length measurements) (fst Ab) (snd Ab) G_point).
Proof.
  intros H1 H2 Hn. unfold linearTriangulateFromNViewsMultiCam.
  rewrite <- H1, <- H2, Nat.eqb_refl. cbn [check bind].
  destruct (Nat.ltb_spec (length measurements) 2) as [Hlt | _]; [ lia | ].
  reflexivity.
Qed.

(** The rank test of lines 112-115 and 168-171 inside its intended range. *)
Lemma solve_system_rank_loss (n : nat) (A : list (list Q)) (b : list Q)
    (G_point : Vector3) :
  (n <= qr_rank kRankLossTolerance A < n + 3)%nat ->
  solve_system qr_rank qr_solve n A b G_point = (false, G_point).
Proof.
  intros Hrank. unfold solve_system, size_t_sub.
  rewrite Z.mod_small by lia.
  destruct (Z.ltb_spec (Z.of_nat (qr_rank kRankLossTolerance A) - Z.of_nat n) 3);
    [ reflexivity | lia ].
Qed.

End TriangulationFacts.

(** C8 (amended).  The single-camera routine, given as many poses as
    measurements and fewer than two of them, returns the status tag
    [TOO_FEW_MEASUREMENTS]; given at least two and a system whose reported
    rank exceeds the number of measurements by 0, 1 or 2, it returns
    [UNOBSERVABLE]; whatever it returns is [SUCCESSFUL],
    [TOO_FEW_MEASUREMENTS] or [UNOBSERVABLE], and a status other than
    [SUCCESSFUL] comes with the output point as it was.  The multi-camera
    routine returns a [bool]: with consistent sizes it returns [false] for
    fewer than two measurements, and for at least two when the fill loop
    completes and the reported rank exceeds the number of measurements by 0,
    1 or 2; whenever it returns [false] the output point is as it was. *)
Theorem triangulation_non_success
    (qr_rank : Q -> list (list Q) -> nat)
    (qr_solve : Q -> list (list Q) -> list Q -> list Q)
    (measurements : list Pixel) (camera_indices : list Z)
    (T_G_B : list Triangulation.Transformation)
    (T_B_C : Triangulation.Transformation)
    (T_B_C_set : list Triangulation.Transformation)
    (G_point : Triangulation.Vector3) :
  let n := length measurements in
  ((n = length T_G_B /\ (n < 2)%nat ->
    Triangulation.linearTriangulateFromNViews qr_rank qr_solve measurements
      T_G_B T_B_C G_point
    = Ok ({| Triangulation.status_ := Triangulation.TOO_FEW_MEASUREMENTS |}, G_point))
   /\ (forall rank : nat,
         n = length T_G_B /\ (2 <= n)%nat
         /\ qr_rank Triangulation.kRankLossTolerance
              (fst (TriangulationTerms.single_camera_system measurements T_G_B T_B_C))
            = rank
         /\ (n <= rank < n + 3)%nat ->
         Triangulation.linearTriangulateFromNViews qr_rank qr_solve measurements
           T_G_B T_B_C G_point
         = Ok ({| Triangulation.status_ := Triangulation.UNOBSERVABLE |}, G_point))
   /\ (forall r G',
         Triangulation.linearTriangulateFromNViews qr_rank qr_solve measurements
           T_G_B T_B_C G_point = Ok (r, G') ->
         (Triangulation.status_ r = Triangulation.SUCCESSFUL
          \/ Triangulation.status_ r = Triangulation.TOO_FEW_MEASUREMENTS
          \/ Triangulation.status_ r = Triangulation.UNOBSERVABLE)
         /\ (Triangulation.status_ r <> Triangulation.SUCCESSFUL -> G' = G_point)))
  /\
  ((n = length T_G_B /\ n = length camera_indices /\ (n < 2)%nat ->
    Triangulation.linearTriangulateFromNViewsMultiCam qr_rank qr_solve
      measurements camera_indices T_G_B T_B_C_set G_point = Ok (false, G_point))
   /\ (forall (A : list (list Q)) (b : list Q) (rank : nat),
         n = length T_G_B /\ n = length camera_indices /\ (2 <= n)%nat
         /\ TriangulationTerms.multi_camera_system measurements camera_indices
              T_G_B T_B_C_set = Ok (A, b)
         /\ qr_rank Triangulation.kRankLossTolerance A = rank
         /\ (n <= rank < n + 3)%nat ->
         Triangulation.linearTriangulateFromNViewsMultiCam qr_rank qr_solve
           measurements camera_indices T_G_B T_B_C_set G_point = Ok (false, G_point))
   /\ (forall G',
         Triangulation.linearTriangulateFromNViewsMultiCam qr_rank qr_solve
           measurements camera_indices T_G_B T_B_C_set G_point = Ok (false, G') ->
         G' = G_point)).
Proof.
  intros n. split; split; [ | split | | split ].
  - intros [Hlen Hn]. unfold Triangulation.linearTriangulateFromNViews.
    fold n. rewrite Hlen, Nat.eqb_refl. simpl. rewrite <- Hlen.
    destruct (Nat.ltb_spec n 2); [ reflexivity | lia ].
  - intros rank (Hlen & Hn & Hrank & Hloss). subst rank.
    rewrite linearTriangulateFromNViews_solves by assumption.
    rewrite solve_system_rank_loss by exact Hloss. reflexivity.
  - intros r G' H.
    destruct (single_camera_outcome _ _ _ _ _ _ _ _ H) as (H1 & _ & H3).
    split; assumption.
  - intros (Hlen & Hcam & Hn). unfold Triangulation.linearTriangulateFromNViewsMultiCam.
    fold n. rewrite <- Hlen, <- Hcam, Nat.eqb_refl. simpl.
    destruct (Nat.ltb_spec n 2); [ reflexivity | lia ].
  - intros A b rank (Hlen & Hcam & Hn & Hsys & Hrank & Hloss). subst rank.
    rewrite linearTriangulateFromNViewsMultiCam_solves by assumption.
    rewrite Hsys. cbn [bind fst snd].
    rewrite solve_system_rank_loss by exact Hloss. reflexivity.
  - intros G' H.
    exact (proj2 (multi_camera_outcome _ _ _ _ _ _ _ _ _ H) eq_refl).
Qed.

(** Two views of the same bearing from the same pose: the system has rank 4,
    two more than the number of measurements, and both routines report the
    loss of rank and leave the point alone. *)
Lemma triangulation_non_success_witness :
  Triangulation.linearTriangulateFromNViews Scenario.rank_four Scenario.no_solution
    Scenario.two_views [Scenario.identity_pose; Scenario.identity_pose]
    Scenario.identity_pose Scenario.initial_point
  = Ok ({| Triangulation.status_ := Triangulation.UNOBSERVABLE |},
        Scenario.initial_point)
  /\ Triangulation.linearTriangulateFromNViewsMultiCam Scenario.rank_four
       Scenario.no_solution Scenario.two_views [0; 0]
       [Scenario.identity_pose; Scenario.identity_pose] [Scenario.identity_pose]
       Scenario.initial_point
     = Ok (false, Scenario.initial_point).
Proof.
  destruct (triangulation_non_success Scenario.rank_four Scenario.no_solution
              Scenario.two_views [0; 0]
              [Scenario.identity_pose; Scenario.identity_pose]
              Scenario.identity_pose [Scenario.identity_pose]
              Scenario.initial_point)
    as [(_ & Hsingle & _) (_ & Hmulti & _)].
  split.
  - apply (Hsingle 4%nat).
    split; [ reflexivity | ]. split; [ cbn; lia | ].
    split; [ reflexivity | cbn; lia ].
  - eapply (Hmulti _ _ 4%nat).
    split; [ reflexivity | ]. split; [ reflexivity | ]. split; [ cbn; lia | ].
    split; [ vm_compute; reflexivity | ].
    split; [ reflexivity | cbn; lia ].
Defined.

(** C8, as stated, fails for the multi-camera routine: with a single view it
    hands back the flag [false], not the tag [TOO_FEW_MEASUREMENTS], and an
    unobservable two-view system (rank 4) hands back the same flag, so the two
    causes cannot be told apart. *)
Lemma multi_camera_returns_a_flag :
  Triangulation.returned_multi
    (Triangulation.linearTriangulateFromNViewsMultiCam
       Scenario.rank_four Scenario.no_solution Scenario.one_view [0]
       [Scenario.identity_pose] [Scenario.identity_pose] Scenario.initial_point)
  = Ok (Triangulation.ReturnedFlag false)
  /\ Triangulation.ReturnedFlag false
     <> Triangulation.ReturnedStatus Triangulation.TOO_FEW_MEASUREMENTS
  /\ Triangulation.returned_multi
       (Triangulation.linearTriangulateFromNViewsMultiCam
          Scenario.rank_four Scenario.no_solution Scenario.two_views [0; 0]
          [Scenario.identity_pose; Scenario.identity_pose]
          [Scenario.identity_pose] Scenario.initial_point)
     = Ok (Triangulation.ReturnedFlag false)
  /\ Triangulation.returned_single
       (Triangulation.linearTriangulateFromNViews
          Scenario.rank_four Scenario.no_solution Scenario.one_view
          [Scenario.identity_pose] Scenario.identity_pose Scenario.initial_point)
     = Ok (Triangulation.ReturnedStatus Triangulation.TOO_FEW_MEASUREMENTS).
Proof.
  repeat split; try (vm_compute; reflexivity). discriminate.
Qed.
(** ** Sorting by a rational key *)

Section SortByKey.

Context {sorting : StdSort} {A : Type} (key : A -> Q).

Let key_lt (a b : A) : bool := Qltb (key a) (key b).
Let key_le (a b : A) : Prop := (key a <= key b)%Q.

(** Comparing rational keys is a strict weak ordering. *)
Lemma key_lt_strict_weak (l : list A) : strict_weak_on key_lt l.
Proof.
  unfold key_lt. split.
  - intros a b _ _ H. apply Qltb_lt in H. apply Qltb_ge. apply Qlt_le_weak, H.
  - intros a b c _ _ _ H. apply Qltb_lt in H.
    destruct (Qlt_le_dec (key a) (key b)) as [Hab | Hba].
    + left. apply Qltb_lt, Hab.
    + right. apply Qltb_lt. eapply Qle_lt_trans; eassumption.
Qed.

Lemma std_sort_permutation (l : list A) : Permutation (std_sort key_lt l) l.
Proof. apply std_sort_contract, key_lt_strict_weak. Qed.

Lemma std_sort_by_key (l : list A) : StronglySorted key_le (std_sort key_lt l).
Proof.
  pose proof (proj2 (std_sort_contract A key_lt l (key_lt_strict_weak l))) as H.
  induction H as [| a s _ IH Ha]; constructor; [ exact IH | ].
  eapply Forall_impl; [ exact Ha | ].
  intros c Hc. unfold key_lt in Hc. apply Qltb_ge, Hc.
Qed.

End SortByKey.

Lemma sort_by_y_sorted {sorting : StdSort} (l : list KeypointAndIndex) :
  StronglySorted (fun a b => (row_coordinate a <= row_coordinate b)%Q) (sort_by_y l).
Proof. exact (std_sort_by_key row_coordinate l). Qed.

(** Sorting nothing gives nothing. *)
Lemma std_sort_nil {sorting : StdSort} {B : Type} (lt : B -> B -> bool) :
  std_sort lt [] = [].
Proof.
  apply Permutation_nil. symmetry.
  apply std_sort_contract. split; intros; contradiction.
Qed.

Lemma sort_by_y_permutation {sorting : StdSort} (l : list KeypointAndIndex) :
  Permutation (sort_by_y l) l.
Proof. exact (std_sort_permutation row_coordinate l). Qed.

(** ** Filters *)

Lemma filter_none {B : Type} (f : B -> bool) (l : list B) :
  Forall (fun k => f k = false) l -> List.filter f l = [].
Proof.
  induction 1 as [| k l Hk _ IH]; simpl; [ reflexivity | ].
  rewrite Hk. exact IH.
Qed.

Lemma filter_all {B : Type} (f : B -> bool) (l : list B) :
  Forall (fun k => f k = true) l -> List.filter f l = l.
Proof.
  induction 1 as [| k l Hk _ IH]; simpl; [ reflexivity | ].
  rewrite Hk, IH. reflexivity.
Qed.

(** ** The row lookup table (lines 249-258) *)

Section RowLookupTable.

Variable kps : list KeypointAndIndex.
Hypothesis kps_sorted :
  StronglySorted (fun a b => (row_coordinate a <= row_coordinate b)%Q) kps.

Let cursor_at := cursor_at kps.

Lemma above_row_mono (y y' : nat) (k : KeypointAndIndex) :
  (y <= y')%nat -> above_row y k -> above_row y' k.
Proof.
  unfold above_row. intros Hy Hk.
  eapply Qlt_le_trans; [ exact Hk | ].
  rewrite <- Zle_Qle. lia.
Qed.

Lemma from_row_sorted (y : nat) (l : list KeypointAndIndex) :
  StronglySorted (fun a b => (row_coordinate a <= row_coordinate b)%Q) l ->
  match l with [] => True | k :: _ => from_row y k end ->
  Forall (from_row y) l.
Proof.
  destruct l as [| k l]; intros Hs Hk; [ constructor | ].
  apply StronglySorted_inv in Hs as [_ Hall].
  constructor; [ exact Hk | ].
  eapply Forall_impl; [ exact Hall | ]. intros c Hc.
  unfold from_row in *. eapply Qle_trans; eassumption.
Qed.

Lemma StronglySorted_drop {B : Type} (R : B -> B -> Prop) (n : nat) (l : list B) :
  StronglySorted R l -> StronglySorted R (drop n l).
Proof.
  revert l; induction n as [| n IH]; intros [| b l] Hs; simpl; try assumption.
  apply IH. apply StronglySorted_inv in Hs. tauto.
Qed.

(** The inner while loop stops at the first keypoint that is not above the row. *)
Lemma advance_cursor_spec (y : nat) (rest : list KeypointAndIndex) (v : nat) :
  exists n : nat,
    advance_cursor y rest v = (v + n)%nat
    /\ (n <= length rest)%nat
    /\ Forall (above_row y) (take n rest)
    /\ match drop n rest with [] => True | k :: _ => from_row y k end.
Proof.
  revert v; induction rest as [| k rest IH]; intros v; simpl.
  - exists 0%nat. rewrite Nat.add_0_r. repeat split; constructor.
  - destruct (Qltb (row_coordinate k) (inject_Z (Z.of_nat y))) eqn:E;
      unfold row_coordinate in E; rewrite E.
    + destruct (IH (S v)) as (n & Hv & Hn & Hbefore & Hafter).
      exists (S n). simpl. repeat split.
      * rewrite Hv. lia.
      * lia.
      * constructor; [ apply Qltb_lt, E | exact Hbefore ].
      * exact Hafter.
    + exists 0%nat. simpl. rewrite Nat.add_0_r. repeat split.
      * lia.
      * constructor.
      * apply Qltb_ge, E.
Qed.

Lemma advance_cursor_at (y v : nat) :
  (v <= length kps)%nat ->
  Forall (above_row y) (take v kps) ->
  cursor_at y (advance_cursor y (drop v kps) v).
Proof.
  intros Hv Hbefore.
  destruct (advance_cursor_spec y (drop v kps) v) as (n & -> & Hn & Hmid & Hrest).
  rewrite length_drop in Hn.
  unfold cursor_at. repeat split.
  - lia.
  - rewrite <- take_take_drop. apply Forall_app. split; assumption.
  - rewrite <- drop_drop. apply from_row_sorted; [ | exact Hrest ].
    apply StronglySorted_drop, StronglySorted_drop, kps_sorted.
Qed.

Lemma build_corner_row_LUT_length (rows y v : nat) :
  length (build_corner_row_LUT kps rows y v) = rows.
Proof.
  revert y v; induction rows as [| rows IH]; intros y v; simpl;
    [ reflexivity | rewrite IH; reflexivity ].
Qed.

Lemma build_corner_row_LUT_spec (rows y v r : nat) :
  (v <= length kps)%nat ->
  Forall (above_row y) (take v kps) ->
  (r < rows)%nat ->
  cursor_at (y + r) (nth r (build_corner_row_LUT kps rows y v) 0%nat).
Proof.
  revert y v r; induction rows as [| rows IH]; intros y v r Hv Hbefore Hr; [ lia | ].
  pose proof (advance_cursor_at y v Hv Hbefore) as Hcur.
  simpl. destruct r as [| r].
  - rewrite Nat.add_0_r. exact Hcur.
  - replace (y + S r)%nat with (S y + r)%nat by lia.
    destruct Hcur as (Hv' & Hbefore' & _).
    apply IH; [ exact Hv' | | lia ].
    eapply Forall_impl; [ exact Hbefore' | ]. intros k. apply above_row_mono. lia.
Qed.

Lemma corner_row_LUT_spec (image_height y : nat) :
  (y < image_height)%nat ->
  cursor_at y (lut_at (corner_row_LUT kps image_height) (Z.of_nat y)).
Proof.
  intros Hy. unfold lut_at, corner_row_LUT. rewrite Nat2Z.id.
  apply (build_corner_row_LUT_spec image_height 0 0 y); [ lia | constructor | exact Hy ].
Qed.

(** Two cursors of consecutive rows enclose exactly the keypoints of the row. *)
Lemma cursors_enclose_row (y b e : nat) :
  cursor_at y b -> cursor_at (S y) e ->
  (b <= e)%nat /\ take (e - b) (drop b kps) = List.filter (in_row y) kps.
Proof.
  intros (Hb & Hb1 & Hb2) (He & He1 & He2).
  assert (Hbe : (b <= e)%nat).
  { destruct (Nat.le_gt_cases b e) as [H | H]; [ exact H | exfalso ].
    destruct (lookup_lt_is_Some_2 kps e ltac:(lia)) as [k Hk].
    rewrite Forall_lookup in Hb1, He2.
    assert (H1 : above_row y k).
    { apply (Hb1 e). rewrite lookup_take. destruct (decide (e < b)%nat); [ exact Hk | lia ]. }
    assert (H2 : from_row (S y) k).
    { apply (He2 0%nat). rewrite lookup_drop, Nat.add_0_r. exact Hk. }
    unfold above_row, from_row in *.
    assert (H3 : (inject_Z (Z.of_nat y) <= inject_Z (Z.of_nat (S y)))%Q)
      by (rewrite <- Zle_Qle; lia).
    apply (Qlt_irrefl (row_coordinate k)).
    eapply Qlt_le_trans; [ exact H1 | ]. eapply Qle_trans; eassumption. }
  split; [ exact Hbe | ].
  rewrite <- (take_drop b kps) at 2.
  rewrite <- (take_drop (e - b) (drop b kps)) at 2.
  rewrite !List.filter_app.
  rewrite (filter_none (in_row y) (take b kps)).
  2:{ eapply Forall_impl; [ exact Hb1 | ]. intros k Hk. unfold in_row.
      apply Qltb_lt in Hk. rewrite Hk. reflexivity. }
  rewrite (filter_none (in_row y) (drop (e - b) (drop b kps))).
  2:{ rewrite drop_drop. replace (b + (e - b))%nat with e by lia.
      eapply Forall_impl; [ exact He2 | ]. intros k Hk. unfold in_row.
      apply Qltb_ge in Hk. rewrite Hk. apply andb_false_r. }
  rewrite app_nil_r. simpl. symmetry. apply filter_all.
  assert (Hlo : Forall (from_row y) (take (e - b) (drop b kps)))
    by (apply Forall_take, Hb2).
  assert (Hhi : Forall (above_row (S y)) (take (e - b) (drop b kps))).
  { rewrite take_drop_commute. replace (b + (e - b))%nat with e by lia.
    apply Forall_drop, He1. }
  eapply Forall_impl; [ apply Forall_and; split; [ exact Hlo | exact Hhi ] | ].
  intros k [Hk1 Hk2]. unfold in_row. apply andb_true_intro. split.
  - apply negb_true_iff, Qltb_ge, Hk1.
  - apply Qltb_lt, Hk2.
Qed.

End RowLookupTable.
Lemma corner_row_LUT_length (kps : list KeypointAndIndex) (image_height : nat) :
  length (corner_row_LUT kps image_height) = image_height.
Proof. apply build_corner_row_LUT_length. Qed.

Lemma in_row_true (y : nat) (k : KeypointAndIndex) :
  in_row y k = true
  <-> (inject_Z (Z.of_nat y) <= row_coordinate k)%Q
      /\ (row_coordinate k < inject_Z (Z.of_nat y) + 1)%Q.
Proof.
  unfold in_row. rewrite andb_true_iff, negb_true_iff, Qltb_ge, Qltb_lt.
  replace (Z.of_nat (S y)) with (Z.of_nat y + 1) by lia.
  rewrite inject_Z_plus. reflexivity.
Qed.

Lemma In_index_keypoints (kps : list Pixel) (p : Pixel) (j : nat) :
  In {| measurement := p; index := j |} (index_keypoints kps) <-> kps !! j = Some p.
Proof.
  unfold index_keypoints. rewrite <- list_elem_of_In, list_elem_of_lookup. split.
  - intros (i & Hi). rewrite list_lookup_imap in Hi.
    destruct (kps !! i) as [q |] eqn:E; simpl in Hi; [ | discriminate ].
    injection Hi as -> ->. exact E.
  - intros Hj. exists j. rewrite list_lookup_imap, Hj. reflexivity.
Qed.

(** C6 (amended).  For every integer row [y] with [y + 1 <= H - 1], the query
    for the row interval [y, y] returns the range of the sorted keypoints that
    holds exactly the current keypoints whose y coordinate lies in
    [y, y + 1): keypoint [j] with measurement [p] is in the range if and only
    if [y <= p.y < y + 1]. *)
Theorem row_query_returns_row {sorting : StdSort} (current_kps : list Pixel) (image_height y : nat) :
  (S y < image_height)%nat ->
  let sorted := sort_by_y (index_keypoints current_kps) in
  let lut := corner_row_LUT sorted image_height in
  let range := row_range sorted lut (Z.of_nat y) (Z.of_nat y) in
  range = List.filter (in_row y) sorted
  /\ forall (j : nat) (p : Pixel),
       In {| measurement := p; index := j |} range
       <-> current_kps !! j = Some p
           /\ (inject_Z (Z.of_nat y) <= py p)%Q
           /\ (py p < inject_Z (Z.of_nat y) + 1)%Q.
Proof.
  intros Hy sorted lut range.
  assert (Hrange : range = List.filter (in_row y) sorted).
  { unfold range, row_range, lut. rewrite corner_row_LUT_length.
    rewrite (Z.min_l (Z.of_nat y)) by lia.
    rewrite (Z.min_l (Z.of_nat y + 1)) by lia.
    replace (Z.of_nat y + 1) with (Z.of_nat (S y)) by lia.
    apply cursors_enclose_row.
    - apply corner_row_LUT_spec; [ apply sort_by_y_sorted | lia ].
    - apply corner_row_LUT_spec; [ apply sort_by_y_sorted | lia ]. }
  split; [ exact Hrange | ].
  intros j p. rewrite Hrange, List.filter_In, in_row_true.
  rewrite <- In_index_keypoints. unfold sorted, row_coordinate. simpl.
  split; intros [Hin Hrow]; (split; [ | exact Hrow ]).
  - exact (Permutation_in _ (sort_by_y_permutation _) Hin).
  - exact (Permutation_in _ (Permutation_sym (sort_by_y_permutation _)) Hin).
Qed.

Lemma row_query_returns_row_witness :
  let range := row_range Scenario.grid_sorted Scenario.grid_lut 1 1 in
  range = List.filter (in_row 1) Scenario.grid_sorted
  /\ forall (j : nat) (p : Pixel),
       In {| measurement := p; index := j |} range
       <-> Scenario.grid_keypoints !! j = Some p
           /\ (inject_Z 1 <= py p)%Q /\ (py p < inject_Z 1 + 1)%Q.
Proof.
  apply (row_query_returns_row Scenario.grid_keypoints 4 1). lia.
Defined.

(** C6, as stated, fails.  In a 4-row image with keypoints at y = 3/2 and
    y = 3, the query for row 1 returns the keypoint with y = 3/2, whose y
    coordinate is not 1, and the query for the last row 3 returns nothing
    although a keypoint has y = 3. *)
Lemma row_query_is_not_exact :
  row_range Scenario.grid_sorted Scenario.grid_lut 1 1
    = [ {| measurement := (5, 3 # 2)%Q; index := 1 |} ]
  /\ ~ (py (5, 3 # 2)%Q == 1)%Q
  /\ row_range Scenario.grid_sorted Scenario.grid_lut 3 3 = []
  /\ Scenario.grid_keypoints !! 0%nat = Some (7, 3)%Q
  /\ (py (7, 3)%Q == 3)%Q.
Proof.
  repeat split; try (vm_compute; reflexivity).
  vm_compute. discriminate.
Qed.

(** ** Gyro predictor and projection status (lines 261-282, 307-312) *)

Lemma predict_keypoint_ext (camera camera' : Camera) (C : Matrix3) :
  (forall p, snd (backProject3 camera p) = snd (backProject3 camera' p)) ->
  (forall b, snd (project3 camera b) = snd (project3 camera' b)) ->
  forall p, predict_keypoint camera C p = predict_keypoint camera' C p.
Proof.
  intros Hback Hproj p. unfold predict_keypoint.
  rewrite Hback, Hproj. reflexivity.
Qed.


(** ** Bit distance kernel (lines 285-299) *)

Lemma clear_lowest_bits_from (fuel : nat) (val distance : Z) :
  clear_lowest_bits fuel val distance
  = (fst (clear_lowest_bits fuel val 0), distance + snd (clear_lowest_bits fuel val 0)).
Proof.
  revert val distance; induction fuel as [| fuel IH]; intros val distance; simpl.
  - f_equal. lia.
  - destruct (val =? 0); simpl; [ f_equal; lia | ].
    rewrite (IH _ (distance + 1)), (IH _ (0 + 1)). simpl. f_equal. lia.
Qed.

Lemma byte_loop_table : forallb byte_loop_ok (seq 0 256) = true.
Proof. vm_compute. reflexivity. Qed.

(** Eight iterations finish the loop on any byte value ([val] has become 0),
    and the loop has then counted the set bits. *)
Lemma clear_lowest_bits_done (v distance : Z) :
  0 <= v < 256 ->
  clear_lowest_bits 8 v distance = (0, distance + popcount8 v).
Proof.
  intros Hv. rewrite clear_lowest_bits_from.
  pose proof byte_loop_table as T. rewrite forallb_forall in T.
  specialize (T (Z.to_nat v)). unfold byte_loop_ok in T.
  rewrite Z2Nat.id in T by lia.
  rewrite andb_true_iff, !Z.eqb_eq in T.
  destruct T as [T1 T2]; [ apply in_seq; lia | ].
  rewrite T1, T2. reflexivity.
Qed.

Lemma byte_val_range (b : byte) : 0 <= byte_val b < 256.
Proof.
  unfold byte_val. pose proof (Byte.to_N_bounded b). lia.
Qed.

Lemma lxor_byte_range (x y : Z) : 0 <= x < 256 -> 0 <= y < 256 -> 0 <= Z.lxor x y < 256.
Proof.
  intros Hx Hy.
  assert (H0 : 0 <= Z.lxor x y) by (apply Z.lxor_nonneg; lia).
  split; [ exact H0 | ].
  destruct (Z.eq_dec (Z.lxor x y) 0) as [-> | Hne]; [ lia | ].
  change 256 with (2 ^ 8). apply Z.log2_lt_pow2; [ lia | ].
  pose proof (Z.log2_lxor x y ltac:(lia) ltac:(lia)) as Hl.
  assert (Hlx : Z.log2 x < 8).
  { destruct (Z.eq_dec x 0) as [-> | ]; [ simpl; lia | apply Z.log2_lt_pow2; lia ]. }
  assert (Hly : Z.log2 y < 8).
  { destruct (Z.eq_dec y 0) as [-> | ]; [ simpl; lia | apply Z.log2_lt_pow2; lia ]. }
  lia.
Qed.

Lemma hamming_byte_value (x y : list byte) (distance : Z) (i : nat) :
  hamming_byte x y distance i
  = distance + popcount8 (Z.lxor (byte_val (nth i x x00)) (byte_val (nth i y x00))).
Proof.
  unfold hamming_byte. rewrite clear_lowest_bits_done; [ reflexivity | ].
  apply lxor_byte_range; apply byte_val_range.
Qed.

Lemma hamming_fold_from (x y : list byte) (l : list nat) (acc : Z) :
  fold_left (hamming_byte x y) l acc = acc + fold_left (hamming_byte x y) l 0.
Proof.
  revert acc; induction l as [| i l IH]; intros acc; simpl; [ lia | ].
  rewrite (IH (hamming_byte x y acc i)), (IH (hamming_byte x y 0 i)).
  rewrite !hamming_byte_value. lia.
Qed.

Lemma hamming_fold_shift (a b : byte) (x y : list byte) (s n : nat) (acc : Z) :
  fold_left (hamming_byte (a :: x) (b :: y)) (seq (S s) n) acc
  = fold_left (hamming_byte x y) (seq s n) acc.
Proof.
  revert s acc; induction n as [| n IH]; intros s acc; simpl; [ reflexivity | ].
  rewrite IH. f_equal.
Qed.

(** On descriptors of [descriptorSizeBytes] bytes the byte loop computes the
    sum of the per-byte popcounts of the XOR. *)
Lemma hamming_sum_popcount (x y : list byte) :
  length x = length y -> hamming_sum (length x) x y = popcount_xor x y.
Proof.
  revert y; induction x as [| a x IH]; intros [| b y] Hlen; try discriminate;
    [ reflexivity | ].
  injection Hlen as Hlen. unfold hamming_sum in *. simpl length. simpl seq.
  cbn [fold_left]. rewrite hamming_fold_shift, hamming_fold_from, IH by exact Hlen.
  rewrite hamming_byte_value. simpl. lia.
Qed.

Lemma popcount_xor_not_byte (b : byte) :
  popcount8 (Z.lxor (byte_val b) (byte_val (byte_not b))) = 8.
Proof. destruct b; vm_compute; reflexivity. Qed.

Lemma popcount_xor_complement (a : list byte) :
  popcount_xor a (map byte_not a) = 8 * Z.of_nat (length a).
Proof.
  induction a as [| b a IH]; [ reflexivity | ].
  cbn [map popcount_xor length]. rewrite popcount_xor_not_byte, IH. lia.
Qed.

(** C9, evaluated on the code: for every descriptor [a], the kernel applied to
    [a] and its bytewise complement computes the distance [8 * D] and then
    fails the check [distance < D * 8] of line 297.  The claim expects the
    value [8 * D] and no error condition. *)
Theorem hammingDistance512_complement_is_fatal (a : list byte) :
  hamming_sum (length a) a (map byte_not a) = 8 * Z.of_nat (length a)
  /\ hammingDistance512 (length a) a (map byte_not a)
     = Fatal CHECK_LT_hamming_distance.
Proof.
  assert (Hsum : hamming_sum (length a) a (map byte_not a) = 8 * Z.of_nat (length a)).
  { rewrite hamming_sum_popcount by (rewrite length_map; reflexivity).
    apply popcount_xor_complement. }
  split; [ exact Hsum | ].
  unfold hammingDistance512. rewrite Hsum. unfold descriptor_bits.
  assert (Hmod : (Z.of_nat (length a) * 8) mod 2 ^ 32 <= Z.of_nat (length a) * 8)
    by (apply Z.mod_le; lia).
  destruct (Z.ltb_spec (8 * Z.of_nat (length a))
              ((Z.of_nat (length a) * 8) mod 2 ^ 32)); [ lia | reflexivity ].
Qed.

(** *** The distance the kernel returns *)

(** When the check of line 297 passes, the kernel returns the sum of the
    per-byte popcounts; it passes exactly when that sum is below the bit
    width. *)
Lemma hammingDistance512_value (a b : list byte) :
  length a = length b ->
  hammingDistance512 (length a) a b
  = if popcount_xor a b <? descriptor_bits (length a)
    then Ok (popcount_xor a b)
    else Fatal CHECK_LT_hamming_distance.
Proof.
  intros Hlen. unfold hammingDistance512.
  rewrite (hamming_sum_popcount a b Hlen).
  destruct (popcount_xor a b <? descriptor_bits (length a)); reflexivity.
Qed.

Section BitCount.

Variables x y z : Z.

Let bits (v : Z) (l : list nat) : Z :=
  fold_right (fun k acc => Z.b2z (Z.testbit v (Z.of_nat k)) + acc) 0 l.

Lemma bits_lxor_comm (l : list nat) : bits (Z.lxor x y) l = bits (Z.lxor y x) l.
Proof. rewrite Z.lxor_comm. reflexivity. Qed.

Lemma bits_lxor_self (l : list nat) : bits (Z.lxor x x) l = 0.
Proof.
  rewrite Z.lxor_nilpotent. induction l as [| k l IH]; simpl; [ reflexivity | ].
  rewrite Z.testbit_0_l. exact IH.
Qed.

Lemma bits_lxor_triangle (l : list nat) :
  bits (Z.lxor x z) l <= bits (Z.lxor x y) l + bits (Z.lxor y z) l.
Proof.
  induction l as [| k l IH]; simpl; [ lia | ].
  rewrite !Z.lxor_spec.
  destruct (Z.testbit x (Z.of_nat k)), (Z.testbit y (Z.of_nat k)),
    (Z.testbit z (Z.of_nat k)); simpl; lia.
Qed.

Lemma bits_nonneg (l : list nat) : 0 <= bits x l.
Proof.
  induction l as [| k l IH]; simpl; [ lia | ].
  destruct (Z.testbit x (Z.of_nat k)); simpl; lia.
Qed.

End BitCount.

Lemma popcount_xor_sym (a b : list byte) : popcount_xor a b = popcount_xor b a.
Proof.
  revert b; induction a as [| x a IH]; intros [| y b]; cbn [popcount_xor];
    try reflexivity.
  rewrite IH. unfold popcount8. rewrite bits_lxor_comm. reflexivity.
Qed.

Lemma popcount_xor_self (a : list byte) : popcount_xor a a = 0.
Proof.
  induction a as [| x a IH]; cbn [popcount_xor]; [ reflexivity | ].
  rewrite IH. unfold popcount8. rewrite bits_lxor_self. reflexivity.
Qed.

Lemma popcount_xor_triangle (a b c : list byte) :
  length a = length b -> length b = length c ->
  popcount_xor a c <= popcount_xor a b + popcount_xor b c.
Proof.
  revert b c; induction a as [| x a IH]; intros [| y b] [| z c] Hab Hbc;
    try discriminate; cbn [popcount_xor]; try lia.
  injection Hab as Hab. injection Hbc as Hbc.
  specialize (IH b c Hab Hbc).
  pose proof (bits_lxor_triangle (byte_val x) (byte_val y) (byte_val z) (seq 0 8)) as T.
  cbv beta zeta in T. unfold popcount8. lia.
Qed.

(** The kernel on [a] and [a]: distance 0, unless the descriptor is empty. *)
Lemma hammingDistance512_self (a : list byte) :
  0 < descriptor_bits (length a) ->
  hammingDistance512 (length a) a a = Ok 0.
Proof.
  intros Hbits. rewrite hammingDistance512_value by reflexivity.
  rewrite popcount_xor_self.
  destruct (Z.ltb_spec 0 (descriptor_bits (length a))); [ reflexivity | lia ].
Qed.

(** The kernel is symmetric, aborts included. *)
Lemma hammingDistance512_sym (a b : list byte) :
  length a = length b ->
  hammingDistance512 (length a) a b = hammingDistance512 (length b) b a.
Proof.
  intros Hlen. rewrite !hammingDistance512_value by congruence.
  rewrite (popcount_xor_sym b a), Hlen. reflexivity.
Qed.

(** Triangle inequality among the distances the kernel returns. *)
Lemma hammingDistance512_triangle (a b c : list byte) (dab dbc dac : Z) :
  length a = length b -> length b = length c ->
  hammingDistance512 (length a) a b = Ok dab ->
  hammingDistance512 (length b) b c = Ok dbc ->
  hammingDistance512 (length a) a c = Ok dac ->
  dac <= dab + dbc.
Proof.
  intros Hab Hbc. rewrite !hammingDistance512_value by congruence.
  intros H1 H2 H3.
  destruct (_ <? _) in H1; [ injection H1 as <- | discriminate ].
  destruct (_ <? _) in H2; [ injection H2 as <- | discriminate ].
  destruct (_ <? _) in H3; [ injection H3 as <- | discriminate ].
  apply popcount_xor_triangle; assumption.
Qed.

(** ** Bucketed admission (lines 60-180) *)

Lemma push_back_bucket_length (bs : list (list Z)) (b : Z) :
  length (push_back_bucket bs b) = length bs.
Proof. apply length_alter. Qed.

Lemma bucket_occupancy_push_same (bs : list (list Z)) (b : Z) :
  (Z.to_nat b < length bs)%nat ->
  bucket_occupancy (push_back_bucket bs b) b = S (bucket_occupancy bs b).
Proof.
  intros Hb. unfold bucket_occupancy, push_back_bucket.
  destruct (lookup_lt_is_Some_2 bs (Z.to_nat b) Hb) as [x Hx].
  rewrite !nth_lookup, list_lookup_alter, Hx.
  destruct (decide (Z.to_nat b = Z.to_nat b)); [ | congruence ].
  simpl. rewrite length_app. simpl. lia.
Qed.

Lemma bucket_occupancy_push_other (bs : list (list Z)) (b b' : Z) :
  Z.to_nat b <> Z.to_nat b' ->
  bucket_occupancy (push_back_bucket bs b) b' = bucket_occupancy bs b'.
Proof.
  intros Hb. unfold bucket_occupancy, push_back_bucket.
  rewrite !nth_lookup, list_lookup_alter_ne by exact Hb. reflexivity.
Qed.

(** *** New-track candidates (lines 110-126) *)

Lemma lookup_positions_from (A : Type) (l : list A) (s k : nat) :
  combine (seq s (length l)) l !! k = (fun a => ((s + k)%nat, a)) <$> l !! k.
Proof.
  revert s k; induction l as [| x l IH]; intros s k; simpl; [ reflexivity | ].
  destruct k as [| k]; simpl.
  - rewrite Nat.add_0_r. reflexivity.
  - rewrite IH. replace (S s + k)%nat with (s + S k)%nat by lia. reflexivity.
Qed.

Lemma with_positions_In (A : Type) (l : list A) (k : nat) (a : A) :
  In (k, a) (with_positions l) <-> l !! k = Some a.
Proof.
  unfold with_positions. rewrite <- list_elem_of_In, list_elem_of_lookup. split.
  - intros (i & Hi). rewrite lookup_positions_from in Hi.
    destruct (l !! i) as [x |] eqn:E; simpl in Hi; [ | discriminate ].
    injection Hi as <- <-. exact E.
  - intros Hk. exists k. rewrite lookup_positions_from, Hk. reflexivity.
Qed.

Lemma with_positions_lookup (A : Type) (l : list A) (k : nat) (a : A) :
  In (k, a) (with_positions l) -> l !! k = Some a.
Proof. apply with_positions_In. Qed.

(** The untracked positions are the positions of the matches whose current
    keypoint carries a negative id; with ids that are -1 or non-negative,
    those whose id is -1. *)
Lemma untracked_positions_spec (ids : list Z) (matches : list (nat * nat)) (k : nat) :
  In k (untracked_positions ids matches)
  <-> exists m, matches !! k = Some m /\ nth (snd m) ids (-1) < 0.
Proof.
  unfold untracked_positions. rewrite in_map_iff. split.
  - intros ([k' m] & <- & Hin). apply List.filter_In in Hin as [Hin Hid].
    exists m. split; [ exact (with_positions_lookup _ _ _ _ Hin) | ].
    apply Z.ltb_lt. exact Hid.
  - intros (m & Hm & Hid). exists (k, m). split; [ reflexivity | ].
    apply List.filter_In. split; [ apply with_positions_In; exact Hm | ].
    apply Z.ltb_lt. exact Hid.
Qed.

Lemma untracked_is_minus_one (ids : list Z) (j : nat) :
  Forall (fun id => -1 <= id) ids -> (nth j ids (-1) < 0 <-> nth j ids (-1) = -1).
Proof.
  intros Hids. assert (H : -1 <= nth j ids (-1)).
  { rewrite nth_lookup. destruct (ids !! j) as [id |] eqn:E; simpl; [ | lia ].
    rewrite Forall_lookup in Hids. exact (Hids j id E). }
  lia.
Qed.

(** The key of a candidate is never a NaN: keypoint scores are finite. *)
Lemma Floating_of_not_NaN (f : Format) (q : Q) : Floating_of f q <> NaN.
Proof. unfold Floating_of. cbv zeta. destruct (Qle_bool _ _); discriminate. Qed.

Lemma score_key_not_NaN (keypoint_score : Q) : score_key keypoint_score <> NaN.
Proof. apply Floating_of_not_NaN. Qed.

(** On keys other than NaN the comparison of line 125 is a strict weak
    ordering. *)
Lemma less_by_score_strict_weak (l : list (nat * Floating)) :
  Forall (fun c => snd c <> NaN) l -> strict_weak_on less_by_score l.
Proof.
  intros Hl. rewrite Forall_forall in Hl.
  assert (Hin : forall c, In c l -> snd c <> NaN)
    by (intros c Hc; apply Hl, list_elem_of_In, Hc).
  unfold less_by_score. split.
  - intros [i a] [j b] Ha Hb. apply Hin in Ha, Hb. cbn [snd] in *.
    destruct a as [x | [] |], b as [y | [] |];
      cbn [Floating_ltb negb andb]; try congruence.
    intros H. apply Qltb_lt in H. apply Qltb_ge, Qlt_le_weak, H.
  - intros [i a] [j b] [k c] Ha Hb Hc. apply Hin in Ha, Hb, Hc. cbn [snd] in *.
    destruct a as [x | [] |], b as [y | [] |], c as [z | [] |];
      cbn [Floating_ltb negb andb]; try congruence; try tauto.
    intros H. apply Qltb_lt in H.
    destruct (Qlt_le_dec x y) as [Hxy | Hyx].
    + left. apply Qltb_lt, Hxy.
    + right. apply Qltb_lt. eapply Qle_lt_trans; eassumption.
Qed.

Lemma collect_candidates_spec (current_frame : VisualFrame) (ids : list Z)
    (l : list (nat * (nat * nat))) (acc res : list (nat * Floating)) :
  for_each (collect_candidate current_frame ids) l acc = Ok res ->
  exists u,
    res = acc ++ u
    /\ Forall2 (records current_frame) u
         (List.filter (fun im => nth (snd (snd im)) ids (-1) <? 0) l).
Proof.
  revert acc; induction l as [| im l IH]; intros acc H; simpl in H.
  - injection H as <-. exists []. rewrite app_nil_r. split; [ reflexivity | constructor ].
  - apply bind_Ok_inv in H as (acc' & Hstep & H).
    unfold collect_candidate in Hstep.
    apply bind_Ok_inv in Hstep as (keypoint_score & Hscore & Hstep).
    apply IH in H as (u & -> & Hu). simpl.
    destruct (nth (snd (snd im)) ids (-1) <? 0); injection Hstep as <-.
    + exists ((fst im, score_key keypoint_score) :: u).
      rewrite <- app_assoc. split; [ reflexivity | ].
      constructor; [ | exact Hu ].
      split; [ reflexivity | ]. exists keypoint_score. split; [ exact Hscore | reflexivity ].
    + exists u. split; [ reflexivity | exact Hu ].
Qed.

Lemma Forall2_map_fst (current_frame : VisualFrame) (u : list (nat * Floating))
    (l : list (nat * (nat * nat))) :
  Forall2 (records current_frame) u l -> map fst u = map fst l.
Proof.
  induction 1 as [| c im u l [Hc _] _ IH]; simpl; [ reflexivity | ].
  rewrite Hc, IH. reflexivity.
Qed.

Lemma records_candidate (current_frame : VisualFrame) (ids : list Z)
    (matches : list (nat * nat)) (u : list (nat * Floating))
    (l : list (nat * (nat * nat))) :
  Forall2 (records current_frame) u l ->
  Forall (fun im => matches !! fst im = Some (snd im)
                    /\ nth (snd (snd im)) ids (-1) < 0) l ->
  Forall (is_candidate current_frame ids matches) u.
Proof.
  induction 1 as [| c im u l [Hc (keypoint_score & Hscore & Hkey)] _ IH]; intros Hl;
    [ constructor | ].
  apply Forall_cons in Hl as [[Him Hid] Hl].
  constructor; [ | exact (IH Hl) ].
  exists (snd im), keypoint_score. rewrite Hc. repeat split; assumption.
Qed.

Lemma is_candidate_key (current_frame : VisualFrame) (ids : list Z)
    (matches : list (nat * nat)) (c : nat * Floating) :
  is_candidate current_frame ids matches c -> snd c <> NaN.
Proof. intros (m & keypoint_score & _ & _ & _ & ->). apply score_key_not_NaN. Qed.

(** The candidates: one for every match whose current keypoint carries a
    negative id, keyed by the score of that keypoint as a [float], and no
    candidate has a key below that of an earlier one. *)
Lemma new_track_candidates_spec {sorting : StdSort} (current_frame : VisualFrame)
    (ids : list Z) (matches : list (nat * nat)) (candidates : list (nat * Floating)) :
  new_track_candidates current_frame ids matches = Ok candidates ->
  StronglySorted (fun a b => key_le (snd a) (snd b)) candidates
  /\ Permutation (map fst candidates) (untracked_positions ids matches)
  /\ Forall (is_candidate current_frame ids matches) candidates.
Proof.
  unfold new_track_candidates. intros H.
  apply bind_Ok_inv in H as (u & Hu & H). injection H as <-.
  apply collect_candidates_spec in Hu as (u' & -> & Hrec). simpl in Hrec.
  assert (Hu : Forall (is_candidate current_frame ids matches) u').
  { apply (records_candidate _ _ _ _ _ Hrec).
    apply Forall_forall. intros [k m] Hin.
    apply list_elem_of_In, List.filter_In in Hin as [Hin Hid].
    split; [ exact (with_positions_lookup _ _ _ _ Hin) | ].
    apply Z.ltb_lt. exact Hid. }
  assert (Hswo : strict_weak_on less_by_score u').
  { apply less_by_score_strict_weak.
    eapply Forall_impl; [ exact Hu | ]. intros c Hc.
    exact (is_candidate_key _ _ _ _ Hc). }
  destruct (std_sort_contract _ less_by_score u' Hswo) as [Hperm Hsorted].
  split; [ exact Hsorted | ]. split.
  - unfold untracked_positions. rewrite <- (Forall2_map_fst _ _ _ Hrec).
    apply Permutation_map, Hperm.
  - rewrite Forall_forall in Hu |- *. intros c Hc. apply Hu.
    apply list_elem_of_In. apply list_elem_of_In in Hc.
    exact (Permutation_in _ Hperm Hc).
Qed.

(** *** Unconditional admission (lines 128-150) *)

Lemma getKeypointMeasurement_in_range (f : VisualFrame) (kps : list Pixel) (j : nat) :
  keypoint_measurements f = Some kps -> (j < length kps)%nat ->
  exists kp, getKeypointMeasurement f j = Ok kp.
Proof.
  intros Hk Hj. unfold getKeypointMeasurement, getKeypointMeasurements, at_index.
  rewrite Hk. simpl.
  destruct (lookup_lt_is_Some_2 kps j Hj) as [kp ->]. exists kp. reflexivity.
Qed.

Lemma getKeypointScore_value (f : VisualFrame) (j : nat) (keypoint_score : Q) :
  getKeypointScore f j = Ok keypoint_score ->
  keypoint_score = nth j (keypoint_scores f) 0%Q.
Proof.
  unfold getKeypointScore, at_index. intros H. rewrite nth_lookup.
  destruct (keypoint_scores f !! j) as [x |]; [ | discriminate ].
  injection H as <-. reflexivity.
Qed.

Lemma candidate_bin_compute (cfg : Config) (camera : Camera) (f : VisualFrame)
    (matches : list (nat * nat)) (c : nat * Floating) (kp : Pixel) :
  getKeypointMeasurement f (snd (candidate_match matches c)) = Ok kp ->
  candidate_bin cfg camera f matches c = compute_bin_index cfg camera kp.
Proof. unfold candidate_bin. intros ->. reflexivity. Qed.

Lemma candidate_bin_range (cfg : Config) (camera : Camera) (f : VisualFrame)
    (matches : list (nat * nat)) (c : nat * Floating) (b : Z) :
  candidate_bin cfg camera f matches c = Ok b ->
  0 <= b < Z.of_nat (kNumberOfTrackingBuckets cfg) * Z.of_nat (kNumberOfTrackingBuckets cfg).
Proof.
  unfold candidate_bin. intros H. apply bind_Ok_inv in H as (kp & _ & H).
  exact (compute_bin_index_Ok_range _ _ _ _ H).
Qed.

(** The occupancy of a bucket after a run of [push_back]: one more for every
    entry of the run that names it. *)
Lemma occupancy_after_pushes (bins : list Z) :
  forall (bs : list (list Z)) (b : Z),
  Forall (fun b' => 0 <= b' < Z.of_nat (length bs)) bins -> 0 <= b ->
  bucket_occupancy (fold_left push_back_bucket bins bs) b
  = (bucket_occupancy bs b + admissions_into b bins)%nat.
Proof.
  induction bins as [| b' bins IH]; intros bs b Hbins Hb; cbn [fold_left].
  - unfold admissions_into. cbn. lia.
  - apply Forall_cons in Hbins as [Hb' Hbins].
    rewrite IH; [ | rewrite push_back_bucket_length; exact Hbins | exact Hb ].
    unfold admissions_into. cbn [List.filter].
    destruct (Z.eqb_spec b' b) as [-> | Hne].
    + rewrite bucket_occupancy_push_same by lia. cbn [length]. lia.
    + rewrite bucket_occupancy_push_other by lia. reflexivity.
Qed.

Lemma admit_unconditional_loop (cfg : Config) (camera : Camera)
    (current_frame : VisualFrame) (matches : list (nat * nat))
    (examined : list (nat * Floating)) :
  forall (bins : list Z) (st : AdmissionState),
  Forall (fun c =>
            (exists kp, getKeypointMeasurement current_frame
                          (snd (candidate_match matches c)) = Ok kp)
            /\ (exists keypoint_score,
                  getKeypointScore current_frame (snd (candidate_match matches c))
                  = Ok keypoint_score)) examined ->
  Forall2 (fun c b => candidate_bin cfg camera current_frame matches c = Ok b)
          (clearing (kKeypointScoreThresholdUnconditional cfg) current_frame matches
                    examined) bins ->
  for_each (admit_unconditional cfg camera current_frame matches) examined st
  = Ok {| current_track_ids := current_track_ids st;
          current_track_lengths := current_track_lengths st;
          buckets := fold_left push_back_bucket bins (buckets st);
          candidates_new_tracks :=
            candidates_new_tracks st
            ++ map (candidate_match matches)
                   (clearing (kKeypointScoreThresholdUnconditional cfg) current_frame
                             matches examined) |}.
Proof.
  induction examined as [| c examined IH]; intros bins st Hread Hbins.
  - inversion Hbins; subst. simpl. rewrite app_nil_r. destruct st; reflexivity.
  - apply Forall_cons in Hread as [[[kp Hkp] [keypoint_score Hscore]] Hread].
    cbn [for_each]. unfold admit_unconditional at 1.
    fold (candidate_match matches c). rewrite Hkp, Hscore. cbn [bind].
    unfold clearing in *. cbn [List.filter] in *.
    unfold candidate_score at 1 in Hbins. unfold candidate_score at 1.
    rewrite <- (getKeypointScore_value _ _ _ Hscore) in Hbins |- *.
    destruct (Qltb keypoint_score (kKeypointScoreThresholdUnconditional cfg));
      cbn [negb] in *.
    + cbn [bind]. exact (IH bins st Hread Hbins).
    + inversion Hbins as [| c' b l bins' Hb Hbins' ]; subst.
      rewrite (candidate_bin_compute _ _ _ _ _ _ Hkp) in Hb. rewrite Hb. cbn [bind].
      rewrite (IH bins' _ Hread Hbins'). cbn [accept_match current_track_ids
        current_track_lengths buckets candidates_new_tracks map fold_left].
      rewrite <- app_assoc. reflexivity.
Qed.

(** C4 (amended).  The new-track candidates are the matches whose current
    keypoint carries a negative id (with ids that are -1 or non-negative: the
    id -1), each once, keyed by the score of that keypoint stored as a
    [float]; after the sort no candidate has a key below that of an earlier
    one.  The unconditional loop runs over exactly the first
    [min(N_UNCONDITIONAL, number of candidates)] of them: those whose score is
    below [T_UNCOND] are skipped, every other one is appended to the accepted
    list, and a bucket grows by one for every accepted candidate that lies in
    it, whatever it holds; track ids and track lengths are left alone. *)
Theorem unconditional_admission {sorting : StdSort} (cfg : Config) (camera : Camera)
    (current_frame : VisualFrame) (kps : list Pixel) (ids : list Z)
    (matches : list (nat * nat)) (candidates : list (nat * Floating))
    (bins : list Z) (st : AdmissionState) :
  let B := kNumberOfTrackingBuckets cfg in
  let examined :=
    take (Nat.min (kNumberOfKeyPointsUseUnconditional cfg) (length candidates))
         candidates in
  let admitted :=
    clearing (kKeypointScoreThresholdUnconditional cfg) current_frame matches
             examined in
  keypoint_measurements current_frame = Some kps ->
  Forall (fun m => (snd m < length kps)%nat) matches ->
  length (buckets st) = (B * B)%nat ->
  new_track_candidates current_frame ids matches = Ok candidates ->
  Forall2 (fun c b => candidate_bin cfg camera current_frame matches c = Ok b)
          admitted bins ->
  StronglySorted (fun a b => key_le (snd a) (snd b)) candidates
  /\ Permutation (map fst candidates) (untracked_positions ids matches)
  /\ (Forall (fun id => -1 <= id) ids ->
      forall k : nat,
        In k (map fst candidates)
        <-> exists m, matches !! k = Some m /\ nth (snd m) ids (-1) = -1)
  /\ Forall (is_candidate current_frame ids matches) candidates
  /\ unconditional_slice cfg candidates = examined
  /\ exists st' : AdmissionState,
       for_each (admit_unconditional cfg camera current_frame matches)
                (unconditional_slice cfg candidates) st = Ok st'
       /\ current_track_ids st' = current_track_ids st
       /\ current_track_lengths st' = current_track_lengths st
       /\ candidates_new_tracks st'
          = candidates_new_tracks st ++ map (candidate_match matches) admitted
       /\ length (buckets st') = (B * B)%nat
       /\ Forall (fun b => 0 <= b < Z.of_nat (B * B)) bins
       /\ forall b : Z, 0 <= b ->
            bucket_occupancy (buckets st') b
            = (bucket_occupancy (buckets st) b + admissions_into b bins)%nat.
Proof.
  intros B examined admitted Hkps Hmatches Hlen Hcands Hbins.
  destruct (new_track_candidates_spec _ _ _ _ Hcands) as (Hsorted & Hperm & Hcand).
  split; [ exact Hsorted | ]. split; [ exact Hperm | ].
  split.
  { intros Hids k. split.
    - intros Hk. apply (Permutation_in _ Hperm), untracked_positions_spec in Hk
        as (m & Hm & Hid).
      exists m. split; [ exact Hm | ]. apply untracked_is_minus_one; assumption.
    - intros (m & Hm & Hid).
      apply (Permutation_in _ (Permutation_sym Hperm)), untracked_positions_spec.
      exists m. split; [ exact Hm | lia ]. }
  split; [ exact Hcand | ]. split; [ reflexivity | ].
  assert (Hrange : Forall (fun b => 0 <= b < Z.of_nat (B * B)) bins).
  { clear -Hbins. induction Hbins as [| c b l bins' Hb _ IH]; constructor;
      [ | exact IH ].
    apply candidate_bin_range in Hb. fold B in Hb. lia. }
  eexists. split.
  { apply admit_unconditional_loop; [ | exact Hbins ].
    apply Forall_take. eapply Forall_impl; [ exact Hcand | ].
    intros c (m & keypoint_score & Hm & _ & Hscore & _).
    unfold candidate_match. rewrite (nth_lookup_Some _ _ _ _ Hm).
    split; [ | exists keypoint_score; exact Hscore ].
    apply (getKeypointMeasurement_in_range _ kps); [ exact Hkps | ].
    rewrite Forall_forall in Hmatches. apply Hmatches.
    apply list_elem_of_lookup. exists (fst c). exact Hm. }
  cbn [current_track_ids current_track_lengths candidates_new_tracks buckets].
  split; [ reflexivity | ]. split; [ reflexivity | ]. split; [ reflexivity | ].
  assert (Hlen' : forall l bs, length (fold_left push_back_bucket l bs) = length bs).
  { induction l as [| x l IH]; intros bs; cbn [fold_left]; [ reflexivity | ].
    rewrite IH. apply push_back_bucket_length. }
  split; [ rewrite Hlen'; exact Hlen | ].
  split; [ exact Hrange | ].
  intros b Hb. apply occupancy_after_pushes; [ | exact Hb ].
  rewrite Hlen. exact Hrange.
Qed.

Lemma unconditional_admission_witness :
  exists st' : AdmissionState,
    for_each (admit_unconditional Scenario.config Scenario.pinhole
                Scenario.admission_frame Scenario.admission_matches)
             (unconditional_slice Scenario.config Scenario.admission_candidates)
             Scenario.admission_state = Ok st'
    /\ current_track_ids st' = Scenario.admission_ids
    /\ current_track_lengths st' = [1; 1; 1; 1]%nat
    /\ candidates_new_tracks st' = [] ++ [(3, 3)%nat]
    /\ length (buckets st') = 16%nat
    /\ Forall (fun b => 0 <= b < 16) [6]
    /\ forall b : Z, 0 <= b ->
         bucket_occupancy (buckets st') b
         = (bucket_occupancy (replicate 16 []) b + admissions_into b [6%Z])%nat.
Proof.
  refine (proj2 (proj2 (proj2 (proj2 (proj2
    (unconditional_admission Scenario.config Scenario.pinhole
       Scenario.admission_frame
       [(62, 62); (12, 10); (60, 60); (60, 35)]%Q
       Scenario.admission_ids Scenario.admission_matches
       Scenario.admission_candidates [6] Scenario.admission_state _ _ _ _ _)))))).
  - reflexivity.
  - repeat constructor.
  - reflexivity.
  - vm_compute. reflexivity.
  - repeat constructor.
Defined.

(** C4, as stated, fails.  The sort key is the score stored as a [float]: two
    candidates whose scores 20 + 2^-30 and 20 differ by less than the
    precision of a [float] carry the same key, the sort leaves them in the
    order of the matches, and the candidate with the higher score comes
    first. *)
Lemma candidates_not_ascending_by_score :
  new_track_candidates Scenario.close_scores_frame [-1; -1] [(0, 0); (1, 1)]%nat
  = Ok [(0%nat, Finite 20); (1%nat, Finite 20)]
  /\ getKeypointScore Scenario.close_scores_frame 0 = Ok (20 + (1 # 2 ^ 30))%Q
  /\ getKeypointScore Scenario.close_scores_frame 1 = Ok 20%Q
  /\ (20 < 20 + (1 # 2 ^ 30))%Q.
Proof.
  repeat split; vm_compute; reflexivity.
Qed.

(** *** Strong admission (lines 152-180) *)

Lemma admit_strong_buckets_length (cfg : Config) (camera : Camera)
    (current_frame : VisualFrame) (matches : list (nat * nat))
    (st st' : AdmissionState) (c : nat * Floating) :
  admit_strong cfg camera current_frame matches st c = Ok st' ->
  length (buckets st') = length (buckets st).
Proof.
  unfold admit_strong. intros H.
  apply bind_Ok_inv in H as (kp & _ & H).
  apply bind_Ok_inv in H as (score & _ & H).
  destruct (Qltb score (kKeypointScoreThresholdStrong cfg));
    [ injection H as <-; reflexivity | ].
  apply bind_Ok_inv in H as (b & _ & H).
  destruct (_ <? _)%nat; injection H as <-; [ | reflexivity ].
  apply push_back_bucket_length.
Qed.

Lemma strong_slice_split (cfg : Config) (candidates : list (nat * Floating)) (p : nat)
    (c : nat * Floating) :
  candidates !! p = Some c ->
  (kNumberOfKeyPointsUseUnconditional cfg <= p
   < Nat.min (kNumberOfKeyPointsUseStrong cfg) (length candidates))%nat ->
  strong_slice cfg candidates
  = drop (kNumberOfKeyPointsUseUnconditional cfg) (take p candidates)
    ++ c :: drop (S p)
              (take (Nat.min (kNumberOfKeyPointsUseStrong cfg) (length candidates))
                    candidates).
Proof.
  intros Hc Hp. unfold strong_slice.
  set (M := Nat.min (kNumberOfKeyPointsUseStrong cfg) (length candidates)) in *.
  rewrite (Nat.min_l (kNumberOfKeyPointsUseUnconditional cfg)) by lia.
  assert (Hc' : take M candidates !! p = Some c).
  { rewrite lookup_take. destruct (decide (p < M)%nat); [ exact Hc | lia ]. }
  rewrite <- (take_drop p (take M candidates)) at 1.
  rewrite take_take, (Nat.min_l p M) by lia.
  rewrite (drop_S _ _ _ Hc').
  rewrite drop_app_le; [ reflexivity | ].
  rewrite length_take. apply lookup_lt_Some in Hc. lia.
Qed.

(** The loop over the matches puts one entry into the bucket of every
    continued track, and nothing else. *)
Lemma continue_track_occupancy (cfg : Config) (camera : Camera)
    (current_frame previous_frame : VisualFrame) (previous_lengths : list nat)
    (current_num_pts : nat) (st st' : AdmissionState) (m : nat * nat) :
  length (buckets st)
  = (kNumberOfTrackingBuckets cfg * kNumberOfTrackingBuckets cfg)%nat ->
  continue_track cfg camera current_frame previous_frame previous_lengths
    current_num_pts st m = Ok st' ->
  length (buckets st') = length (buckets st)
  /\ forall b : Z, 0 <= b ->
       bucket_occupancy (buckets st') b
       = (bucket_occupancy (buckets st) b
          + if continues_into cfg camera current_frame previous_frame b m
            then 1 else 0)%nat.
Proof.
  intros Hlen H. unfold continue_track in H.
  apply bind_Ok_inv in H as ([] & _ & H).
  apply bind_Ok_inv in H as ([] & Hj & H).
  apply check_Ok_inv, Nat.ltb_lt in Hj.
  apply bind_Ok_inv in H as (previous_id & Hid & H).
  cbn [current_track_ids] in H.
  rewrite nth_lookup, list_lookup_insert_eq in H by exact Hj.
  change (0 <=? _) with (0 <=? previous_id) in H.
  unfold continues_into. rewrite Hid.
  destruct (0 <=? previous_id).
  - apply bind_Ok_inv in H as ([] & _ & H).
    apply bind_Ok_inv in H as (kp & Hkp & H).
    apply bind_Ok_inv in H as (bin_index & Hbin & H).
    injection H as <-. cbn [accept_match buckets].
    rewrite Hkp. cbn [bind]. rewrite Hbin. cbn [andb].
    pose proof (compute_bin_index_Ok_range _ _ _ _ Hbin) as Hrange.
    split; [ apply push_back_bucket_length | ].
    intros b Hb. destruct (Z.eqb_spec bin_index b) as [-> | Hne].
    + rewrite bucket_occupancy_push_same by lia. lia.
    + rewrite bucket_occupancy_push_other by lia. lia.
  - injection H as <-. cbn [buckets andb].
    split; [ reflexivity | ]. intros b _.
    destruct (do keypoint <- getKeypointMeasurement current_frame (snd m);
              compute_bin_index cfg camera keypoint); lia.
Qed.

Lemma continue_track_loop_occupancy (cfg : Config) (camera : Camera)
    (current_frame previous_frame : VisualFrame) (previous_lengths : list nat)
    (current_num_pts : nat) (matches : list (nat * nat)) :
  forall st st' : AdmissionState,
  length (buckets st)
  = (kNumberOfTrackingBuckets cfg * kNumberOfTrackingBuckets cfg)%nat ->
  for_each (continue_track cfg camera current_frame previous_frame previous_lengths
              current_num_pts) matches st = Ok st' ->
  length (buckets st') = length (buckets st)
  /\ forall b : Z, 0 <= b ->
       bucket_occupancy (buckets st') b
       = (bucket_occupancy (buckets st) b
          + continued_count_in cfg camera current_frame previous_frame matches b)%nat.
Proof.
  induction matches as [| m matches IH]; intros st st' Hlen H; cbn [for_each] in H.
  - injection H as <-. split; [ reflexivity | ].
    intros b _. unfold continued_count_in. cbn. lia.
  - apply bind_Ok_inv in H as (st1 & Hstep & H).
    destruct (continue_track_occupancy _ _ _ _ _ _ _ _ _ Hlen Hstep) as [Hlen1 Hocc1].
    destruct (IH st1 st' ltac:(rewrite Hlen1; exact Hlen) H) as [Hlen' Hocc'].
    split; [ rewrite Hlen', Hlen1; reflexivity | ].
    intros b Hb. rewrite (Hocc' b Hb), (Hocc1 b Hb).
    unfold continued_count_in. cbn [List.filter].
    destruct (continues_into cfg camera current_frame previous_frame b m);
      cbn [length]; lia.
Qed.



(** A keypoint whose column is within 2^-30 of the right edge of the 100 x 100
    image: its [float] bin coordinate is 4, so it shares bucket 4 with the
    keypoints of the first column of buckets one grid row below. *)
Lemma edge_column_shares_bucket :
  compute_bin_index Scenario.config Scenario.pinhole (100 - (1 # 2 ^ 30), 10)%Q = Ok 4
  /\ compute_bin_index Scenario.config Scenario.pinhole (10, 30)%Q = Ok 4.
Proof. split; vm_compute; reflexivity. Qed.

(** ** Track ids and track lengths (lines 82-106 and 182-211) *)

(** *** The continued-track loop *)

Lemma continue_track_writes (cfg : Config) (camera : Camera)
    (current_frame previous_frame : VisualFrame) (previous_lengths : list nat)
    (current_num_pts : nat) (st st' : AdmissionState) (m : nat * nat) :
  continue_track cfg camera current_frame previous_frame previous_lengths
    current_num_pts st m = Ok st' ->
  exists previous_id,
    track_ids previous_frame !! fst m = Some previous_id
    /\ (snd m < length (current_track_ids st))%nat
    /\ current_track_ids st' = <[snd m := previous_id]> (current_track_ids st)
    /\ current_track_lengths st'
       = <[snd m := (nth (fst m) previous_lengths 0 + 1)%nat]> (current_track_lengths st).
Proof.
  unfold continue_track. intros H.
  apply bind_Ok_inv in H as ([] & _ & H).
  apply bind_Ok_inv in H as ([] & Hj & H).
  apply check_Ok_inv, Nat.ltb_lt in Hj.
  apply bind_Ok_inv in H as (previous_id & Hid & H).
  unfold getTrackId, at_index in Hid.
  destruct (track_ids previous_frame !! fst m) as [x |] eqn:E; [ | discriminate ].
  injection Hid as ->.
  exists previous_id. split; [ reflexivity | ]. split; [ exact Hj | ].
  cbn [current_track_ids] in H.
  destruct (0 <=? nth (snd m) (<[snd m := previous_id]> (current_track_ids st)) (-1)).
  - apply bind_Ok_inv in H as ([] & _ & H).
    apply bind_Ok_inv in H as (kp & _ & H).
    apply bind_Ok_inv in H as (b & _ & H).
    injection H as <-. split; reflexivity.
  - injection H as <-. split; reflexivity.
Qed.

Lemma continue_track_loop (cfg : Config) (camera : Camera)
    (current_frame previous_frame : VisualFrame) (previous_lengths : list nat)
    (current_num_pts : nat) (matches : list (nat * nat)) :
  forall st st' : AdmissionState,
  for_each (continue_track cfg camera current_frame previous_frame
              previous_lengths current_num_pts) matches st = Ok st' ->
  length (current_track_lengths st) = length (current_track_ids st) ->
  length (current_track_ids st') = length (current_track_ids st)
  /\ length (current_track_lengths st') = length (current_track_ids st)
  /\ forall j : nat,
       match last_match_to matches j with
       | Some i =>
           exists previous_id,
             track_ids previous_frame !! i = Some previous_id
             /\ current_track_ids st' !! j = Some previous_id
             /\ current_track_lengths st' !! j
                = Some (nth i previous_lengths 0 + 1)%nat
       | None =>
           current_track_ids st' !! j = current_track_ids st !! j
           /\ current_track_lengths st' !! j = current_track_lengths st !! j
       end.
Proof.
  induction matches as [| m matches IH]; intros st st' H Hlen; simpl in H.
  - injection H as <-. repeat split; try assumption.
  - apply bind_Ok_inv in H as (st1 & Hstep & H).
    apply continue_track_writes in Hstep as (previous_id & Hid & Hj & Hids & Hlens).
    assert (Hlen1 : length (current_track_lengths st1) = length (current_track_ids st1))
      by (rewrite Hids, Hlens, !length_insert; exact Hlen).
    destruct (IH st1 st' H Hlen1) as (L1 & L2 & Hall).
    rewrite Hids, length_insert in L1, L2.
    split; [ exact L1 | ]. split; [ exact L2 | ].
    intros j. specialize (Hall j). cbn [last_match_to].
    destruct (last_match_to matches j) as [i |]; [ exact Hall | ].
    destruct Hall as [Hi Hl]. rewrite Hi, Hl, Hids, Hlens.
    destruct (Nat.eqb_spec (snd m) j) as [<- | Hne].
    + exists previous_id. split; [ exact Hid | ].
      split; apply list_lookup_insert_eq; lia.
    + split; apply list_lookup_insert_ne; exact Hne.
Qed.

(** *** The admission loops leave ids and lengths alone *)

Lemma admit_unconditional_keeps_ids (cfg : Config) (camera : Camera)
    (current_frame : VisualFrame) (matches : list (nat * nat))
    (st st' : AdmissionState) (c : nat * Floating) :
  admit_unconditional cfg camera current_frame matches st c = Ok st' ->
  current_track_ids st' = current_track_ids st
  /\ current_track_lengths st' = current_track_lengths st.
Proof.
  unfold admit_unconditional. intros H.
  apply bind_Ok_inv in H as (kp & _ & H).
  apply bind_Ok_inv in H as (score & _ & H).
  destruct (Qltb score _); [ injection H as <-; split; reflexivity | ].
  apply bind_Ok_inv in H as (b & _ & H).
  injection H as <-. split; reflexivity.
Qed.

Lemma admit_strong_keeps_ids (cfg : Config) (camera : Camera)
    (current_frame : VisualFrame) (matches : list (nat * nat))
    (st st' : AdmissionState) (c : nat * Floating) :
  admit_strong cfg camera current_frame matches st c = Ok st' ->
  current_track_ids st' = current_track_ids st
  /\ current_track_lengths st' = current_track_lengths st.
Proof.
  unfold admit_strong. intros H.
  apply bind_Ok_inv in H as (kp & _ & H).
  apply bind_Ok_inv in H as (score & _ & H).
  destruct (Qltb score _); [ injection H as <-; split; reflexivity | ].
  apply bind_Ok_inv in H as (b & _ & H).
  destruct (_ <? _)%nat; injection H as <-; split; reflexivity.
Qed.

(** *** The ledger loop *)

Lemma assign_new_id_step (num_previous : nat) (st st' : LedgerState) (m : nat * nat) :
  assign_new_id num_previous st m = Ok st' ->
  st' = st
  \/ (ledger_current_ids st !! snd m = Some (-1)
      /\ ledger_previous_ids st !! fst m = Some (-1)
      /\ ledger_current_ids st' = <[snd m := ledger_track_id st + 1]> (ledger_current_ids st)
      /\ ledger_previous_ids st' = <[fst m := ledger_track_id st + 1]> (ledger_previous_ids st)
      /\ ledger_lengths st' = <[snd m := 2%nat]> (ledger_lengths st)
      /\ ledger_track_id st' = ledger_track_id st + 1).
Proof.
  unfold assign_new_id. intros H.
  destruct (Z.eqb_spec (nth (snd m) (ledger_current_ids st) 0) (-1)) as [Hcur | _];
    [ | left; congruence ].
  apply bind_Ok_inv in H as ([] & _ & H).
  apply bind_Ok_inv in H as ([] & Hprev & H).
  apply check_Ok_inv, Z.eqb_eq in Hprev.
  injection H as <-. right. cbn.
  rewrite nth_lookup in Hcur, Hprev.
  destruct (ledger_current_ids st !! snd m) as [x |]; simpl in Hcur; [ | discriminate ].
  destruct (ledger_previous_ids st !! fst m) as [y |]; simpl in Hprev; [ | discriminate ].
  subst. repeat split; reflexivity.
Qed.

Lemma assign_new_id_loop (num_previous : nat) (accepted : list (nat * nat)) :
  forall st st' : LedgerState,
  for_each (assign_new_id num_previous) accepted st = Ok st' ->
  length (ledger_lengths st) = length (ledger_current_ids st) ->
  length (ledger_current_ids st') = length (ledger_current_ids st)
  /\ length (ledger_lengths st') = length (ledger_current_ids st)
  /\ ledger_track_id st <= ledger_track_id st'
  /\ forall j : nat,
       (ledger_current_ids st' !! j = ledger_current_ids st !! j
        /\ ledger_lengths st' !! j = ledger_lengths st !! j)
       \/ (ledger_current_ids st !! j = Some (-1)
           /\ In j (map snd accepted)
           /\ exists id,
                ledger_track_id st < id <= ledger_track_id st'
                /\ ledger_current_ids st' !! j = Some id
                /\ ledger_lengths st' !! j = Some 2%nat).
Proof.
  induction accepted as [| m accepted IH]; intros st st' H Hlen; simpl in H.
  - injection H as <-. repeat split; try assumption; try lia. intros j. left. tauto.
  - apply bind_Ok_inv in H as (st1 & Hstep & H).
    apply assign_new_id_step in Hstep
      as [-> | (Hcur & _ & Hids & _ & Hlens & Htid)].
    { destruct (IH st st' H Hlen) as (L1 & L2 & Hmono & Hall).
      repeat split; try assumption. intros j.
      destruct (Hall j) as [Hsame | (Hcur & Hin & Hnew)]; [ left; exact Hsame | ].
      right. split; [ exact Hcur | ]. split; [ right; exact Hin | exact Hnew ]. }
    assert (Hlen1 : length (ledger_lengths st1) = length (ledger_current_ids st1))
      by (rewrite Hids, Hlens, !length_insert; exact Hlen).
    destruct (IH st1 st' H Hlen1) as (L1 & L2 & Hmono & Hall).
    rewrite Hids, length_insert in L1, L2.
    split; [ exact L1 | ]. split; [ exact L2 | ]. split; [ lia | ].
    intros j. specialize (Hall j).
    assert (Hj : (snd m < length (ledger_current_ids st))%nat)
      by (apply lookup_lt_Some in Hcur; exact Hcur).
    destruct (Nat.eq_dec (snd m) j) as [<- | Hne].
    + right. split; [ exact Hcur | ]. split; [ left; reflexivity | ].
      destruct Hall as [[Hi Hl] | (_ & _ & id & Hid & Hi & Hl)].
      * exists (ledger_track_id st + 1). split; [ lia | ].
        rewrite Hi, Hl, Hids, Hlens.
        split; apply list_lookup_insert_eq; lia.
      * exists id. split; [ lia | ]. split; assumption.
    + rewrite Hids, Hlens, !list_lookup_insert_ne in Hall by exact Hne.
      destruct Hall as [Hsame | (Hcur' & Hin & id & Hid & Hi & Hl)];
        [ left; exact Hsame | ].
      right. split; [ exact Hcur' | ]. split; [ right; exact Hin | ].
      exists id. split; [ lia | ]. split; assumption.
Qed.

(** A current keypoint that is untracked when the loop starts and is the
    target of an accepted match receives a fresh id. *)
Lemma assign_new_id_loop_assigns (num_previous : nat) (accepted : list (nat * nat))
    (j : nat) :
  forall st st' : LedgerState,
  for_each (assign_new_id num_previous) accepted st = Ok st' ->
  length (ledger_lengths st) = length (ledger_current_ids st) ->
  -1 <= ledger_track_id st ->
  In j (map snd accepted) ->
  ledger_current_ids st !! j = Some (-1) ->
  exists id, ledger_track_id st < id /\ ledger_current_ids st' !! j = Some id.
Proof.
  induction accepted as [| m accepted IH]; intros st st' H Hlen Hcounter Hin Hj;
    [ destruct Hin | ].
  simpl in H. apply bind_Ok_inv in H as (st1 & Hstep & H).
  destruct (Nat.eq_dec (snd m) j) as [E | Hne].
  - (* the match writes the id of [j] *)
    pose proof Hstep as Hwrite.
    apply assign_new_id_step in Hstep
      as [-> | (_ & _ & Hids & _ & Hlens & Htid)].
    + (* it cannot be skipped: the id of [j] is -1 *)
      exfalso. unfold assign_new_id in Hwrite.
      rewrite E, (nth_lookup_Some _ _ _ _ Hj) in Hwrite.
      destruct (Z.eqb_spec (-1) (-1)) as [_ | Habs]; [ | congruence ].
      apply bind_Ok_inv in Hwrite as ([] & _ & Hwrite).
      apply bind_Ok_inv in Hwrite as ([] & _ & Hwrite).
      injection Hwrite as Hwrite.
      apply (f_equal ledger_track_id) in Hwrite. cbn in Hwrite. lia.
    + assert (Hlen1 : length (ledger_lengths st1) = length (ledger_current_ids st1))
        by (rewrite Hids, Hlens, !length_insert; exact Hlen).
      destruct (assign_new_id_loop _ _ _ _ H Hlen1) as (_ & _ & Hmono & Hall).
      assert (Hj1 : ledger_current_ids st1 !! j = Some (ledger_track_id st + 1)).
      { rewrite Hids, E. apply list_lookup_insert_eq.
        apply lookup_lt_Some in Hj. exact Hj. }
      exists (ledger_track_id st + 1). split; [ lia | ].
      destruct (Hall j) as [[Hsame _] | (Hold & _)].
      * rewrite Hsame. exact Hj1.
      * rewrite Hj1 in Hold. injection Hold as Hold. lia.
  - (* the match leaves the id of [j] alone *)
    destruct Hin as [Hin | Hin]; [ contradiction | ].
    apply assign_new_id_step in Hstep
      as [-> | (_ & _ & Hids & _ & Hlens & Htid)].
    + exact (IH st st' H Hlen Hcounter Hin Hj).
    + assert (Hlen1 : length (ledger_lengths st1) = length (ledger_current_ids st1))
        by (rewrite Hids, Hlens, !length_insert; exact Hlen).
      destruct (IH st1 st' H Hlen1 ltac:(lia) Hin) as (id & Hid & Hlook).
      { rewrite Hids, list_lookup_insert_ne by exact Hne. exact Hj. }
      exists id. split; [ lia | exact Hlook ].
Qed.

(** *** Accepted matches are matches *)

Lemma In_take (A : Type) (n : nat) (l : list A) (a : A) : In a (take n l) -> In a l.
Proof.
  intros H. rewrite <- (take_drop n l). apply in_or_app. left. exact H.
Qed.

Lemma In_drop (A : Type) (n : nat) (l : list A) (a : A) : In a (drop n l) -> In a l.
Proof.
  intros H. rewrite <- (take_drop n l). apply in_or_app. right. exact H.
Qed.

Lemma for_each_invariant_in {A S : Type} (P : S -> Prop) (body : S -> A -> outcome S)
    (l : list A) :
  (forall s a s', In a l -> P s -> body s a = Ok s' -> P s') ->
  forall s s', P s -> for_each body l s = Ok s' -> P s'.
Proof.
  induction l as [| a l IH]; simpl; intros Hstep s s' HP H.
  - injection H as <-. exact HP.
  - apply bind_Ok_inv in H as (s1 & H1 & H2).
    apply (IH (fun s a s' Hin => Hstep s a s' (or_intror Hin)) s1 s'); [ | exact H2 ].
    exact (Hstep s a s1 (or_introl eq_refl) HP H1).
Qed.

Lemma accepted_among_accept (matches : list (nat * nat)) (st : AdmissionState)
    (b : Z) (m : nat * nat) :
  accepted_among matches st -> In m matches ->
  accepted_among matches (accept_match st b m).
Proof.
  unfold accepted_among. intros Hst Hm. cbn.
  apply Forall_app. split; [ exact Hst | ]. constructor; [ exact Hm | constructor ].
Qed.

Lemma continue_track_accepted (cfg : Config) (camera : Camera)
    (current_frame previous_frame : VisualFrame) (previous_lengths : list nat)
    (current_num_pts : nat) (matches : list (nat * nat))
    (st st' : AdmissionState) (m : nat * nat) :
  In m matches -> accepted_among matches st ->
  continue_track cfg camera current_frame previous_frame previous_lengths
    current_num_pts st m = Ok st' ->
  accepted_among matches st'.
Proof.
  unfold continue_track. intros Hm Hst H.
  apply bind_Ok_inv in H as ([] & _ & H).
  apply bind_Ok_inv in H as ([] & _ & H).
  apply bind_Ok_inv in H as (previous_id & _ & H).
  destruct (0 <=? _).
  - apply bind_Ok_inv in H as ([] & _ & H).
    apply bind_Ok_inv in H as (kp & _ & H).
    apply bind_Ok_inv in H as (b & _ & H).
    injection H as <-. apply accepted_among_accept; assumption.
  - injection H as <-. exact Hst.
Qed.

Lemma candidate_match_In (current_frame : VisualFrame) (ids : list Z)
    (matches : list (nat * nat)) (c : nat * Floating) :
  is_candidate current_frame ids matches c -> In (candidate_match matches c) matches.
Proof.
  intros (m & keypoint_score & Hm & _). unfold candidate_match.
  rewrite (nth_lookup_Some _ _ _ _ Hm).
  apply list_elem_of_In, list_elem_of_lookup. exists (fst c). exact Hm.
Qed.

Lemma admit_unconditional_accepted (cfg : Config) (camera : Camera)
    (current_frame : VisualFrame) (ids : list Z) (matches : list (nat * nat))
    (st st' : AdmissionState) (c : nat * Floating) :
  is_candidate current_frame ids matches c -> accepted_among matches st ->
  admit_unconditional cfg camera current_frame matches st c = Ok st' ->
  accepted_among matches st'.
Proof.
  unfold admit_unconditional. intros Hc Hst H.
  apply bind_Ok_inv in H as (kp & _ & H).
  apply bind_Ok_inv in H as (score & _ & H).
  destruct (Qltb score _); [ injection H as <-; exact Hst | ].
  apply bind_Ok_inv in H as (b & _ & H).
  injection H as <-. apply accepted_among_accept; [ exact Hst | ].
  exact (candidate_match_In _ _ _ _ Hc).
Qed.

Lemma admit_strong_accepted (cfg : Config) (camera : Camera)
    (current_frame : VisualFrame) (ids : list Z) (matches : list (nat * nat))
    (st st' : AdmissionState) (c : nat * Floating) :
  is_candidate current_frame ids matches c -> accepted_among matches st ->
  admit_strong cfg camera current_frame matches st c = Ok st' ->
  accepted_among matches st'.
Proof.
  unfold admit_strong. intros Hc Hst H.
  apply bind_Ok_inv in H as (kp & _ & H).
  apply bind_Ok_inv in H as (score & _ & H).
  destruct (Qltb score _); [ injection H as <-; exact Hst | ].
  apply bind_Ok_inv in H as (b & _ & H).
  destruct (_ <? _)%nat; injection H as <-; [ | exact Hst ].
  apply accepted_among_accept; [ exact Hst | ].
  exact (candidate_match_In _ _ _ _ Hc).
Qed.

Lemma last_match_to_In (matches : list (nat * nat)) (m : nat * nat) :
  In m matches -> last_match_to matches (snd m) <> None.
Proof.
  induction matches as [| m' matches IH]; simpl; [ tauto | ].
  intros [-> | Hin].
  - destruct (last_match_to matches (snd m)); [ discriminate | ].
    rewrite Nat.eqb_refl. discriminate.
  - destruct (last_match_to matches (snd m)); [ discriminate | ].
    exfalso. exact (IH Hin eq_refl).
Qed.

(** *** [addFrame] on a frame that is tracked against a previous one *)

Lemma addFrame_tracks {sorting : StdSort} (cfg : Config) (self : GyroTracker)
    (current_frame previous_frame : VisualFrame) (C_current_prev : Matrix3)
    (kps : list Pixel) :
  previous_frame_ptr_ self = Some previous_frame ->
  keypoint_measurements current_frame = Some kps ->
  kps <> [] ->
  addFrame cfg self current_frame C_current_prev
  = track_frame cfg self current_frame previous_frame C_current_prev.
Proof.
  intros Hprev Hkps Hne. unfold addFrame, hasKeypointMeasurements, getKeypointMeasurements.
  rewrite Hkps, Hprev. cbn [check bind].
  destruct kps; [ congruence | reflexivity ].
Qed.

(** The stages of a completed [track_frame], one equation each. *)
Lemma track_frame_stages {sorting : StdSort} (cfg : Config) (self : GyroTracker)
    (current_frame previous_frame : VisualFrame) (C_current_prev : Matrix3)
    (kps : list Pixel) (tracker' : GyroTracker) (previous' : option VisualFrame) :
  keypoint_measurements current_frame = Some kps ->
  track_frame cfg self current_frame previous_frame C_current_prev
    = Ok (tracker', previous') ->
  exists matches st1 candidates st2 st3 led,
    matchFeatures (camera_ self) C_current_prev current_frame previous_frame
      = Ok matches
    /\ for_each
         (continue_track cfg (camera_ self) current_frame previous_frame
            (previous_track_lengths_ self) (length kps))
         matches
         {| current_track_ids := replicate (length kps) (-1);
            current_track_lengths := replicate (length kps) 0%nat;
            buckets := replicate (kNumberOfTrackingBuckets cfg
                                  * kNumberOfTrackingBuckets cfg) [];
            candidates_new_tracks := [] |} = Ok st1
    /\ new_track_candidates current_frame (current_track_ids st1) matches
       = Ok candidates
    /\ for_each (admit_unconditional cfg (camera_ self) current_frame matches)
         (unconditional_slice cfg candidates) st1 = Ok st2
    /\ for_each (admit_strong cfg (camera_ self) current_frame matches)
         (strong_slice cfg candidates) st2 = Ok st3
    /\ for_each (assign_new_id (length (track_ids previous_frame)))
         (candidates_new_tracks st3)
         {| ledger_current_ids := current_track_ids st3;
            ledger_previous_ids := track_ids previous_frame;
            ledger_lengths := current_track_lengths st3;
            ledger_track_id := current_track_id_ self |} = Ok led
    /\ tracker'
       = {| camera_ := camera_ self;
            previous_frame_ptr_ :=
              Some (swapTrackIds current_frame (ledger_current_ids led));
            previous_track_lengths_ := ledger_lengths led;
            current_track_lengths_ := previous_track_lengths_ self;
            current_track_id_ := ledger_track_id led |}
    /\ previous' = Some (swapTrackIds previous_frame (ledger_previous_ids led)).
Proof.
  intros Hkps H. unfold track_frame in H.
  apply bind_Ok_inv in H as ([] & _ & H).
  apply bind_Ok_inv in H as ([] & _ & H).
  apply bind_Ok_inv in H as ([] & _ & H).
  apply bind_Ok_inv in H as (kps' & Hkps' & H).
  unfold getKeypointMeasurements in Hkps'. rewrite Hkps in Hkps'.
  injection Hkps' as <-.
  apply bind_Ok_inv in H as (descs & _ & H).
  apply bind_Ok_inv in H as ([] & _ & H).
  apply bind_Ok_inv in H as (matches & Hmatches & H).
  apply bind_Ok_inv in H as (st1 & Hst1 & H).
  apply bind_Ok_inv in H as (candidates & Hcands & H).
  apply bind_Ok_inv in H as (st2 & Hst2 & H).
  apply bind_Ok_inv in H as (st3 & Hst3 & H).
  apply bind_Ok_inv in H as (led & Hled & H).
  injection H as <- <-.
  exists matches, st1, candidates, st2, st3, led.
  repeat split; assumption.
Qed.

Lemma accepted_matches_stages {sorting : StdSort} (cfg : Config) (self : GyroTracker)
    (current_frame previous_frame : VisualFrame) (kps : list Pixel)
    (matches : list (nat * nat)) (st1 st2 st3 : AdmissionState)
    (candidates : list (nat * Floating)) :
  keypoint_measurements current_frame = Some kps ->
  for_each
    (continue_track cfg (camera_ self) current_frame previous_frame
       (previous_track_lengths_ self) (length kps))
    matches
    {| current_track_ids := replicate (length kps) (-1);
       current_track_lengths := replicate (length kps) 0%nat;
       buckets := replicate (kNumberOfTrackingBuckets cfg
                             * kNumberOfTrackingBuckets cfg) [];
       candidates_new_tracks := [] |} = Ok st1 ->
  new_track_candidates current_frame (current_track_ids st1) matches = Ok candidates ->
  for_each (admit_unconditional cfg (camera_ self) current_frame matches)
    (unconditional_slice cfg candidates) st1 = Ok st2 ->
  for_each (admit_strong cfg (camera_ self) current_frame matches)
    (strong_slice cfg candidates) st2 = Ok st3 ->
  accepted_matches cfg self current_frame previous_frame matches
  = Ok (candidates_new_tracks st3).
Proof.
  intros Hkps Hst1 Hcands Hst2 Hst3.
  unfold accepted_matches, getKeypointMeasurements. rewrite Hkps. cbn [bind].
  rewrite Hst1. cbn [bind]. rewrite Hcands. cbn [bind].
  rewrite Hst2. cbn [bind]. rewrite Hst3. reflexivity.
Qed.

(** C2 (amended).  After [addFrame] has processed a non-initializing frame
    (id counter at least -1), for every current keypoint [j]: a track id other
    than -1 comes with a positive length.  A keypoint that no match targets
    has id -1 and length 0.  Otherwise let [i] be the previous keypoint of the
    last match that targets [j]: if [i] carried a track id, [j] continues it
    with the previous length plus 1; if [i] was untracked, [j] receives a
    fresh id and length 2 when admission has accepted a match that targets
    [j], and keeps id -1 with the previous length plus 1 when it has not. *)
Theorem track_lengths_after_addFrame {sorting : StdSort} (cfg : Config)
    (self : GyroTracker) (current_frame previous_frame : VisualFrame)
    (C_current_prev : Matrix3) (kps : list Pixel) (tracker' : GyroTracker)
    (previous' : option VisualFrame) :
  previous_frame_ptr_ self = Some previous_frame ->
  keypoint_measurements current_frame = Some kps ->
  kps <> [] ->
  -1 <= current_track_id_ self ->
  addFrame cfg self current_frame C_current_prev = Ok (tracker', previous') ->
  exists matches accepted ids',
    matchFeatures (camera_ self) C_current_prev current_frame previous_frame
      = Ok matches
    /\ accepted_matches cfg self current_frame previous_frame matches = Ok accepted
    /\ option_map track_ids (previous_frame_ptr_ tracker') = Some ids'
    /\ length ids' = length kps
    /\ length (previous_track_lengths_ tracker') = length kps
    /\ forall (j : nat) (id : Z) (len : nat),
         ids' !! j = Some id ->
         previous_track_lengths_ tracker' !! j = Some len ->
         (id <> -1 -> (0 < len)%nat)
         /\ match last_match_to matches j with
            | None => id = -1 /\ len = 0%nat
            | Some i =>
                exists previous_id,
                  track_ids previous_frame !! i = Some previous_id
                  /\ let previous_length := nth i (previous_track_lengths_ self) 0%nat in
                     (previous_id <> -1 ->
                        id = previous_id /\ len = (previous_length + 1)%nat)
                     /\ (previous_id = -1 ->
                         (In j (map snd accepted) ->
                            current_track_id_ self < id <= current_track_id_ tracker'
                            /\ len = 2%nat)
                         /\ (~ In j (map snd accepted) ->
                               id = -1 /\ len = (previous_length + 1)%nat))
            end.
Proof.
  intros Hprev Hkps Hne Hcounter H.
  rewrite (addFrame_tracks _ _ _ _ _ _ Hprev Hkps Hne) in H.
  destruct (track_frame_stages _ _ _ _ _ _ _ _ Hkps H)
    as (matches & st1 & candidates & st2 & st3 & led
        & Hmatches & Hst1 & Hcands & Hst2 & Hst3 & Hled & -> & _).
  exists matches, (candidates_new_tracks st3), (ledger_current_ids led).
  split; [ exact Hmatches | ].
  split; [ exact (accepted_matches_stages _ _ _ _ _ _ _ _ _ _ Hkps Hst1 Hcands Hst2 Hst3) | ].
  split; [ reflexivity | ].
  (* accepted matches are matches *)
  destruct (new_track_candidates_spec _ _ _ _ Hcands) as (_ & _ & Hcand).
  rewrite Forall_forall in Hcand.
  assert (Hacc1 : accepted_among matches st1).
  { revert Hst1. apply (for_each_invariant_in (accepted_among matches));
      [ | constructor ].
    intros s a s' Hin Hs Hstep. exact (continue_track_accepted _ _ _ _ _ _ _ _ _ _ Hin Hs Hstep). }
  assert (Hacc2 : accepted_among matches st2).
  { revert Hst2. apply (for_each_invariant_in (accepted_among matches));
      [ | exact Hacc1 ].
    intros s a s' Hin Hs Hstep.
    refine (admit_unconditional_accepted _ _ _ _ _ _ _ _ _ Hs Hstep).
    apply Hcand, list_elem_of_In.
    unfold unconditional_slice in Hin. exact (In_take _ _ _ _ Hin). }
  assert (Hacc3 : accepted_among matches st3).
  { revert Hst3. apply (for_each_invariant_in (accepted_among matches));
      [ | exact Hacc2 ].
    intros s a s' Hin Hs Hstep.
    refine (admit_strong_accepted _ _ _ _ _ _ _ _ _ Hs Hstep).
    apply Hcand, list_elem_of_In.
    unfold strong_slice in Hin. exact (In_take _ _ _ _ (In_drop _ _ _ _ Hin)). }
  (* the continued-track loop *)
  apply continue_track_loop in Hst1
    as (L1 & L1' & Hstage1); [ | cbn; rewrite !length_replicate; reflexivity ].
  cbn [current_track_ids current_track_lengths] in L1, L1', Hstage1.
  rewrite length_replicate in L1, L1'.
  (* the admission loops *)
  assert (Hkeep2 : current_track_ids st2 = current_track_ids st1
                   /\ current_track_lengths st2 = current_track_lengths st1).
  { revert Hst2. apply (for_each_invariant
      (fun st => current_track_ids st = current_track_ids st1
                 /\ current_track_lengths st = current_track_lengths st1));
      [ | split; reflexivity ].
    intros s a s' [Hs1 Hs2] Hstep.
    apply admit_unconditional_keeps_ids in Hstep as [-> ->]. split; assumption. }
  assert (Hkeep3 : current_track_ids st3 = current_track_ids st1
                   /\ current_track_lengths st3 = current_track_lengths st1).
  { revert Hst3. apply (for_each_invariant
      (fun st => current_track_ids st = current_track_ids st1
                 /\ current_track_lengths st = current_track_lengths st1));
      [ | exact Hkeep2 ].
    intros s a s' [Hs1 Hs2] Hstep.
    apply admit_strong_keeps_ids in Hstep as [-> ->]. split; assumption. }
  destruct Hkeep3 as [Hids3 Hlens3]. rewrite Hids3, Hlens3 in Hled.
  (* the ledger loop *)
  pose proof Hled as Hassigns.
  apply assign_new_id_loop in Hled
    as (L5 & L5' & Hmono & Hledger); [ | cbn; lia ].
  cbn [ledger_current_ids ledger_lengths ledger_track_id] in L5, L5', Hmono, Hledger.
  cbn [previous_track_lengths_ current_track_id_].
  split; [ lia | ]. split; [ lia | ].
  intros j id len Hid Hlen.
  specialize (Hstage1 j). specialize (Hledger j).
  rewrite Hid, Hlen in Hledger.
  destruct (last_match_to matches j) as [i |] eqn:Elast.
  - destruct Hstage1 as (previous_id & Hpid & Hi1 & Hl1).
    rewrite Hi1, Hl1 in Hledger.
    destruct Hledger as [[Esame Elen] | (Eold & Hin & id' & Hrange & Eid & Elen)].
    + injection Esame as ->. injection Elen as ->.
      split; [ lia | ].
      exists previous_id. split; [ exact Hpid | ]. cbn zeta.
      split; [ intros _; split; reflexivity | ].
      intros ->. split.
      * (* an accepted match would have given [j] a fresh id *)
        intros Hin. exfalso.
        destruct (assign_new_id_loop_assigns _ _ j _ _ Hassigns) as (id' & Hfresh & Hlook).
        -- cbn. lia.
        -- cbn. exact Hcounter.
        -- exact Hin.
        -- cbn. exact Hi1.
        -- cbn in Hfresh. rewrite Hid in Hlook. injection Hlook as <-. lia.
      * intros _. split; reflexivity.
    + injection Eold as ->. injection Eid as <-. injection Elen as ->.
      split; [ lia | ].
      exists (-1). split; [ exact Hpid | ]. cbn zeta.
      split; [ intros Habs; congruence | ].
      intros _. split.
      * intros _. split; [ lia | reflexivity ].
      * intros Hnot. contradiction.
  - destruct Hstage1 as [Hi1 Hl1].
    assert (Hj : (j < length kps)%nat) by (apply lookup_lt_Some in Hid; lia).
    rewrite (proj2 (lookup_replicate _ _ _ _) (conj eq_refl Hj)) in Hi1.
    rewrite (proj2 (lookup_replicate _ _ _ _) (conj eq_refl Hj)) in Hl1.
    rewrite Hi1, Hl1 in Hledger.
    destruct Hledger as [[Esame Elen] | (_ & Hin & _)].
    + injection Esame as ->. injection Elen as ->.
      split; [ congruence | split; reflexivity ].
    + (* an unmatched keypoint is not the target of an accepted match *)
      exfalso. apply in_map_iff in Hin as (m & <- & Hm).
      unfold accepted_among in Hacc3. rewrite Forall_forall in Hacc3.
      apply list_elem_of_In, Hacc3 in Hm.
      exact (last_match_to_In _ _ Hm Elast).
Qed.

Lemma track_lengths_after_addFrame_witness :
  exists matches accepted ids',
    matchFeatures (camera_ Scenario.shared_tracker) identity3
      Scenario.shared_second Scenario.shared_held = Ok matches
    /\ accepted_matches Scenario.config Scenario.shared_tracker
         Scenario.shared_second Scenario.shared_held matches = Ok accepted
    /\ option_map track_ids (previous_frame_ptr_ Scenario.shared_tracker') = Some ids'
    /\ length ids' = 2%nat
    /\ length (previous_track_lengths_ Scenario.shared_tracker') = 2%nat
    /\ forall (j : nat) (id : Z) (len : nat),
         ids' !! j = Some id ->
         previous_track_lengths_ Scenario.shared_tracker' !! j = Some len ->
         (id <> -1 -> (0 < len)%nat)
         /\ match last_match_to matches j with
            | None => id = -1 /\ len = 0%nat
            | Some i =>
                exists previous_id,
                  track_ids Scenario.shared_held !! i = Some previous_id
                  /\ (previous_id <> -1 ->
                        id = previous_id
                        /\ len = (nth i (previous_track_lengths_ Scenario.shared_tracker)
                                      0 + 1)%nat)
                  /\ (previous_id = -1 ->
                      (In j (map snd accepted) ->
                         current_track_id_ Scenario.shared_tracker < id
                           <= current_track_id_ Scenario.shared_tracker'
                         /\ len = 2%nat)
                      /\ (~ In j (map snd accepted) ->
                            id = -1
                            /\ len = (nth i (previous_track_lengths_
                                               Scenario.shared_tracker) 0 + 1)%nat))
            end.
Proof.
  apply (track_lengths_after_addFrame Scenario.config Scenario.shared_tracker
           Scenario.shared_second Scenario.shared_held identity3
           [(50, 50); (52, 51)]%Q Scenario.shared_tracker'
           (Some (swapTrackIds Scenario.shared_held [1]))).
  - reflexivity.
  - reflexivity.
  - discriminate.
  - vm_compute. discriminate.
  - vm_compute. reflexivity.
Defined.

(** C2, as stated, fails.  A keypoint seen a second time with a response below
    both score floors is matched but not accepted: it keeps track id -1, yet
    its track length is 1 and not 0. *)
Lemma rejected_match_keeps_a_length :
  Scenario.observe
    (addFrame Scenario.config
       (Scenario.feed Scenario.cold_tracker Scenario.weak_first)
       Scenario.weak_second identity3)
  = Ok (Some [-1], [1%nat], 0, Some [-1]).
Proof. vm_compute. reflexivity. Qed.

(** ** Match search (lines 301-423), when no check fires *)

Section SearchPass.

Variables (current_frame : VisualFrame) (current_num_pts descriptorSizeBytes : nat).
Variables (previous_descriptor : list byte) (previous_predicted : Pixel).
Variables (skip_processed : bool) (bound_left bound_right radius : Z).

Let score := kernel_score current_frame descriptorSizeBytes previous_descriptor.
Let step := search_corner current_frame current_num_pts descriptorSizeBytes
              previous_descriptor previous_predicted skip_processed
              bound_left bound_right radius.
Let visited (processed : list bool) :=
  visits skip_processed bound_left bound_right processed.

(** One iteration: a corner that is not compared leaves the locals alone; a
    compared corner becomes the best one exactly when its score is strictly
    higher, and is marked. *)
Lemma search_corner_step (st st' : SearchState) (k : KeypointAndIndex) :
  step st k = Ok st' ->
  if visited (processed_current_corners st) k then
    (index k < current_num_pts)%nat
    /\ found st' = (found st || (best_score st <? score k))
    /\ best_score st' = Z.max (best_score st) (score k)
    /\ it_best st' = (if best_score st <? score k then Some k else it_best st)
    /\ processed_current_corners st'
       = <[index k := true]> (processed_current_corners st)
  else st' = st.
Proof.
  unfold step, search_corner, visited, visits, in_columns. intros H.
  destruct (skip_processed && nth (index k) (processed_current_corners st) false);
    cbn [negb andb]; [ congruence | ].
  destruct (Qltb (px (measurement k)) (inject_Z bound_left)
            || Qltb (inject_Z bound_right) (px (measurement k)));
    cbn [negb]; [ congruence | ].
  apply bind_Ok_inv in H as ([] & Hidx & H).
  apply check_Ok_inv, Nat.ltb_lt in Hidx.
  apply bind_Ok_inv in H as (d & Hd & H).
  apply bind_Ok_inv in H as (distance & Hdist & H).
  unfold hammingDistance512 in Hdist.
  apply bind_Ok_inv in Hdist as ([] & _ & Hdist). injection Hdist as <-.
  assert (Hscore : score k = 512 - hamming_sum descriptorSizeBytes previous_descriptor d)
    by (unfold score, kernel_score; rewrite Hd; reflexivity).
  rewrite <- Hscore in H.
  apply bind_Ok_inv in H as (st1 & Hst1 & H). injection H as <-.
  split; [ exact Hidx | ].
  destruct (Z.ltb_spec (best_score st) (score k)) as [Hlt | Hge].
  - apply bind_Ok_inv in Hst1 as ([] & _ & Hst1). injection Hst1 as <-. cbn.
    rewrite orb_true_r. repeat split. lia.
  - injection Hst1 as <-. cbn. rewrite orb_false_r. repeat split. lia.
Qed.

(** The loop over a range of corners with pairwise distinct indices. *)
Lemma search_pass (l : list KeypointAndIndex) :
  forall st st' : SearchState,
  NoDup (map index l) ->
  for_each step l st = Ok st' ->
  let compared := List.filter (visited (processed_current_corners st)) l in
  Forall (fun k => (index k < current_num_pts)%nat /\ score k <= best_score st')
         compared
  /\ best_score st <= best_score st'
  /\ processed_current_corners st'
     = fold_left mark compared (processed_current_corners st)
  /\ ((found st' = found st
       /\ best_score st' = best_score st
       /\ it_best st' = it_best st)
      \/ (exists l1 k l2,
            compared = l1 ++ k :: l2
            /\ found st' = true
            /\ it_best st' = Some k
            /\ best_score st' = score k
            /\ best_score st < score k
            /\ Forall (fun k' => score k' < score k) l1)).
Proof.
  induction l as [| h l IH]; intros st st' Hnodup H; cbn zeta.
  - injection H as <-. cbn.
    split; [ constructor | ]. split; [ lia | ]. split; [ reflexivity | ].
    left. repeat split; reflexivity.
  - cbn [for_each] in H. apply bind_Ok_inv in H as (st1 & Hstep & H).
    cbn [map] in Hnodup. apply NoDup_cons in Hnodup as [Hh Hnodup].
    specialize (IH st1 st' Hnodup H). cbn zeta in IH.
    apply search_corner_step in Hstep. cbn [List.filter].
    (* the corners after [h] are compared or not as they were before [h] *)
    assert (Hsame : List.filter (visited (processed_current_corners st1)) l
                    = List.filter (visited (processed_current_corners st)) l).
    { apply List.filter_ext_in. intros k Hk.
      destruct (visited (processed_current_corners st) h); [ | subst st1; reflexivity ].
      destruct Hstep as (_ & _ & _ & _ & ->).
      unfold visited, visits. f_equal. f_equal. f_equal.
      rewrite !nth_lookup, list_lookup_insert_ne; [ reflexivity | ].
      intros E. apply Hh. rewrite E. apply list_elem_of_In, in_map, Hk. }
    rewrite Hsame in IH. clear Hsame.
    destruct IH as (Hle & Hmono & Hproc & Hbest).
    destruct (visited (processed_current_corners st) h).
    + destruct Hstep as (Hidx & Hfound & Hscore & Hit & Hmark).
      split; [ constructor; [ split; [ exact Hidx | lia ] | exact Hle ] | ].
      split; [ lia | ].
      split; [ cbn [fold_left]; unfold mark at 2; rewrite <- Hmark; exact Hproc | ].
      destruct Hbest as [(F & B & I) | (l1 & k & l2 & E & F & I & B & Hlt & Hl1)].
      * destruct (Z.ltb_spec (best_score st) (score h)) as [Himp | Hno].
        -- right. exists [], h, (List.filter (visited (processed_current_corners st)) l).
           rewrite F, B, I, Hfound, Hscore, Hit, orb_true_r.
           repeat split; try constructor. lia. lia.
        -- left. rewrite F, B, I, Hfound, Hscore, Hit, orb_false_r.
           repeat split. lia.
      * right. exists (h :: l1), k, l2. rewrite E.
        repeat split; try assumption; try lia.
        constructor; [ lia | exact Hl1 ].
    + subst st1. split; [ exact Hle | ]. split; [ exact Hmono | ].
      split; [ exact Hproc | exact Hbest ].
Qed.

End SearchPass.

Lemma nth_replicate_false (n j : nat) : nth j (replicate n false) false = false.
Proof.
  rewrite nth_lookup. destruct (replicate n false !! j) as [b |] eqn:E; [ | reflexivity ].
  apply lookup_replicate in E as [-> _]. reflexivity.
Qed.

(** A corner is marked after a loop if it was marked before or a corner with
    its index was compared in the loop. *)
Lemma processed_after_pass (l : list KeypointAndIndex) :
  forall (processed : list bool) (j : nat),
  Forall (fun k => (index k < length processed)%nat) l ->
  nth j (fold_left mark l processed) false
  = existsb (fun k' => (index k' =? j)%nat) l || nth j processed false.
Proof.
  induction l as [| h l IH]; intros processed j Hl; cbn [fold_left existsb];
    [ reflexivity | ].
  apply Forall_cons in Hl as [Hh Hl].
  rewrite IH by (unfold mark; rewrite length_insert; exact Hl).
  unfold mark. rewrite (nth_lookup (<[_ := _]> _)).
  destruct (Nat.eqb_spec (index h) j) as [<- | Hne].
  - rewrite list_lookup_insert_eq by exact Hh. cbn. rewrite orb_true_r. reflexivity.
  - rewrite list_lookup_insert_ne by exact Hne. rewrite <- nth_lookup.
    rewrite orb_false_l. reflexivity.
Qed.

Lemma NoDup_index_row_range (sorted : list KeypointAndIndex) (lut : list nat)
    (row_lo row_hi : Z) :
  NoDup (map index sorted) -> NoDup (map index (row_range sorted lut row_lo row_hi)).
Proof.
  intros H. unfold row_range. rewrite <- firstn_map, <- skipn_map.
  eapply sublist_NoDup; [ | apply sublist_take ].
  eapply sublist_NoDup; [ exact H | apply sublist_drop ].
Qed.

(** The search for one previous keypoint, when it completes: the emitted
    index is that of the first best corner of the small window if one clears
    the floor there, otherwise that of the first best corner among the
    corners of the large window not compared before; nothing is emitted when
    no corner of either clears the floor. *)
Lemma search_previous_keypoint_result (image_height : nat)
    (current_frame previous_frame : VisualFrame)
    (sorted : list KeypointAndIndex) (lut : list nat)
    (descriptorSizeBytes current_num_pts : nat)
    (previous_predicted : Pixel) (i : nat) (r : option nat) :
  NoDup (map index sorted) ->
  search_previous_keypoint image_height current_frame previous_frame sorted lut
    descriptorSizeBytes current_num_pts previous_predicted i = Ok r ->
  exists previous_descriptor idxnearest idxnear,
    getDescriptor previous_frame i = Ok previous_descriptor
    /\ search_rows image_height previous_predicted min_search_radius = Ok idxnearest
    /\ search_rows image_height previous_predicted search_radius = Ok idxnear
    /\ let score := kernel_score current_frame descriptorSizeBytes previous_descriptor in
       let small := small_window sorted lut previous_predicted idxnearest in
       let large := large_window sorted lut previous_predicted idxnearest idxnear in
       match r with
       | Some j =>
           first_best score small j
           \/ (none_clears score small /\ first_best score large j)
       | None => none_clears score small /\ none_clears score large
       end.
Proof.
  intros Hnodup H. unfold search_previous_keypoint in H.
  apply bind_Ok_inv in H as (previous_descriptor & Hdesc & H).
  apply bind_Ok_inv in H as (idxnearest & Hnearest & H).
  apply bind_Ok_inv in H as (idxnear & Hnear & H).
  apply bind_Ok_inv in H as (st_small & Hsmall & H).
  apply bind_Ok_inv in H as (st_final & Hlarge & H).
  exists previous_descriptor, idxnearest, idxnear.
  split; [ exact Hdesc | ]. split; [ exact Hnearest | ]. split; [ exact Hnear | ].
  intros score small large.
  (* the small loop *)
  apply search_pass in Hsmall; [ | apply NoDup_index_row_range, Hnodup ].
  cbn zeta in Hsmall. cbn [initial_search_state processed_current_corners found
    best_score it_best] in Hsmall.
  change (List.filter _ (row_range sorted lut (fst idxnearest) (snd idxnearest)))
    with small in Hsmall.
  fold score in Hsmall.
  destruct Hsmall as (Hle_s & _ & Hproc_s & Hbest_s).
  assert (Hle_small : Forall (fun k => score k <= best_score st_small) small)
    by (eapply Forall_impl; [ exact Hle_s | ]; intros k [_ Hk]; exact Hk).
  destruct Hbest_s as [(F & B & I) | (l1 & k & l2 & E & F & I & B & Hlt & Hl1)].
  - (* nothing found in the small window *)
    rewrite F in Hlarge. cbn [found initial_search_state] in Hlarge.
    assert (Hnone : none_clears score small)
      by (unfold none_clears; rewrite <- B; exact Hle_small).
    apply search_pass in Hlarge; [ | apply NoDup_index_row_range, Hnodup ].
    cbn zeta in Hlarge. fold score in Hlarge.
    assert (Hwin : List.filter
                     (visits true
                        (bound_left previous_predicted search_radius)
                        (bound_right previous_predicted search_radius)
                        (processed_current_corners st_small))
                     (row_range sorted lut (fst idxnear) (snd idxnear))
                   = large).
    { unfold large, large_window. apply List.filter_ext. intros c.
      unfold visits. cbn [andb]. rewrite Hproc_s.
      rewrite processed_after_pass.
      - rewrite nth_replicate_false, orb_false_r. reflexivity.
      - rewrite length_replicate.
        eapply Forall_impl; [ exact Hle_s | ]. intros c' [Hc' _]. exact Hc'. }
    rewrite Hwin in Hlarge. clear Hwin.
    destruct Hlarge as (Hle_l & _ & _ & Hbest_l).
    assert (Hle_large : Forall (fun k => score k <= best_score st_final) large)
      by (eapply Forall_impl; [ exact Hle_l | ]; intros c [_ Hc]; exact Hc).
    destruct Hbest_l as [(F' & B' & I') | (l1 & k & l2 & E & F' & I' & B' & Hlt & Hl1)].
    + rewrite F', F in H. cbn in H. injection H as <-.
      split; [ exact Hnone | ]. unfold none_clears. rewrite <- B, <- B'. exact Hle_large.
    + rewrite F', I' in H. cbn in H. injection H as <-.
      right. split; [ exact Hnone | ].
      exists l1, k, l2. rewrite B' in Hle_large. rewrite B in Hlt.
      repeat split; assumption.
  - (* found in the small window: the large loop does not run *)
    rewrite F in Hlarge. injection Hlarge as <-.
    rewrite F, I in H. cbn in H. injection H as <-.
    left. exists l1, k, l2. rewrite B in Hle_small.
    repeat split; assumption.
Qed.

(** *** The first best corner is unique *)

Lemma first_best_clears (score : KeypointAndIndex -> Z) (l : list KeypointAndIndex)
    (j : nat) :
  first_best score l j -> ~ none_clears score l.
Proof.
  intros (l1 & k & l2 & -> & _ & Hk & _) Hnone.
  unfold none_clears in Hnone. apply Forall_app in Hnone as [_ Hnone].
  apply Forall_cons in Hnone as [Hnone _]. lia.
Qed.

Lemma first_best_unique (score : KeypointAndIndex -> Z) (l : list KeypointAndIndex)
    (j j' : nat) :
  first_best score l j -> first_best score l j' -> j = j'.
Proof.
  intros (l1 & k & l2 & E & <- & _ & Hmax & Hbefore)
         (l1' & k' & l2' & E' & <- & _ & Hmax' & Hbefore').
  assert (Hk : l !! length l1 = Some k) by (rewrite E; apply list_lookup_middle; reflexivity).
  assert (Hk' : l !! length l1' = Some k')
    by (rewrite E'; apply list_lookup_middle; reflexivity).
  rewrite Forall_lookup in Hmax, Hmax', Hbefore, Hbefore'.
  pose proof (Hmax _ _ Hk') as H1. pose proof (Hmax' _ _ Hk) as H2.
  destruct (Nat.lt_trichotomy (length l1) (length l1')) as [Hlt | [Heq | Hgt]].
  - exfalso. rewrite E', lookup_app_l in Hk by exact Hlt.
    pose proof (Hbefore' _ _ Hk). lia.
  - rewrite Heq, Hk' in Hk. congruence.
  - exfalso. rewrite E, lookup_app_l in Hk' by exact Hgt.
    pose proof (Hbefore _ _ Hk'). lia.
Qed.

(** *** The loop over the previous keypoints *)

Section MatchLoop.

Variables (image_height : nat) (current_frame previous_frame : VisualFrame).
Variables (sorted : list KeypointAndIndex) (lut : list nat).
Variables (descriptorSizeBytes current_num_pts : nat).
Variable C2_previous_image_points : list Pixel.

Let search (i : nat) : outcome (option nat) :=
  do previous_predicted <- at_index C2_previous_image_points i;
  search_previous_keypoint image_height current_frame previous_frame sorted lut
    descriptorSizeBytes current_num_pts previous_predicted i.

Lemma match_loop_emits (l : list nat) :
  forall acc matches : list (nat * nat),
  for_each (match_loop_body image_height current_frame previous_frame sorted lut
              descriptorSizeBytes current_num_pts C2_previous_image_points)
           l acc = Ok matches ->
  exists emitted,
    matches = acc ++ emitted
    /\ Forall (fun i => exists r, search i = Ok r) l
    /\ forall i j, In (i, j) emitted <-> In i l /\ search i = Ok (Some j).
Proof.
  induction l as [| i0 l IH]; intros acc matches H; cbn [for_each] in H.
  - injection H as <-. exists []. rewrite app_nil_r.
    split; [ reflexivity | ]. split; [ constructor | ].
    intros i j. cbn. tauto.
  - apply bind_Ok_inv in H as (acc1 & Hstep & H).
    apply IH in H as (emitted & -> & Hall & Hin).
    unfold match_loop_body in Hstep.
    apply bind_Ok_inv in Hstep as (previous_predicted & Hpred & Hstep).
    apply bind_Ok_inv in Hstep as (best & Hbest & Hstep).
    assert (Hsearch : search i0 = Ok best)
      by (unfold search; rewrite Hpred; exact Hbest).
    destruct best as [j0 |]; injection Hstep as <-.
    + exists ((i0, j0) :: emitted). rewrite <- app_assoc.
      split; [ reflexivity | ].
      split; [ constructor; [ exists (Some j0); exact Hsearch | exact Hall ] | ].
      intros i j. cbn [In]. rewrite Hin. split.
      * intros [E | [Hi Hs]]; [ injection E as <- <-; tauto | tauto ].
      * intros [[<- | Hi] Hs]; [ left; congruence | right; tauto ].
    + exists emitted. split; [ reflexivity | ].
      split; [ constructor; [ exists None; exact Hsearch | exact Hall ] | ].
      intros i j. cbn [In]. rewrite Hin. split.
      * intros [Hi Hs]. tauto.
      * intros [[<- | Hi] Hs]; [ congruence | tauto ].
Qed.

End MatchLoop.

Lemma NoDup_index_keypoints {sorting : StdSort} (kps : list Pixel) :
  NoDup (map index (sort_by_y (index_keypoints kps))).
Proof.
  rewrite (Permutation_map index (sort_by_y_permutation (index_keypoints kps))).
  apply NoDup_alt. intros i j x Hi Hj.
  change (map index (index_keypoints kps)) with (index <$> index_keypoints kps) in *.
  unfold index_keypoints in *.
  rewrite list_lookup_fmap, list_lookup_imap in Hi, Hj.
  destruct (kps !! i); destruct (kps !! j); cbn in *; congruence.
Qed.

Lemma kernel_score_popcount (current_frame : VisualFrame)
    (previous_descriptor d : list byte) (k : KeypointAndIndex) :
  getDescriptor current_frame (index k) = Ok d ->
  length previous_descriptor = length d ->
  kernel_score current_frame (length previous_descriptor) previous_descriptor k
  = 512 - popcount_xor previous_descriptor d.
Proof.
  intros Hd Hlen. unfold kernel_score. rewrite Hd.
  rewrite (hamming_sum_popcount _ _ Hlen). reflexivity.
Qed.

(** Every previous keypoint is searched once, at its predicted pixel, and the
    pairs emitted for it are the results of that search. *)
Lemma matchFeatures_searches {sorting : StdSort} (camera : Camera)
    (C_current_prev : Matrix3) (current_frame previous_frame : VisualFrame)
    (current_kps previous_kps : list Pixel) (matches : list (nat * nat)) :
  keypoint_measurements current_frame = Some current_kps ->
  keypoint_measurements previous_frame = Some previous_kps ->
  matchFeatures camera C_current_prev current_frame previous_frame = Ok matches ->
  let sorted := sort_by_y (index_keypoints current_kps) in
  let lut := corner_row_LUT sorted (imageHeight camera) in
  forall (i : nat) (p : Pixel),
    previous_kps !! i = Some p ->
    exists r : option nat,
      search_previous_keypoint (imageHeight camera) current_frame previous_frame
        sorted lut (descriptor_size_bytes current_frame) (length current_kps)
        (predict_keypoint camera C_current_prev p) i = Ok r
      /\ forall j : nat, In (i, j) matches <-> r = Some j.
Proof.
  intros Hcur Hprev H sorted lut i p Hp.
  unfold matchFeatures, getKeypointMeasurements in H. rewrite Hcur, Hprev in H.
  cbn [bind] in H. apply bind_Ok_inv in H as ([] & _ & H).
  fold sorted lut in H.
  apply match_loop_emits in H as (emitted & -> & Hall & Hin). cbn [app].
  assert (Hi : (i < length previous_kps)%nat) by (apply lookup_lt_Some in Hp; exact Hp).
  rewrite Forall_forall in Hall.
  destruct (Hall i) as [r Hr]; [ apply list_elem_of_In, in_seq; lia | ].
  assert (Hi_seq : In i (seq 0 (length previous_kps))) by (apply in_seq; lia).
  assert (Hpred : at_index (map (predict_keypoint camera C_current_prev) previous_kps) i
                  = Ok (predict_keypoint camera C_current_prev p)).
  { unfold at_index.
    change (map (predict_keypoint camera C_current_prev) previous_kps)
      with (predict_keypoint camera C_current_prev <$> previous_kps).
    rewrite list_lookup_fmap, Hp. reflexivity. }
  rewrite Hpred in Hr. cbn [bind] in Hr.
  exists r. split; [ exact Hr | ].
  intros j. rewrite Hin, Hpred. cbn [bind]. rewrite Hr. split.
  - intros [_ E]. congruence.
  - intros ->. split; [ exact Hi_seq | reflexivity ].
Qed.

Lemma search_outcome_unique (score : KeypointAndIndex -> Z)
    (small large : list KeypointAndIndex) (r : option nat) :
  search_outcome score small large r ->
  forall j : nat,
    r = Some j
    <-> first_best score small j
        \/ (none_clears score small /\ first_best score large j).
Proof.
  intros Hres j. split.
  - intros ->. exact Hres.
  - intros Hj. destruct r as [j' |]; cbn [search_outcome] in Hres.
    + f_equal. destruct Hres as [Hs | [Hn Hl]], Hj as [Hs' | [Hn' Hl']].
      * exact (first_best_unique _ _ _ _ Hs Hs').
      * exfalso. exact (first_best_clears _ _ _ Hs Hn').
      * exfalso. exact (first_best_clears _ _ _ Hs' Hn).
      * exact (first_best_unique _ _ _ _ Hl Hl').
    + exfalso. destruct Hres as [Hn Hl], Hj as [Hs' | [_ Hl']].
      * exact (first_best_clears _ _ _ Hs' Hn).
      * exact (first_best_clears _ _ _ Hl' Hl).
Qed.

Lemma search_outcome_clears (score : KeypointAndIndex -> Z)
    (small large : list KeypointAndIndex) (r : option nat) :
  search_outcome score small large r ->
  (exists j : nat, r = Some j)
  <-> Exists (fun k => 512 - kMatchingThresholdBits < score k) small
      \/ Exists (fun k => 512 - kMatchingThresholdBits < score k) large.
Proof.
  intros Hres. split.
  - intros [j ->]. cbn [search_outcome] in Hres.
    assert (Hex : forall l, first_best score l j ->
              Exists (fun k => 512 - kMatchingThresholdBits < score k) l).
    { intros l (l1 & k & l2 & -> & _ & Hk & _).
      apply Exists_app. right. constructor. exact Hk. }
    destruct Hres as [Hs | [_ Hl]]; [ left | right ]; apply Hex; assumption.
  - intros Hex. destruct r as [j |]; [ exists j; reflexivity | ].
    exfalso. destruct Hres as [Hn Hl].
    unfold none_clears in Hn, Hl. rewrite Forall_forall in Hn, Hl.
    destruct Hex as [Hex | Hex]; apply Exists_exists in Hex as (k & Hk & Hgt).
    + apply Hn in Hk. lia.
    + apply Hl in Hk. lia.
Qed.

(** X11.  The match search, when no check fires.  For every previous keypoint [i]:
    a pair [(i, j)] is emitted if and only if [j] is the index of the first
    best corner of the small window, or no corner of the small window clears
    the floor and [j] is the index of the first best corner among the corners
    of the large window that were not compared before; hence some pair
    [(i, j)] is emitted if and only if a corner of one of the two windows has
    a score above [512 - 120]. *)
Theorem matchFeatures_emits_first_best {sorting : StdSort} (camera : Camera) (C_current_prev : Matrix3)
    (current_frame previous_frame : VisualFrame)
    (current_kps previous_kps : list Pixel) (matches : list (nat * nat)) :
  keypoint_measurements current_frame = Some current_kps ->
  keypoint_measurements previous_frame = Some previous_kps ->
  matchFeatures camera C_current_prev current_frame previous_frame = Ok matches ->
  let sorted := sort_by_y (index_keypoints current_kps) in
  let lut := corner_row_LUT sorted (imageHeight camera) in
  forall (i : nat) (p : Pixel),
    previous_kps !! i = Some p ->
    let previous_predicted := predict_keypoint camera C_current_prev p in
    exists previous_descriptor idxnearest idxnear,
      getDescriptor previous_frame i = Ok previous_descriptor
      /\ search_rows (imageHeight camera) previous_predicted min_search_radius
         = Ok idxnearest
      /\ search_rows (imageHeight camera) previous_predicted search_radius
         = Ok idxnear
      /\ let score := kernel_score current_frame (descriptor_size_bytes current_frame)
                        previous_descriptor in
         let small := small_window sorted lut previous_predicted idxnearest in
         let large := large_window sorted lut previous_predicted idxnearest idxnear in
         (forall j : nat,
            In (i, j) matches
            <-> first_best score small j
                \/ (none_clears score small /\ first_best score large j))
         /\ ((exists j : nat, In (i, j) matches)
             <-> Exists (fun k => 512 - kMatchingThresholdBits < score k) small
                 \/ Exists (fun k => 512 - kMatchingThresholdBits < score k) large).
Proof.
  intros Hcur Hprev H sorted lut i p Hp previous_predicted.
  destruct (matchFeatures_searches _ _ _ _ _ _ _ Hcur Hprev H i p Hp) as (r & Hr & Hemit).
  destruct (search_previous_keypoint_result _ _ _ _ _ _ _ _ _ _
              (NoDup_index_keypoints current_kps) Hr)
    as (previous_descriptor & idxnearest & idxnear & Hdesc & Hnearest & Hnear & Hres).
  exists previous_descriptor, idxnearest, idxnear.
  split; [ exact Hdesc | ]. split; [ exact Hnearest | ]. split; [ exact Hnear | ].
  cbn zeta in Hres |- *. split.
  - intros j. rewrite Hemit. exact (search_outcome_unique _ _ _ _ Hres j).
  - etransitivity; [ | exact (search_outcome_clears _ _ _ _ Hres) ].
    split; intros [j Hj]; exists j; apply Hemit; exact Hj.
Qed.

Lemma matchFeatures_emits_first_best_example :
  let sorted := sort_by_y (index_keypoints [(51, 50)%Q]) in
  let lut := corner_row_LUT sorted 100 in
  let previous_predicted := predict_keypoint Scenario.pinhole identity3 (52, 51)%Q in
  exists previous_descriptor idxnearest idxnear,
    getDescriptor (swapTrackIds Scenario.shared_second [1; -1]) 1 = Ok previous_descriptor
    /\ search_rows 100 previous_predicted min_search_radius = Ok idxnearest
    /\ search_rows 100 previous_predicted search_radius = Ok idxnear
    /\ let score := kernel_score Scenario.shared_third 2 previous_descriptor in
       let small := small_window sorted lut previous_predicted idxnearest in
       let large := large_window sorted lut previous_predicted idxnearest idxnear in
       (forall j : nat,
          In (1%nat, j) [(0, 0); (1, 0)]%nat
          <-> first_best score small j
              \/ (none_clears score small /\ first_best score large j))
       /\ ((exists j : nat, In (1%nat, j) [(0, 0); (1, 0)]%nat)
           <-> Exists (fun k => 512 - kMatchingThresholdBits < score k) small
               \/ Exists (fun k => 512 - kMatchingThresholdBits < score k) large).
Proof.
  apply (matchFeatures_emits_first_best Scenario.pinhole identity3
           Scenario.shared_third (swapTrackIds Scenario.shared_second [1; -1])
           [(51, 50)%Q] [(50, 50); (52, 51)]%Q [(0, 0); (1, 0)]%nat 
           eq_refl eq_refl).
  - vm_compute. reflexivity.
  - reflexivity.
Defined.

(** ** Projection status and the match search (lines 261-282, 307-423) *)

(** C7 (amended).  The statuses returned by back-projection and projection
    are never consulted.  Two cameras with the same image height that write
    the same bearings and pixels, whatever statuses they report, yield the
    same outcome of the match search, so a failed projection by itself raises
    nothing.  And in every run of the match search that returns, every
    previous keypoint, whatever status its projection reported, is searched
    around the pixel the projection wrote: its row ranges are those of that
    pixel, and it contributes a match if and only if a corner of the small or
    of the large window around that pixel scores above [512 - 120]. *)
Theorem matchFeatures_ignores_projection_status {sorting : StdSort}
    (camera camera' : Camera) (C_current_prev : Matrix3)
    (current_frame previous_frame : VisualFrame) :
  imageHeight camera = imageHeight camera' ->
  (forall p, snd (backProject3 camera p) = snd (backProject3 camera' p)) ->
  (forall b, snd (project3 camera b) = snd (project3 camera' b)) ->
  matchFeatures camera C_current_prev current_frame previous_frame
  = matchFeatures camera' C_current_prev current_frame previous_frame
  /\ forall (current_kps previous_kps : list Pixel) (matches : list (nat * nat)),
       keypoint_measurements current_frame = Some current_kps ->
       keypoint_measurements previous_frame = Some previous_kps ->
       matchFeatures camera C_current_prev current_frame previous_frame = Ok matches ->
       let sorted := sort_by_y (index_keypoints current_kps) in
       let lut := corner_row_LUT sorted (imageHeight camera) in
       forall (i : nat) (p : Pixel),
         previous_kps !! i = Some p ->
         let previous_bearing := snd (backProject3 camera p) in
         let bearing_predicted := mat_vec C_current_prev previous_bearing in
         let written := snd (project3 camera bearing_predicted) in
         exists previous_descriptor idxnearest idxnear,
           getDescriptor previous_frame i = Ok previous_descriptor
           /\ search_rows (imageHeight camera) written min_search_radius = Ok idxnearest
           /\ search_rows (imageHeight camera) written search_radius = Ok idxnear
           /\ let score := kernel_score current_frame
                             (descriptor_size_bytes current_frame)
                             previous_descriptor in
              let small := small_window sorted lut written idxnearest in
              let large := large_window sorted lut written idxnearest idxnear in
              ((exists j : nat, In (i, j) matches)
               <-> Exists (fun k => 512 - kMatchingThresholdBits < score k) small
                   \/ Exists (fun k => 512 - kMatchingThresholdBits < score k) large).
Proof.
  intros Hheight Hback Hproj.
  assert (Hsame : matchFeatures camera C_current_prev current_frame previous_frame
                  = matchFeatures camera' C_current_prev current_frame previous_frame).
  { unfold matchFeatures.
    destruct (getKeypointMeasurements current_frame) as [current_kps |]; simpl;
      [ | reflexivity ].
    destruct (getKeypointMeasurements previous_frame) as [previous_kps |]; simpl;
      [ | reflexivity ].
    rewrite Hheight.
    rewrite (map_ext _ _ (predict_keypoint_ext camera camera' C_current_prev Hback Hproj)).
    reflexivity. }
  split; [ exact Hsame | ].
  intros current_kps previous_kps matches Hcur Hprev H sorted lut i p Hp
         previous_bearing bearing_predicted written.
  destruct (matchFeatures_searches _ _ _ _ _ _ _ Hcur Hprev H i p Hp) as (r & Hr & Hemit).
  change (predict_keypoint camera C_current_prev p) with written in Hr.
  destruct (search_previous_keypoint_result _ _ _ _ _ _ _ _ _ _
              (NoDup_index_keypoints current_kps) Hr)
    as (previous_descriptor & idxnearest & idxnear & Hdesc & Hnearest & Hnear & Hres).
  exists previous_descriptor, idxnearest, idxnear.
  split; [ exact Hdesc | ]. split; [ exact Hnearest | ]. split; [ exact Hnear | ].
  cbn zeta in Hres |- *.
  etransitivity; [ | exact (search_outcome_clears _ _ _ _ Hres) ].
  split; intros [j Hj]; exists j; apply Hemit; exact Hj.
Qed.

Lemma matchFeatures_ignores_projection_status_witness :
  matchFeatures Scenario.pinhole Scenario.half_turn_x
    Scenario.centre_second Scenario.centre_first
  = matchFeatures
      (with_statuses Scenario.pinhole (fun _ => true) (fun _ => KEYPOINT_VISIBLE))
      Scenario.half_turn_x Scenario.centre_second Scenario.centre_first
  /\ let sorted := sort_by_y (index_keypoints [(50, 50)%Q]) in
     let lut := corner_row_LUT sorted (imageHeight Scenario.pinhole) in
     let previous_bearing := snd (backProject3 Scenario.pinhole (50, 50)%Q) in
     let bearing_predicted := mat_vec Scenario.half_turn_x previous_bearing in
     let written := snd (project3 Scenario.pinhole bearing_predicted) in
     exists previous_descriptor idxnearest idxnear,
       getDescriptor Scenario.centre_first 0 = Ok previous_descriptor
       /\ search_rows (imageHeight Scenario.pinhole) written min_search_radius
          = Ok idxnearest
       /\ search_rows (imageHeight Scenario.pinhole) written search_radius
          = Ok idxnear
       /\ let score := kernel_score Scenario.centre_second
                         (descriptor_size_bytes Scenario.centre_second)
                         previous_descriptor in
          let small := small_window sorted lut written idxnearest in
          let large := large_window sorted lut written idxnearest idxnear in
          ((exists j : nat, In (0%nat, j) [(0%nat, 0%nat)])
           <-> Exists (fun k => 512 - kMatchingThresholdBits < score k) small
               \/ Exists (fun k => 512 - kMatchingThresholdBits < score k) large).
Proof.
  destruct (matchFeatures_ignores_projection_status Scenario.pinhole
              (with_statuses Scenario.pinhole (fun _ => true) (fun _ => KEYPOINT_VISIBLE))
              Scenario.half_turn_x Scenario.centre_second Scenario.centre_first
              eq_refl (fun p => eq_refl) (fun b => eq_refl)) as [Hsame Hsearch].
  split; [ exact Hsame | ].
  apply (Hsearch [(50, 50)%Q] [(50, 50)%Q] [(0%nat, 0%nat)] eq_refl eq_refl).
  - vm_compute. reflexivity.
  - reflexivity.
Defined.

(** C7, as stated, fails.  After half a turn about the x axis the keypoint at
    the principal point re-projects behind the camera; the search is run all
    the same at the pixel the projection wrote, and the keypoint is matched. *)
Lemma failed_projection_still_matches :
  fst (project3 Scenario.pinhole
         (mat_vec Scenario.half_turn_x
            (snd (backProject3 Scenario.pinhole (50, 50)%Q))))
  = POINT_BEHIND_CAMERA
  /\ matchFeatures Scenario.pinhole Scenario.half_turn_x
       Scenario.centre_second Scenario.centre_first
     = Ok [(0%nat, 0%nat)].
Proof. split; vm_compute; reflexivity. Qed.

(** ** Inputs on which a fatal check fires *)

(** C1, evaluated on the code, on two inputs.

    First input (identity rotation, 48-byte descriptors).  The previous
    keypoint is predicted at (50, 50); both current keypoints lie in its small
    window.  The second has the previous descriptor (Hamming distance
    0 < 120), so the claim expects the pair (0, 1).  The first has every bit
    flipped: its distance 384 equals [8 * D], and the check of line 297 fires
    while it is scored.

    Second input (camera with focal length 100, rotation [tilt_x]).  The
    previous keypoint is predicted at (50, -25), above the image.  The row
    bounds of both radii are clamped to row 0, so the current keypoint at
    (50, 0) lies in the small window; its descriptor equals the previous one
    (Hamming distance 0 < 120), so the claim expects the pair (0, 0).  The
    search takes it as best candidate and then fails the distance check of
    line 379, since it lies 25 > 10 pixels from the prediction.

    In both cases the search, and [addFrame] with it, ends fatally and emits
    nothing. *)
Theorem matchFeatures_fatal_inside_window :
  (Scenario.opposite_small_window
     = [ {| measurement := (50, 49)%Q; index := 0 |};
         {| measurement := (50, 50)%Q; index := 1 |} ]
   /\ predict_keypoint Scenario.pinhole identity3 (50, 50)%Q = (50, 50)%Q
   /\ popcount_xor Scenario.zeros48 Scenario.zeros48 = 0
   /\ popcount_xor Scenario.zeros48 Scenario.ones48 = 384
   /\ matchFeatures Scenario.pinhole identity3
        Scenario.opposite_current Scenario.opposite_previous
      = Fatal CHECK_LT_hamming_distance
   /\ addFrame Scenario.config
        (Scenario.feed Scenario.cold_tracker Scenario.opposite_previous)
        Scenario.opposite_current identity3
      = Fatal CHECK_LT_hamming_distance)
  /\
  ((px (predict_keypoint Scenario.pinhole_100 Scenario.tilt_x (50, 50)%Q) == 50)%Q
   /\ (py (predict_keypoint Scenario.pinhole_100 Scenario.tilt_x (50, 50)%Q) == -25)%Q
   /\ search_rows 100
        (predict_keypoint Scenario.pinhole_100 Scenario.tilt_x (50, 50)%Q)
        min_search_radius = Ok (0, 0)
   /\ row_range Scenario.tilt_sorted Scenario.tilt_lut 0 0
      = [ {| measurement := (50, 0)%Q; index := 0 |} ]
   /\ popcount_xor [x0f; x00] [x0f; x00] = 0
   /\ matchFeatures Scenario.pinhole_100 Scenario.tilt_x
        Scenario.tilt_current Scenario.tilt_previous
      = Fatal CHECK_LT_match_distance).
Proof. repeat split; vm_compute; reflexivity. Qed.

(** C3, evaluated on the code.  Three well-formed frames with increasing
    timestamps.  After the second, its keypoint 0 is on track 1 and its
    keypoint 1 is untracked.  Both match the only keypoint of the third frame;
    the later, untracked match overwrites the copied id with -1, the earlier
    match is already in the accepted list, and the check of line 193 fires. *)
Theorem addFrame_fatal_on_shared_current_keypoint :
  Scenario.observe Scenario.shared_outcome
    = Ok (Some [1; -1], [2%nat; 0%nat], 1, Some [1])
  /\ matchFeatures Scenario.pinhole identity3 Scenario.shared_third
       (swapTrackIds Scenario.shared_second [1; -1])
     = Ok [(0, 0); (1, 0)]%nat
  /\ addFrame Scenario.config Scenario.shared_tracker' Scenario.shared_third identity3
     = Fatal CHECK_EQ_previous_track_id.
Proof. repeat split; vm_compute; reflexivity. Qed.

(* ===================================================================== *)
(** * Lists, loops and truncation                                         *)
(* ===================================================================== *)

Lemma List_filter_sublist {A : Type} (f : A -> bool) (l : list A) :
  sublist (List.filter f l) l.
Proof.
  induction l as [| a l IH]; cbn; [ constructor | ].
  destruct (f a); [ apply sublist_skip, IH | apply sublist_cons, IH ].
Qed.

Lemma StronglySorted_seq (s n : nat) : StronglySorted Nat.lt (seq s n).
Proof.
  revert s; induction n as [| n IH]; intros s; cbn; constructor; [ apply IH | ].
  apply Forall_forall. intros y Hy. apply elem_of_seq in Hy. lia.
Qed.

Lemma StronglySorted_sublist {A : Type} (R : A -> A -> Prop) (l1 l2 : list A) :
  sublist l1 l2 -> StronglySorted R l2 -> StronglySorted R l1.
Proof.
  induction 1 as [| x l1 l2 Hsub IH | x l1 l2 Hsub IH]; intros Hs.
  - constructor.
  - apply StronglySorted_inv in Hs as [Hs Hx].
    constructor; [ apply IH, Hs | ].
    rewrite Forall_forall in Hx |- *. intros y Hy. apply Hx.
    eapply elem_of_sublist; eassumption.
  - apply StronglySorted_inv in Hs as [Hs _]. apply IH, Hs.
Qed.

Lemma Forall_map_inv {A B : Type} (f : A -> B) (P : B -> Prop) (l : list A) :
  Forall P (map f l) -> Forall (fun a => P (f a)) l.
Proof.
  induction l as [| a l IH]; cbn; intros H; [ constructor | ].
  apply Forall_cons in H as [Ha H]. constructor; [ exact Ha | apply IH, H ].
Qed.

Lemma Exists_map_inv {A B : Type} (f : A -> B) (P : B -> Prop) (l : list A) :
  Exists P (map f l) -> Exists (fun a => P (f a)) l.
Proof.
  induction l as [| a l IH]; cbn; intros H; [ inversion H | ].
  apply Exists_cons in H as [Ha | H]; [ left; exact Ha | right; apply IH, H ].
Qed.

(* ===================================================================== *)
(** * The non-exclusive matching engine                                    *)
(* ===================================================================== *)

Section EngineFacts.

Import MatchingEngineNonExclusive EngineTerms.

(** The scan of lines 48-51 from position [s] on, entered with the best of
    the positions before [s]. *)
Lemma scan_candidates_from (candidates : Candidates) (len : nat) :
  forall s b : nat,
  (s + len <= length candidates)%nat ->
  (b < s \/ (b = 0 /\ s = 0))%nat ->
  (forall k', (k' < s)%nat -> (score_at candidates k' <= score_at candidates b)%Q) ->
  (forall k', (k' < b)%nat -> (score_at candidates k' < score_at candidates b)%Q) ->
  let b' := fold_left (scan_candidate candidates) (seq s len) b in
  (b' < s + len \/ (b' = 0 /\ s + len = 0))%nat
  /\ (forall k', (k' < s + len)%nat ->
                 (score_at candidates k' <= score_at candidates b')%Q)
  /\ (forall k', (k' < b')%nat ->
                 (score_at candidates k' < score_at candidates b')%Q).
Proof.
  induction len as [| len IH]; intros s b Hlen Hb Hmax Hfirst; cbn zeta.
  - cbn [seq fold_left]. rewrite Nat.add_0_r. auto.
  - cbn [seq fold_left].
    replace (s + S len)%nat with (S s + len)%nat by lia.
    apply IH; [ lia | | | ]; unfold scan_candidate;
      destruct (Qltb (score_at candidates b) (score_at candidates s)) eqn:E.
    + left. lia.
    + left. lia.
    + apply Qltb_lt in E. intros k' Hk'.
      destruct (Nat.eq_dec k' s) as [-> | Hne]; [ apply Qle_refl | ].
      apply Qlt_le_weak. eapply Qle_lt_trans; [ apply Hmax; lia | exact E ].
    + apply Qltb_ge in E. intros k' Hk'.
      destruct (Nat.eq_dec k' s) as [-> | Hne]; [ exact E | apply Hmax; lia ].
    + apply Qltb_lt in E. intros k' Hk'.
      eapply Qle_lt_trans; [ apply Hmax; lia | exact E ].
    + exact Hfirst.
Qed.

Lemma score_at_lookup (candidates : Candidates) (k : nat) (c : Candidate) :
  candidates !! k = Some c -> score_at candidates k = score c.
Proof. unfold score_at. intros ->. reflexivity. Qed.

(** The scan selects the first best candidate; on an empty list it stays at
    [end()]. *)
Lemma best_candidate_of_spec (candidates : Candidates) :
  match candidates !! best_candidate_of candidates with
  | Some best => first_best_candidate candidates best
  | None => candidates = []
  end.
Proof.
  pose proof (scan_candidates_from candidates (length candidates) 0 0
                ltac:(lia) ltac:(lia) ltac:(intros; lia) ltac:(intros; lia)) as H.
  cbn zeta in H. fold (best_candidate_of candidates) in H.
  destruct H as (Hpos & Hmax & Hfirst). cbn [Nat.add] in Hpos, Hmax.
  destruct (candidates !! best_candidate_of candidates) as [best |] eqn:E.
  - exists (best_candidate_of candidates).
    pose proof (score_at_lookup _ _ _ E) as Hs.
    split; [ exact E | ]. split.
    + intros k' c Hc. rewrite <- Hs, <- (score_at_lookup _ _ _ Hc).
      apply Hmax. eapply lookup_lt_Some, Hc.
    + intros k' c Hlt Hc. rewrite <- Hs, <- (score_at_lookup _ _ _ Hc).
      apply Hfirst, Hlt.
  - apply lookup_ge_None in E.
    destruct candidates; [ reflexivity | cbn [length] in *; lia ].
Qed.

Context {P : Type} `{MatchingProblem P}.

(** The loop over the bananas appends one match for every banana that has a
    candidate. *)
Lemma match_banana_loop (bananas : list nat) :
  forall (problem : P) (acc : list Match),
  exists emitted : list Match,
    snd (fold_left match_banana bananas (problem, acc)) = acc ++ emitted
    /\ Forall2 emitted_for emitted
         (List.filter has_candidates (candidates_handed_out problem bananas)).
Proof.
  induction bananas as [| b rest IH]; intros problem acc.
  - exists []. cbn. rewrite app_nil_r. split; [ reflexivity | constructor ].
  - cbn [fold_left candidates_handed_out].
    unfold match_banana at 2. cbn [fst snd].
    destruct (getAppleCandidatesForBanana problem b) as [candidates problem'] eqn:G.
    cbn [fst snd].
    pose proof (best_candidate_of_spec candidates) as Hbest.
    destruct (candidates !! best_candidate_of candidates) as [best |] eqn:E.
    + destruct (IH problem'
                  (acc ++ [ {| match_index_apple := index_apple best;
                               match_index_banana := b;
                               match_score := score best |} ]))
        as (emitted & Heq & Hall).
      eexists (_ :: emitted). rewrite Heq, <- app_assoc. split; [ reflexivity | ].
      cbn [List.filter]. unfold has_candidates at 1. cbn [snd].
      destruct candidates as [| c0 cs]; [ discriminate E | ].
      constructor; [ | exact Hall ].
      split; [ reflexivity | ]. exists best. cbn. auto.
    + subst candidates.
      destruct (IH problem' acc) as (emitted & Heq & Hall).
      exists emitted. split; [ exact Heq | ].
      cbn [List.filter]. unfold has_candidates at 1. cbn [snd]. exact Hall.
Qed.

Lemma handed_out_bananas (bananas : list nat) :
  forall problem : P, map fst (candidates_handed_out problem bananas) = bananas.
Proof.
  induction bananas as [| b rest IH]; intros problem; cbn; [ reflexivity | ].
  rewrite IH. reflexivity.
Qed.

Lemma emitted_bananas (emitted : list Match) (handed : list (nat * Candidates)) :
  Forall2 emitted_for emitted handed ->
  map match_index_banana emitted = map fst handed.
Proof.
  induction 1 as [| m bc emitted handed [Hm _] _ IH]; cbn; [ reflexivity | ].
  rewrite Hm, IH. reflexivity.
Qed.

Lemma match_result (problem : P) (matches : list Match) :
  match_ problem matches
  = if fst (doSetup problem)
    then (true,
          fst (fold_left match_banana
                 (seq 0 (numBananas (snd (doSetup problem))))
                 (snd (doSetup problem), [])),
          snd (fold_left match_banana
                 (seq 0 (numBananas (snd (doSetup problem))))
                 (snd (doSetup problem), [])))
    else (false, snd (doSetup problem), []).
Proof.
  unfold match_. destruct (doSetup problem) as [[] problem']; cbn [fst snd];
    [ | reflexivity ].
  destruct (fold_left _ _ _); reflexivity.
Qed.

(** X1.  After a successful setup, [match] hands back one match for every banana
    that has at least one candidate, in the order of the bananas, and no
    other: the match of a banana names the first of its candidates with the
    highest score, and carries that score. *)
Theorem match_emits_first_best_candidate (problem : P) (matches : list Match) :
  fst (doSetup problem) = true ->
  Forall2 emitted_for
    (snd (match_ problem matches))
    (List.filter has_candidates
       (candidates_handed_out (snd (doSetup problem))
          (seq 0 (numBananas (snd (doSetup problem)))))).
Proof.
  intros Hok. rewrite match_result, Hok. cbn [snd].
  destruct (match_banana_loop (seq 0 (numBananas (snd (doSetup problem))))
              (snd (doSetup problem)) []) as (emitted & -> & Hall).
  exact Hall.
Qed.

(** X2.  [match] returns the flag of [doSetup].  What [*matches] held on entry is
    discarded; after a failed setup it is empty.  The matches handed back
    name strictly increasing bananas, all below [numBananas]: a banana is
    matched at most once, whereas nothing keeps two bananas from naming the
    same apple. *)
Theorem match_one_per_banana (problem : P) (matches : list Match) :
  fst (fst (match_ problem matches)) = fst (doSetup problem)
  /\ snd (match_ problem matches) = snd (match_ problem [])
  /\ (fst (doSetup problem) = false -> snd (match_ problem matches) = [])
  /\ StronglySorted Nat.lt (map match_index_banana (snd (match_ problem matches)))
  /\ Forall (fun m => (match_index_banana m < numBananas (snd (doSetup problem)))%nat)
            (snd (match_ problem matches))
  /\ (length (snd (match_ problem matches)) <= numBananas (snd (doSetup problem)))%nat.
Proof.
  rewrite !match_result.
  destruct (fst (doSetup problem)) eqn:Hok; cbn [fst snd].
  2:{ repeat split; try discriminate; try constructor. cbn. lia. }
  set (n := numBananas (snd (doSetup problem))).
  destruct (match_banana_loop (seq 0 n) (snd (doSetup problem)) [])
    as (emitted & -> & Hall).
  cbn [app].
  pose proof (emitted_bananas _ _ Hall) as Hb.
  assert (Hsub : sublist (map match_index_banana emitted) (seq 0 n)).
  { rewrite Hb. rewrite <- (handed_out_bananas (seq 0 n) (snd (doSetup problem))) at 2.
    apply fmap_sublist, List_filter_sublist. }
  split; [ reflexivity | ]. split; [ reflexivity | ]. split; [ discriminate | ].
  split; [ | split ].
  - eapply StronglySorted_sublist; [ exact Hsub | apply StronglySorted_seq ].
  - apply Forall_forall. intros m Hm.
    assert (Hin : match_index_banana m ∈ seq 0 n).
    { eapply elem_of_sublist; [ | exact Hsub ].
      apply list_elem_of_fmap. exists m. split; [ reflexivity | exact Hm ]. }
    apply elem_of_seq in Hin. lia.
  - apply sublist_length in Hsub. rewrite length_map, length_seq in Hsub. exact Hsub.
Qed.

End EngineFacts.

(** The engine on [EngineTerms.sample_problem]: banana 0 is matched to apple
    3, the first of the two candidates that tie at the top, banana 1 is left
    out, and banana 2 is matched to apple 3 as well. *)
Lemma match_emits_first_best_candidate_witness :
  Forall2 EngineTerms.emitted_for
    [ {| MatchingEngineNonExclusive.match_index_apple := 3;
         MatchingEngineNonExclusive.match_index_banana := 0;
         MatchingEngineNonExclusive.match_score := 9 # 10 |};
      {| MatchingEngineNonExclusive.match_index_apple := 3;
         MatchingEngineNonExclusive.match_index_banana := 2;
         MatchingEngineNonExclusive.match_score := 1 # 4 |} ]
    (List.filter EngineTerms.has_candidates
       (EngineTerms.candidates_handed_out EngineTerms.sample_problem (seq 0 3))).
Proof.
  exact (match_emits_first_best_candidate EngineTerms.sample_problem [] eq_refl).
Defined.

(* ===================================================================== *)
(** * The linear system of the triangulation                               *)
(* ===================================================================== *)

Section TriangulationSystem.

Import Triangulation TriangulationTerms.

(** ** Products with the rows of [A] *)

Lemma row_dot_zero (n : nat) (x : list Q) : (row_dot (replicate n 0%Q) x == 0)%Q.
Proof.
  revert x; induction n as [| n IH]; intros [| a x]; cbn; try reflexivity.
  unfold row_dot in IH. rewrite IH. ring.
Qed.

Lemma row_dot_insert (row : list Q) :
  forall (x : list Q) (k : nat) (a : Q),
  (k < length row)%nat -> (k < length x)%nat ->
  (row_dot (<[k := a]> row) x
   == row_dot row x + (a - nth k row 0) * nth k x 0)%Q.
Proof.
  induction row as [| r row IH]; intros [| b x] k a Hrow Hx; cbn in Hrow, Hx; try lia.
  destruct k as [| k]; cbn.
  - unfold row_dot. ring.
  - unfold row_dot in IH |- *. rewrite IH by lia. ring.
Qed.

(** Row [3 * i + r] of [A] picks the coordinate [r] of the point and [w_r]
    times the depth of view [i]. *)
Lemma row_dot_system_row (cols i r : nat) (w_r : Q) (x : list Q) :
  (r < 3)%nat -> (3 + i < cols)%nat -> length x = cols ->
  (row_dot (system_row cols i r w_r) x == nth r x 0 + w_r * nth (3 + i) x 0)%Q.
Proof.
  intros Hr Hi Hx. unfold system_row.
  rewrite row_dot_insert by (rewrite ?length_insert, ?length_replicate; lia).
  rewrite row_dot_insert by (rewrite ?length_replicate; lia).
  rewrite row_dot_zero.
  rewrite (nth_lookup (<[r := _]> _)), list_lookup_insert_ne by lia.
  rewrite (nth_lookup (replicate _ _)).
  rewrite !lookup_replicate_2 by lia. cbn. ring.
Qed.

Lemma system_block_shape (cols i : nat) (w : Vector3) :
  length (system_block cols i w) = 3%nat
  /\ ((3 + i < cols)%nat ->
      Forall (fun row => length row = cols) (system_block cols i w)).
Proof.
  destruct w as [[w0 w1] w2]. split; [ reflexivity | ]. intros Hi.
  repeat constructor; unfold system_row;
    rewrite !length_insert, length_replicate; reflexivity.
Qed.

Lemma nth_point (X : Vector3) (depths : list Q) (i : nat) (d : Q) :
  depths !! i = Some d ->
  nth (3 + i) (to_list3 X ++ depths) 0%Q = d.
Proof.
  intros Hd. destruct X as [[X0 X1] X2]. cbn.
  rewrite nth_lookup, Hd. reflexivity.
Qed.

(** The three rows of view [i] hold for a point that lies at depth [d] along
    the bearing of the view. *)
Lemma system_block_holds (cols i : nat) (T_G_B T_B_C : Transformation)
    (m : Pixel) (X : Vector3) (depths : list Q) (d : Q) :
  (3 + i < cols)%nat -> length depths = (cols - 3)%nat ->
  depths !! i = Some d ->
  vec_eq (to_list3 X) (to_list3 (point_at_depth T_G_B T_B_C m d)) ->
  vec_eq
    (mat_mul
       (system_block cols i
          (neg3 (mat_vec (getRotationMatrix T_G_B)
                         (mat_vec (getRotationMatrix T_B_C) (px m, py m, 1%Q)))))
       (to_list3 X ++ depths))
    (to_list3 (transform T_G_B (getPosition T_B_C))).
Proof.
  intros Hi Hlen Hd HX.
  assert (Hx : length (to_list3 X ++ depths) = cols).
  { destruct X as [[X0 X1] X2]. cbn. rewrite Hlen. lia. }
  pose proof (nth_point X depths i d Hd) as Hnth.
  destruct T_G_B as [ [[ [[a00 a01] a02] [[a10 a11] a12] ] [[a20 a21] a22] ] [[p0 p1] p2] ].
  destruct T_B_C as [ [[ [[c00 c01] c02] [[c10 c11] c12] ] [[c20 c21] c22] ] [[t0 t1] t2] ].
  destruct X as [[X0 X1] X2]. destruct m as [mx my].
  unfold point_at_depth, transform, scale3, px, py in HX. cbn in HX.
  apply Forall2_cons_1 in HX as [H0 HX].
  apply Forall2_cons_1 in HX as [H1 HX].
  apply Forall2_cons_1 in HX as [H2 _].
  unfold transform, px, py. cbn [getRotationMatrix getPosition mat_vec dot3 neg3 fst snd
                                  system_block mat_mul map add3 to_list3].
  constructor; [ | constructor; [ | constructor; [ | constructor ] ] ].
  all: rewrite row_dot_system_row by (assumption || lia).
  all: cbn [nth app to_list3 Nat.add] in Hnth |- *; rewrite Hnth.
  - rewrite H0. ring.
  - rewrite H1. ring.
  - rewrite H2. ring.
Qed.

Lemma vec_eq_trans (u v w : list Q) : vec_eq u v -> vec_eq v w -> vec_eq u w.
Proof.
  intros Huv; revert w; induction Huv as [| a b u v Hab _ IH]; intros w Hvw;
    inversion Hvw as [| b' c v' w' Hbc Hvw']; subst; constructor.
  - rewrite Hab. exact Hbc.
  - apply IH, Hvw'.
Qed.

Lemma mat_mul_app (A1 A2 : list (list Q)) (x : list Q) :
  mat_mul (A1 ++ A2) x = mat_mul A1 x ++ mat_mul A2 x.
Proof. apply map_app. Qed.

Lemma combine_lookup {A B : Type} (l : list A) (k : list B) (i : nat) (a : A) (b : B) :
  combine l k !! i = Some (a, b) <-> l !! i = Some a /\ k !! i = Some b.
Proof.
  revert k i; induction l as [| a' l IH]; intros [| b' k] [| i]; cbn;
    try (split; [ discriminate | intros []; discriminate ]).
  - split; [ intros [= -> ->]; tauto | intros [[= ->] [= ->]]; reflexivity ].
  - apply IH.
Qed.

Lemma combine_lookup_length {A B : Type} (l : list A) (k : list B) (i : nat) :
  length l = length k -> (i < length l)%nat ->
  exists a b, combine l k !! i = Some (a, b).
Proof.
  intros Hlen Hi.
  destruct (lookup_lt_is_Some_2 l i Hi) as [a Ha].
  destruct (lookup_lt_is_Some_2 k i ltac:(lia)) as [b Hb].
  exists a, b. apply combine_lookup. tauto.
Qed.

(** ** The single-camera routine *)

Variable qr_rank : Q -> list (list Q) -> nat.
Variable qr_solve : Q -> list (list Q) -> list Q -> list Q.

Lemma imap_system_shape {A : Type} (cols : nat) (l : list A) :
  forall (f : nat -> A -> list (list Q) * list Q),
  (forall i a, l !! i = Some a ->
     length (fst (f i a)) = 3%nat
     /\ Forall (fun row => length row = cols) (fst (f i a))
     /\ length (snd (f i a)) = 3%nat) ->
  length (concat (map fst (imap f l))) = (3 * length l)%nat
  /\ Forall (fun row => length row = cols) (concat (map fst (imap f l)))
  /\ length (concat (map snd (imap f l))) = (3 * length l)%nat.
Proof.
  induction l as [| a l IH]; intros f Hf; cbn [imap map concat].
  - repeat split; constructor.
  - destruct (Hf 0%nat a eq_refl) as (H1 & H2 & H3).
    destruct (IH (f ∘ S) (fun i a' Ha => Hf (S i) a' Ha)) as (I1 & I2 & I3).
    rewrite !length_app, H1, H3, I1, I3. cbn [length].
    split; [ lia | ]. split; [ | lia ].
    apply Forall_app. split; assumption.
Qed.

Lemma imap_system_holds {A : Type} (x : list Q) (l : list A) :
  forall (f : nat -> A -> list (list Q) * list Q),
  (forall i a, l !! i = Some a -> vec_eq (mat_mul (fst (f i a)) x) (snd (f i a))) ->
  vec_eq (mat_mul (concat (map fst (imap f l))) x) (concat (map snd (imap f l))).
Proof.
  induction l as [| a l IH]; intros f Hf; cbn [imap map concat].
  - constructor.
  - rewrite mat_mul_app. apply Forall2_app.
    + apply (Hf 0%nat a eq_refl).
    + apply (IH (f ∘ S)). intros i a' Ha. apply (Hf (S i) a' Ha).
Qed.

(** X3.  With as many poses as measurements, and at least two of them, the
    single-camera routine hands the system [A], [b] of
    [single_camera_system] to the solver.  [A] has three rows per measurement
    and one column per coordinate of the point and per measurement; [b] has
    three entries per measurement.  Every point that lies, for each view [i],
    at some depth [d_i] along the bearing of the measurement solves the
    system, together with these depths: [A * (X, d_0, ..., d_(n-1)) = b]. *)
Theorem linearTriangulateFromNViews_system (measurements : list Pixel)
    (T_G_B : list Transformation) (T_B_C : Transformation) (G_point : Vector3) :
  length measurements = length T_G_B ->
  (2 <= length measurements)%nat ->
  let n := length measurements in
  let A := fst (single_camera_system measurements T_G_B T_B_C) in
  let b := snd (single_camera_system measurements T_G_B T_B_C) in
  linearTriangulateFromNViews qr_rank qr_solve measurements T_G_B T_B_C G_point
  = Ok (status_of_flag (fst (solve_system qr_rank qr_solve n A b G_point)),
        snd (solve_system qr_rank qr_solve n A b G_point))
  /\ length A = (3 * n)%nat
  /\ Forall (fun row => length row = (3 + n)%nat) A
  /\ length b = (3 * n)%nat
  /\ forall (X : Vector3) (depths : list Q),
       length depths = n ->
       (forall i m T d,
          measurements !! i = Some m -> T_G_B !! i = Some T ->
          depths !! i = Some d ->
          vec_eq (to_list3 X) (to_list3 (point_at_depth T T_B_C m d))) ->
       vec_eq (mat_mul A (to_list3 X ++ depths)) b.
Proof.
  intros Hlen Hn n A b.
  split; [ apply linearTriangulateFromNViews_solves; assumption | ].
  assert (Hcomb : length (combine measurements T_G_B) = n)
    by (rewrite length_combine, <- Hlen; apply Nat.min_id).
  assert (Hshape :
    length A = (3 * n)%nat
    /\ Forall (fun row => length row = (3 + n)%nat) A
    /\ length b = (3 * n)%nat).
  { subst A b. unfold single_camera_system. cbn [fst snd]. fold n.
    match goal with
    | |- context [imap ?f ?l] => pose proof (imap_system_shape (3 + n) l f) as Hs
    end.
    rewrite Hcomb in Hs. apply Hs. clear Hs. intros i [m T] Hi. cbn [fst snd].
    assert (Hlt : (i < n)%nat) by (rewrite <- Hcomb; eapply lookup_lt_Some, Hi).
    destruct (system_block_shape (3 + n) i
                (neg3 (mat_vec (getRotationMatrix T)
                               (mat_vec (getRotationMatrix T_B_C) (px m, py m, 1%Q)))))
      as [H1 H2].
    split; [ exact H1 | ]. split; [ apply H2; lia | ].
    destruct (add3 _ _) as [[? ?] ?]. reflexivity. }
  destruct Hshape as (H1 & H2 & H3).
  split; [ exact H1 | ]. split; [ exact H2 | ]. split; [ exact H3 | ].
  intros X depths Hdepths Hpoint.
  subst A b. unfold single_camera_system. cbn [fst snd].
  apply imap_system_holds. intros i [m T] Hi. cbn [fst snd].
  apply combine_lookup in Hi as [Hm HT].
  assert (Hlt : (i < n)%nat) by (eapply lookup_lt_Some, Hm).
  destruct (lookup_lt_is_Some_2 depths i ltac:(lia)) as [d Hd].
  pose proof (system_block_holds (3 + n) i T T_B_C m X depths d
                ltac:(lia) ltac:(lia) Hd (Hpoint i m T d Hm HT Hd)) as Hblock.
  unfold transform in Hblock.
  destruct (mat_vec (getRotationMatrix T) (getPosition T_B_C)) as [[r0 r1] r2] eqn:ER.
  destruct (getPosition T) as [[p0 p1] p2] eqn:EP.
  cbn [add3 to_list3] in Hblock |- *.
  eapply vec_eq_trans; [ exact Hblock | ].
  repeat constructor; ring.
Qed.

(** X4.  For a system of at least two measurements whose size fits [size_t], the
    single-camera routine decides on the difference [rank - n], taken in
    [size_t]: it reports [UNOBSERVABLE], leaving the output point as it was,
    when the rank lies in [n, n + 3); it reports [SUCCESSFUL] and writes the
    first three entries of the solution when the rank is at least [n + 3],
    and also when the rank is below [n], where the difference wraps around. *)
Theorem linearTriangulateFromNViews_rank_test (measurements : list Pixel)
    (T_G_B : list Transformation) (T_B_C : Transformation) (G_point : Vector3) :
  length measurements = length T_G_B ->
  (2 <= length measurements)%nat ->
  let n := length measurements in
  let A := fst (single_camera_system measurements T_G_B T_B_C) in
  let b := snd (single_camera_system measurements T_G_B T_B_C) in
  let rank := qr_rank kRankLossTolerance A in
  Z.of_nat n + 3 <= 2 ^ 64 ->
  Z.of_nat rank < 2 ^ 64 ->
  ((n <= rank < n + 3)%nat ->
   linearTriangulateFromNViews qr_rank qr_solve measurements T_G_B T_B_C G_point
   = Ok ({| status_ := UNOBSERVABLE |}, G_point))
  /\ ((rank < n \/ n + 3 <= rank)%nat ->
      linearTriangulateFromNViews qr_rank qr_solve measurements T_G_B T_B_C G_point
      = Ok ({| status_ := SUCCESSFUL |}, head3 (qr_solve kRankLossTolerance A b))).
Proof.
  intros Hlen Hn n A b rank Hsize Hrank.
  rewrite linearTriangulateFromNViews_solves by assumption.
  fold n A b. unfold solve_system. fold rank. unfold size_t_sub.
  split; intros Hcase.
  - rewrite Z.mod_small by lia.
    destruct (Z.ltb_spec (Z.of_nat rank - Z.of_nat n) 3); [ reflexivity | lia ].
  - destruct Hcase as [Hlow | Hhigh].
    + replace ((Z.of_nat rank - Z.of_nat n) mod 2 ^ 64)
        with (Z.of_nat rank - Z.of_nat n + 2 ^ 64).
      2:{ symmetry. rewrite <- (Z.mod_add _ 1) by lia.
          rewrite Z.mul_1_l. apply Z.mod_small. lia. }
      destruct (Z.ltb_spec (Z.of_nat rank - Z.of_nat n + 2 ^ 64) 3); [ lia | reflexivity ].
    + rewrite Z.mod_small by lia.
      destruct (Z.ltb_spec (Z.of_nat rank - Z.of_nat n) 3); [ lia | reflexivity ].
Qed.

(** ** The multi-camera routine *)

Lemma fill_multi_cam_valid (cols : nat) (T_B_C : list Transformation)
    (Ab : list (list Q) * list Q) (i : nat) (m : Pixel) (cam_index : Z)
    (T : Transformation) :
  valid_camera_index (length T_B_C) cam_index ->
  exists T_B_C_cam,
    T_B_C !! Z.to_nat cam_index = Some T_B_C_cam
    /\ fill_multi_cam cols T_B_C Ab (i, (m, cam_index, T))
       = Ok (fst Ab
               ++ system_block cols i
                    (neg3 (mat_vec (getRotationMatrix T)
                             (mat_vec (getRotationMatrix T_B_C_cam) (px m, py m, 1%Q)))),
             snd Ab ++ to_list3 (transform T (getPosition T_B_C_cam))).
Proof.
  intros [Hlo Hhi].
  destruct (lookup_lt_is_Some_2 T_B_C (Z.to_nat cam_index) ltac:(lia)) as [Tc HTc].
  exists Tc. split; [ exact HTc | ].
  unfold fill_multi_cam. cbn [fst snd].
  assert (Hmod : cam_index mod 2 ^ 64 <= cam_index) by (apply Z.mod_le; lia).
  destruct (Z.ltb_spec (cam_index mod 2 ^ 64) (Z.of_nat (length T_B_C))); [ | lia ].
  cbn [check bind]. rewrite HTc. reflexivity.
Qed.

Lemma fill_multi_cam_invalid (cols : nat) (T_B_C : list Transformation)
    (Ab : list (list Q) * list Q) (i : nat) (m : Pixel) (cam_index : Z)
    (T : Transformation) :
  Z.of_nat (length T_B_C) < 2 ^ 63 ->
  - 2 ^ 31 <= cam_index < 2 ^ 31 ->
  ~ valid_camera_index (length T_B_C) cam_index ->
  fill_multi_cam cols T_B_C Ab (i, (m, cam_index, T)) = Fatal CHECK_LT_cam_index.
Proof.
  intros Hm Hint Hbad. unfold valid_camera_index in Hbad.
  unfold fill_multi_cam. cbn [fst snd].
  destruct (Z.ltb_spec (cam_index mod 2 ^ 64) (Z.of_nat (length T_B_C))) as [Hlt | Hge];
    [ exfalso | reflexivity ].
  destruct (Z.lt_ge_cases cam_index 0) as [Hneg | Hpos].
  - replace (cam_index mod 2 ^ 64) with (cam_index + 2 ^ 64) in Hlt; [ lia | ].
    symmetry. rewrite <- (Z.mod_add _ 1) by lia.
    rewrite Z.mul_1_l. apply Z.mod_small. lia.
  - rewrite Z.mod_small in Hlt by lia. lia.
Qed.

(** The fill loop, when it completes: three rows per view are appended, each
    with [cols] entries, and an equation that held before and holds for the
    rows of every view holds after. *)
Lemma fill_multi_cam_loop (cols : nat) (T_B_C : list Transformation) (x : list Q)
    (rows : list (nat * (Pixel * Z * Transformation))) :
  forall Ab Ab' : list (list Q) * list Q,
  for_each (fill_multi_cam cols T_B_C) rows Ab = Ok Ab' ->
  length (fst Ab') = (length (fst Ab) + 3 * length rows)%nat
  /\ length (snd Ab') = (length (snd Ab) + 3 * length rows)%nat
  /\ (Forall (fun row => length row = cols) (fst Ab) ->
      Forall (fun row => (3 + fst row < cols)%nat) rows ->
      Forall (fun row => length row = cols) (fst Ab'))
  /\ (vec_eq (mat_mul (fst Ab) x) (snd Ab) ->
      (forall i m cam_index T T_B_C_cam,
         In (i, (m, cam_index, T)) rows ->
         T_B_C !! Z.to_nat cam_index = Some T_B_C_cam ->
         vec_eq
           (mat_mul
              (system_block cols i
                 (neg3 (mat_vec (getRotationMatrix T)
                          (mat_vec (getRotationMatrix T_B_C_cam) (px m, py m, 1%Q)))))
              x)
           (to_list3 (transform T (getPosition T_B_C_cam)))) ->
      vec_eq (mat_mul (fst Ab') x) (snd Ab')).
Proof.
  induction rows as [| [i [[m cam_index] T]] rows IH]; intros Ab Ab' H;
    cbn [for_each] in H.
  - injection H as <-. cbn [length]. rewrite Nat.mul_0_r, !Nat.add_0_r. auto.
  - apply bind_Ok_inv in H as (Ab1 & Hstep & H).
    destruct (IH Ab1 Ab' H) as (I1 & I2 & I3 & I4).
    unfold fill_multi_cam in Hstep. cbn [fst snd] in Hstep.
    apply bind_Ok_inv in Hstep as ([] & _ & Hstep).
    destruct (T_B_C !! Z.to_nat cam_index) as [Tc |] eqn:HTc; [ | discriminate ].
    injection Hstep as <-. cbn [fst snd] in *.
    set (w := neg3 (mat_vec (getRotationMatrix T)
                      (mat_vec (getRotationMatrix Tc) (px m, py m, 1%Q)))) in *.
    destruct (system_block_shape cols i w) as [Hb1 Hb2].
    assert (Hrhs : length (to_list3 (transform T (getPosition Tc))) = 3%nat)
      by (destruct (transform T (getPosition Tc)) as [[? ?] ?]; reflexivity).
    rewrite length_app, Hb1 in I1. rewrite length_app, Hrhs in I2.
    cbn [length]. split; [ lia | ]. split; [ lia | ]. split.
    + intros Hrows Hcols. apply Forall_cons in Hcols as [Hi Hcols]. cbn [fst] in Hi.
      apply I3; [ | exact Hcols ].
      apply Forall_app. split; [ exact Hrows | apply Hb2, Hi ].
    + intros Hheld Hviews. apply I4.
      * rewrite mat_mul_app. apply Forall2_app; [ exact Hheld | ].
        apply (Hviews i m cam_index T Tc); [ left; reflexivity | exact HTc ].
      * intros i' m' c' T' Tc' Hin. apply Hviews. right. exact Hin.
Qed.

Lemma for_each_total {A S : Type} (P : S -> Prop) (R : A -> Prop)
    (body : S -> A -> outcome S) (l : list A) :
  (forall s a, P s -> R a -> exists s', body s a = Ok s' /\ P s') ->
  Forall R l ->
  forall s, P s -> exists s', for_each body l s = Ok s' /\ P s'.
Proof.
  intros Hstep Hl. induction Hl as [| a l Ha _ IH]; intros s Hs; cbn [for_each].
  - exists s. split; [ reflexivity | exact Hs ].
  - destruct (Hstep s a Hs Ha) as (s1 & -> & Hs1). cbn [bind]. apply IH, Hs1.
Qed.

Lemma map_snd_with_positions {A : Type} (l : list A) : map snd (with_positions l) = l.
Proof.
  unfold with_positions. generalize 0%nat.
  induction l as [| a l IH]; intros s; cbn; [ reflexivity | ].
  rewrite IH. reflexivity.
Qed.

Lemma map_fst_with_positions {A : Type} (l : list A) :
  map fst (with_positions l) = seq 0 (length l).
Proof.
  unfold with_positions. generalize 0%nat.
  induction l as [| a l IH]; intros s; cbn; [ reflexivity | ].
  rewrite IH. reflexivity.
Qed.

Lemma map_fst_combine {A B : Type} (l : list A) (k : list B) :
  length l = length k -> map fst (combine l k) = l.
Proof.
  revert k; induction l as [| a l IH]; intros [| b k] Hlen; cbn in *;
    try reflexivity; try lia.
  rewrite IH by lia. reflexivity.
Qed.

Lemma map_snd_combine {A B : Type} (l : list A) (k : list B) :
  length l = length k -> map snd (combine l k) = k.
Proof.
  revert k; induction l as [| a l IH]; intros [| b k] Hlen; cbn in *;
    try reflexivity; try lia.
  rewrite IH by lia. reflexivity.
Qed.

(** The camera indices, read back from the rows of the fill loop. *)
Lemma multi_camera_rows_indices (measurements : list Pixel) (camera_indices : list Z)
    (T_G_B : list Transformation) :
  length measurements = length T_G_B ->
  length measurements = length camera_indices ->
  map (fun row : nat * (Pixel * Z * Transformation) => snd (fst (snd row)))
      (with_positions (combine (combine measurements camera_indices) T_G_B))
  = camera_indices.
Proof.
  intros H1 H2.
  rewrite <- (map_map snd (fun r : Pixel * Z * Transformation => snd (fst r))).
  rewrite map_snd_with_positions.
  rewrite <- (map_map fst snd).
  rewrite map_fst_combine by (rewrite length_combine; lia).
  apply map_snd_combine, H2.
Qed.

Lemma multi_camera_rows_lookup (measurements : list Pixel) (camera_indices : list Z)
    (T_G_B : list Transformation) (i : nat) (m : Pixel) (cam_index : Z)
    (T : Transformation) :
  In (i, (m, cam_index, T))
     (with_positions (combine (combine measurements camera_indices) T_G_B)) ->
  measurements !! i = Some m /\ camera_indices !! i = Some cam_index
  /\ T_G_B !! i = Some T.
Proof.
  intros Hin. apply with_positions_In in Hin.
  apply combine_lookup in Hin as [Hin HT].
  apply combine_lookup in Hin as [Hm Hc]. tauto.
Qed.

(** X5.  With consistent sizes, at least two measurements and every camera index
    selecting one of the cameras, the fill loop of the multi-camera routine
    completes and the routine hands the system [A], [b] it built to the
    solver.  [A] has three rows per measurement, each with [3 + n] entries,
    and [b] three entries per measurement.  Every point that lies, for each
    view [i], at some depth [d_i] along the bearing of the measurement in the
    camera the view names solves the system together with these depths. *)
Theorem linearTriangulateFromNViewsMultiCam_system (measurements : list Pixel)
    (camera_indices : list Z) (T_G_B T_B_C : list Transformation)
    (G_point : Vector3) :
  length measurements = length T_G_B ->
  length measurements = length camera_indices ->
  (2 <= length measurements)%nat ->
  Forall (valid_camera_index (length T_B_C)) camera_indices ->
  let n := length measurements in
  exists (A : list (list Q)) (b : list Q),
    multi_camera_system measurements camera_indices T_G_B T_B_C = Ok (A, b)
    /\ linearTriangulateFromNViewsMultiCam qr_rank qr_solve measurements
         camera_indices T_G_B T_B_C G_point
       = Ok (solve_system qr_rank qr_solve n A b G_point)
    /\ length A = (3 * n)%nat
    /\ Forall (fun row => length row = (3 + n)%nat) A
    /\ length b = (3 * n)%nat
    /\ forall (X : Vector3) (depths : list Q),
         length depths = n ->
         (forall i m cam_index T T_B_C_cam d,
            measurements !! i = Some m -> camera_indices !! i = Some cam_index ->
            T_G_B !! i = Some T -> T_B_C !! Z.to_nat cam_index = Some T_B_C_cam ->
            depths !! i = Some d ->
            vec_eq (to_list3 X) (to_list3 (point_at_depth T T_B_C_cam m d))) ->
         vec_eq (mat_mul A (to_list3 X ++ depths)) b.
Proof.
  intros H1 H2 Hn Hvalid n.
  set (rows := with_positions (combine (combine measurements camera_indices) T_G_B)).
  assert (Hrows : length rows = n).
  { unfold rows, with_positions.
    rewrite length_combine, length_seq, Nat.min_id, !length_combine. lia. }
  assert (Hvalid' : Forall (fun row : nat * (Pixel * Z * Transformation) =>
                              valid_camera_index (length T_B_C) (snd (fst (snd row))))
                           rows).
  { rewrite <- (multi_camera_rows_indices _ _ _ H1 H2) in Hvalid.
    fold rows in Hvalid. apply Forall_map_inv in Hvalid. exact Hvalid. }
  assert (Htotal : exists Ab,
            for_each (fill_multi_cam (3 + n) T_B_C) rows ([], []) = Ok Ab /\ True).
  { apply (for_each_total (fun _ => True)
             (fun row : nat * (Pixel * Z * Transformation) =>
                valid_camera_index (length T_B_C) (snd (fst (snd row)))));
      [ | exact Hvalid' | exact I ].
    intros Ab [i [[m c] T]] _ Hrow. cbn [fst snd] in Hrow.
    destruct (fill_multi_cam_valid (3 + n) T_B_C Ab i m c T Hrow) as (Tc & _ & Hfill).
    eexists. split; [ exact Hfill | exact I ]. }
  destruct Htotal as ([A b] & Hsys & _).
  exists A, b.
  split; [ exact Hsys | ].
  split.
  { rewrite linearTriangulateFromNViewsMultiCam_solves by assumption.
    unfold multi_camera_system. fold n rows. rewrite Hsys. reflexivity. }
  assert (Hpos : Forall (fun row : nat * (Pixel * Z * Transformation) =>
                           (3 + fst row < 3 + n)%nat) rows).
  { apply Forall_forall. intros [i r] Hin. cbn [fst].
    assert (Hi : i ∈ map fst rows)
      by (apply list_elem_of_fmap; exists (i, r); split; [ reflexivity | exact Hin ]).
    unfold rows in Hi. rewrite map_fst_with_positions in Hi.
    apply elem_of_seq in Hi. fold rows in Hi. unfold with_positions in Hrows.
    unfold rows, with_positions in Hrows.
    rewrite length_combine, length_seq, Nat.min_id in Hrows. lia. }
  split; [ | split; [ | split ] ].
  - destruct (fill_multi_cam_loop (3 + n) T_B_C [] rows _ _ Hsys) as (L1 & _).
    cbn [fst length] in L1. lia.
  - destruct (fill_multi_cam_loop (3 + n) T_B_C [] rows _ _ Hsys) as (_ & _ & L3 & _).
    apply L3; [ constructor | exact Hpos ].
  - destruct (fill_multi_cam_loop (3 + n) T_B_C [] rows _ _ Hsys) as (_ & L2 & _).
    cbn [snd length] in L2. lia.
  - intros X depths Hdepths Hpoint.
    destruct (fill_multi_cam_loop (3 + n) T_B_C (to_list3 X ++ depths) rows _ _ Hsys)
      as (_ & _ & _ & L4).
    apply L4; [ constructor | ].
    intros i m c T Tc Hin HTc.
    apply multi_camera_rows_lookup in Hin as (Hm & Hc & HT).
    assert (Hlt : (i < n)%nat) by (eapply lookup_lt_Some, Hm).
    destruct (lookup_lt_is_Some_2 depths i ltac:(lia)) as [d Hd].
    apply (system_block_holds (3 + n) i T Tc m X depths d);
      [ lia | lia | exact Hd | ].
    apply (Hpoint i m c T Tc d); assumption.
Qed.

(** X6.  With consistent sizes, camera indices that are [int] values and fewer
    than 2^63 cameras, a camera index that selects no camera, be it negative,
    aborts the multi-camera routine at the check of line 155 when there are at
    least two measurements; with fewer than two measurements the indices are
    never looked at and the routine returns [false]. *)
Theorem linearTriangulateFromNViewsMultiCam_index_check (measurements : list Pixel)
    (camera_indices : list Z) (T_G_B T_B_C : list Transformation)
    (G_point : Vector3) :
  length measurements = length T_G_B ->
  length measurements = length camera_indices ->
  Z.of_nat (length T_B_C) < 2 ^ 63 ->
  Forall (fun cam_index => - 2 ^ 31 <= cam_index < 2 ^ 31) camera_indices ->
  Exists (fun cam_index => ~ valid_camera_index (length T_B_C) cam_index)
         camera_indices ->
  linearTriangulateFromNViewsMultiCam qr_rank qr_solve measurements camera_indices
    T_G_B T_B_C G_point
  = if (length measurements <? 2)%nat
    then Ok (false, G_point)
    else Fatal CHECK_LT_cam_index.
Proof.
  intros H1 H2 Hm Hint Hbad.
  destruct (Nat.ltb_spec (length measurements) 2) as [Hlt | Hge].
  { unfold linearTriangulateFromNViewsMultiCam.
    rewrite <- H1, <- H2, Nat.eqb_refl. cbn [check bind].
    destruct (Nat.ltb_spec (length measurements) 2); [ reflexivity | lia ]. }
  rewrite linearTriangulateFromNViewsMultiCam_solves by assumption.
  unfold multi_camera_system.
  rewrite <- (multi_camera_rows_indices _ _ _ H1 H2) in Hint, Hbad.
  revert Hint Hbad.
  generalize (with_positions (combine (combine measurements camera_indices) T_G_B)).
  generalize (@nil (list Q), @nil Q).
  intros Ab rows; revert Ab.
  induction rows as [| [i [[m c] T]] rows IH]; intros Ab Hint Hbad; cbn [map] in *.
  - inversion Hbad.
  - apply Forall_cons in Hint as [Hc Hint]. cbn [fst snd] in Hc.
    cbn [for_each].
    destruct (Z_le_dec 0 c) as [Hlo | Hlo];
      [ destruct (Z_lt_dec c (Z.of_nat (length T_B_C))) as [Hhi | Hhi] | ].
    + destruct (fill_multi_cam_valid (3 + length measurements) T_B_C Ab i m c T
                  (conj Hlo Hhi)) as (Tc & _ & ->).
      cbn [bind]. apply IH; [ exact Hint | ].
      apply Exists_cons in Hbad as [Hhead | Htail]; [ | exact Htail ].
      cbn [fst snd] in Hhead. exfalso. apply Hhead. split; assumption.
    + rewrite fill_multi_cam_invalid; [ reflexivity | exact Hm | exact Hc | ].
      unfold valid_camera_index. lia.
    + rewrite fill_multi_cam_invalid; [ reflexivity | exact Hm | exact Hc | ].
      unfold valid_camera_index. lia.
Qed.

End TriangulationSystem.

(** The stereo pair of [TriangulationTerms]: the point (0, 0, 2), at depth 2
    in both views, solves the system the single-camera routine builds. *)
Lemma linearTriangulateFromNViews_system_witness :
  TriangulationTerms.vec_eq
    (TriangulationTerms.mat_mul
       (fst (TriangulationTerms.single_camera_system
               TriangulationTerms.stereo_measurements TriangulationTerms.stereo_poses
               TriangulationTerms.pose_at_origin))
       (Triangulation.to_list3 TriangulationTerms.stereo_point ++ [2; 2]%Q))
    (snd (TriangulationTerms.single_camera_system
            TriangulationTerms.stereo_measurements TriangulationTerms.stereo_poses
            TriangulationTerms.pose_at_origin)).
Proof.
  refine (proj2 (proj2 (proj2 (proj2
            (linearTriangulateFromNViews_system
               (TriangulationTerms.rank_reported 5)
               (TriangulationTerms.solution_returned [])
               TriangulationTerms.stereo_measurements TriangulationTerms.stereo_poses
               TriangulationTerms.pose_at_origin (0, 0, 0)%Q eq_refl _))))
            TriangulationTerms.stereo_point [2; 2]%Q eq_refl _).
  - cbn. lia.
  - intros [| [| i]] m T d Hm HT Hd; cbn in Hm, HT, Hd; try discriminate;
      injection Hm as <-; injection HT as <-; injection Hd as <-;
      repeat constructor; reflexivity.
Defined.

(** A reported rank of 1 for the two-view system: the difference [1 - 2]
    wraps around and the routine reports success. *)
Lemma linearTriangulateFromNViews_rank_test_witness :
  Triangulation.linearTriangulateFromNViews
    (TriangulationTerms.rank_reported 1)
    (TriangulationTerms.solution_returned [9; 9; 9; 1; 1]%Q)
    TriangulationTerms.stereo_measurements TriangulationTerms.stereo_poses
    TriangulationTerms.pose_at_origin (0, 0, 0)%Q
  = Ok ({| Triangulation.status_ := Triangulation.SUCCESSFUL |}, (9, 9, 9)%Q).
Proof.
  refine (proj2
            (linearTriangulateFromNViews_rank_test
               (TriangulationTerms.rank_reported 1)
               (TriangulationTerms.solution_returned [9; 9; 9; 1; 1]%Q)
               TriangulationTerms.stereo_measurements TriangulationTerms.stereo_poses
               TriangulationTerms.pose_at_origin (0, 0, 0)%Q eq_refl _ _ _)
            (or_introl _)).
  - cbn. lia.
  - cbn. lia.
  - reflexivity.
  - unfold TriangulationTerms.rank_reported. cbn. lia.
Defined.

(** The stereo pair again, both views through camera 0 of a one-camera rig. *)
Lemma linearTriangulateFromNViewsMultiCam_system_witness :
  exists (A : list (list Q)) (b : list Q),
    TriangulationTerms.multi_camera_system
      TriangulationTerms.stereo_measurements [0; 0]
      TriangulationTerms.stereo_poses [TriangulationTerms.pose_at_origin] = Ok (A, b)
    /\ TriangulationTerms.vec_eq
         (TriangulationTerms.mat_mul A
            (Triangulation.to_list3 TriangulationTerms.stereo_point ++ [2; 2]%Q))
         b.
Proof.
  destruct (linearTriangulateFromNViewsMultiCam_system
              (TriangulationTerms.rank_reported 5)
              (TriangulationTerms.solution_returned [])
              TriangulationTerms.stereo_measurements [0; 0]
              TriangulationTerms.stereo_poses [TriangulationTerms.pose_at_origin]
              (0, 0, 0)%Q eq_refl eq_refl)
    as (A & b & Hsys & _ & _ & _ & _ & Hholds).
  - cbn. lia.
  - repeat constructor; unfold TriangulationTerms.valid_camera_index; cbn; lia.
  - exists A, b. split; [ exact Hsys | ].
    apply Hholds; [ reflexivity | ].
    intros [| [| i]] m c T Tc d Hm Hc HT HTc Hd; cbn in Hm, Hc, HT, Hd;
      try discriminate;
      injection Hm as <-; injection Hc as <-; injection HT as <-; injection Hd as <-;
      cbn in HTc; injection HTc as <-; repeat constructor; reflexivity.
Defined.

(** Two measurements, the second naming camera -1 of a one-camera rig. *)
Lemma linearTriangulateFromNViewsMultiCam_index_check_witness :
  Triangulation.linearTriangulateFromNViewsMultiCam
    (TriangulationTerms.rank_reported 5) (TriangulationTerms.solution_returned [])
    TriangulationTerms.stereo_measurements [0; -1]
    TriangulationTerms.stereo_poses [TriangulationTerms.pose_at_origin] (0, 0, 0)%Q
  = Fatal CHECK_LT_cam_index.
Proof.
  refine (linearTriangulateFromNViewsMultiCam_index_check
            (TriangulationTerms.rank_reported 5) (TriangulationTerms.solution_returned [])
            TriangulationTerms.stereo_measurements [0; -1]
            TriangulationTerms.stereo_poses [TriangulationTerms.pose_at_origin]
            (0, 0, 0)%Q eq_refl eq_refl _ _ _).
  - cbn. lia.
  - repeat constructor; lia.
  - right. left. unfold TriangulationTerms.valid_camera_index. cbn. lia.
Defined.

(* ===================================================================== *)
(** * The search window (lines 313-352)                                    *)
(* ===================================================================== *)

(** ** Rounding of pixel coordinates *)

(** Up to 2^32 a [double] is within 2^-20 of the real it rounds. *)
Lemma round_to_binary64_near (q : Q) :
  (inject_Z (- 2 ^ 32) <= q <= inject_Z (2 ^ 32))%Q ->
  (q - (1 # 2 ^ 20) <= round_to binary64 q <= q + (1 # 2 ^ 20))%Q.
Proof.
  intros Hq.
  change (inject_Z (- 2 ^ 32)) with (- 4294967296)%Q in Hq.
  change (inject_Z (2 ^ 32)) with 4294967296%Q in Hq.
  destruct (round_to_binary64_bounds q) as [Hpos Hneg].
  destruct (Qlt_le_dec q 0) as [Hlt | Hge].
  - destruct (Hneg (Qlt_le_weak _ _ Hlt)) as [Hb _]. Qconstants. lra.
  - destruct (Hpos Hge) as [Hb _]. Qconstants. lra.
Qed.

(** ** The row bounds *)

(** The four quantities of lines 324-328 for one radius, before clamping. *)
Lemma row_bounds_near (previous_predicted : Pixel) (radius : Z) :
  0 <= radius <= 2 ^ 20 ->
  (inject_Z (- 2 ^ 30) <= py previous_predicted <= inject_Z (2 ^ 30))%Q ->
  let row := double_add (py previous_predicted) (1 # 2) in
  let x := double_sub row (inject_Z radius) in
  let y := double_add row (inject_Z radius) in
  (py previous_predicted + (1 # 2) - inject_Z radius - (1 # 2 ^ 19) <= x)%Q
  /\ (x <= py previous_predicted + (1 # 2) - inject_Z radius + (1 # 2 ^ 19))%Q
  /\ (py previous_predicted + (1 # 2) + inject_Z radius - (1 # 2 ^ 19) <= y)%Q
  /\ (y <= py previous_predicted + (1 # 2) + inject_Z radius + (1 # 2 ^ 19))%Q
  /\ (radius = 0 -> x = y).
Proof.
  intros Hr Hpy row x y.
  change (inject_Z (- 2 ^ 30)) with (- 1073741824)%Q in Hpy.
  change (inject_Z (2 ^ 30)) with 1073741824%Q in Hpy.
  assert (Hr0 : (0 <= inject_Z radius)%Q)
    by (change 0%Q with (inject_Z 0); rewrite <- Zle_Qle; lia).
  assert (Hr1 : (inject_Z radius <= 1048576)%Q)
    by (change 1048576%Q with (inject_Z (2 ^ 20)); rewrite <- Zle_Qle; lia).
  assert (Hrow : (py previous_predicted + (1 # 2) - (1 # 2 ^ 20) <= row
                  <= py previous_predicted + (1 # 2) + (1 # 2 ^ 20))%Q).
  { apply round_to_binary64_near.
    change (inject_Z (- 2 ^ 32)) with (- 4294967296)%Q.
    change (inject_Z (2 ^ 32)) with 4294967296%Q. lra. }
  assert (Hx : (row - inject_Z radius - (1 # 2 ^ 20) <= x
                <= row - inject_Z radius + (1 # 2 ^ 20))%Q).
  { apply round_to_binary64_near.
    change (inject_Z (- 2 ^ 32)) with (- 4294967296)%Q.
    change (inject_Z (2 ^ 32)) with 4294967296%Q. Qconstants. lra. }
  assert (Hy : (row + inject_Z radius - (1 # 2 ^ 20) <= y
                <= row + inject_Z radius + (1 # 2 ^ 20))%Q).
  { apply round_to_binary64_near.
    change (inject_Z (- 2 ^ 32)) with (- 4294967296)%Q.
    change (inject_Z (2 ^ 32)) with 4294967296%Q. Qconstants. lra. }
  Qconstants.
  split; [ lra | ]. split; [ lra | ]. split; [ lra | ]. split; [ lra | ].
  intros ->. unfold x, y, double_sub, double_add.
  apply round_to_comp. change (inject_Z 0) with 0%Q. ring.
Qed.

Lemma search_rows_bounds (image_height : nat) (previous_predicted : Pixel)
    (radius : Z) :
  (0 < image_height)%nat -> Z.of_nat image_height <= 2 ^ 31 ->
  0 <= radius <= 2 ^ 20 ->
  (inject_Z (- 2 ^ 30) <= py previous_predicted <= inject_Z (2 ^ 30))%Q ->
  exists lo hi : Z,
    search_rows image_height previous_predicted radius = Ok (lo, hi)
    /\ 0 <= lo <= hi /\ hi < Z.of_nat image_height
    /\ (1 <= radius ->
        (0 <= py previous_predicted)%Q ->
        (py previous_predicted < inject_Z (Z.of_nat image_height))%Q ->
        lo <= Qfloor (py previous_predicted) <= hi).
Proof.
  intros HH Hmax Hr Hpy. unfold search_rows.
  destruct (row_bounds_near previous_predicted radius Hr Hpy)
    as (Hx1 & Hx2 & Hy1 & Hy2 & Hzero).
  cbn zeta in Hx1, Hx2, Hy1, Hy2, Hzero.
  set (H := Z.of_nat image_height) in *.
  set (row := double_add (py previous_predicted) (1 # 2)) in *.
  set (x := double_sub row (inject_Z radius)) in *.
  set (y := double_add row (inject_Z radius)) in *.
  change (inject_Z (- 2 ^ 30)) with (- 1073741824)%Q in Hpy.
  change (inject_Z (2 ^ 30)) with 1073741824%Q in Hpy.
  assert (HHz : 1 <= H) by (unfold H; lia).
  assert (Hupper : to_int (H - 1) = H - 1)
    by (apply to_int_in_range; unfold INT_MIN, INT_MAX; lia).
  rewrite Hupper.
  assert (Hr0 : (0 <= inject_Z radius)%Q)
    by (change 0%Q with (inject_Z 0); rewrite <- Zle_Qle; lia).
  assert (Hr1 : (inject_Z radius <= 1048576)%Q)
    by (change 1048576%Q with (inject_Z (2 ^ 20)); rewrite <- Zle_Qle; lia).
  Qconstants.
  (* both conversions stay within [int] *)
  assert (Htx : - 2 ^ 31 <= truncate x <= 2 ^ 31 - 1).
  { apply truncate_bounds.
    - change (inject_Z (- 2 ^ 31)) with (- 2147483648)%Q. lra.
    - change (inject_Z (2 ^ 31 - 1)) with 2147483647%Q. lra. }
  assert (Hty : - 2 ^ 31 <= truncate y <= 2 ^ 31 - 1).
  { apply truncate_bounds.
    - change (inject_Z (- 2 ^ 31)) with (- 2147483648)%Q. lra.
    - change (inject_Z (2 ^ 31 - 1)) with 2147483647%Q. lra. }
  rewrite (double_to_int_in_range x) by exact Htx.
  rewrite (double_to_int_in_range y) by exact Hty.
  assert (Hxy : truncate x <= truncate y).
  { destruct (Z.eq_dec radius 0) as [E | E].
    - rewrite (Hzero E). lia.
    - apply truncate_mono.
      assert (H1 : (1 <= inject_Z radius)%Q)
        by (change 1%Q with (inject_Z 1); rewrite <- Zle_Qle; lia).
      lra. }
  exists (clamp 0 (H - 1) (truncate x)), (clamp 0 (H - 1) (truncate y)).
  split; [ | split; [ | split ] ].
  - destruct (_ && _) eqn:E; [ reflexivity | exfalso ].
    revert E. rewrite !andb_false_iff, !Z.leb_gt, !Z.ltb_ge. unfold clamp. lia.
  - unfold clamp. lia.
  - unfold clamp. lia.
  - intros Hr1' Hpy0 HpyH.
    assert (Hrq1 : (1 <= inject_Z radius)%Q)
      by (change 1%Q with (inject_Z 1); rewrite <- Zle_Qle; exact Hr1').
    pose proof (truncate_nonneg _ Hpy0) as Hfloor.
    assert (Hx : truncate x <= Qfloor (py previous_predicted))
      by (rewrite <- Hfloor; apply truncate_mono; lra).
    assert (Hy : Qfloor (py previous_predicted) <= truncate y)
      by (rewrite <- Hfloor; apply truncate_mono; lra).
    assert (H0 : 0 <= Qfloor (py previous_predicted))
      by (change 0 with (Qfloor 0); apply Qfloor_resp_le, Hpy0).
    assert (H1 : Qfloor (py previous_predicted) < H).
    { rewrite Zlt_Qlt. eapply Qle_lt_trans; [ apply Qfloor_le | exact HpyH ]. }
    unfold clamp. lia.
Qed.

(** A prediction near the end of the [int] range: the upper row overflows
    the conversion and is clamped to row 0, the lower row is clamped to the
    last row, and the check of line 330 fires. *)
Lemma search_rows_beyond_int :
  search_rows 100 (50, 2147483645)%Q min_search_radius = Fatal CHECK_search_rows.
Proof. vm_compute. reflexivity. Qed.

(** A prediction whose column lies beyond the [int] range: both column
    bounds convert to [INT_MIN], and no keypoint lies between them. *)
Lemma column_bounds_beyond_int :
  bound_left (3000000000, 50)%Q search_radius = INT_MIN
  /\ bound_right (3000000000, 50)%Q search_radius = INT_MIN.
Proof. split; vm_compute; reflexivity. Qed.

(** X7.  In an image of positive height, at most 2^31, for a prediction whose
    row coordinate lies within 2^30 of zero and a radius between 0 and 2^20,
    the row bounds of lines 324-328 pass the ten checks of lines 330-340:
    they are rows of the image, in order.  When, in addition, the predicted
    pixel lies in a row of the image and the radius is at least 1, that row
    lies between the bounds.  In an image of height 0 the checks abort the
    search. *)
Theorem search_rows_in_image (image_height : nat) (previous_predicted : Pixel)
    (radius : Z) :
  ((0 < image_height)%nat -> Z.of_nat image_height <= 2 ^ 31 ->
   0 <= radius <= 2 ^ 20 ->
   (inject_Z (- 2 ^ 30) <= py previous_predicted <= inject_Z (2 ^ 30))%Q ->
   exists lo hi : Z,
     search_rows image_height previous_predicted radius = Ok (lo, hi)
     /\ 0 <= lo <= hi /\ hi < Z.of_nat image_height
     /\ (1 <= radius ->
         (0 <= py previous_predicted)%Q ->
         (py previous_predicted < inject_Z (Z.of_nat image_height))%Q ->
         lo <= Qfloor (py previous_predicted) <= hi))
  /\ (image_height = 0%nat ->
      search_rows image_height previous_predicted radius = Fatal CHECK_search_rows).
Proof.
  split; [ apply search_rows_bounds | ].
  intros ->. unfold search_rows, clamp. cbn [Z.of_nat].
  change (to_int (0 - 1)) with (-1).
  destruct (_ && _) eqn:E; [ | reflexivity ].
  exfalso. revert E. rewrite !andb_true_iff, !Z.leb_le, !Z.ltb_lt. lia.
Qed.

(** The window of radius 5 around the row 50 + 1/4 of a 100-row image: the
    rows 45 to 55. *)
Lemma search_rows_in_image_witness :
  exists lo hi : Z,
    search_rows 100 (50, 201 # 4)%Q min_search_radius = Ok (lo, hi)
    /\ 0 <= lo <= hi /\ hi < 100
    /\ lo <= Qfloor (201 # 4) <= hi
    /\ (lo, hi) = (45, 55).
Proof.
  destruct (proj1 (search_rows_in_image 100 (50, 201 # 4)%Q min_search_radius))
    as (lo & hi & Hrows & Horder & Hlast & Hrow).
  - lia.
  - cbn. lia.
  - unfold min_search_radius. lia.
  - split; vm_compute; discriminate.
  - exists lo, hi.
    split; [ exact Hrows | ]. split; [ exact Horder | ]. split; [ exact Hlast | ].
    split.
    + apply Hrow; [ unfold min_search_radius; lia | vm_compute; discriminate
                  | vm_compute; reflexivity ].
    + assert (E : search_rows 100 (50, 201 # 4)%Q min_search_radius = Ok (45, 55))
        by (vm_compute; reflexivity).
      rewrite E in Hrows. injection Hrows as <- <-. reflexivity.
Defined.

(** ** The keypoints of a row window *)

(** The cursors of two rows enclose the keypoints of the rows between them. *)
Lemma cursors_enclose_rows (kps : list KeypointAndIndex) (y y' b e : nat) :
  (y <= y')%nat ->
  cursor_at kps y b -> cursor_at kps y' e ->
  (b <= e <= length kps)%nat
  /\ take (e - b) (drop b kps)
     = List.filter (in_rows (Z.of_nat y) (Z.of_nat y')) kps.
Proof.
  intros Hyy (Hb & Hb1 & Hb2) (He & He1 & He2).
  assert (Hbe : (b <= e)%nat).
  { destruct (Nat.le_gt_cases b e) as [H | H]; [ exact H | exfalso ].
    destruct (lookup_lt_is_Some_2 kps e ltac:(lia)) as [k Hk].
    rewrite Forall_lookup in Hb1, He2.
    assert (H1 : above_row y k).
    { apply (Hb1 e). rewrite lookup_take. destruct (decide (e < b)%nat); [ exact Hk | lia ]. }
    assert (H2 : from_row y' k).
    { apply (He2 0%nat). rewrite lookup_drop, Nat.add_0_r. exact Hk. }
    unfold above_row, from_row in *.
    assert (H3 : (inject_Z (Z.of_nat y) <= inject_Z (Z.of_nat y'))%Q)
      by (rewrite <- Zle_Qle; lia).
    lra. }
  split; [ lia | ].
  rewrite <- (take_drop b kps) at 2.
  rewrite <- (take_drop (e - b) (drop b kps)) at 2.
  rewrite !List.filter_app.
  rewrite (filter_none (in_rows (Z.of_nat y) (Z.of_nat y')) (take b kps)).
  2:{ eapply Forall_impl; [ exact Hb1 | ]. intros k Hk. unfold in_rows.
      apply Qltb_lt in Hk. rewrite Hk. reflexivity. }
  rewrite (filter_none (in_rows (Z.of_nat y) (Z.of_nat y')) (drop (e - b) (drop b kps))).
  2:{ rewrite drop_drop. replace (b + (e - b))%nat with e by lia.
      eapply Forall_impl; [ exact He2 | ]. intros k Hk. unfold in_rows.
      apply Qltb_ge in Hk. rewrite Hk. apply andb_false_r. }
  rewrite app_nil_r. cbn [app]. symmetry. apply filter_all.
  assert (Hlo : Forall (from_row y) (take (e - b) (drop b kps)))
    by (apply Forall_take, Hb2).
  assert (Hhi : Forall (above_row y') (take (e - b) (drop b kps))).
  { rewrite take_drop_commute. replace (b + (e - b))%nat with e by lia.
    apply Forall_drop, He1. }
  eapply Forall_impl; [ apply Forall_and; split; [ exact Hlo | exact Hhi ] | ].
  intros k [Hk1 Hk2]. unfold in_rows. apply andb_true_intro. split.
  - apply negb_true_iff, Qltb_ge, Hk1.
  - apply Qltb_lt, Hk2.
Qed.

Lemma sort_by_y_length {sorting : StdSort} (kps : list Pixel) :
  length (sort_by_y (index_keypoints kps)) = length kps.
Proof.
  rewrite (Permutation_length (sort_by_y_permutation _)).
  unfold index_keypoints. apply length_imap.
Qed.

(** A sorted keypoint is a current keypoint with its column index. *)
Lemma In_sort_by_y {sorting : StdSort} (kps : list Pixel) (k : KeypointAndIndex) :
  In k (sort_by_y (index_keypoints kps)) <-> kps !! index k = Some (measurement k).
Proof.
  destruct k as [p j]. cbn [index measurement].
  rewrite <- In_index_keypoints. split; intros Hin.
  - exact (Permutation_in _ (sort_by_y_permutation _) Hin).
  - exact (Permutation_in _ (Permutation_sym (sort_by_y_permutation _)) Hin).
Qed.

(** X8.  For rows [lo <= hi] of the image, the iterators of lines 349-352 delimit
    a range of the sorted vector, begin before end, and the range holds, in
    sorted order, exactly the current keypoints whose y coordinate lies in
    [lo, bottom), where [bottom] is [hi + 1] capped at [H - 1]: a keypoint
    with [y >= H - 1] or with [y < 0] is in no window. *)
Theorem row_window_contents {sorting : StdSort} (current_kps : list Pixel) (image_height : nat)
    (lo hi : Z) :
  0 <= lo <= hi -> hi < Z.of_nat image_height ->
  let sorted := sort_by_y (index_keypoints current_kps) in
  let lut := corner_row_LUT sorted image_height in
  let bottom := Z.min (hi + 1) (Z.of_nat image_height - 1) in
  (lut_at lut lo <= lut_at lut bottom <= length current_kps)%nat
  /\ row_range sorted lut lo hi = List.filter (in_rows lo bottom) sorted
  /\ forall (j : nat) (p : Pixel),
       In {| measurement := p; index := j |} (row_range sorted lut lo hi)
       <-> current_kps !! j = Some p
           /\ (inject_Z lo <= py p)%Q /\ (py p < inject_Z bottom)%Q.
Proof.
  intros Hlo Hhi sorted lut bottom.
  assert (Hb : lo <= bottom < Z.of_nat image_height) by (unfold bottom; lia).
  pose proof (corner_row_LUT_spec sorted (sort_by_y_sorted _) image_height
                (Z.to_nat lo) ltac:(lia)) as Hclo.
  pose proof (corner_row_LUT_spec sorted (sort_by_y_sorted _) image_height
                (Z.to_nat bottom) ltac:(lia)) as Hcbot.
  rewrite !Z2Nat.id in Hclo, Hcbot by lia. fold lut in Hclo, Hcbot.
  destruct (cursors_enclose_rows sorted (Z.to_nat lo) (Z.to_nat bottom) _ _
              ltac:(lia) Hclo Hcbot) as [Hle Hrange].
  rewrite !Z2Nat.id in Hrange by lia.
  assert (Heq : row_range sorted lut lo hi = List.filter (in_rows lo bottom) sorted).
  { unfold row_range.
    replace (length lut) with image_height
      by (symmetry; apply corner_row_LUT_length).
    rewrite (Z.min_l lo) by lia. fold bottom. exact Hrange. }
  split; [ unfold sorted in Hle; rewrite sort_by_y_length in Hle; exact Hle | ].
  split; [ exact Heq | ].
  intros j p. rewrite Heq, List.filter_In. unfold sorted.
  rewrite In_sort_by_y. cbn [index measurement].
  unfold in_rows, row_coordinate. cbn [measurement].
  rewrite andb_true_iff, negb_true_iff, Qltb_ge, Qltb_lt. reflexivity.
Qed.

(** The 4-row image of [Scenario.grid_keypoints]: the window of the rows 0 to
    3 holds the keypoint with y = 3/2 and not the one with y = 3. *)
Lemma row_window_contents_witness :
  (lut_at Scenario.grid_lut 0 <= lut_at Scenario.grid_lut 3 <= 2)%nat
  /\ row_range Scenario.grid_sorted Scenario.grid_lut 0 3
     = List.filter (in_rows 0 3) Scenario.grid_sorted
  /\ forall (j : nat) (p : Pixel),
       In {| measurement := p; index := j |}
          (row_range Scenario.grid_sorted Scenario.grid_lut 0 3)
       <-> Scenario.grid_keypoints !! j = Some p
           /\ (inject_Z 0 <= py p)%Q /\ (py p < inject_Z 3)%Q.
Proof.
  apply (row_window_contents Scenario.grid_keypoints 4 0 3); lia.
Defined.

(* ===================================================================== *)
(** * The matches handed back by the search (lines 301-423)                *)
(* ===================================================================== *)

Section BestCorner.

Variables (current_frame : VisualFrame) (current_num_pts descriptorSizeBytes : nat).
Variables (previous_descriptor : list byte) (previous_predicted : Pixel).
Variable corners : list KeypointAndIndex.

(** What the checks of the loop body establish for a corner that became the
    best one with score [s]. *)
Let good (k : KeypointAndIndex) (s : Z) : Prop :=
  In k corners
  /\ (index k < current_num_pts)%nat
  /\ (squared_distance previous_predicted (measurement k)
      < inject_Z ((2 * search_radius) * (2 * search_radius)))%Q
  /\ exists (d : list byte) (distance : Z),
       getDescriptor current_frame (index k) = Ok d
       /\ hammingDistance512 descriptorSizeBytes previous_descriptor d = Ok distance
       /\ s = 512 - distance
       /\ distance < kMatchingThresholdBits.

Let kept (st : SearchState) : Prop :=
  512 - kMatchingThresholdBits <= best_score st
  /\ (found st = true -> exists k, it_best st = Some k /\ good k (best_score st)).

Lemma search_corner_keeps (skip_processed : bool) (bound_left bound_right radius : Z)
    (st st' : SearchState) (k : KeypointAndIndex) :
  (radius * 2) * (radius * 2) <= (2 * search_radius) * (2 * search_radius) ->
  In k corners -> kept st ->
  search_corner current_frame current_num_pts descriptorSizeBytes previous_descriptor
    previous_predicted skip_processed bound_left bound_right radius st k = Ok st' ->
  kept st'.
Proof.
  intros Hradius Hin [Hfloor Hbest] H. unfold search_corner in H.
  destruct (skip_processed && nth (index k) (processed_current_corners st) false);
    [ injection H as <-; split; assumption | ].
  destruct (Qltb (px (measurement k)) (inject_Z bound_left)
            || Qltb (inject_Z bound_right) (px (measurement k)));
    [ injection H as <-; split; assumption | ].
  apply bind_Ok_inv in H as ([] & Hidx & H).
  apply check_Ok_inv, Nat.ltb_lt in Hidx.
  apply bind_Ok_inv in H as (d & Hd & H).
  apply bind_Ok_inv in H as (distance & Hdist & H).
  apply bind_Ok_inv in H as (st1 & Hst1 & H). injection H as <-.
  cbn [best_score found it_best].
  destruct (Z.ltb_spec (best_score st) (512 - distance)) as [Hlt | Hge].
  - apply bind_Ok_inv in Hst1 as ([] & Hnorm & Hst1). injection Hst1 as <-.
    apply check_Ok_inv, Qltb_lt in Hnorm.
    unfold kMatchingThresholdBits in Hfloor.
    split; cbn; [ unfold kMatchingThresholdBits; lia | ].
    intros _. exists k. split; [ reflexivity | ]. unfold good.
    split; [ exact Hin | ]. split; [ exact Hidx | ]. split.
    + eapply Qlt_le_trans; [ exact Hnorm | ]. rewrite <- Zle_Qle. exact Hradius.
    + exists d, distance. unfold kMatchingThresholdBits.
      repeat split; [ exact Hd | exact Hdist | lia ].
  - injection Hst1 as <-. split; cbn; assumption.
Qed.

Lemma search_loop_keeps (skip_processed : bool) (bound_left bound_right radius : Z)
    (l : list KeypointAndIndex) (st st' : SearchState) :
  (radius * 2) * (radius * 2) <= (2 * search_radius) * (2 * search_radius) ->
  (forall k, In k l -> In k corners) -> kept st ->
  for_each
    (search_corner current_frame current_num_pts descriptorSizeBytes previous_descriptor
       previous_predicted skip_processed bound_left bound_right radius) l st = Ok st' ->
  kept st'.
Proof.
  intros Hradius Hsub Hst H.
  refine (for_each_invariant_in kept _ l _ st st' Hst H).
  intros s a s' Ha Hs Hstep.
  exact (search_corner_keeps _ _ _ _ _ _ _ Hradius (Hsub a Ha) Hs Hstep).
Qed.

End BestCorner.

Lemma In_row_range (sorted : list KeypointAndIndex) (lut : list nat)
    (row_lo row_hi : Z) (k : KeypointAndIndex) :
  In k (row_range sorted lut row_lo row_hi) -> In k sorted.
Proof. unfold row_range. intros H. eapply In_drop, In_take, H. Qed.

(** The corner a completed search settles on passed every check of the loop
    body: its index is a column of the current frame, it lies less than twice
    the large radius from the prediction, and the kernel returned a distance
    below the threshold for it. *)
Lemma search_previous_keypoint_best (image_height : nat)
    (current_frame previous_frame : VisualFrame)
    (sorted : list KeypointAndIndex) (lut : list nat)
    (descriptorSizeBytes current_num_pts : nat)
    (previous_predicted : Pixel) (i j : nat) :
  search_previous_keypoint image_height current_frame previous_frame sorted lut
    descriptorSizeBytes current_num_pts previous_predicted i = Ok (Some j) ->
  exists (k : KeypointAndIndex) (previous_descriptor d : list byte) (distance : Z),
    In k sorted /\ index k = j /\ (j < current_num_pts)%nat
    /\ (squared_distance previous_predicted (measurement k)
        < inject_Z ((2 * search_radius) * (2 * search_radius)))%Q
    /\ getDescriptor previous_frame i = Ok previous_descriptor
    /\ getDescriptor current_frame j = Ok d
    /\ hammingDistance512 descriptorSizeBytes previous_descriptor d = Ok distance
    /\ distance < kMatchingThresholdBits.
Proof.
  intros H. unfold search_previous_keypoint in H.
  apply bind_Ok_inv in H as (previous_descriptor & Hdesc & H).
  apply bind_Ok_inv in H as (idxnearest & _ & H).
  apply bind_Ok_inv in H as (idxnear & _ & H).
  apply bind_Ok_inv in H as (st_small & Hsmall & H).
  apply bind_Ok_inv in H as (st_final & Hlarge & H).
  apply (search_loop_keeps current_frame current_num_pts descriptorSizeBytes
           previous_descriptor previous_predicted sorted) in Hsmall;
    [ | unfold min_search_radius, search_radius; lia
      | intros k; apply In_row_range
      | split; [ cbn; lia | discriminate ] ].
  assert (Hfinal : 512 - kMatchingThresholdBits <= best_score st_final
                   /\ (found st_final = true ->
                       exists k, it_best st_final = Some k
                         /\ In k sorted
                         /\ (index k < current_num_pts)%nat
                         /\ (squared_distance previous_predicted (measurement k)
                             < inject_Z ((2 * search_radius) * (2 * search_radius)))%Q
                         /\ exists (d : list byte) (distance : Z),
                              getDescriptor current_frame (index k) = Ok d
                              /\ hammingDistance512 descriptorSizeBytes
                                   previous_descriptor d = Ok distance
                              /\ best_score st_final = 512 - distance
                              /\ distance < kMatchingThresholdBits)).
  { destruct (found st_small) eqn:F.
    - injection Hlarge as <-. rewrite F. exact Hsmall.
    - apply (search_loop_keeps current_frame current_num_pts descriptorSizeBytes
               previous_descriptor previous_predicted sorted) in Hlarge;
        [ exact Hlarge | unfold search_radius; lia
          | intros k; apply In_row_range
          | split; [ apply Hsmall | intros E; rewrite F in E; discriminate ] ]. }
  destruct Hfinal as [_ Hfinal].
  destruct (found st_final); [ | discriminate ].
  destruct (Hfinal eq_refl) as (k & Hk & Hin & Hidx & Hnorm & d & distance & Hd & Hdist & _ & Hthr).
  rewrite Hk in H. cbn in H. injection H as <-.
  exists k, previous_descriptor, d, distance. repeat split; assumption.
Qed.

(** The loop over the previous keypoints appends at most one match per
    previous keypoint, in the order of the loop, each the result of the search
    for that keypoint. *)
Lemma match_loop_shape (image_height : nat) (current_frame previous_frame : VisualFrame)
    (sorted : list KeypointAndIndex) (lut : list nat)
    (descriptorSizeBytes current_num_pts : nat)
    (C2_previous_image_points : list Pixel) (l : list nat) :
  forall acc matches : list (nat * nat),
  for_each (match_loop_body image_height current_frame previous_frame sorted lut
              descriptorSizeBytes current_num_pts C2_previous_image_points)
           l acc = Ok matches ->
  exists emitted,
    matches = acc ++ emitted
    /\ sublist (map fst emitted) l
    /\ Forall
         (fun m =>
            exists previous_predicted,
              C2_previous_image_points !! fst m = Some previous_predicted
              /\ search_previous_keypoint image_height current_frame previous_frame
                   sorted lut descriptorSizeBytes current_num_pts
                   previous_predicted (fst m) = Ok (Some (snd m)))
         emitted.
Proof.
  induction l as [| i0 l IH]; intros acc matches H; cbn [for_each] in H.
  - injection H as <-. exists []. rewrite app_nil_r.
    split; [ reflexivity | ]. split; constructor.
  - apply bind_Ok_inv in H as (acc1 & Hstep & H).
    apply IH in H as (emitted & -> & Hsub & Hall).
    unfold match_loop_body in Hstep.
    apply bind_Ok_inv in Hstep as (previous_predicted & Hpred & Hstep).
    apply bind_Ok_inv in Hstep as (best & Hbest & Hstep).
    unfold at_index in Hpred.
    destruct (C2_previous_image_points !! i0) as [p |] eqn:Hp; [ | discriminate ].
    injection Hpred as ->.
    destruct best as [j0 |]; injection Hstep as <-.
    + exists ((i0, j0) :: emitted). rewrite <- app_assoc.
      split; [ reflexivity | ]. split.
      * cbn [map fst]. apply sublist_skip, Hsub.
      * constructor; [ | exact Hall ].
        exists previous_predicted. split; assumption.
    + exists emitted. split; [ reflexivity | ]. split.
      * apply sublist_cons, Hsub.
      * exact Hall.
Qed.

(** A completed [matchFeatures] is the loop over the previous keypoints. *)
Lemma matchFeatures_Ok_inv {sorting : StdSort} (camera : Camera) (C_current_prev : Matrix3)
    (current_frame previous_frame : VisualFrame)
    (current_kps previous_kps : list Pixel) (matches : list (nat * nat)) :
  keypoint_measurements current_frame = Some current_kps ->
  keypoint_measurements previous_frame = Some previous_kps ->
  matchFeatures camera C_current_prev current_frame previous_frame = Ok matches ->
  descriptor_bits (descriptor_size_bytes current_frame) < 512
  /\ for_each
       (match_loop_body (imageHeight camera) current_frame previous_frame
          (sort_by_y (index_keypoints current_kps))
          (corner_row_LUT (sort_by_y (index_keypoints current_kps)) (imageHeight camera))
          (descriptor_size_bytes current_frame) (length current_kps)
          (map (predict_keypoint camera C_current_prev) previous_kps))
       (seq 0 (length previous_kps)) [] = Ok matches.
Proof.
  intros Hcur Hprev H.
  unfold matchFeatures, getKeypointMeasurements in H. rewrite Hcur, Hprev in H.
  cbn [bind] in H. apply bind_Ok_inv in H as ([] & Hbits & H).
  apply check_Ok_inv, Z.ltb_lt in Hbits. split; assumption.
Qed.

(** The previous indices of the matches increase strictly. *)
Lemma matchFeatures_previous_sorted {sorting : StdSort} (camera : Camera) (C_current_prev : Matrix3)
    (current_frame previous_frame : VisualFrame)
    (current_kps previous_kps : list Pixel) (matches : list (nat * nat)) :
  keypoint_measurements current_frame = Some current_kps ->
  keypoint_measurements previous_frame = Some previous_kps ->
  matchFeatures camera C_current_prev current_frame previous_frame = Ok matches ->
  StronglySorted Nat.lt (map fst matches).
Proof.
  intros Hcur Hprev H.
  destruct (matchFeatures_Ok_inv _ _ _ _ _ _ _ Hcur Hprev H) as [_ Hloop].
  apply match_loop_shape in Hloop as (emitted & -> & Hsub & _). cbn [app].
  eapply StronglySorted_sublist; [ exact Hsub | apply StronglySorted_seq ].
Qed.

(** The indices of a match are columns of the two frames. *)
Lemma matchFeatures_indices_valid {sorting : StdSort} (camera : Camera) (C_current_prev : Matrix3)
    (current_frame previous_frame : VisualFrame)
    (current_kps previous_kps : list Pixel) (matches : list (nat * nat)) :
  keypoint_measurements current_frame = Some current_kps ->
  keypoint_measurements previous_frame = Some previous_kps ->
  matchFeatures camera C_current_prev current_frame previous_frame = Ok matches ->
  Forall (fun m => (fst m < length previous_kps)%nat
                   /\ (snd m < length current_kps)%nat) matches.
Proof.
  intros Hcur Hprev H.
  destruct (matchFeatures_Ok_inv _ _ _ _ _ _ _ Hcur Hprev H) as [_ Hloop].
  apply match_loop_shape in Hloop as (emitted & -> & Hsub & Hall). cbn [app].
  rewrite Forall_forall in Hall |- *. intros m Hm. split.
  - assert (Hin : fst m ∈ seq 0 (length previous_kps)).
    { eapply elem_of_sublist; [ | exact Hsub ].
      apply list_elem_of_fmap. exists m. split; [ reflexivity | exact Hm ]. }
    apply elem_of_seq in Hin. lia.
  - destruct (Hall m Hm) as (p & _ & Hsearch).
    apply search_previous_keypoint_best in Hsearch
      as (k & _ & _ & _ & _ & _ & Hj & _). exact Hj.
Qed.

(** X9.  When the match search completes, the matches it hands back name strictly
    increasing previous keypoints: a previous keypoint is matched at most
    once.  Every match names a keypoint of the previous and one of the current
    frame. *)
Theorem matchFeatures_matches_ordered {sorting : StdSort} (camera : Camera) (C_current_prev : Matrix3)
    (current_frame previous_frame : VisualFrame)
    (current_kps previous_kps : list Pixel) (matches : list (nat * nat)) :
  keypoint_measurements current_frame = Some current_kps ->
  keypoint_measurements previous_frame = Some previous_kps ->
  matchFeatures camera C_current_prev current_frame previous_frame = Ok matches ->
  StronglySorted Nat.lt (map fst matches)
  /\ Forall (fun m => (fst m < length previous_kps)%nat
                      /\ (snd m < length current_kps)%nat) matches
  /\ (length matches <= length previous_kps)%nat.
Proof.
  intros Hcur Hprev H.
  split; [ exact (matchFeatures_previous_sorted _ _ _ _ _ _ _ Hcur Hprev H) | ].
  split; [ exact (matchFeatures_indices_valid _ _ _ _ _ _ _ Hcur Hprev H) | ].
  destruct (matchFeatures_Ok_inv _ _ _ _ _ _ _ Hcur Hprev H) as [_ Hloop].
  apply match_loop_shape in Hloop as (emitted & -> & Hsub & _). cbn [app].
  apply sublist_length in Hsub. rewrite length_map, length_seq in Hsub. exact Hsub.
Qed.


(** Two previous keypoints that match the same current keypoint
    ([Scenario.shared_second] against [Scenario.shared_third]): the previous
    indices 0 and 1 increase, the current index 0 is named twice. *)
Lemma matchFeatures_matches_ordered_witness :
  StronglySorted Nat.lt (map fst [(0, 0); (1, 0)]%nat)
  /\ Forall (fun m : nat * nat => (fst m < 2)%nat /\ (snd m < 1)%nat)
            [(0, 0); (1, 0)]%nat
  /\ (length [(0, 0); (1, 0)]%nat <= 2)%nat.
Proof.
  refine (matchFeatures_matches_ordered Scenario.pinhole identity3
            Scenario.shared_third (swapTrackIds Scenario.shared_second [1; -1])
            [(51, 50)%Q] [(50, 50); (52, 51)]%Q [(0, 0); (1, 0)]%nat
            eq_refl eq_refl _).
  vm_compute. reflexivity.
Defined.


(* ===================================================================== *)
(** * Track ids across frames (addFrame, lines 82-211)                     *)
(* ===================================================================== *)

(** ** The ledger loop hands out fresh ids *)

Lemma ledger_kept_initially (accepted : list (nat * nat)) (C0 P0 : list Z) (c0 : Z)
    (lengths : list nat) :
  Forall (fun id => id <= c0) C0 ->
  Forall (fun id => id <= c0) P0 ->
  ledger_kept accepted C0 P0 c0
    {| ledger_current_ids := C0;
       ledger_previous_ids := P0;
       ledger_lengths := lengths;
       ledger_track_id := c0 |}.
Proof.
  intros HC HP. rewrite Forall_lookup in HC, HP.
  constructor; cbn [ledger_current_ids ledger_previous_ids ledger_track_id].
  - reflexivity.
  - reflexivity.
  - lia.
  - intros j id H. split; [ exact (HC j id H) | left; exact H ].
  - intros i id H. split; [ exact (HP i id H) | left; exact H ].
  - intros j1 j2 id Hid H1 _. pose proof (HC j1 id H1). lia.
  - intros i1 i2 id Hid H1 _. pose proof (HP i1 id H1). lia.
  - intros j id Hid H. pose proof (HC j id H). lia.
  - intros id Hid. lia.
Qed.

Lemma assign_new_id_keeps (num_previous : nat) (accepted : list (nat * nat))
    (C0 P0 : list Z) (c0 : Z) (st st' : LedgerState) (m : nat * nat) :
  -1 <= c0 -> In m accepted ->
  ledger_kept accepted C0 P0 c0 st ->
  assign_new_id num_previous st m = Ok st' ->
  ledger_kept accepted C0 P0 c0 st'.
Proof.
  intros Hc0 Hin K H.
  apply assign_new_id_step in H as [-> | (Hcur & Hprev & Hids & Hpids & _ & Htid)];
    [ exact K | ].
  destruct m as [i j]. cbn [fst snd] in *.
  destruct K as [K1 K2 K3 K4 K5 K6 K7 K8 K9].
  pose proof (lookup_lt_Some _ _ _ Hcur) as Hj.
  pose proof (lookup_lt_Some _ _ _ Hprev) as Hi.
  constructor; rewrite ?Hids, ?Hpids, ?Htid, ?length_insert.
  - exact K1.
  - exact K2.
  - lia.
  - intros j' id H. apply list_lookup_insert_Some in H as [(<- & <- & _) | (Hne & H)].
    + split; [ lia | ]. right. split; [ | lia ].
      destruct (K4 _ _ Hcur) as [_ [H0 | [H0 _]]]; exact H0.
    + destruct (K4 _ _ H) as [Hle Hor]. split; [ lia | exact Hor ].
  - intros i' id H. apply list_lookup_insert_Some in H as [(<- & <- & _) | (Hne & H)].
    + split; [ lia | ]. right. split; [ | lia ].
      destruct (K5 _ _ Hprev) as [_ [H0 | [H0 _]]]; exact H0.
    + destruct (K5 _ _ H) as [Hle Hor]. split; [ lia | exact Hor ].
  - intros j1 j2 id Hid H1 H2.
    apply list_lookup_insert_Some in H1 as [(<- & <- & _) | (Hne1 & H1)];
      apply list_lookup_insert_Some in H2 as [(<- & E & _) | (Hne2 & H2)].
    + reflexivity.
    + destruct (K4 _ _ H2). lia.
    + subst id. destruct (K4 _ _ H1). lia.
    + exact (K6 _ _ _ Hid H1 H2).
  - intros i1 i2 id Hid H1 H2.
    apply list_lookup_insert_Some in H1 as [(<- & <- & _) | (Hne1 & H1)];
      apply list_lookup_insert_Some in H2 as [(<- & E & _) | (Hne2 & H2)].
    + reflexivity.
    + destruct (K5 _ _ H2). lia.
    + subst id. destruct (K5 _ _ H1). lia.
    + exact (K7 _ _ _ Hid H1 H2).
  - intros j' id Hid H.
    apply list_lookup_insert_Some in H as [(<- & <- & _) | (Hne & H)].
    + exists i. split; [ exact Hin | ]. apply list_lookup_insert_eq, Hi.
    + destruct (K8 _ _ Hid H) as (i' & Hin' & Hp').
      exists i'. split; [ exact Hin' | ].
      rewrite list_lookup_insert_ne; [ exact Hp' | ].
      intros <-. rewrite Hprev in Hp'. injection Hp' as <-. lia.
  - intros id Hid.
    destruct (Z.eq_dec id (ledger_track_id st + 1)) as [-> | Hne].
    + exists i, j. split; [ exact Hin | ].
      split; apply list_lookup_insert_eq; assumption.
    + destruct (K9 id ltac:(lia)) as (i' & j' & Hin' & Hc' & Hp').
      exists i', j'. split; [ exact Hin' | ]. split.
      * rewrite list_lookup_insert_ne; [ exact Hc' | ].
        intros <-. rewrite Hcur in Hc'. injection Hc' as <-. lia.
      * rewrite list_lookup_insert_ne; [ exact Hp' | ].
        intros <-. rewrite Hprev in Hp'. injection Hp' as <-. lia.
Qed.

Lemma assign_new_id_loop_keeps (num_previous : nat) (accepted : list (nat * nat))
    (C0 P0 : list Z) (c0 : Z) (lengths : list nat) (led : LedgerState) :
  -1 <= c0 ->
  Forall (fun id => id <= c0) C0 ->
  Forall (fun id => id <= c0) P0 ->
  for_each (assign_new_id num_previous) accepted
    {| ledger_current_ids := C0;
       ledger_previous_ids := P0;
       ledger_lengths := lengths;
       ledger_track_id := c0 |} = Ok led ->
  ledger_kept accepted C0 P0 c0 led.
Proof.
  intros Hc0 HC HP H.
  refine (for_each_invariant_in (ledger_kept accepted C0 P0 c0) _ accepted _ _ led
            (ledger_kept_initially accepted C0 P0 c0 lengths HC HP) H).
  intros s a s' Ha Hs Hstep.
  exact (assign_new_id_keeps _ _ _ _ _ _ _ _ Hc0 Ha Hs Hstep).
Qed.

(** ** Matches, read as a relation *)

Lemma last_match_to_Some (matches : list (nat * nat)) (i j : nat) :
  last_match_to matches j = Some i -> In (i, j) matches.
Proof.
  induction matches as [| [i0 j0] matches IH]; cbn [last_match_to]; [ discriminate | ].
  destruct (last_match_to matches j) as [i' |].
  - intros [= ->]. right. apply IH. reflexivity.
  - cbn [fst snd]. destruct (Nat.eqb_spec j0 j) as [-> | _]; [ | discriminate ].
    intros [= ->]. left. reflexivity.
Qed.

Lemma sorted_matches_functional (matches : list (nat * nat)) (i j1 j2 : nat) :
  StronglySorted Nat.lt (map fst matches) ->
  In (i, j1) matches -> In (i, j2) matches -> j1 = j2.
Proof.
  induction matches as [| m matches IH]; cbn [map]; intros Hs H1 H2; [ destruct H1 | ].
  apply StronglySorted_inv in Hs as [Hs Hm]. rewrite Forall_forall in Hm.
  assert (Hlt : forall j, In (i, j) matches -> (fst m < i)%nat).
  { intros j Hj. apply (Hm i). apply list_elem_of_In, in_map_iff.
    exists (i, j). split; [ reflexivity | exact Hj ]. }
  destruct H1 as [-> | H1], H2 as [E | H2].
  - congruence.
  - pose proof (Hlt _ H2) as Hbad. cbn in Hbad. lia.
  - subst m. pose proof (Hlt _ H1) as Hbad. cbn in Hbad. lia.
  - exact (IH Hs H1 H2).
Qed.

(** ** The stages of a completed [track_frame], read for the ids *)

Lemma track_frame_ids {sorting : StdSort} (cfg : Config) (self : GyroTracker)
    (current_frame previous_frame : VisualFrame) (C_current_prev : Matrix3)
    (kps previous_kps : list Pixel)
    (tracker' : GyroTracker) (previous' : option VisualFrame) :
  keypoint_measurements current_frame = Some kps ->
  keypoint_measurements previous_frame = Some previous_kps ->
  -1 <= current_track_id_ self ->
  ids_within (current_track_id_ self) (track_ids previous_frame) ->
  track_frame cfg self current_frame previous_frame C_current_prev
    = Ok (tracker', previous') ->
  exists (matches accepted : list (nat * nat)) (C1 : list Z) (led : LedgerState),
    matchFeatures (camera_ self) C_current_prev current_frame previous_frame
      = Ok matches
    /\ Forall (fun m => In m matches) accepted
    /\ length C1 = length kps
    /\ (forall j : nat,
          match last_match_to matches j with
          | Some i =>
              exists previous_id,
                track_ids previous_frame !! i = Some previous_id
                /\ C1 !! j = Some previous_id
          | None => (j < length kps)%nat -> C1 !! j = Some (-1)
          end)
    /\ ledger_kept accepted C1 (track_ids previous_frame) (current_track_id_ self) led
    /\ length (ledger_lengths led) = length kps
    /\ tracker'
       = {| camera_ := camera_ self;
            previous_frame_ptr_ :=
              Some (swapTrackIds current_frame (ledger_current_ids led));
            previous_track_lengths_ := ledger_lengths led;
            current_track_lengths_ := previous_track_lengths_ self;
            current_track_id_ := ledger_track_id led |}
    /\ previous' = Some (swapTrackIds previous_frame (ledger_previous_ids led)).
Proof.
  intros Hkps Hpkps Hcounter Hwithin H.
  destruct (track_frame_stages _ _ _ _ _ _ _ _ Hkps H)
    as (matches & st1 & candidates & st2 & st3 & led
        & Hmatches & Hst1 & Hcands & Hst2 & Hst3 & Hled & Htracker & Hprevious).
  exists matches, (candidates_new_tracks st3), (current_track_ids st1), led.
  split; [ exact Hmatches | ].
  (* accepted matches are matches *)
  destruct (new_track_candidates_spec _ _ _ _ Hcands) as (_ & _ & Hcand).
  rewrite Forall_forall in Hcand.
  assert (Hacc1 : accepted_among matches st1).
  { revert Hst1. apply (for_each_invariant_in (accepted_among matches));
      [ | constructor ].
    intros s a s' Hin Hs Hstep.
    exact (continue_track_accepted _ _ _ _ _ _ _ _ _ _ Hin Hs Hstep). }
  assert (Hacc2 : accepted_among matches st2).
  { revert Hst2. apply (for_each_invariant_in (accepted_among matches));
      [ | exact Hacc1 ].
    intros s a s' Hin Hs Hstep.
    refine (admit_unconditional_accepted _ _ _ _ _ _ _ _ _ Hs Hstep).
    apply Hcand, list_elem_of_In.
    unfold unconditional_slice in Hin. exact (In_take _ _ _ _ Hin). }
  assert (Hacc3 : accepted_among matches st3).
  { revert Hst3. apply (for_each_invariant_in (accepted_among matches));
      [ | exact Hacc2 ].
    intros s a s' Hin Hs Hstep.
    refine (admit_strong_accepted _ _ _ _ _ _ _ _ _ Hs Hstep).
    apply Hcand, list_elem_of_In.
    unfold strong_slice in Hin. exact (In_take _ _ _ _ (In_drop _ _ _ _ Hin)). }
  split; [ exact Hacc3 | ].
  (* the continued-track loop *)
  apply continue_track_loop in Hst1
    as (L1 & L1' & Hstage1); [ | cbn; rewrite !length_replicate; reflexivity ].
  cbn [current_track_ids current_track_lengths] in L1, L1', Hstage1.
  rewrite length_replicate in L1, L1'.
  split; [ exact L1 | ].
  assert (Hstage : forall j : nat,
            match last_match_to matches j with
            | Some i =>
                exists previous_id,
                  track_ids previous_frame !! i = Some previous_id
                  /\ current_track_ids st1 !! j = Some previous_id
            | None => (j < length kps)%nat -> current_track_ids st1 !! j = Some (-1)
            end).
  { intros j. specialize (Hstage1 j).
    destruct (last_match_to matches j) as [i |].
    - destruct Hstage1 as (pid & Hp & Hc & _). exists pid. split; assumption.
    - intros Hj. destruct Hstage1 as [-> _]. apply lookup_replicate_2, Hj. }
  split; [ exact Hstage | ].
  (* the admission loops *)
  assert (Hkeep2 : current_track_ids st2 = current_track_ids st1
                   /\ current_track_lengths st2 = current_track_lengths st1).
  { revert Hst2. apply (for_each_invariant
      (fun st => current_track_ids st = current_track_ids st1
                 /\ current_track_lengths st = current_track_lengths st1));
      [ | split; reflexivity ].
    intros s a s' [Hs1 Hs2] Hstep.
    apply admit_unconditional_keeps_ids in Hstep as [-> ->]. split; assumption. }
  assert (Hkeep3 : current_track_ids st3 = current_track_ids st1
                   /\ current_track_lengths st3 = current_track_lengths st1).
  { revert Hst3. apply (for_each_invariant
      (fun st => current_track_ids st = current_track_ids st1
                 /\ current_track_lengths st = current_track_lengths st1));
      [ | exact Hkeep2 ].
    intros s a s' [Hs1 Hs2] Hstep.
    apply admit_strong_keeps_ids in Hstep as [-> ->]. split; assumption. }
  destruct Hkeep3 as [Hids3 Hlens3]. rewrite Hids3, Hlens3 in Hled.
  (* the ledger loop *)
  assert (Hold : Forall (fun id => id <= current_track_id_ self) (track_ids previous_frame)).
  { eapply Forall_impl; [ exact Hwithin | ]. intros id Hid. cbn in Hid. lia. }
  assert (HC1 : Forall (fun id => id <= current_track_id_ self) (current_track_ids st1)).
  { apply Forall_lookup. intros j id Hj. specialize (Hstage j).
    pose proof (lookup_lt_Some _ _ _ Hj) as Hlt. rewrite L1 in Hlt.
    destruct (last_match_to matches j) as [i |].
    - destruct Hstage as (pid & Hp & Hc). rewrite Hc in Hj. injection Hj as <-.
      rewrite Forall_lookup in Hold. exact (Hold _ _ Hp).
    - rewrite (Hstage Hlt) in Hj. injection Hj as <-. exact Hcounter. }
  pose proof (assign_new_id_loop_keeps _ _ _ _ _ _ _ Hcounter HC1 Hold Hled) as Hkept.
  split; [ exact Hkept | ].
  apply assign_new_id_loop in Hled as (_ & L5' & _); [ | cbn; lia ].
  cbn [ledger_current_ids] in L5'.
  split; [ lia | ]. split; assumption.
Qed.

Lemma addFrame_Ok_inv {sorting : StdSort} (cfg : Config) (self : GyroTracker) (frame : VisualFrame)
    (C_current_prev : Matrix3) (tracker' : GyroTracker)
    (previous' : option VisualFrame) :
  addFrame cfg self frame C_current_prev = Ok (tracker', previous') ->
  exists kps : list Pixel,
    keypoint_measurements frame = Some kps
    /\ (((previous_frame_ptr_ self = None \/ kps = [])
         /\ tracker' = initialize_tracker self frame (length kps)
         /\ previous' = previous_frame_ptr_ self)
        \/ (exists previous_frame,
              previous_frame_ptr_ self = Some previous_frame
              /\ kps <> []
              /\ track_frame cfg self frame previous_frame C_current_prev
                 = Ok (tracker', previous'))).
Proof.
  unfold addFrame. intros H.
  apply bind_Ok_inv in H as ([] & _ & H).
  apply bind_Ok_inv in H as (kps & Hkps & H).
  unfold getKeypointMeasurements in Hkps.
  destruct (keypoint_measurements frame) as [kps' |] eqn:E; [ | discriminate ].
  injection Hkps as ->. exists kps. split; [ reflexivity | ].
  destruct (previous_frame_ptr_ self) as [previous_frame |] eqn:Hprev.
  - destruct kps as [| p kps]; cbn [length Nat.eqb] in H.
    + injection H as <- <-. left. split; [ right; reflexivity | split; reflexivity ].
    + right. exists previous_frame. split; [ reflexivity | ].
      split; [ discriminate | exact H ].
  - injection H as <- <-. left. split; [ left; reflexivity | split; reflexivity ].
Qed.

(** The ids after the ledger loop: distinct in either frame, and handed out
    so far. *)
Lemma ledger_ids_distinct (matches accepted : list (nat * nat)) (C1 P0 : list Z)
    (c0 : Z) (led : LedgerState) (n : nat) :
  -1 <= c0 ->
  ids_within c0 P0 -> ids_distinct P0 ->
  StronglySorted Nat.lt (map fst matches) ->
  length C1 = n ->
  (forall j : nat,
     match last_match_to matches j with
     | Some i => exists previous_id, P0 !! i = Some previous_id /\ C1 !! j = Some previous_id
     | None => (j < n)%nat -> C1 !! j = Some (-1)
     end) ->
  ledger_kept accepted C1 P0 c0 led ->
  ids_distinct (ledger_current_ids led)
  /\ ids_distinct (ledger_previous_ids led)
  /\ ids_within (ledger_track_id led) (ledger_current_ids led)
  /\ ids_within (ledger_track_id led) (ledger_previous_ids led).
Proof.
  intros Hc0 Hwithin Hdistinct Hsorted HlenC Hstage K.
  destruct K as [K1 K2 K3 K4 K5 K6 K7 K8 K9].
  unfold ids_within in Hwithin. rewrite Forall_lookup in Hwithin.
  (* an id of the current frame that is not fresh was copied from the match *)
  assert (Hcopied : forall j id, C1 !! j = Some id -> id <> -1 ->
            exists i, In (i, j) matches /\ P0 !! i = Some id).
  { intros j id Hj Hid. specialize (Hstage j).
    pose proof (lookup_lt_Some _ _ _ Hj) as Hlt. rewrite HlenC in Hlt.
    destruct (last_match_to matches j) as [i |] eqn:E.
    - destruct Hstage as (pid & Hp & Hc). rewrite Hc in Hj. injection Hj as <-.
      exists i. split; [ apply last_match_to_Some, E | exact Hp ].
    - rewrite (Hstage Hlt) in Hj. congruence. }
  split; [ | split; [ | split ] ].
  - intros j1 j2 id H1 H2 Hid.
    destruct (Z_lt_dec c0 id) as [Hfresh | Hold]; [ exact (K6 _ _ _ Hfresh H1 H2) | ].
    destruct (K4 _ _ H1) as [_ [Ho1 | [_ ?]]]; [ | lia ].
    destruct (K4 _ _ H2) as [_ [Ho2 | [_ ?]]]; [ | lia ].
    destruct (Hcopied _ _ Ho1 Hid) as (i1 & Hin1 & Hp1).
    destruct (Hcopied _ _ Ho2 Hid) as (i2 & Hin2 & Hp2).
    pose proof (Hdistinct _ _ _ Hp1 Hp2 Hid) as <-.
    exact (sorted_matches_functional _ _ _ _ Hsorted Hin1 Hin2).
  - intros i1 i2 id H1 H2 Hid.
    destruct (Z_lt_dec c0 id) as [Hfresh | Hold]; [ exact (K7 _ _ _ Hfresh H1 H2) | ].
    destruct (K5 _ _ H1) as [_ [Ho1 | [_ ?]]]; [ | lia ].
    destruct (K5 _ _ H2) as [_ [Ho2 | [_ ?]]]; [ | lia ].
    exact (Hdistinct _ _ _ Ho1 Ho2 Hid).
  - apply Forall_lookup. intros j id Hj.
    destruct (K4 _ _ Hj) as [Hle [Ho | [_ Hfresh]]]; [ | lia ].
    destruct (Z.eq_dec id (-1)) as [-> | Hid]; [ left; reflexivity | right ].
    destruct (Hcopied _ _ Ho Hid) as (i & _ & Hp).
    destruct (Hwithin _ _ Hp) as [-> | ?]; [ congruence | lia ].
  - apply Forall_lookup. intros i id Hi.
    destruct (K5 _ _ Hi) as [Hle [Ho | [_ Hfresh]]]; [ | lia ].
    destruct (Hwithin _ _ Ho) as [-> | ?]; [ left; reflexivity | lia ].
Qed.

(** Everything a completed [track_frame] establishes about the ids, for a
    tracker whose frame is consistent. *)
Lemma track_frame_consistent {sorting : StdSort} (cfg : Config) (self : GyroTracker)
    (current_frame previous_frame : VisualFrame) (C_current_prev : Matrix3)
    (kps : list Pixel) (tracker' : GyroTracker) (previous' : option VisualFrame) :
  tracker_consistent self ->
  previous_frame_ptr_ self = Some previous_frame ->
  keypoint_measurements current_frame = Some kps ->
  track_frame cfg self current_frame previous_frame C_current_prev
    = Ok (tracker', previous') ->
  exists (matches accepted : list (nat * nat)) (C1 : list Z) (led : LedgerState),
    matchFeatures (camera_ self) C_current_prev current_frame previous_frame
      = Ok matches
    /\ Forall (fun m => In m matches) accepted
    /\ StronglySorted Nat.lt (map fst matches)
    /\ (forall j id, C1 !! j = Some id -> id <> -1 ->
          exists i, In (i, j) matches /\ track_ids previous_frame !! i = Some id)
    /\ ledger_kept accepted C1 (track_ids previous_frame) (current_track_id_ self) led
    /\ length (ledger_current_ids led) = length kps
    /\ length (ledger_lengths led) = length kps
    /\ ids_distinct (ledger_current_ids led)
    /\ ids_distinct (ledger_previous_ids led)
    /\ ids_within (ledger_track_id led) (ledger_current_ids led)
    /\ ids_within (ledger_track_id led) (ledger_previous_ids led)
    /\ tracker'
       = {| camera_ := camera_ self;
            previous_frame_ptr_ :=
              Some (swapTrackIds current_frame (ledger_current_ids led));
            previous_track_lengths_ := ledger_lengths led;
            current_track_lengths_ := previous_track_lengths_ self;
            current_track_id_ := ledger_track_id led |}
    /\ previous' = Some (swapTrackIds previous_frame (ledger_previous_ids led)).
Proof.
  intros [Hcounter Hself] Hprev Hkps H. rewrite Hprev in Hself.
  destruct Hself as (pkps & Hpkps & Hplen & _ & Hwithin & Hdistinct).
  destruct (track_frame_ids _ _ _ _ _ _ _ _ _ Hkps Hpkps Hcounter Hwithin H)
    as (matches & accepted & C1 & led & Hmatches & Hacc & HlenC & Hstage & Hkept
        & Hlens & Htracker & Hprevious).
  pose proof (matchFeatures_previous_sorted _ _ _ _ _ _ _ Hkps Hpkps Hmatches)
    as Hsorted.
  destruct (ledger_ids_distinct _ _ _ _ _ _ _ Hcounter Hwithin Hdistinct Hsorted
              HlenC Hstage Hkept) as (D1 & D2 & W1 & W2).
  exists matches, accepted, C1, led.
  split; [ exact Hmatches | ]. split; [ exact Hacc | ]. split; [ exact Hsorted | ].
  split.
  { intros j id Hj Hid. specialize (Hstage j).
    pose proof (lookup_lt_Some _ _ _ Hj) as Hlt. rewrite HlenC in Hlt.
    destruct (last_match_to matches j) as [i |] eqn:E.
    - destruct Hstage as (pid & Hp & Hc). rewrite Hc in Hj. injection Hj as <-.
      exists i. split; [ apply last_match_to_Some, E | exact Hp ].
    - rewrite (Hstage Hlt) in Hj. congruence. }
  split; [ exact Hkept | ].
  split; [ rewrite (kept_current_length _ _ _ _ _ Hkept); exact HlenC | ].
  repeat (split; [ assumption | ]). assumption.
Qed.

(** ** Track ids stay distinct *)

(** One call that returns keeps the tracker consistent, and the counter does
    not decrease. *)
Lemma addFrame_tracker_step {sorting : StdSort} (cfg : Config) (self : GyroTracker)
    (frame : VisualFrame) (C_current_prev : Matrix3)
    (tracker' : GyroTracker) (previous' : option VisualFrame) :
  tracker_consistent self ->
  addFrame cfg self frame C_current_prev = Ok (tracker', previous') ->
  tracker_consistent tracker'
  /\ current_track_id_ self <= current_track_id_ tracker'.
Proof.
  intros Hself H.
  apply addFrame_Ok_inv in H
    as (kps & Hkps & [(_ & -> & ->) | (p & Hprev & _ & H)]).
  - (* the frame is kept as it is, all keypoints untracked *)
    destruct Hself as [Hcounter Hheld].
    split; [ | cbn; lia ].
    split; [ exact Hcounter | ]. cbn.
    exists kps. split; [ exact Hkps | ].
    split; [ apply length_replicate | ].
    split; [ apply length_resize | ]. split.
    + apply Forall_forall. intros id Hid.
      apply elem_of_replicate in Hid as [-> _]. left. reflexivity.
    + intros k1 k2 id H1 _ Hid. apply lookup_replicate_1 in H1 as [-> _]. congruence.
  - destruct (track_frame_consistent _ _ _ _ _ _ _ _ Hself Hprev Hkps H)
      as (matches & accepted & C1 & led & _ & _ & _ & _ & Hkept & L1 & L2
          & D1 & D2 & W1 & W2 & -> & ->).
    pose proof (kept_counter _ _ _ _ _ Hkept) as Hmono.
    destruct Hself as [Hcounter _].
    split; [ | exact Hmono ].
    split; [ cbn; lia | ]. cbn.
    exists kps. split; [ exact Hkps | ].
    repeat (split; [ assumption | ]). assumption.
Qed.

(** X15.  [addFrame], when it returns, keeps the tracker consistent: the frame it
    then holds has one track id and one track length per keypoint, and its
    track ids other than -1 are pairwise distinct ids handed out so far.  The
    id counter does not decrease.  The frame that was held before, with its
    track ids as the call left them, has as many track ids as before, again
    pairwise distinct and handed out so far. *)
Theorem addFrame_keeps_tracker_consistent {sorting : StdSort} (cfg : Config) (self : GyroTracker)
    (frame : VisualFrame) (C_current_prev : Matrix3)
    (tracker' : GyroTracker) (previous' : option VisualFrame) :
  tracker_consistent self ->
  addFrame cfg self frame C_current_prev = Ok (tracker', previous') ->
  tracker_consistent tracker'
  /\ current_track_id_ self <= current_track_id_ tracker'
  /\ match previous' with
     | None => previous_frame_ptr_ self = None
     | Some p' =>
         exists p,
           previous_frame_ptr_ self = Some p
           /\ length (track_ids p') = length (track_ids p)
           /\ ids_within (current_track_id_ tracker') (track_ids p')
           /\ ids_distinct (track_ids p')
     end.
Proof.
  intros Hself H.
  destruct (addFrame_tracker_step _ _ _ _ _ _ Hself H) as [Hconsistent Hmono].
  split; [ exact Hconsistent | ]. split; [ exact Hmono | ].
  apply addFrame_Ok_inv in H
    as (kps & Hkps & [(_ & -> & ->) | (p & Hprev & _ & H)]).
  - (* the frame held before is handed back as it is *)
    destruct Hself as [_ Hheld]. cbn [initialize_tracker current_track_id_].
    destruct (previous_frame_ptr_ self) as [p |]; [ | reflexivity ].
    destruct Hheld as (pkps & _ & _ & _ & Hw & Hd).
    exists p. split; [ reflexivity | ]. split; [ reflexivity | ]. split; assumption.
  - (* the frame held before has received the fresh ids *)
    destruct (track_frame_consistent _ _ _ _ _ _ _ _ Hself Hprev Hkps H)
      as (matches & accepted & C1 & led & _ & _ & _ & _ & Hkept & _ & _
          & _ & D2 & _ & W2 & -> & ->).
    exists p. split; [ exact Hprev | ]. cbn.
    split; [ exact (kept_previous_length _ _ _ _ _ Hkept) | ]. split; assumption.
Qed.

(** X16.  Every tracker that arises from the constructor, with a first id of at
    least -1, by calls of [addFrame] that return is consistent: in the frame
    it holds, no track id other than -1 is shared by two keypoints. *)
Theorem reachable_tracker_consistent {sorting : StdSort} (cfg : Config) (input_camera : Camera)
    (first_track_id : Z) (tracker : GyroTracker) :
  -1 <= first_track_id ->
  reachable cfg input_camera first_track_id tracker ->
  tracker_consistent tracker /\ first_track_id <= current_track_id_ tracker.
Proof.
  intros Hfirst Hreach. induction Hreach as [| self self' frame C previous _ IH Hadd].
  - split; [ split; [ exact Hfirst | reflexivity ] | cbn; lia ].
  - destruct IH as [IH Hle].
    destruct (addFrame_tracker_step cfg self frame C self' previous IH Hadd)
      as (Hc & Hmono).
    split; [ exact Hc | lia ].
Qed.

(** ** Track ids link the two frames *)

(** X17.  After [addFrame] has tracked a frame against a consistent tracker, every
    keypoint of the current frame that carries a track id other than -1 is
    the target of a match whose previous keypoint carries the same id in the
    previous frame as the call left it. *)
Theorem addFrame_links_frames {sorting : StdSort} (cfg : Config) (self : GyroTracker)
    (current_frame previous_frame : VisualFrame) (C_current_prev : Matrix3)
    (kps : list Pixel) (tracker' : GyroTracker) (previous' : option VisualFrame) :
  tracker_consistent self ->
  previous_frame_ptr_ self = Some previous_frame ->
  keypoint_measurements current_frame = Some kps ->
  kps <> [] ->
  addFrame cfg self current_frame C_current_prev = Ok (tracker', previous') ->
  exists (matches : list (nat * nat)) (ids' previous_ids' : list Z),
    matchFeatures (camera_ self) C_current_prev current_frame previous_frame
      = Ok matches
    /\ option_map track_ids (previous_frame_ptr_ tracker') = Some ids'
    /\ option_map track_ids previous' = Some previous_ids'
    /\ forall (j : nat) (id : Z),
         ids' !! j = Some id -> id <> -1 ->
         exists i : nat, In (i, j) matches /\ previous_ids' !! i = Some id.
Proof.
  intros Hself Hprev Hkps Hne H.
  rewrite (addFrame_tracks _ _ _ _ _ _ Hprev Hkps Hne) in H.
  destruct (track_frame_consistent _ _ _ _ _ _ _ _ Hself Hprev Hkps H)
    as (matches & accepted & C1 & led & Hmatches & Hacc & _ & Hcopied & Hkept & _ & _
        & _ & _ & _ & _ & -> & ->).
  exists matches, (ledger_current_ids led), (ledger_previous_ids led).
  split; [ exact Hmatches | ]. split; [ reflexivity | ]. split; [ reflexivity | ].
  intros j id Hj Hid.
  destruct (kept_current _ _ _ _ _ Hkept _ _ Hj) as [_ [Hold | [_ Hfresh]]].
  - destruct (Hcopied _ _ Hold Hid) as (i & Hin & Hp).
    exists i. split; [ exact Hin | ].
    destruct (lookup_lt_is_Some_2 (ledger_previous_ids led) i) as [id' Hid'].
    { rewrite (kept_previous_length _ _ _ _ _ Hkept). eapply lookup_lt_Some, Hp. }
    rewrite Hid'. f_equal.
    destruct (kept_previous _ _ _ _ _ Hkept _ _ Hid') as [_ [Ho | [Ho _]]];
      rewrite Hp in Ho; congruence.
  - destruct (kept_link _ _ _ _ _ Hkept _ _ Hfresh Hj) as (i & Hin & Hp).
    exists i. split; [ | exact Hp ].
    rewrite Forall_forall in Hacc. apply Hacc, list_elem_of_In, Hin.
Qed.

(** ** The ids handed out by one call *)

(** X18.  After [addFrame] has tracked a frame against a consistent tracker, the
    ids between the counter on entry (exclusive) and the counter on return
    (inclusive) are exactly the ids handed out by the call: each of them sits
    in one keypoint of the current frame and in one keypoint of the previous
    frame, the two are matched to each other, and the previous keypoint was
    untracked before the call. *)
Theorem addFrame_hands_out_fresh_ids {sorting : StdSort} (cfg : Config) (self : GyroTracker)
    (current_frame previous_frame : VisualFrame) (C_current_prev : Matrix3)
    (kps : list Pixel) (tracker' : GyroTracker) (previous' : option VisualFrame) :
  tracker_consistent self ->
  previous_frame_ptr_ self = Some previous_frame ->
  keypoint_measurements current_frame = Some kps ->
  kps <> [] ->
  addFrame cfg self current_frame C_current_prev = Ok (tracker', previous') ->
  exists (matches : list (nat * nat)) (ids' previous_ids' : list Z),
    matchFeatures (camera_ self) C_current_prev current_frame previous_frame
      = Ok matches
    /\ option_map track_ids (previous_frame_ptr_ tracker') = Some ids'
    /\ option_map track_ids previous' = Some previous_ids'
    /\ forall id : Z,
         current_track_id_ self < id <= current_track_id_ tracker' ->
         exists i j : nat,
           In (i, j) matches
           /\ ids' !! j = Some id
           /\ previous_ids' !! i = Some id
           /\ track_ids previous_frame !! i = Some (-1)
           /\ (forall j', ids' !! j' = Some id -> j' = j)
           /\ (forall i', previous_ids' !! i' = Some id -> i' = i).
Proof.
  intros Hself Hprev Hkps Hne H.
  rewrite (addFrame_tracks _ _ _ _ _ _ Hprev Hkps Hne) in H.
  destruct (track_frame_consistent _ _ _ _ _ _ _ _ Hself Hprev Hkps H)
    as (matches & accepted & C1 & led & Hmatches & Hacc & _ & _ & Hkept & _ & _
        & _ & _ & _ & _ & -> & ->).
  exists matches, (ledger_current_ids led), (ledger_previous_ids led).
  split; [ exact Hmatches | ]. split; [ reflexivity | ]. split; [ reflexivity | ].
  cbn [current_track_id_]. intros id Hid.
  destruct (kept_in_use _ _ _ _ _ Hkept id Hid) as (i & j & Hin & Hc & Hp).
  exists i, j.
  split; [ rewrite Forall_forall in Hacc; apply Hacc, list_elem_of_In, Hin | ].
  split; [ exact Hc | ]. split; [ exact Hp | ]. split; [ | split ].
  - destruct (kept_previous _ _ _ _ _ Hkept _ _ Hp) as [_ [Ho | [Ho _]]];
      [ exfalso | exact Ho ].
    destruct Hself as [Hcounter Hheld]. rewrite Hprev in Hheld.
    destruct Hheld as (pkps & _ & _ & _ & Hw & _).
    unfold ids_within in Hw. rewrite Forall_lookup in Hw.
    destruct (Hw _ _ Ho); lia.
  - intros j' Hj'. exact (kept_current_fresh _ _ _ _ _ Hkept _ _ _ (proj1 Hid) Hj' Hc).
  - intros i' Hi'. exact (kept_previous_fresh _ _ _ _ _ Hkept _ _ _ (proj1 Hid) Hi' Hp).
Qed.

(** ** Established tracks keep their id *)

Lemma assign_new_id_keeps_established (num_previous : nat)
    (accepted : list (nat * nat)) :
  forall st st' : LedgerState,
  for_each (assign_new_id num_previous) accepted st = Ok st' ->
  length (ledger_previous_ids st') = length (ledger_previous_ids st)
  /\ forall i id, ledger_previous_ids st !! i = Some id -> id <> -1 ->
                  ledger_previous_ids st' !! i = Some id.
Proof.
  induction accepted as [| m accepted IH]; intros st st' H; cbn [for_each] in H.
  - injection H as <-. split; [ reflexivity | auto ].
  - apply bind_Ok_inv in H as (st1 & Hstep & H).
    destruct (IH st1 st' H) as [Hlen Hkeep].
    apply assign_new_id_step in Hstep as [-> | (_ & Hprev & _ & Hpids & _)].
    + split; assumption.
    + rewrite Hpids, length_insert in Hlen. split; [ exact Hlen | ].
      intros i id Hi Hid. apply Hkeep; [ | exact Hid ].
      rewrite Hpids, list_lookup_insert_ne; [ exact Hi | ].
      intros <-. rewrite Hprev in Hi. congruence.
Qed.

Lemma swapTrackIds_same (f : VisualFrame) : swapTrackIds f (track_ids f) = f.
Proof. destruct f. reflexivity. Qed.

(** X19.  Whatever the state of the tracker, [addFrame], when it returns, has
    changed nothing of the two frames but their track ids: the tracker holds
    the current frame with new track ids, and the frame held before is handed
    back with as many track ids as it had, where every id other than -1 is
    the id it was. *)
Theorem addFrame_keeps_established_ids {sorting : StdSort} (cfg : Config) (self : GyroTracker)
    (frame previous_frame : VisualFrame) (C_current_prev : Matrix3)
    (tracker' : GyroTracker) (previous' : option VisualFrame) :
  previous_frame_ptr_ self = Some previous_frame ->
  addFrame cfg self frame C_current_prev = Ok (tracker', previous') ->
  exists ids' previous_ids' : list Z,
    previous_frame_ptr_ tracker' = Some (swapTrackIds frame ids')
    /\ previous' = Some (swapTrackIds previous_frame previous_ids')
    /\ length previous_ids' = length (track_ids previous_frame)
    /\ forall (i : nat) (id : Z),
         track_ids previous_frame !! i = Some id -> id <> -1 ->
         previous_ids' !! i = Some id.
Proof.
  intros Hprev H.
  apply addFrame_Ok_inv in H
    as (kps & Hkps & [(_ & -> & ->) | (p & Hprev' & _ & H)]).
  - exists (replicate (length kps) (-1)), (track_ids previous_frame).
    split; [ reflexivity | ].
    split; [ rewrite swapTrackIds_same; exact Hprev | ].
    split; [ reflexivity | auto ].
  - rewrite Hprev in Hprev'. injection Hprev' as <-.
    destruct (track_frame_stages _ _ _ _ _ _ _ _ Hkps H)
      as (matches & st1 & candidates & st2 & st3 & led
          & _ & _ & _ & _ & _ & Hled & -> & ->).
    apply assign_new_id_keeps_established in Hled as [Hlen Hkeep].
    cbn [ledger_previous_ids] in Hlen, Hkeep.
    exists (ledger_current_ids led), (ledger_previous_ids led).
    split; [ reflexivity | ]. split; [ reflexivity | ]. split; assumption.
Qed.

(** ** The tracker of [Scenario] after its first and second frame *)

Lemma shared_tracker_consistent : tracker_consistent Scenario.shared_tracker.
Proof.
  refine (proj1 (addFrame_tracker_step Scenario.config Scenario.cold_tracker
                   Scenario.shared_first identity3 Scenario.shared_tracker None _ _)).
  - split; [ cbn; lia | reflexivity ].
  - vm_compute. reflexivity.
Qed.

Lemma shared_outcome_returns :
  addFrame Scenario.config Scenario.shared_tracker Scenario.shared_second identity3
  = Ok (Scenario.shared_tracker', shared_previous').
Proof. vm_compute. reflexivity. Qed.

Lemma shared_tracker_holds :
  previous_frame_ptr_ Scenario.shared_tracker = Some Scenario.shared_held.
Proof. vm_compute. reflexivity. Qed.

Lemma addFrame_keeps_tracker_consistent_witness :
  tracker_consistent Scenario.shared_tracker'
  /\ current_track_id_ Scenario.shared_tracker
     <= current_track_id_ Scenario.shared_tracker'.
Proof.
  pose proof (addFrame_keeps_tracker_consistent Scenario.config
                Scenario.shared_tracker Scenario.shared_second identity3
                Scenario.shared_tracker' shared_previous'
                shared_tracker_consistent shared_outcome_returns) as (H1 & H2 & _).
  split; assumption.
Defined.

Lemma reachable_tracker_consistent_witness :
  tracker_consistent Scenario.shared_tracker'
  /\ 0 <= current_track_id_ Scenario.shared_tracker'.
Proof.
  apply (reachable_tracker_consistent Scenario.config Scenario.pinhole 0); [ lia | ].
  refine (reachable_addFrame _ _ _ Scenario.shared_tracker Scenario.shared_tracker'
            Scenario.shared_second identity3 shared_previous' _ shared_outcome_returns).
  refine (reachable_addFrame _ _ _ Scenario.cold_tracker Scenario.shared_tracker
            Scenario.shared_first identity3 None (reachable_new _ _ _) _).
  vm_compute. reflexivity.
Defined.

Lemma addFrame_links_frames_witness :
  exists (matches : list (nat * nat)) (ids' previous_ids' : list Z),
    matchFeatures (camera_ Scenario.shared_tracker) identity3
      Scenario.shared_second Scenario.shared_held = Ok matches
    /\ option_map track_ids (previous_frame_ptr_ Scenario.shared_tracker') = Some ids'
    /\ option_map track_ids shared_previous' = Some previous_ids'
    /\ forall (j : nat) (id : Z),
         ids' !! j = Some id -> id <> -1 ->
         exists i : nat, In (i, j) matches /\ previous_ids' !! i = Some id.
Proof.
  refine (addFrame_links_frames Scenario.config Scenario.shared_tracker
            Scenario.shared_second Scenario.shared_held identity3
            [(50, 50); (52, 51)]%Q Scenario.shared_tracker' shared_previous'
            shared_tracker_consistent shared_tracker_holds eq_refl _
            shared_outcome_returns).
  discriminate.
Defined.

Lemma addFrame_hands_out_fresh_ids_witness :
  exists (matches : list (nat * nat)) (ids' previous_ids' : list Z),
    matchFeatures (camera_ Scenario.shared_tracker) identity3
      Scenario.shared_second Scenario.shared_held = Ok matches
    /\ option_map track_ids (previous_frame_ptr_ Scenario.shared_tracker') = Some ids'
    /\ option_map track_ids shared_previous' = Some previous_ids'
    /\ forall id : Z,
         current_track_id_ Scenario.shared_tracker < id
           <= current_track_id_ Scenario.shared_tracker' ->
         exists i j : nat,
           In (i, j) matches
           /\ ids' !! j = Some id
           /\ previous_ids' !! i = Some id
           /\ track_ids Scenario.shared_held !! i = Some (-1)
           /\ (forall j', ids' !! j' = Some id -> j' = j)
           /\ (forall i', previous_ids' !! i' = Some id -> i' = i).
Proof.
  refine (addFrame_hands_out_fresh_ids Scenario.config Scenario.shared_tracker
            Scenario.shared_second Scenario.shared_held identity3
            [(50, 50); (52, 51)]%Q Scenario.shared_tracker' shared_previous'
            shared_tracker_consistent shared_tracker_holds eq_refl _
            shared_outcome_returns).
  discriminate.
Defined.

(** [steady_second] enters the third call with track id 1 and comes back with
    it. *)
Lemma addFrame_keeps_established_ids_witness :
  exists ids' previous_ids' : list Z,
    previous_frame_ptr_ (Scenario.tracker_after steady_tracker steady_outcome)
      = Some (swapTrackIds steady_third ids')
    /\ returned_previous steady_outcome
       = Some (swapTrackIds (swapTrackIds steady_second [1]) previous_ids')
    /\ length previous_ids' = length (track_ids (swapTrackIds steady_second [1]))
    /\ forall (i : nat) (id : Z),
         track_ids (swapTrackIds steady_second [1]) !! i = Some id -> id <> -1 ->
         previous_ids' !! i = Some id.
Proof.
  refine (addFrame_keeps_established_ids Scenario.config steady_tracker
            steady_third (swapTrackIds steady_second [1]) identity3
            (Scenario.tracker_after steady_tracker steady_outcome)
            (returned_previous steady_outcome) _ _).
  - vm_compute. reflexivity.
  - vm_compute. reflexivity.
Defined.

(* ===================================================================== *)
(** * What [addFrame] requires, and what an empty frame does              *)
(* ===================================================================== *)

(** X14.  [addFrame] tracks a frame with keypoints against the frame it holds, and
    returns, only if the checks of lines 46-51 and 286 pass: the frame is
    later than the held one, it has descriptors, one column per keypoint and
    as many rows as the descriptor size says, and the descriptor has fewer
    than 512 bits; so a frame with descriptors of 64 bytes or more is never
    tracked. *)
Theorem addFrame_returns_under_contract {sorting : StdSort} (cfg : Config) (self : GyroTracker)
    (current_frame previous_frame : VisualFrame) (C_current_prev : Matrix3)
    (kps : list Pixel) (tracker' : GyroTracker) (previous' : option VisualFrame) :
  previous_frame_ptr_ self = Some previous_frame ->
  keypoint_measurements current_frame = Some kps ->
  kps <> [] ->
  addFrame cfg self current_frame C_current_prev = Ok (tracker', previous') ->
  hardware_timestamp previous_frame < hardware_timestamp current_frame
  /\ (exists descs, descriptors current_frame = Some descs
                    /\ length descs = length kps)
  /\ descriptor_rows current_frame = descriptor_size_bytes current_frame
  /\ descriptor_bits (descriptor_size_bytes current_frame) < 512
  /\ (Z.of_nat (descriptor_size_bytes current_frame) * 8 < 2 ^ 32 ->
      (descriptor_size_bytes current_frame < 64)%nat)
  /\ hasKeypointMeasurements previous_frame = true.
Proof.
  intros Hprev Hkps Hne H.
  rewrite (addFrame_tracks _ _ _ _ _ _ Hprev Hkps Hne) in H.
  unfold track_frame in H.
  apply bind_Ok_inv in H as ([] & Htime & H).
  apply check_Ok_inv, Z.ltb_lt in Htime.
  apply bind_Ok_inv in H as ([] & _ & H).
  apply bind_Ok_inv in H as ([] & Hrows & H).
  apply check_Ok_inv, Nat.eqb_eq in Hrows.
  apply bind_Ok_inv in H as (kps' & Hkps' & H).
  unfold getKeypointMeasurements in Hkps'. rewrite Hkps in Hkps'. injection Hkps' as <-.
  apply bind_Ok_inv in H as (descs & Hdescs & H).
  unfold getDescriptors in Hdescs.
  destruct (descriptors current_frame) as [descs' |] eqn:Ed; [ | discriminate ].
  injection Hdescs as ->.
  apply bind_Ok_inv in H as ([] & Hcols & H).
  apply check_Ok_inv, Nat.eqb_eq in Hcols.
  apply bind_Ok_inv in H as (matches & Hmatches & _).
  unfold matchFeatures in Hmatches.
  apply bind_Ok_inv in Hmatches as (kps' & _ & Hmatches).
  apply bind_Ok_inv in Hmatches as (pkps & Hpkps & Hmatches).
  apply bind_Ok_inv in Hmatches as ([] & Hbits & _).
  apply check_Ok_inv, Z.ltb_lt in Hbits.
  split; [ exact Htime | ].
  split; [ exists descs; split; [ reflexivity | symmetry; exact Hcols ] | ].
  split; [ exact Hrows | ]. split; [ exact Hbits | ]. split.
  - intros Hfit. unfold descriptor_bits in Hbits.
    rewrite Z.mod_small in Hbits by lia. lia.
  - unfold getKeypointMeasurements in Hpkps. unfold hasKeypointMeasurements.
    destruct (keypoint_measurements previous_frame); [ reflexivity | discriminate ].
Qed.

Lemma addFrame_returns_under_contract_witness :
  hardware_timestamp Scenario.shared_held < hardware_timestamp Scenario.shared_second
  /\ (exists descs, descriptors Scenario.shared_second = Some descs
                    /\ length descs = 2%nat)
  /\ descriptor_rows Scenario.shared_second
     = descriptor_size_bytes Scenario.shared_second
  /\ descriptor_bits (descriptor_size_bytes Scenario.shared_second) < 512
  /\ (Z.of_nat (descriptor_size_bytes Scenario.shared_second) * 8 < 2 ^ 32 ->
      (descriptor_size_bytes Scenario.shared_second < 64)%nat)
  /\ hasKeypointMeasurements Scenario.shared_held = true.
Proof.
  refine (addFrame_returns_under_contract Scenario.config Scenario.shared_tracker
            Scenario.shared_second Scenario.shared_held identity3
            [(50, 50); (52, 51)]%Q Scenario.shared_tracker' shared_previous'
            shared_tracker_holds eq_refl _ shared_outcome_returns).
  discriminate.
Defined.

(** X13.  A frame without keypoints is taken in by every tracker, whatever its
    timestamp and whether or not it has descriptors; the frame held before is
    handed back as it is.  The next frame with keypoints, if it is later, has
    one descriptor of the announced size per keypoint and fewer than 512
    descriptor bits, is then tracked against nothing: every keypoint stays
    untracked with track length 0, and the id counter is what it was two
    calls before.  No track survives an empty frame. *)
Theorem addFrame_after_empty_frame {sorting : StdSort} (cfg : Config) (self : GyroTracker)
    (empty_frame next_frame : VisualFrame) (C_empty C_next : Matrix3)
    (kps : list Pixel) (descs : list (list byte)) :
  keypoint_measurements empty_frame = Some [] ->
  keypoint_measurements next_frame = Some kps ->
  kps <> [] ->
  hardware_timestamp empty_frame < hardware_timestamp next_frame ->
  descriptors next_frame = Some descs ->
  length descs = length kps ->
  descriptor_rows next_frame = descriptor_size_bytes next_frame ->
  descriptor_bits (descriptor_size_bytes next_frame) < 512 ->
  exists tracker0 : GyroTracker,
    addFrame cfg self empty_frame C_empty = Ok (tracker0, previous_frame_ptr_ self)
    /\ previous_frame_ptr_ tracker0 = Some (swapTrackIds empty_frame [])
    /\ addFrame cfg tracker0 next_frame C_next
       = Ok ({| camera_ := camera_ self;
                previous_frame_ptr_ :=
                  Some (swapTrackIds next_frame (replicate (length kps) (-1)));
                previous_track_lengths_ := replicate (length kps) 0%nat;
                current_track_lengths_ := [];
                current_track_id_ := current_track_id_ self |},
             Some (swapTrackIds empty_frame [])).
Proof.
  intros Hempty Hkps Hne Htime Hdescs Hlen Hrows Hbits.
  exists (initialize_tracker self empty_frame 0).
  split; [ | split; [ reflexivity | ] ].
  - unfold addFrame, hasKeypointMeasurements, getKeypointMeasurements.
    rewrite Hempty. cbn [check bind length Nat.eqb].
    destruct (previous_frame_ptr_ self); reflexivity.
  - unfold addFrame, hasKeypointMeasurements, getKeypointMeasurements.
    rewrite Hkps. cbn [check bind initialize_tracker previous_frame_ptr_ replicate].
    destruct kps as [| p kps]; [ congruence | ].
    cbn [length Nat.eqb].
    unfold track_frame, hasDescriptors, getKeypointMeasurements, getDescriptors.
    cbn [swapTrackIds hardware_timestamp camera_ initialize_tracker
         previous_track_lengths_ current_track_id_ track_ids].
    rewrite Hkps, Hdescs, Hrows, Nat.eqb_refl.
    destruct (Z.ltb_spec (hardware_timestamp empty_frame)
                         (hardware_timestamp next_frame)); [ | lia ].
    cbn [check bind]. rewrite Hlen, Nat.eqb_refl. cbn [check bind].
    unfold matchFeatures, getKeypointMeasurements.
    cbn [keypoint_measurements swapTrackIds]. rewrite Hkps, Hempty.
    cbn [bind length seq for_each].
    destruct (Z.ltb_spec (descriptor_bits (descriptor_size_bytes next_frame)) 512);
      [ | lia ].
    cbn [check bind for_each].
    unfold new_track_candidates, with_positions, unconditional_slice, strong_slice.
    cbn [length seq combine for_each bind]. rewrite std_sort_nil.
    cbn [length seq combine for_each bind fold_right Nat.min take drop
         candidates_new_tracks current_track_ids current_track_lengths
         ledger_current_ids ledger_lengths ledger_previous_ids ledger_track_id
         resize].
    rewrite !Nat.min_0_r. cbn [take drop for_each bind candidates_new_tracks
         current_track_ids current_track_lengths
         ledger_current_ids ledger_lengths ledger_previous_ids ledger_track_id].
    rewrite resize_0. reflexivity.
Qed.

(** The tracker of [steady_tracker], which follows track 1, takes in an empty
    frame dated before the frame it holds; in the frame after, the keypoint
    is untracked again and the counter is still 1. *)
Lemma addFrame_after_empty_frame_witness :
  exists tracker0 : GyroTracker,
    addFrame Scenario.config steady_tracker empty_frame_sample identity3
    = Ok (tracker0, previous_frame_ptr_ steady_tracker)
    /\ previous_frame_ptr_ tracker0 = Some (swapTrackIds empty_frame_sample [])
    /\ addFrame Scenario.config tracker0 Scenario.shared_first identity3
       = Ok ({| camera_ := camera_ steady_tracker;
                previous_frame_ptr_ :=
                  Some (swapTrackIds Scenario.shared_first (replicate 1 (-1)));
                previous_track_lengths_ := replicate 1 0%nat;
                current_track_lengths_ := [];
                current_track_id_ := current_track_id_ steady_tracker |},
             Some (swapTrackIds empty_frame_sample [])).
Proof.
  refine (addFrame_after_empty_frame Scenario.config steady_tracker
            empty_frame_sample Scenario.shared_first identity3 identity3
            [(50, 50)%Q] [[x00; x00]] eq_refl eq_refl _ _ eq_refl eq_refl eq_refl _).
  - discriminate.
  - reflexivity.
  - reflexivity.
Defined.

(** X12.  A consistent tracker that holds no frame, or that is handed a frame
    without keypoints, takes the frame in without looking at its timestamp or
    its descriptors: every keypoint is untracked, every track length is 0, the
    id counter stays, and the frame held before, if any, is handed back as it
    is. *)
Theorem addFrame_initializes {sorting : StdSort} (cfg : Config) (self : GyroTracker)
    (frame : VisualFrame) (C_current_prev : Matrix3) (kps : list Pixel) :
  tracker_consistent self ->
  keypoint_measurements frame = Some kps ->
  previous_frame_ptr_ self = None \/ kps = [] ->
  addFrame cfg self frame C_current_prev
  = Ok ({| camera_ := camera_ self;
           previous_frame_ptr_ :=
             Some (swapTrackIds frame (replicate (length kps) (-1)));
           previous_track_lengths_ := replicate (length kps) 0%nat;
           current_track_lengths_ := current_track_lengths_ self;
           current_track_id_ := current_track_id_ self |},
        previous_frame_ptr_ self).
Proof.
  intros [_ Hself] Hkps Hinit.
  unfold addFrame, hasKeypointMeasurements, getKeypointMeasurements.
  rewrite Hkps. cbn [check bind]. unfold initialize_tracker.
  destruct (previous_frame_ptr_ self) as [p |] eqn:Hprev.
  - destruct Hinit as [? | ->]; [ discriminate | ].
    cbn [length Nat.eqb replicate]. rewrite resize_0. reflexivity.
  - rewrite Hself, resize_nil. reflexivity.
Qed.

Lemma addFrame_initializes_witness :
  addFrame Scenario.config Scenario.cold_tracker Scenario.shared_first identity3
  = Ok ({| camera_ := camera_ Scenario.cold_tracker;
           previous_frame_ptr_ :=
             Some (swapTrackIds Scenario.shared_first (replicate 1 (-1)));
           previous_track_lengths_ := replicate 1 0%nat;
           current_track_lengths_ := current_track_lengths_ Scenario.cold_tracker;
           current_track_id_ := current_track_id_ Scenario.cold_tracker |},
        previous_frame_ptr_ Scenario.cold_tracker).
Proof.
  refine (addFrame_initializes Scenario.config Scenario.cold_tracker
            Scenario.shared_first identity3 [(50, 50)%Q] _ eq_refl (or_introl eq_refl)).
  split; [ cbn; lia | reflexivity ].
Defined.

(* ===================================================================== *)
(** * The range checks never fire                                          *)
(* ===================================================================== *)

(** ** Where a loop or a sequence aborts *)

Lemma bind_Fatal_inv {A B : Type} (m : outcome A) (k : A -> outcome B) (c : Check) :
  bind m k = Fatal c -> m = Fatal c \/ exists a, m = Ok a /\ k a = Fatal c.
Proof.
  destruct m as [a | c']; cbn; intros H;
    [ right; exists a; auto | left; injection H as <-; reflexivity ].
Qed.

Lemma check_Fatal_inv (cond : bool) (c0 c : Check) :
  check cond c0 = Fatal c -> c = c0 /\ cond = false.
Proof. destruct cond; cbn; [ discriminate | intros [= <-]; auto ]. Qed.

(** A loop that aborts does so in one of its iterations, entered in a state
    that every property kept by the completed iterations holds for. *)
Lemma for_each_Fatal_inv {A S : Type} (Inv : S -> Prop) (body : S -> A -> outcome S)
    (l : list A) :
  (forall s a s', In a l -> Inv s -> body s a = Ok s' -> Inv s') ->
  forall (s : S) (c : Check),
  Inv s -> for_each body l s = Fatal c ->
  exists s0 a, In a l /\ Inv s0 /\ body s0 a = Fatal c.
Proof.
  induction l as [| a l IH]; intros Hkeep s c Hs H; cbn [for_each] in H;
    [ discriminate | ].
  destruct (body s a) as [s1 | c1] eqn:E; cbn [bind] in H.
  - destruct (IH (fun s a' s' Ha => Hkeep s a' s' (or_intror Ha)) s1 c
                (Hkeep s a s1 (or_introl eq_refl) Hs E) H) as (s0 & a0 & Ha0 & Hs0 & Hf).
    exists s0, a0. split; [ right; exact Ha0 | split; assumption ].
  - injection H as <-. exists s, a. split; [ left; reflexivity | split; assumption ].
Qed.

Lemma at_index_Fatal {A : Type} (l : list A) (i : nat) (c : Check) :
  at_index l i = Fatal c -> range_check c = false.
Proof. unfold at_index. destruct (l !! i); [ discriminate | intros [= <-]; reflexivity ]. Qed.

Lemma getKeypointMeasurements_Fatal (f : VisualFrame) (c : Check) :
  getKeypointMeasurements f = Fatal c -> range_check c = false.
Proof.
  unfold getKeypointMeasurements.
  destruct (keypoint_measurements f); [ discriminate | intros [= <-]; reflexivity ].
Qed.

Lemma getDescriptors_Fatal (f : VisualFrame) (c : Check) :
  getDescriptors f = Fatal c -> range_check c = false.
Proof.
  unfold getDescriptors.
  destruct (descriptors f); [ discriminate | intros [= <-]; reflexivity ].
Qed.

Lemma getKeypointMeasurement_Fatal (f : VisualFrame) (i : nat) (c : Check) :
  getKeypointMeasurement f i = Fatal c -> range_check c = false.
Proof.
  unfold getKeypointMeasurement. intros H.
  apply bind_Fatal_inv in H as [H | (kps & _ & H)];
    [ exact (getKeypointMeasurements_Fatal _ _ H) | exact (at_index_Fatal _ _ _ H) ].
Qed.

Lemma getDescriptor_Fatal (f : VisualFrame) (i : nat) (c : Check) :
  getDescriptor f i = Fatal c -> range_check c = false.
Proof.
  unfold getDescriptor. intros H.
  apply bind_Fatal_inv in H as [H | (d & _ & H)];
    [ exact (getDescriptors_Fatal _ _ H) | exact (at_index_Fatal _ _ _ H) ].
Qed.

Lemma compute_bin_index_Fatal (cfg : Config) (camera : Camera) (kp : Pixel) (c : Check) :
  compute_bin_index cfg camera kp = Fatal c -> range_check c = false.
Proof.
  unfold compute_bin_index. intros H.
  apply bind_Fatal_inv in H as [H | ([] & _ & H)].
  - apply check_Fatal_inv in H as [-> _]. reflexivity.
  - apply bind_Fatal_inv in H as [H | ([] & _ & H)]; [ | discriminate ].
    apply check_Fatal_inv in H as [-> _]. reflexivity.
Qed.

(** ** The match search *)

Lemma search_corner_Fatal (current_frame : VisualFrame)
    (current_num_pts descriptorSizeBytes : nat) (previous_descriptor : list byte)
    (previous_predicted : Pixel) (skip_processed : bool)
    (bound_left bound_right radius : Z) (st : SearchState) (it : KeypointAndIndex)
    (c : Check) :
  (index it < current_num_pts)%nat ->
  search_corner current_frame current_num_pts descriptorSizeBytes previous_descriptor
    previous_predicted skip_processed bound_left bound_right radius st it = Fatal c ->
  range_check c = false.
Proof.
  intros Hidx H. unfold search_corner in H.
  destruct (skip_processed && nth (index it) (processed_current_corners st) false);
    [ discriminate | ].
  destruct (Qltb (px (measurement it)) (inject_Z bound_left)
            || Qltb (inject_Z bound_right) (px (measurement it))); [ discriminate | ].
  rewrite (proj2 (Nat.ltb_lt _ _) Hidx) in H. cbn [check bind] in H.
  apply bind_Fatal_inv in H as [H | (d & _ & H)]; [ exact (getDescriptor_Fatal _ _ _ H) | ].
  apply bind_Fatal_inv in H as [H | (distance & _ & H)].
  { unfold hammingDistance512 in H.
    apply bind_Fatal_inv in H as [H | ([] & _ & H)]; [ | discriminate ].
    apply check_Fatal_inv in H as [-> _]. reflexivity. }
  apply bind_Fatal_inv in H as [H | (st1 & _ & H)]; [ | discriminate ].
  destruct (best_score st <? 512 - distance); [ | discriminate ].
  apply bind_Fatal_inv in H as [H | ([] & _ & H)]; [ | discriminate ].
  apply check_Fatal_inv in H as [-> _]. reflexivity.
Qed.

Lemma search_loop_Fatal (current_frame : VisualFrame)
    (current_num_pts descriptorSizeBytes : nat) (previous_descriptor : list byte)
    (previous_predicted : Pixel) (skip_processed : bool)
    (bound_left bound_right radius : Z) (l : list KeypointAndIndex)
    (st : SearchState) (c : Check) :
  (forall k, In k l -> (index k < current_num_pts)%nat) ->
  for_each
    (search_corner current_frame current_num_pts descriptorSizeBytes previous_descriptor
       previous_predicted skip_processed bound_left bound_right radius) l st
  = Fatal c ->
  range_check c = false.
Proof.
  intros Hl H.
  apply (for_each_Fatal_inv (fun _ => True)) in H as (s0 & k & Hk & _ & H);
    [ | auto | exact I ].
  exact (search_corner_Fatal _ _ _ _ _ _ _ _ _ _ _ _ (Hl k Hk) H).
Qed.

Lemma search_rows_Fatal (image_height : nat) (previous_predicted : Pixel)
    (radius : Z) (c : Check) :
  search_rows image_height previous_predicted radius = Fatal c ->
  c = CHECK_search_rows.
Proof.
  unfold search_rows. intros H.
  apply bind_Fatal_inv in H as [H | ([] & _ & H)]; [ | discriminate ].
  apply check_Fatal_inv in H as [-> _]. reflexivity.
Qed.

Lemma search_previous_keypoint_Fatal (image_height : nat)
    (current_frame previous_frame : VisualFrame)
    (sorted : list KeypointAndIndex) (lut : list nat)
    (descriptorSizeBytes current_num_pts : nat)
    (previous_predicted : Pixel) (i : nat) (c : Check) :
  (forall k, In k sorted -> (index k < current_num_pts)%nat) ->
  search_previous_keypoint image_height current_frame previous_frame sorted lut
    descriptorSizeBytes current_num_pts previous_predicted i = Fatal c ->
  range_check c = false
  \/ exists radius : Z,
       0 <= radius <= 2 ^ 20
       /\ search_rows image_height previous_predicted radius = Fatal c.
Proof.
  intros Hsorted H. unfold search_previous_keypoint in H.
  apply bind_Fatal_inv in H as [H | (previous_descriptor & _ & H)];
    [ left; exact (getDescriptor_Fatal _ _ _ H) | ].
  apply bind_Fatal_inv in H as [H | (idxnearest & _ & H)].
  { right. exists min_search_radius.
    split; [ unfold min_search_radius; lia | exact H ]. }
  apply bind_Fatal_inv in H as [H | (idxnear & _ & H)].
  { right. exists search_radius.
    split; [ unfold search_radius; lia | exact H ]. }
  left.
  apply bind_Fatal_inv in H as [H | (st & _ & H)].
  { apply search_loop_Fatal in H; [ exact H | ].
    intros k Hk. apply Hsorted. eapply In_row_range, Hk. }
  apply bind_Fatal_inv in H as [H | (st' & _ & H)].
  { destruct (found st); [ discriminate | ].
    apply search_loop_Fatal in H; [ exact H | ].
    intros k Hk. apply Hsorted. eapply In_row_range, Hk. }
  destruct (found st'); discriminate.
Qed.

Lemma matchFeatures_Fatal {sorting : StdSort} (camera : Camera) (C_current_prev : Matrix3)
    (current_frame previous_frame : VisualFrame) (current_kps previous_kps : list Pixel)
    (c : Check) :
  keypoint_measurements current_frame = Some current_kps ->
  keypoint_measurements previous_frame = Some previous_kps ->
  matchFeatures camera C_current_prev current_frame previous_frame = Fatal c ->
  range_check c = false \/ row_check_fires camera C_current_prev previous_kps c.
Proof.
  intros Hcur Hprev H. unfold matchFeatures, getKeypointMeasurements in H.
  rewrite Hcur, Hprev in H. cbn [bind] in H.
  apply bind_Fatal_inv in H as [H | ([] & _ & H)].
  { left. apply check_Fatal_inv in H as [-> _]. reflexivity. }
  apply (for_each_Fatal_inv (fun _ => True)) in H as (acc & i & _ & _ & H);
    [ | auto | exact I ].
  unfold match_loop_body in H.
  apply bind_Fatal_inv in H as [H | (previous_predicted & Hpred & H)];
    [ left; exact (at_index_Fatal _ _ _ H) | ].
  apply bind_Fatal_inv in H as [H | (best & _ & H)].
  - apply search_previous_keypoint_Fatal in H as [H | (radius & Hradius & H)].
    + left. exact H.
    + right. unfold at_index in Hpred.
      change (map (predict_keypoint camera C_current_prev) previous_kps)
        with (predict_keypoint camera C_current_prev <$> previous_kps) in Hpred.
      rewrite list_lookup_fmap in Hpred.
      destruct (previous_kps !! i) as [p |] eqn:Hp; [ | discriminate ].
      cbn in Hpred. injection Hpred as <-.
      exists p, radius.
      split; [ apply list_elem_of_In; eapply list_elem_of_lookup_2, Hp | ].
      split; [ exact Hradius | exact H ].
    + intros k Hk. apply In_sort_by_y in Hk. eapply lookup_lt_Some, Hk.
  - destruct best; discriminate.
Qed.

(** ** Admission and the ledger *)

Lemma continue_track_Fatal (cfg : Config) (camera : Camera)
    (current_frame previous_frame : VisualFrame) (previous_lengths : list nat)
    (current_num_pts : nat) (st : AdmissionState) (m : nat * nat) (c : Check) :
  (fst m < length (track_ids previous_frame))%nat ->
  (snd m < length (current_track_ids st))%nat ->
  (snd m < current_num_pts)%nat ->
  continue_track cfg camera current_frame previous_frame previous_lengths
    current_num_pts st m = Fatal c ->
  range_check c = false.
Proof.
  intros Hi Hj Hn H. unfold continue_track in H.
  rewrite (proj2 (Nat.ltb_lt _ _) Hi), (proj2 (Nat.ltb_lt _ _) Hj) in H.
  cbn [check bind] in H.
  apply bind_Fatal_inv in H as [H | (previous_id & _ & H)];
    [ exact (at_index_Fatal _ _ _ H) | ].
  cbn zeta in H.
  destruct (0 <=? nth (snd m) _ (-1)); [ | discriminate ].
  rewrite (proj2 (Nat.ltb_lt _ _) Hn) in H. cbn [check bind] in H.
  apply bind_Fatal_inv in H as [H | (keypoint & _ & H)];
    [ exact (getKeypointMeasurement_Fatal _ _ _ H) | ].
  apply bind_Fatal_inv in H as [H | (bin_index & _ & H)]; [ | discriminate ].
  exact (compute_bin_index_Fatal _ _ _ _ H).
Qed.

Lemma admit_unconditional_Fatal (cfg : Config) (camera : Camera)
    (current_frame : VisualFrame) (matches : list (nat * nat))
    (st : AdmissionState) (candidate : nat * Floating) (c : Check) :
  admit_unconditional cfg camera current_frame matches st candidate = Fatal c ->
  range_check c = false.
Proof.
  unfold admit_unconditional. intros H.
  apply bind_Fatal_inv in H as [H | (keypoint & _ & H)];
    [ exact (getKeypointMeasurement_Fatal _ _ _ H) | ].
  apply bind_Fatal_inv in H as [H | (keypoint_score & _ & H)];
    [ exact (at_index_Fatal _ _ _ H) | ].
  destruct (Qltb keypoint_score _); [ discriminate | ].
  apply bind_Fatal_inv in H as [H | (bin_index & _ & H)]; [ | discriminate ].
  exact (compute_bin_index_Fatal _ _ _ _ H).
Qed.

Lemma admit_strong_Fatal (cfg : Config) (camera : Camera)
    (current_frame : VisualFrame) (matches : list (nat * nat))
    (st : AdmissionState) (candidate : nat * Floating) (c : Check) :
  admit_strong cfg camera current_frame matches st candidate = Fatal c ->
  range_check c = false.
Proof.
  unfold admit_strong. intros H.
  apply bind_Fatal_inv in H as [H | (keypoint & _ & H)];
    [ exact (getKeypointMeasurement_Fatal _ _ _ H) | ].
  apply bind_Fatal_inv in H as [H | (keypoint_score & _ & H)];
    [ exact (at_index_Fatal _ _ _ H) | ].
  destruct (Qltb keypoint_score _); [ discriminate | ].
  apply bind_Fatal_inv in H as [H | (bin_index & _ & H)].
  - exact (compute_bin_index_Fatal _ _ _ _ H).
  - destruct (_ <? _)%nat; discriminate.
Qed.

Lemma new_track_candidates_Fatal {sorting : StdSort} (current_frame : VisualFrame) (ids : list Z)
    (matches : list (nat * nat)) (c : Check) :
  new_track_candidates current_frame ids matches = Fatal c -> range_check c = false.
Proof.
  unfold new_track_candidates. intros H.
  apply bind_Fatal_inv in H as [H | (candidates & _ & H)]; [ | discriminate ].
  apply (for_each_Fatal_inv (fun _ => True)) in H as (acc & im & _ & _ & H);
    [ | auto | exact I ].
  unfold collect_candidate in H.
  apply bind_Fatal_inv in H as [H | (keypoint_score & _ & H)];
    [ exact (at_index_Fatal _ _ _ H) | ].
  destruct (_ <? 0); discriminate.
Qed.

Lemma assign_new_id_Fatal (num_previous : nat) (st : LedgerState) (m : nat * nat)
    (c : Check) :
  (fst m < num_previous)%nat ->
  assign_new_id num_previous st m = Fatal c -> range_check c = false.
Proof.
  intros Hi H. unfold assign_new_id in H.
  destruct (_ =? -1); [ | discriminate ].
  rewrite (proj2 (Nat.ltb_lt _ _) Hi) in H. cbn [check bind] in H.
  apply bind_Fatal_inv in H as [H | ([] & _ & H)]; [ | discriminate ].
  apply check_Fatal_inv in H as [-> _]. reflexivity.
Qed.

(** The matches accepted by the three admission stages are matches. *)
Lemma stages_accepted_among {sorting : StdSort} (cfg : Config) (camera : Camera)
    (current_frame previous_frame : VisualFrame) (previous_lengths : list nat)
    (n : nat) (matches : list (nat * nat)) (st0 st1 st2 st3 : AdmissionState)
    (candidates : list (nat * Floating)) :
  accepted_among matches st0 ->
  for_each (continue_track cfg camera current_frame previous_frame previous_lengths n)
    matches st0 = Ok st1 ->
  new_track_candidates current_frame (current_track_ids st1) matches = Ok candidates ->
  for_each (admit_unconditional cfg camera current_frame matches)
    (unconditional_slice cfg candidates) st1 = Ok st2 ->
  for_each (admit_strong cfg camera current_frame matches)
    (strong_slice cfg candidates) st2 = Ok st3 ->
  accepted_among matches st3.
Proof.
  intros Hacc0 Hst1 Hcands Hst2 Hst3.
  destruct (new_track_candidates_spec _ _ _ _ Hcands) as (_ & _ & Hcand).
  rewrite Forall_forall in Hcand.
  assert (Hacc1 : accepted_among matches st1).
  { revert Hst1. apply (for_each_invariant_in (accepted_among matches));
      [ | exact Hacc0 ].
    intros s a s' Hin Hs Hstep.
    exact (continue_track_accepted _ _ _ _ _ _ _ _ _ _ Hin Hs Hstep). }
  assert (Hacc2 : accepted_among matches st2).
  { revert Hst2. apply (for_each_invariant_in (accepted_among matches));
      [ | exact Hacc1 ].
    intros s a s' Hin Hs Hstep.
    refine (admit_unconditional_accepted _ _ _ _ _ _ _ _ _ Hs Hstep).
    apply Hcand, list_elem_of_In.
    unfold unconditional_slice in Hin. exact (In_take _ _ _ _ Hin). }
  revert Hst3. apply (for_each_invariant_in (accepted_among matches));
    [ | exact Hacc2 ].
  intros s a s' Hin Hs Hstep.
  refine (admit_strong_accepted _ _ _ _ _ _ _ _ _ Hs Hstep).
  apply Hcand, list_elem_of_In.
  unfold strong_slice in Hin. exact (In_take _ _ _ _ (In_drop _ _ _ _ Hin)).
Qed.

(** ** [addFrame] *)

Lemma track_frame_Fatal {sorting : StdSort} (cfg : Config) (self : GyroTracker)
    (current_frame previous_frame : VisualFrame) (C_current_prev : Matrix3)
    (kps previous_kps : list Pixel) (c : Check) :
  keypoint_measurements current_frame = Some kps ->
  keypoint_measurements previous_frame = Some previous_kps ->
  length (track_ids previous_frame) = length previous_kps ->
  track_frame cfg self current_frame previous_frame C_current_prev = Fatal c ->
  range_check c = false
  \/ row_check_fires (camera_ self) C_current_prev previous_kps c.
Proof.
  intros Hkps Hpkps Hplen H. unfold track_frame in H.
  apply bind_Fatal_inv in H as [H | ([] & _ & H)];
    [ left; apply check_Fatal_inv in H as [-> _]; reflexivity | ].
  apply bind_Fatal_inv in H as [H | ([] & _ & H)];
    [ left; apply check_Fatal_inv in H as [-> _]; reflexivity | ].
  apply bind_Fatal_inv in H as [H | ([] & _ & H)];
    [ left; apply check_Fatal_inv in H as [-> _]; reflexivity | ].
  apply bind_Fatal_inv in H as [H | (kps' & Hkps' & H)];
    [ left; exact (getKeypointMeasurements_Fatal _ _ H) | ].
  unfold getKeypointMeasurements in Hkps'. rewrite Hkps in Hkps'. injection Hkps' as <-.
  apply bind_Fatal_inv in H as [H | (descs & _ & H)];
    [ left; exact (getDescriptors_Fatal _ _ H) | ].
  apply bind_Fatal_inv in H as [H | ([] & _ & H)];
    [ left; apply check_Fatal_inv in H as [-> _]; reflexivity | ].
  apply bind_Fatal_inv in H as [H | (matches & Hmatches & H)];
    [ exact (matchFeatures_Fatal _ _ _ _ _ _ _ Hkps Hpkps H) | ].
  left.
  pose proof (matchFeatures_indices_valid _ _ _ _ _ _ _ Hkps Hpkps Hmatches)
    as Hshape.
  rewrite Forall_forall in Hshape.
  apply bind_Fatal_inv in H as [H | (st1 & Hst1 & H)].
  { (* the loop over the matches *)
    apply (for_each_Fatal_inv
             (fun st => length (current_track_ids st) = length kps))
      in H as (s0 & m & Hm & Hs0 & H).
    - destruct (Hshape m (proj2 (list_elem_of_In _ _) Hm)) as [Hi Hj].
      apply continue_track_Fatal in H; [ exact H | lia | lia | exact Hj ].
    - intros s a s' _ Hs Hstep.
      apply continue_track_writes in Hstep as (pid & _ & _ & -> & _).
      rewrite length_insert. exact Hs.
    - cbn. apply length_replicate. }
  apply bind_Fatal_inv in H as [H | (candidates & Hcands & H)];
    [ exact (new_track_candidates_Fatal _ _ _ _ H) | ].
  apply bind_Fatal_inv in H as [H | (st2 & Hst2 & H)].
  { apply (for_each_Fatal_inv (fun _ => True)) in H as (s0 & a & _ & _ & H);
      [ | auto | exact I ].
    exact (admit_unconditional_Fatal _ _ _ _ _ _ _ H). }
  apply bind_Fatal_inv in H as [H | (st3 & Hst3 & H)].
  { apply (for_each_Fatal_inv (fun _ => True)) in H as (s0 & a & _ & _ & H);
      [ | auto | exact I ].
    exact (admit_strong_Fatal _ _ _ _ _ _ _ H). }
  apply bind_Fatal_inv in H as [H | (led & _ & H)]; [ | discriminate ].
  (* the ledger loop *)
  assert (Hacc : accepted_among matches st3).
  { eapply stages_accepted_among;
      [ | exact Hst1 | exact Hcands | exact Hst2 | exact Hst3 ].
    constructor. }
  unfold accepted_among in Hacc. rewrite Forall_forall in Hacc.
  apply (for_each_Fatal_inv (fun _ => True)) in H as (s0 & m & Hm & _ & H);
    [ | auto | exact I ].
  apply assign_new_id_Fatal in H; [ exact H | ].
  pose proof (Hacc m (proj2 (list_elem_of_In _ _) Hm)) as Hin.
  destruct (Hshape m (proj2 (list_elem_of_In _ _) Hin)) as [Hi _]. lia.
Qed.

Lemma range_check_index_check (c : Check) :
  range_check c = false -> index_check c = false.
Proof. destruct c; cbn; congruence. Qed.

(** X20.  For a consistent tracker, the checks that guard an index against
    its range (lines 89, 90, 99, 191, 371-372 and 397-398) never fire: when
    [addFrame] aborts, it is at another check.  The row checks of lines
    330-340 do not fire either when the image height lies between 1 and 2^31
    and the rows predicted for the keypoints of the held frame lie within
    2^30 of zero. *)
Theorem addFrame_range_checks_hold {sorting : StdSort} (cfg : Config) (self : GyroTracker)
    (frame : VisualFrame) (C_current_prev : Matrix3) (c : Check) :
  tracker_consistent self ->
  addFrame cfg self frame C_current_prev = Fatal c ->
  index_check c = false
  /\ ((0 < imageHeight (camera_ self))%nat ->
      Z.of_nat (imageHeight (camera_ self)) <= 2 ^ 31 ->
      (forall (previous_frame : VisualFrame) (previous_kps : list Pixel),
         previous_frame_ptr_ self = Some previous_frame ->
         keypoint_measurements previous_frame = Some previous_kps ->
         predicted_rows_bounded (camera_ self) C_current_prev previous_kps) ->
      range_check c = false).
Proof.
  intros [_ Hself] H. unfold addFrame in H.
  apply bind_Fatal_inv in H as [H | ([] & _ & H)];
    [ apply check_Fatal_inv in H as [-> _]; split; reflexivity | ].
  apply bind_Fatal_inv in H as [H | (kps & Hkps & H)].
  { pose proof (getKeypointMeasurements_Fatal _ _ H) as Hc.
    split; [ exact (range_check_index_check _ Hc) | intros _ _ _; exact Hc ]. }
  unfold getKeypointMeasurements in Hkps.
  destruct (keypoint_measurements frame) as [kps' |] eqn:E; [ | discriminate ].
  injection Hkps as ->.
  destruct (previous_frame_ptr_ self) as [previous_frame |]; [ | discriminate ].
  destruct (length kps =? 0)%nat; [ discriminate | ].
  destruct Hself as (pkps & Hpkps & Hplen & _).
  destruct (track_frame_Fatal _ _ _ _ _ _ _ _ E Hpkps Hplen H)
    as [Hc | (p & radius & Hp & Hradius & Hrows)].
  - split; [ exact (range_check_index_check _ Hc) | intros _ _ _; exact Hc ].
  - pose proof (search_rows_Fatal _ _ _ _ Hrows) as ->.
    split; [ reflexivity | ].
    intros HH Hmax Hbounded. exfalso.
    specialize (Hbounded previous_frame pkps eq_refl Hpkps).
    unfold predicted_rows_bounded in Hbounded. rewrite Forall_forall in Hbounded.
    apply list_elem_of_In, Hbounded in Hp.
    destruct (search_rows_bounds _ _ radius HH Hmax Hradius Hp) as (lo & hi & Eok & _).
    congruence.
Qed.

Lemma shared_tracker'_consistent : tracker_consistent Scenario.shared_tracker'.
Proof.
  exact (proj1 (addFrame_tracker_step Scenario.config Scenario.shared_tracker
                  Scenario.shared_second identity3 Scenario.shared_tracker'
                  shared_previous' shared_tracker_consistent shared_outcome_returns)).
Qed.

(** The third frame of [Scenario], where [addFrame] aborts: at the check of
    line 193, which guards no range. *)
Lemma addFrame_range_checks_hold_witness :
  index_check CHECK_EQ_previous_track_id = false
  /\ range_check CHECK_EQ_previous_track_id = false.
Proof.
  assert (Haborts : addFrame Scenario.config Scenario.shared_tracker'
                      Scenario.shared_third identity3
                    = Fatal CHECK_EQ_previous_track_id)
    by (vm_compute; reflexivity).
  destruct (addFrame_range_checks_hold Scenario.config Scenario.shared_tracker'
              Scenario.shared_third identity3 CHECK_EQ_previous_track_id
              shared_tracker'_consistent Haborts)
    as [Hindex Hrange].
  split; [ exact Hindex | ].
  apply Hrange.
  - vm_compute. lia.
  - vm_compute. discriminate.
  - intros previous_frame previous_kps Hheld Hkps.
    vm_compute in Hheld. injection Hheld as <-.
    vm_compute in Hkps. injection Hkps as <-.
    repeat constructor; vm_compute; discriminate.
Defined.

(* ===================================================================== *)
(** * The distances the kernel returns (lines 285-299)                     *)
(* ===================================================================== *)

Lemma bit_count_table : forallb bit_count_ok (seq 0 256) = true.
Proof. vm_compute. reflexivity. Qed.

Lemma popcount8_extremes (v : Z) :
  0 <= v < 256 ->
  0 <= popcount8 v <= 8
  /\ (popcount8 v = 0 -> v = 0)
  /\ (popcount8 v = 8 -> v = 255).
Proof.
  intros Hv. pose proof bit_count_table as T. rewrite forallb_forall in T.
  specialize (T (Z.to_nat v) ltac:(apply in_seq; lia)).
  unfold bit_count_ok in T. rewrite Z2Nat.id in T by lia. cbn zeta in T.
  rewrite !andb_true_iff, Z.leb_le, Z.leb_le in T.
  destruct T as [[[T1 T2] T3] T4].
  split; [ lia | ]. split; intros E.
  - rewrite E in T3. cbn in T3. apply Z.eqb_eq, T3.
  - rewrite E in T4. cbn in T4. apply Z.eqb_eq, T4.
Qed.

Lemma byte_val_inj (x y : byte) : byte_val x = byte_val y -> x = y.
Proof.
  unfold byte_val. intros H. apply N2Z.inj in H.
  pose proof (Byte.of_to_N x) as Hx. rewrite H, Byte.of_to_N in Hx. congruence.
Qed.

Lemma byte_val_not (x : byte) : byte_val (byte_not x) = Z.lxor (byte_val x) 255.
Proof. destruct x; vm_compute; reflexivity. Qed.

Lemma popcount_xor_bounds (a : list byte) :
  forall b : list byte,
  length a = length b -> 0 <= popcount_xor a b <= 8 * Z.of_nat (length a).
Proof.
  induction a as [| x a IH]; intros [| y b] Hlen; try discriminate;
    cbn [popcount_xor length]; [ lia | ].
  injection Hlen as Hlen. specialize (IH b Hlen).
  pose proof (popcount8_extremes (Z.lxor (byte_val x) (byte_val y))
                (lxor_byte_range _ _ (byte_val_range x) (byte_val_range y))).
  lia.
Qed.

(** No bit differs only between equal descriptors. *)
Lemma popcount_xor_zero (a : list byte) :
  forall b : list byte,
  length a = length b -> popcount_xor a b = 0 -> a = b.
Proof.
  induction a as [| x a IH]; intros [| y b] Hlen; try discriminate;
    cbn [popcount_xor]; [ reflexivity | ].
  injection Hlen as Hlen. intros H.
  pose proof (popcount_xor_bounds a b Hlen) as Hb.
  destruct (popcount8_extremes (Z.lxor (byte_val x) (byte_val y))
              (lxor_byte_range _ _ (byte_val_range x) (byte_val_range y)))
    as (Hr & Hzero & _).
  f_equal.
  - apply byte_val_inj, Z.lxor_eq, Hzero. lia.
  - apply (IH b Hlen). lia.
Qed.

(** Every bit differs only between a descriptor and its complement. *)
Lemma popcount_xor_full (a : list byte) :
  forall b : list byte,
  length a = length b ->
  popcount_xor a b = 8 * Z.of_nat (length a) -> b = map byte_not a.
Proof.
  induction a as [| x a IH]; intros [| y b] Hlen; try discriminate;
    cbn [popcount_xor length map]; [ reflexivity | ].
  injection Hlen as Hlen. intros H.
  pose proof (popcount_xor_bounds a b Hlen) as Hb.
  destruct (popcount8_extremes (Z.lxor (byte_val x) (byte_val y))
              (lxor_byte_range _ _ (byte_val_range x) (byte_val_range y)))
    as (Hr & _ & Hfull).
  f_equal.
  - apply byte_val_inj. rewrite byte_val_not.
    rewrite <- (Hfull ltac:(lia)), <- Z.lxor_assoc, Z.lxor_nilpotent, Z.lxor_0_l.
    reflexivity.
  - apply (IH b Hlen). lia.
Qed.

Lemma descriptor_bits_small (n : nat) :
  Z.of_nat n * 8 < 2 ^ 32 -> descriptor_bits n = 8 * Z.of_nat n.
Proof. intros H. unfold descriptor_bits. rewrite Z.mod_small by lia. lia. Qed.

(** X21.  On two descriptors of the announced size, which fits [unsigned int] in
    bits, the kernel returns the number of bits in which they differ, unless
    every bit differs: it aborts at the check of line 297 exactly when the
    second descriptor is the bytewise complement of the first, which is the
    case for two empty descriptors. *)
Theorem hammingDistance512_returns_bit_count (a b : list byte) :
  length a = length b ->
  Z.of_nat (length a) * 8 < 2 ^ 32 ->
  (forall d : Z,
     hammingDistance512 (length a) a b = Ok d
     <-> d = popcount_xor a b /\ d < 8 * Z.of_nat (length a))
  /\ (forall c : Check,
        hammingDistance512 (length a) a b = Fatal c
        <-> c = CHECK_LT_hamming_distance /\ b = map byte_not a).
Proof.
  intros Hlen Hfit.
  rewrite (hammingDistance512_value a b Hlen), (descriptor_bits_small _ Hfit).
  pose proof (popcount_xor_bounds a b Hlen) as Hb.
  destruct (Z.ltb_spec (popcount_xor a b) (8 * Z.of_nat (length a))) as [Hlt | Hge].
  - split.
    + intros d. split; [ intros [= <-]; split; [ reflexivity | exact Hlt ] | ].
      intros [-> _]. reflexivity.
    + intros c. split; [ discriminate | ].
      intros [_ ->]. rewrite popcount_xor_complement in Hlt. lia.
  - split.
    + intros d. split; [ discriminate | ]. intros [-> Hd]. lia.
    + intros c. split.
      * intros [= <-]. split; [ reflexivity | ].
        apply popcount_xor_full; [ exact Hlen | lia ].
      * intros [-> _]. reflexivity.
Qed.

Lemma hammingDistance512_returns_bit_count_witness :
  (forall d : Z,
     hammingDistance512 2 [x0f; x00] [x0c; x01] = Ok d
     <-> d = popcount_xor [x0f; x00] [x0c; x01] /\ d < 8 * Z.of_nat 2)
  /\ (forall c : Check,
        hammingDistance512 2 [x0f; x00] [x0c; x01] = Fatal c
        <-> c = CHECK_LT_hamming_distance /\ [x0c; x01] = map byte_not [x0f; x00]).
Proof.
  refine (hammingDistance512_returns_bit_count [x0f; x00] [x0c; x01] eq_refl _).
  cbn. lia.
Defined.

(** X22.  On descriptors of one size, which fits [unsigned int] in bits, the
    kernel is symmetric, aborts included; it returns 0 exactly for equal
    descriptors that are not empty; the distances it returns are not negative
    and satisfy the triangle inequality. *)
Theorem hammingDistance512_metric (a b c : list byte) :
  length a = length b -> length b = length c ->
  Z.of_nat (length a) * 8 < 2 ^ 32 ->
  hammingDistance512 (length a) a b = hammingDistance512 (length b) b a
  /\ (hammingDistance512 (length a) a b = Ok 0 <-> a = b /\ a <> [])
  /\ (forall d, hammingDistance512 (length a) a b = Ok d -> 0 <= d)
  /\ (forall dab dbc dac,
        hammingDistance512 (length a) a b = Ok dab ->
        hammingDistance512 (length b) b c = Ok dbc ->
        hammingDistance512 (length a) a c = Ok dac ->
        dac <= dab + dbc).
Proof.
  intros Hab Hbc Hfit.
  split; [ | split; [ | split ] ].
  - rewrite !hammingDistance512_value by congruence.
    rewrite (popcount_xor_sym b a), Hab. reflexivity.
  - rewrite (hammingDistance512_value a b Hab), (descriptor_bits_small _ Hfit).
    split.
    + destruct (Z.ltb_spec (popcount_xor a b) (8 * Z.of_nat (length a))) as [Hlt | Hge];
        [ | discriminate ].
      intros [= E]. split; [ exact (popcount_xor_zero a b Hab E) | ].
      intros ->. cbn in Hlt. lia.
    + intros [<- Hne]. rewrite popcount_xor_self.
      destruct a as [| x a]; [ congruence | ].
      destruct (Z.ltb_spec 0 (8 * Z.of_nat (length (x :: a)))) as [_ | Hge];
        [ reflexivity | cbn [length] in Hge; lia ].
  - intros d. rewrite (hammingDistance512_value a b Hab).
    destruct (_ <? _); [ | discriminate ].
    intros [= <-]. apply (popcount_xor_bounds a b Hab).
  - intros dab dbc dac.
    rewrite !hammingDistance512_value by congruence.
    intros H1 H2 H3.
    destruct (_ <? _) in H1; [ injection H1 as <- | discriminate ].
    destruct (_ <? _) in H2; [ injection H2 as <- | discriminate ].
    destruct (_ <? _) in H3; [ injection H3 as <- | discriminate ].
    apply popcount_xor_triangle; assumption.
Qed.

Lemma hammingDistance512_metric_witness :
  hammingDistance512 2 [x0f; x00] [x0c; x01] = hammingDistance512 2 [x0c; x01] [x0f; x00]
  /\ (hammingDistance512 2 [x0f; x00] [x0c; x01] = Ok 0
      <-> [x0f; x00] = [x0c; x01] /\ [x0f; x00] <> [])
  /\ (forall d, hammingDistance512 2 [x0f; x00] [x0c; x01] = Ok d -> 0 <= d)
  /\ (forall dab dbc dac,
        hammingDistance512 2 [x0f; x00] [x0c; x01] = Ok dab ->
        hammingDistance512 2 [x0c; x01] [xff; xff] = Ok dbc ->
        hammingDistance512 2 [x0f; x00] [xff; xff] = Ok dac ->
        dac <= dab + dbc).
Proof.
  refine (hammingDistance512_metric [x0f; x00] [x0c; x01] [xff; xff] eq_refl eq_refl _).
  cbn. lia.
Defined.
